(** * kocka_kanon: camera stream multiplexer, servo daemon link and
    motion-tracking controller of the Express server (index.js)

    A shallow embedding of the server's event handlers.  The server is
    single-threaded: every handler (a stdout 'data' callback, a timer
    callback, a promise continuation, an HTTP route) runs to completion
    before the next one starts.  Each component is therefore modelled as a
    state record holding the module-level [let] variables, an [event] type
    with one constructor per handler, and a [step] function that is the
    handler's body. *)

From Stdlib Require Import ZArith Lia Bool List.
From Stdlib Require Import Strings.Byte.
From Stdlib Require Import Floats.SpecFloat.
From Stdlib Require Import DecimalN DecimalPos.
From stdpp Require Import base option list gmap strings sorting.
From Equations Require Import Equations.
Import ListNotations.

Set Default Proof Using "Type".

(** * Frame multiplexer: [broadcastFrame] and the viewer set *)

Module Mux.

Abbreviation bytes := (list byte).

#[global] Instance byte_eq_decision : EqDecision byte := Byte.byte_eq_dec.

Definition jpegStart : bytes := [xff; xd8].
Definition jpegEnd : bytes := [xff; xd9].

(** [Buffer.prototype.indexOf(value, byteOffset)]: index of the first
    occurrence of [value] at or after [byteOffset]; [None] stands for -1. *)
Fixpoint starts_with (needle buf : bytes) : bool :=
  match needle, buf with
  | [], _ => true
  | _ :: _, [] => false
  | n :: needle', b :: buf' => bool_decide (n = b) && starts_with needle' buf'
  end.

Fixpoint search (needle buf : bytes) (i : nat) {struct buf} : option nat :=
  if starts_with needle buf then Some i
  else match buf with
       | [] => None
       | _ :: buf' => search needle buf' (S i)
       end.

Definition indexOf (buf needle : bytes) (byteOffset : nat) : option nat :=
  search needle (drop byteOffset buf) byteOffset.

(** [buf.subarray(start, end)] and [buf.subarray(start)]. *)
Definition subarray (buf : bytes) (start stop : nat) : bytes :=
  take (stop - start) (drop start buf).
Definition subarray_from (buf : bytes) (start : nat) : bytes := drop start buf.

(** What is written to a viewer's response stream. *)
Inductive part :=
| Header (contentLength : nat)   (* "--frame\r\nContent-Type: image/jpeg\r\nContent-Length: n\r\n\r\n" *)
| Body (frame : bytes)
| Trailer.                       (* "\r\n", written with the completion callback *)

(** A response object: its [busy] property and the number of its final
    writes whose completion callback has not run yet. *)
Record viewer := { busy : bool; unflushed : nat }.

Record state := {
  frameBuffer : bytes;
  latestFrame : option bytes;
  cameraClients : list nat;        (* the Set, in insertion order *)
  heap : gmap nat viewer;          (* response objects by identity *)
  nextRes : nat                    (* identity of the next response object *)
}.

Definition init : state :=
  {| frameBuffer := []; latestFrame := None; cameraClients := [];
     heap := ∅; nextRes := 0 |}.

Inductive action :=
| Emit (frame : bytes)             (* latestFrame = frame *)
| Write (client : nat) (p : part)  (* client.write(...) *)
| Flushed (client : nat).          (* the trailer's callback ran *)

Definition set_viewer (c : nat) (v : viewer) (st : state) : state :=
  {| frameBuffer := frameBuffer st; latestFrame := latestFrame st;
     cameraClients := cameraClients st; heap := <[c := v]> (heap st);
     nextRes := nextRes st |}.

(** The body of the client loop once [client.busy] was found clear: the
    flag is raised, then header, frame and trailer are written; the callback
    of the trailer write is left outstanding. *)
Definition send (c : nat) (v : viewer) (frame : bytes) (st : state)
  : state * list action :=
  (set_viewer c {| busy := true; unflushed := S (unflushed v) |} st,
   [Write c (Header (length frame)); Write c (Body frame); Write c Trailer]).

(** [for (const client of cameraClients) { if (client.busy) continue; ... }] *)
Fixpoint broadcast (clients : list nat) (frame : bytes) (st : state)
  : state * list action :=
  match clients with
  | [] => (st, [])
  | c :: clients' =>
      match heap st !! c with
      | Some v =>
          if busy v then broadcast clients' frame st
          else let '(st1, out1) := send c v frame st in
               let '(st2, out2) := broadcast clients' frame st1 in
               (st2, out1 ++ out2)
      | None => broadcast clients' frame st
      end
  end.

(** One test of the [while (true)] loop: the next complete frame and what
    remains of the buffer behind it. *)
Definition next_frame (buf : bytes) : option (bytes * bytes) :=
  match indexOf buf jpegStart 0 with
  | None => None
  | Some startIdx =>
      match indexOf buf jpegEnd startIdx with
      | None => None
      | Some endIdx =>
          Some (subarray buf startIdx (endIdx + 2), subarray_from buf (endIdx + 2))
      end
  end.

Definition emit (frame rest : bytes) (st : state) : state :=
  {| frameBuffer := rest; latestFrame := Some frame;
     cameraClients := cameraClients st; heap := heap st; nextRes := nextRes st |}.

Lemma search_bound needle buf i k :
  search needle buf i = Some k -> needle <> [] -> k - i < length buf.
Proof.
  revert i. induction buf as [|b buf IH]; intros i; cbn.
  - destruct needle; cbn; [congruence | discriminate].
  - destruct (starts_with needle (b :: buf)).
    + intros [= <-] _. lia.
    + intros H Hn. specialize (IH _ H Hn). lia.
Qed.

Lemma search_ge needle buf i k : search needle buf i = Some k -> i <= k.
Proof.
  revert i. induction buf as [|b buf IH]; intros i; cbn.
  - destruct (starts_with needle []); [intros [= <-]; lia | discriminate].
  - destruct (starts_with needle (b :: buf)); [intros [= <-]; lia |].
    intros H. specialize (IH _ H). lia.
Qed.

Lemma next_frame_shrinks buf frame rest :
  next_frame buf = Some (frame, rest) -> length rest < length buf.
Proof.
  unfold next_frame, indexOf, subarray_from.
  destruct (search jpegStart (drop 0 buf) 0) as [s|] eqn:Hs; [|discriminate].
  destruct (search jpegEnd (drop s buf) s) as [e|] eqn:He; [|discriminate].
  intros [= _ <-].
  apply search_bound in He; [|discriminate].
  rewrite !length_drop in *. lia.
Qed.

Lemma broadcast_frameBuffer clients frame st :
  frameBuffer (fst (broadcast clients frame st)) = frameBuffer st.
Proof.
  revert st. induction clients as [|c clients IH]; intros st; cbn; [done|].
  destruct (heap st !! c) as [v|]; [|apply IH].
  destruct (busy v); [apply IH|].
  destruct (broadcast clients frame _) as [st2 out2] eqn:E.
  cbn. change st2 with (fst (st2, out2)). rewrite <- E, IH. done.
Qed.

Definition inspect {A} (a : A) : {b : A | a = b} := exist _ a eq_refl.

(** The [while (true)] loop of [broadcastFrame].  It terminates because
    every round cuts at least the end marker off the buffer. *)
Equations? scan (st : state) : state * list action
  by wf (length (frameBuffer st)) lt :=
  scan st with inspect (next_frame (frameBuffer st)) := {
    | exist _ None _ := (st, []);
    | exist _ (Some (frame, rest)) Hnext
        with inspect (broadcast (cameraClients st) frame (emit frame rest st)) := {
        | exist _ (st1, out1) Hsent :=
            let '(st2, out2) := scan st1 in
            (st2, Emit frame :: out1 ++ out2) } }.
Proof.
  change st1 with (fst (st1, out1)). rewrite <- Hsent, broadcast_frameBuffer.
  cbn. eapply next_frame_shrinks. exact Hnext.
Qed.

(** [frameBuffer = Buffer.concat([frameBuffer, chunk])] *)
Definition grow (chunk : bytes) (st : state) : state :=
  {| frameBuffer := frameBuffer st ++ chunk; latestFrame := latestFrame st;
     cameraClients := cameraClients st; heap := heap st; nextRes := nextRes st |}.

(** [function broadcastFrame(chunk)] *)
Definition broadcastFrame (chunk : bytes) (st : state) : state * list action :=
  scan (grow chunk st).

(** The viewer registration at the end of the stream route:
    [res.busy = false; cameraClients.add(res); if (latestFrame) { ... }]. *)
Definition attach (st : state) : state * list action :=
  let c := nextRes st in
  let fresh := {| busy := false; unflushed := 0 |} in
  let st1 := {| frameBuffer := frameBuffer st; latestFrame := latestFrame st;
                cameraClients := cameraClients st ++ [c];
                heap := <[c := fresh]> (heap st); nextRes := S c |} in
  match latestFrame st with
  | Some frame => send c fresh frame st1
  | None => (st1, [])
  end.

(** The completion callback of a trailer write: [() => { client.busy = false; }].
    It runs once for each trailer written. *)
Definition drained (c : nat) (st : state) : state * list action :=
  match heap st !! c with
  | Some {| busy := _; unflushed := S n |} =>
      (set_viewer c {| busy := false; unflushed := n |} st, [Flushed c])
  | _ => (st, [])
  end.

(** [cameraClients.delete(res)] *)
Definition detach (c : nat) (st : state) : state :=
  {| frameBuffer := frameBuffer st; latestFrame := latestFrame st;
     cameraClients := filter (λ c', c' ≠ c) (cameraClients st);
     heap := heap st; nextRes := nextRes st |}.

(** [cameraClients.clear(); frameBuffer = Buffer.alloc(0); latestFrame = null] *)
Definition clear (st : state) : state :=
  {| frameBuffer := []; latestFrame := None; cameraClients := [];
     heap := heap st; nextRes := nextRes st |}.

Inductive event :=
| Data (chunk : bytes)
| Attach
| Drained (c : nat)
| Detach (c : nat)
| Clear.

Definition step (st : state) (e : event) : state * list action :=
  match e with
  | Data chunk => broadcastFrame chunk st
  | Attach => attach st
  | Drained c => drained c st
  | Detach c => (detach c st, [])
  | Clear => (clear st, [])
  end.

Fixpoint run (st : state) (tr : list event) : state * list action :=
  match tr with
  | [] => (st, [])
  | e :: tr' =>
      let '(st1, out1) := step st e in
      let '(st2, out2) := run st1 tr' in
      (st2, out1 ++ out2)
  end.

(** The frames a run emitted, in order. *)
Definition emitted (out : list action) : list bytes :=
  omap (λ a, match a with Emit frame => Some frame | _ => None end) out.

(** The chunks a trace feeds, in order. *)
Definition chunks_of (tr : list event) : list bytes :=
  omap (λ e, match e with Data chunk => Some chunk | _ => None end) tr.

(** No event of the trace resets the frame buffer. *)
Definition keeps_buffer (tr : list event) : bool :=
  forallb (λ e, match e with Clear => false | _ => true end) tr.

(** A byte run from a start marker through an end marker. *)
Definition delimited (frame : bytes) : bool :=
  starts_with jpegStart frame &&
  starts_with jpegEnd (drop (length frame - length jpegEnd) frame) &&
  bool_decide (length jpegStart + length jpegEnd <= length frame).

(** What one viewer saw of a run: its writes and the completions of its
    trailer writes. *)
Inductive seen := SawWrite (p : part) | SawFlush.

Definition viewer_log (c : nat) (out : list action) : list seen :=
  omap (λ a, match a with
             | Write c' p => if decide (c' = c) then Some (SawWrite p) else None
             | Flushed c' => if decide (c' = c) then Some SawFlush else None
             | Emit _ => None
             end) out.

(** A monitor for one viewer's log.  A frame is header, body of the
    announced length, trailer; the next header may come only after the
    trailer was flushed.  Anything else is an overlap and has no next phase. *)
Inductive phase := Idle | AfterHeader (n : nat) | AfterBody | Awaiting.

Definition advance (ph : phase) (s : seen) : option phase :=
  match ph, s with
  | Idle, SawWrite (Header n) => Some (AfterHeader n)
  | AfterHeader n, SawWrite (Body frame) =>
      if decide (n = length frame) then Some AfterBody else None
  | AfterBody, SawWrite Trailer => Some Awaiting
  | Awaiting, SawFlush => Some Idle
  | _, _ => None
  end.

Fixpoint replay (ph : phase) (log : list seen) : option phase :=
  match log with
  | [] => Some ph
  | s :: log' =>
      match advance ph s with
      | Some ph' => replay ph' log'
      | None => None
      end
  end.

End Mux.

Module MuxFacts.
Import Mux.

#[local] Arguments emitted : simpl never.
#[local] Arguments viewer_log : simpl never.

Lemma scan_eq st :
  scan st =
  match next_frame (frameBuffer st) with
  | None => (st, [])
  | Some (frame, rest) =>
      let '(st1, out1) := broadcast (cameraClients st) frame (emit frame rest st) in
      let '(st2, out2) := scan st1 in
      (st2, Emit frame :: out1 ++ out2)
  end.
Proof.
  simp scan.
  generalize (inspect (next_frame (frameBuffer st))).
  intros [[[frame rest]|] H]; simp scan;
    (etransitivity; [|symmetry; rewrite H; reflexivity]); [|done].
  generalize (inspect (broadcast (cameraClients st) frame (emit frame rest st))).
  intros [[st1 out1] H1]. simp scan.
  etransitivity; [|symmetry; rewrite H1; reflexivity].
  rewrite <- scan_equation_1. done.
Qed.

(** ** Searching a buffer that grows at its end *)

Lemma jpegStart_ne : jpegStart <> [].
Proof. discriminate. Qed.

Lemma jpegEnd_ne : jpegEnd <> [].
Proof. discriminate. Qed.

Lemma starts_with_length needle buf :
  starts_with needle buf = true -> length needle <= length buf.
Proof.
  revert buf. induction needle as [|n needle IH]; intros [|b buf]; cbn;
    try lia; try discriminate.
  intros [_ H]%andb_prop. specialize (IH _ H). lia.
Qed.

Lemma starts_with_app_long needle buf more :
  length needle <= length buf ->
  starts_with needle (buf ++ more) = starts_with needle buf.
Proof.
  revert buf. induction needle as [|n needle IH]; intros [|b buf]; cbn;
    try done; try lia.
  intros H. rewrite IH by lia. done.
Qed.

Lemma search_found_length needle buf i k :
  search needle buf i = Some k -> length needle <= length buf.
Proof.
  revert i. induction buf as [|b buf IH]; intros i; cbn.
  - destruct needle; cbn; [lia | discriminate].
  - destruct (starts_with needle (b :: buf)) eqn:E.
    + intros _. apply starts_with_length in E. exact E.
    + intros H. specialize (IH _ H). lia.
Qed.

Lemma search_app needle buf more i k :
  search needle buf i = Some k -> search needle (buf ++ more) i = Some k.
Proof.
  revert i. induction buf as [|b buf IH]; intros i H.
  - cbn in H. destruct needle; cbn in H; [|discriminate].
    destruct more; cbn; exact H.
  - pose proof (search_found_length _ _ _ _ H) as Hlen.
    cbn [search] in H. change ((b :: buf) ++ more) with (b :: (buf ++ more)).
    cbn [search].
    change (b :: (buf ++ more)) with ((b :: buf) ++ more).
    rewrite starts_with_app_long by exact Hlen.
    destruct (starts_with needle (b :: buf)); [exact H|].
    apply IH. exact H.
Qed.

Lemma search_hit needle buf i k :
  search needle buf i = Some k -> starts_with needle (drop (k - i) buf) = true.
Proof.
  revert i. induction buf as [|b buf IH]; intros i; cbn [search].
  - destruct (starts_with needle []) eqn:E; [|discriminate].
    intros _. rewrite drop_nil. exact E.
  - destruct (starts_with needle (b :: buf)) eqn:E.
    + intros [= <-]. rewrite Nat.sub_diag. exact E.
    + intros H. pose proof (search_ge _ _ _ _ H).
      replace (k - i) with (S (k - S i)) by lia. cbn. apply IH. exact H.
Qed.

Lemma indexOf_app buf needle more from k :
  needle <> [] ->
  indexOf buf needle from = Some k ->
  indexOf (buf ++ more) needle from = Some k.
Proof.
  unfold indexOf. intros Hne H.
  destruct (decide (from <= length buf)) as [Hle|Hgt].
  - rewrite drop_app_le by exact Hle. apply search_app. exact H.
  - rewrite drop_ge in H by lia.
    destruct needle; cbn in H; [done | discriminate].
Qed.

Lemma indexOf_end buf needle from k :
  needle <> [] ->
  indexOf buf needle from = Some k -> from <= k /\ k + length needle <= length buf.
Proof.
  unfold indexOf. intros Hne H.
  pose proof (search_ge _ _ _ _ H) as Hge.
  pose proof (search_bound _ _ _ _ H Hne) as Hb.
  apply search_hit, starts_with_length in H.
  rewrite !length_drop in *. lia.
Qed.

Lemma next_frame_app buf more frame rest :
  next_frame buf = Some (frame, rest) ->
  next_frame (buf ++ more) = Some (frame, rest ++ more).
Proof.
  unfold next_frame.
  destruct (indexOf buf jpegStart 0) as [s|] eqn:Hs; [|discriminate].
  destruct (indexOf buf jpegEnd s) as [e|] eqn:He; [|discriminate].
  intros [= <- <-].
  rewrite (indexOf_app buf jpegStart more 0 s ltac:(discriminate) Hs).
  rewrite (indexOf_app buf jpegEnd more s e ltac:(discriminate) He).
  apply indexOf_end in He as [Hse He]; [|done]. cbn in He.
  unfold subarray, subarray_from.
  rewrite !drop_app_le by lia.
  rewrite take_app_le by (rewrite length_drop; lia). done.
Qed.


(** ** The scan loop on a buffer that grows at its end *)

Lemma broadcast_grow more clients frame st :
  broadcast clients frame (grow more st) =
  (grow more (fst (broadcast clients frame st)), snd (broadcast clients frame st)).
Proof.
  revert st. induction clients as [|c clients IH]; intros st; cbn; [done|].
  destruct (heap st !! c) as [v|]; [|apply IH].
  destruct (busy v); [apply IH|].
  change (set_viewer c ?v (grow more st)) with (grow more (set_viewer c v st)).
  rewrite IH. destruct (broadcast clients frame (set_viewer _ _ st)). done.
Qed.

Definition then_ (r : state * list action) (k : state -> state * list action)
  : state * list action :=
  let '(st2, out2) := k (fst r) in (st2, snd r ++ out2).

Lemma scan_none st : next_frame (frameBuffer st) = None -> scan st = (st, []).
Proof. intros H. rewrite scan_eq, H. done. Qed.

Lemma scan_grow more st :
  scan (grow more st) = then_ (scan st) (λ st1, scan (grow more st1)).
Proof.
  remember (length (frameBuffer st)) as n eqn:Hn.
  revert st Hn. induction n as [n IH] using lt_wf_ind. intros st ->.
  rewrite (scan_eq st).
  destruct (next_frame (frameBuffer st)) as [[frame rest]|] eqn:Hnext.
  - rewrite (scan_eq (grow more st)). cbn [frameBuffer grow].
    rewrite (next_frame_app _ more _ _ Hnext).
    change (emit frame (rest ++ more) (grow more st))
      with (grow more (emit frame rest st)).
    change (cameraClients (grow more st)) with (cameraClients st).
    rewrite broadcast_grow.
    destruct (broadcast (cameraClients st) frame (emit frame rest st))
      as [st1 out1] eqn:Hb. cbn [fst snd].
    assert (Hlen : length (frameBuffer st1) < length (frameBuffer st)).
    { change st1 with (fst (st1, out1)). rewrite <- Hb, broadcast_frameBuffer.
      cbn. eapply next_frame_shrinks, Hnext. }
    rewrite (IH _ Hlen st1 eq_refl). unfold then_.
    destruct (scan st1) as [st2 out2]. cbn [fst snd].
    destruct (scan (grow more st2)) as [st3 out3].
    f_equal. cbn. rewrite <- app_assoc. done.
  - unfold then_. cbn [fst snd].
    destruct (scan (grow more st)). done.
Qed.

Lemma grow_app c1 c2 st : grow (c1 ++ c2) st = grow c2 (grow c1 st).
Proof. unfold grow. cbn. rewrite app_assoc. done. Qed.

Lemma broadcastFrame_app c1 c2 st :
  broadcastFrame (c1 ++ c2) st = then_ (broadcastFrame c1 st) (broadcastFrame c2).
Proof. unfold broadcastFrame. rewrite grow_app. apply scan_grow. Qed.

Lemma run_chunks chunk chunks st :
  run st (map Data (chunk :: chunks)) = broadcastFrame (chunk ++ concat chunks) st.
Proof.
  revert chunk st. induction chunks as [|c' chunks IH]; intros chunk st.
  - cbn. rewrite app_nil_r. destruct (broadcastFrame chunk st).
    rewrite app_nil_r. done.
  - cbn [concat]. rewrite broadcastFrame_app. unfold then_.
    rewrite <- IH. cbn. destruct (broadcastFrame chunk st). done.
Qed.


(** ** Shape of an extracted frame *)

Lemma starts_with_prefix needle buf :
  starts_with needle buf = true -> exists tail, buf = needle ++ tail.
Proof.
  revert buf. induction needle as [|n needle IH]; intros buf; cbn.
  - intros _. exists buf. done.
  - destruct buf as [|b buf]; [discriminate|].
    intros [Hb H]%andb_prop. apply bool_decide_eq_true in Hb as ->.
    destruct (IH _ H) as [tail ->]. exists tail. done.
Qed.

Lemma starts_with_refl needle tail : starts_with needle (needle ++ tail) = true.
Proof.
  induction needle as [|n needle IH]; cbn; [done|].
  rewrite IH, bool_decide_eq_true_2; done.
Qed.

(** A found frame is [FF D8 ... FF D9], cut out of the buffer behind some
    junk; what follows it is kept. *)
Lemma next_frame_shape buf frame rest :
  next_frame buf = Some (frame, rest) ->
  exists junk inner,
    buf = junk ++ frame ++ rest /\ frame = jpegStart ++ inner ++ jpegEnd.
Proof.
  unfold next_frame.
  destruct (indexOf buf jpegStart 0) as [s|] eqn:Hs; [|discriminate].
  destruct (indexOf buf jpegEnd s) as [e|] eqn:He; [|discriminate].
  intros [= <- <-]. unfold subarray, subarray_from.
  unfold indexOf in *. rewrite drop_0 in Hs.
  pose proof (search_hit _ _ _ _ Hs) as Hhit.
  rewrite Nat.sub_0_r in Hhit.
  apply starts_with_prefix in Hhit as [tail Htail].
  rewrite Htail in He. cbn in He.
  pose proof (search_ge _ _ _ _ He) as Hge.
  pose proof (search_hit _ _ _ _ He) as Hhit.
  apply starts_with_prefix in Hhit as [rest Hrest].
  exists (take s buf), (take (e - S (S s)) tail). split.
  - replace (e + 2) with (s + (e + 2 - s)) at 2 by lia.
    rewrite <- drop_drop, !take_drop. done.
  - rewrite Htail. replace (e + 2 - s) with (S (S ((e - S (S s)) + 2))) by lia.
    cbn [jpegStart app take]. do 2 f_equal.
    rewrite <- take_take_drop, Hrest. done.
Qed.

Lemma next_frame_delimited buf frame rest :
  next_frame buf = Some (frame, rest) -> delimited frame = true.
Proof.
  intros (junk & inner & _ & ->)%next_frame_shape. unfold delimited.
  rewrite starts_with_refl. cbn [andb].
  rewrite !length_app. cbn [length jpegStart jpegEnd].
  apply andb_true_intro. split; [|apply bool_decide_eq_true_2; lia].
  replace (2 + (length inner + 2) - 2) with (2 + length inner) by lia.
  change (2 + length inner) with (length jpegStart + length inner).
  rewrite <- length_app, app_assoc, drop_app_length. done.
Qed.

(** ** Induction along the rounds of the scan loop *)

Lemma scan_ind (P : state -> state * list action -> Prop) :
  (forall st, next_frame (frameBuffer st) = None -> P st (st, [])) ->
  (forall st frame rest st1 out1 st2 out2,
      next_frame (frameBuffer st) = Some (frame, rest) ->
      broadcast (cameraClients st) frame (emit frame rest st) = (st1, out1) ->
      scan st1 = (st2, out2) ->
      P st1 (st2, out2) ->
      P st (st2, Emit frame :: out1 ++ out2)) ->
  forall st, P st (scan st).
Proof.
  intros Hstop Hround st.
  remember (length (frameBuffer st)) as n eqn:Hn.
  revert st Hn. induction n as [n IH] using lt_wf_ind. intros st ->.
  rewrite scan_eq.
  destruct (next_frame (frameBuffer st)) as [[frame rest]|] eqn:Hnext;
    [|apply Hstop, Hnext].
  destruct (broadcast (cameraClients st) frame (emit frame rest st))
    as [st1 out1] eqn:Hb.
  assert (Hlen : length (frameBuffer st1) < length (frameBuffer st)).
  { change st1 with (fst (st1, out1)). rewrite <- Hb, broadcast_frameBuffer.
    cbn. eapply next_frame_shrinks, Hnext. }
  specialize (IH _ Hlen st1 eq_refl).
  destruct (scan st1) as [st2 out2] eqn:Hscan.
  eapply Hround; eauto.
Qed.

Lemma emitted_app out1 out2 : emitted (out1 ++ out2) = emitted out1 ++ emitted out2.
Proof. unfold emitted. apply omap_app. Qed.

Lemma emitted_cons_Emit frame out : emitted (Emit frame :: out) = frame :: emitted out.
Proof. done. Qed.

Lemma broadcast_emitted clients frame st :
  emitted (snd (broadcast clients frame st)) = [].
Proof.
  revert st. induction clients as [|c clients IH]; intros st; cbn; [done|].
  destruct (heap st !! c) as [v|]; [|apply IH].
  destruct (busy v); [apply IH|].
  specialize (IH (set_viewer c {| busy := true; unflushed := S (unflushed v) |} st)).
  destruct (broadcast clients frame _). cbn in *. exact IH.
Qed.

Lemma broadcast_latestFrame clients frame st :
  latestFrame (fst (broadcast clients frame st)) = latestFrame st.
Proof.
  revert st. induction clients as [|c clients IH]; intros st; cbn; [done|].
  destruct (heap st !! c) as [v|]; [|apply IH].
  destruct (busy v); [apply IH|].
  specialize (IH (set_viewer c {| busy := true; unflushed := S (unflushed v) |} st)).
  destruct (broadcast clients frame _). cbn in *. exact IH.
Qed.

(** The loop stops only when the buffer holds no complete frame. *)
Lemma scan_idle st : next_frame (frameBuffer (fst (scan st))) = None.
Proof. apply (scan_ind (λ _ r, next_frame (frameBuffer (fst r)) = None)); auto. Qed.

Lemma scan_delimited st : Forall (λ f, delimited f = true) (emitted (snd (scan st))).
Proof.
  apply (scan_ind (λ _ r, Forall (λ f, delimited f = true) (emitted (snd r)))).
  - intros. constructor.
  - intros st0 frame rest st1 out1 st2 out2 Hnext Hb _ IH. cbn [fst snd] in *.
    rewrite emitted_cons_Emit.
    constructor; [eapply next_frame_delimited, Hnext|].
    rewrite emitted_app. change out1 with (snd (st1, out1)).
    rewrite <- Hb, broadcast_emitted. exact IH.
Qed.

(** [latestFrame] ends up as the last emitted frame. *)
Lemma scan_latestFrame st :
  latestFrame (fst (scan st)) =
  from_option Some (latestFrame st) (last (emitted (snd (scan st)))).
Proof.
  apply (scan_ind (λ st r, latestFrame (fst r) =
                           from_option Some (latestFrame st) (last (emitted (snd r))))).
  - done.
  - intros st0 frame rest st1 out1 st2 out2 Hnext Hb _ IH. cbn [fst snd] in *.
    rewrite emitted_cons_Emit, emitted_app. change out1 with (snd (st1, out1)).
    rewrite <- Hb, broadcast_emitted. cbn [app]. rewrite IH.
    change st1 with (fst (st1, out1)). rewrite <- Hb, broadcast_latestFrame.
    cbn [latestFrame emit].
    destruct (emitted out2) as [|f fs] eqn:E; [done|].
    rewrite (last_cons frame). destruct (last (f :: fs)) eqn:El; [done|].
    apply last_None in El. discriminate.
Qed.

(** The frames found depend on the buffer alone, not on the viewers. *)
Lemma scan_buffer_only st st' :
  frameBuffer st = frameBuffer st' ->
  emitted (snd (scan st)) = emitted (snd (scan st')) /\
  frameBuffer (fst (scan st)) = frameBuffer (fst (scan st')).
Proof.
  revert st'.
  apply (scan_ind (λ st r, forall st', frameBuffer st = frameBuffer st' ->
           emitted (snd r) = emitted (snd (scan st')) /\
           frameBuffer (fst r) = frameBuffer (fst (scan st')))).
  - intros st0 Hnone st' Heq. rewrite Heq in Hnone.
    rewrite (scan_none _ Hnone). done.
  - intros st0 frame rest st1 out1 st2 out2 Hnext Hb _ IH st' Heq.
    rewrite (scan_eq st'), <- Heq, Hnext.
    destruct (broadcast (cameraClients st') frame (emit frame rest st'))
      as [st1' out1'] eqn:Hb'.
    specialize (IH st1').
    destruct (scan st1') as [st2' out2']. cbn [fst snd] in *.
    rewrite !emitted_cons_Emit, !emitted_app.
    change out1 with (snd (st1, out1)). rewrite <- Hb, broadcast_emitted.
    change out1' with (snd (st1', out1')). rewrite <- Hb', broadcast_emitted.
    cbn [app]. destruct IH as [-> ->]; [|done].
    change st1 with (fst (st1, out1)). rewrite <- Hb, broadcast_frameBuffer.
    change st1' with (fst (st1', out1')). rewrite <- Hb', broadcast_frameBuffer.
    done.
Qed.

(** ** Runs *)

Lemma run_app st tr1 tr2 :
  run st (tr1 ++ tr2) =
  (fst (run (fst (run st tr1)) tr2), snd (run st tr1) ++ snd (run (fst (run st tr1)) tr2)).
Proof.
  revert st. induction tr1 as [|e tr1 IH]; intros st; cbn.
  - destruct (run st tr2). done.
  - destruct (step st e) as [st1 out1]. rewrite IH.
    destruct (run st1 tr1) as [st2 out2]. cbn.
    destruct (run st2 tr2). cbn. rewrite app_assoc. done.
Qed.

Lemma step_frameBuffer st e :
  match e with Data _ | Clear => True | _ => frameBuffer (fst (step st e)) = frameBuffer st end.
Proof.
  destruct e as [chunk| |c|c|]; cbn; try done.
  - unfold attach. destruct (latestFrame st); done.
  - unfold drained. destruct (heap st !! c) as [[b [|n]]|]; done.
Qed.

Lemma step_emitted st e :
  match e with Data _ => True | _ => emitted (snd (step st e)) = [] end.
Proof.
  destruct e as [chunk| |c|c|]; cbn; try done.
  - unfold attach. destruct (latestFrame st); done.
  - unfold drained. destruct (heap st !! c) as [[b [|n]]|]; done.
Qed.

Lemma step_idle st e :
  next_frame (frameBuffer st) = None ->
  next_frame (frameBuffer (fst (step st e))) = None.
Proof.
  intros H. pose proof (step_frameBuffer st e) as Hb.
  destruct e; try (rewrite Hb; exact H).
  - apply scan_idle.
  - done.
Qed.

Lemma run_idle tr st :
  next_frame (frameBuffer st) = None ->
  next_frame (frameBuffer (fst (run st tr))) = None.
Proof.
  revert st. induction tr as [|e tr IH]; intros st H; cbn; [done|].
  pose proof (step_idle st e H) as H1.
  destruct (step st e) as [st1 out1]. specialize (IH st1 H1).
  destruct (run st1 tr). exact IH.
Qed.

Lemma grow_nil st : grow [] st = st.
Proof. destruct st. unfold grow. cbn. rewrite app_nil_r. done. Qed.

(** Viewer events between the chunks change what is written to whom, not
    which frames come out. *)
Lemma run_interleaved tr st st' :
  keeps_buffer tr = true ->
  frameBuffer st = frameBuffer st' ->
  emitted (snd (run st tr)) = emitted (snd (run st' (map Data (chunks_of tr)))) /\
  frameBuffer (fst (run st tr)) = frameBuffer (fst (run st' (map Data (chunks_of tr)))).
Proof.
  revert st st'. induction tr as [|e tr IH]; intros st st' Hk Heq; [done|].
  cbn [keeps_buffer forallb] in Hk. apply andb_prop in Hk as [He Hk].
  pose proof (step_frameBuffer st e) as Hb.
  pose proof (step_emitted st e) as Hem.
  cbn [run]. destruct (step st e) as [st1 out1] eqn:Hstep.
  destruct e as [chunk| |c|c|]; try discriminate.
  2-4: change (chunks_of (?e :: tr)) with (chunks_of tr);
       specialize (IH st1 st' Hk ltac:(cbn [fst] in Hb; congruence));
       destruct (run st1 tr) as [st2 out2]; cbn [fst snd] in *;
       rewrite emitted_app, Hem; exact IH.
  change (chunks_of (Data chunk :: tr)) with (chunk :: chunks_of tr).
  cbn [step map run] in *.
  destruct (scan_buffer_only (grow chunk st) (grow chunk st')) as [E1 E2];
    [cbn; congruence|].
  fold (broadcastFrame chunk st) in E1, E2. fold (broadcastFrame chunk st') in E1, E2.
  rewrite Hstep in E1, E2.
  destruct (broadcastFrame chunk st') as [st1' out1']. cbn [fst snd] in *.
  specialize (IH st1 st1' Hk E2).
  destruct (run st1 tr) as [st2 out2]. destruct (run st1' _) as [st2' out2'].
  cbn [fst snd] in *. rewrite !emitted_app, E1. destruct IH as [-> ->]. done.
Qed.

(** C2 — chunk-boundary independence of [broadcastFrame].  From any state
    the server can be in, feeding a byte stream chunk by chunk, however it is
    split (markers may straddle chunk boundaries), emits exactly the frames
    that feeding the whole stream as one chunk emits; it also leaves the same
    state and performs the same writes.  Every emitted frame is a byte run
    from a start marker FF D8 through an end marker FF D9, and [latestFrame]
    ends up as the last frame emitted. *)
Theorem C2_chunk_boundary_independence (history : list event) (chunks : list bytes) :
  let st := fst (run init history) in
  let split := run st (map Data chunks) in
  let whole := broadcastFrame (concat chunks) st in
  emitted (snd split) = emitted (snd whole) /\
  split = whole /\
  Forall (λ frame, delimited frame = true) (emitted (snd whole)) /\
  latestFrame (fst whole) =
    from_option Some (latestFrame st) (last (emitted (snd whole))).
Proof.
  intros st split whole.
  assert (Heq : split = whole).
  { subst split whole. destruct chunks as [|chunk chunks].
    - cbn [map run concat]. unfold broadcastFrame. rewrite grow_nil.
      symmetry. apply scan_none. subst st. apply run_idle. done.
    - apply run_chunks. }
  split; [rewrite Heq; done|]. split; [exact Heq|].
  subst whole. unfold broadcastFrame. split; [apply scan_delimited|].
  rewrite scan_latestFrame. done.
Qed.

(** ** Viewers and their busy flag *)

Definition frame_writes (frame : bytes) : list seen :=
  [SawWrite (Header (length frame)); SawWrite (Body frame); SawWrite Trailer].

Lemma viewer_log_app c out1 out2 :
  viewer_log c (out1 ++ out2) = viewer_log c out1 ++ viewer_log c out2.
Proof. unfold viewer_log. apply omap_app. Qed.

Lemma viewer_log_send c c' v frame st :
  viewer_log c' (snd (send c v frame st)) =
  if decide (c = c') then frame_writes frame else [].
Proof. unfold viewer_log, send. cbn. destruct (decide (c = c')); done. Qed.

Lemma replay_app ph log1 log2 :
  replay ph (log1 ++ log2) = replay ph log1 ≫= λ ph', replay ph' log2.
Proof.
  revert ph. induction log1 as [|s log1 IH]; intros ph; cbn; [done|].
  destruct (advance ph s); [apply IH | done].
Qed.

Lemma replay_frame frame : replay Idle (frame_writes frame) = Some Awaiting.
Proof. cbn. rewrite decide_True; done. Qed.

(** What one round of [broadcast] does to one viewer: nothing at all, or,
    if its flag was clear, one header-body-trailer group with the flag
    raised. *)
Lemma broadcast_viewer clients frame st c :
  let r := broadcast clients frame st in
  (viewer_log c (snd r) = [] /\ heap (fst r) !! c = heap st !! c) \/
  (exists v, heap st !! c = Some v /\ busy v = false /\
             viewer_log c (snd r) = frame_writes frame /\
             heap (fst r) !! c = Some {| busy := true; unflushed := S (unflushed v) |}).
Proof.
  revert st. induction clients as [|c0 clients IH]; intros st; cbn zeta.
  - left. done.
  - cbn [broadcast]. destruct (heap st !! c0) as [v0|] eqn:H0; [|apply IH].
    destruct (busy v0) eqn:Hbusy; [apply IH|].
    set (st1 := set_viewer c0 {| busy := true; unflushed := S (unflushed v0) |} st).
    specialize (IH st1). cbn zeta in IH.
    pose proof (viewer_log_send c0 c v0 frame st) as Hsend.
    unfold send in *. fold st1 in Hsend |- *. cbn [snd] in Hsend.
    destruct (broadcast clients frame st1) as [st2 out2]. cbn [fst snd] in *.
    rewrite viewer_log_app, Hsend.
    destruct (decide (c0 = c)) as [->|Hne].
    + right. exists v0. split; [done|]. split; [done|].
      destruct IH as [[Hlog Hheap]|(v & Hv & Hclear & _)].
      * rewrite Hlog, app_nil_r, Hheap. subst st1. cbn.
        rewrite lookup_insert_eq. done.
      * subst st1. cbn in Hv. rewrite lookup_insert_eq in Hv.
        injection Hv as <-. discriminate.
    + subst st1. cbn [heap set_viewer] in IH.
      rewrite lookup_insert_ne in IH by done. exact IH.
Qed.

Lemma broadcast_nextRes clients frame st :
  nextRes (fst (broadcast clients frame st)) = nextRes st.
Proof.
  revert st. induction clients as [|c clients IH]; intros st; cbn; [done|].
  destruct (heap st !! c) as [v|]; [|apply IH].
  destruct (busy v); [apply IH|].
  specialize (IH (set_viewer c {| busy := true; unflushed := S (unflushed v) |} st)).
  destruct (broadcast clients frame _). cbn in *. exact IH.
Qed.

(** The invariant of a run: a viewer's flag is up exactly while one trailer
    callback is outstanding, and its log replays without overlap to the
    phase the flag shows. *)
Definition viewer_inv (st : state) (out : list action) (c : nat) : Prop :=
  match heap st !! c with
  | Some v =>
      unflushed v = (if busy v then 1 else 0) /\
      replay Idle (viewer_log c out) = Some (if busy v then Awaiting else Idle)
  | None => viewer_log c out = []
  end.

Definition inv (st : state) (out : list action) : Prop :=
  (forall c, nextRes st <= c -> heap st !! c = None) /\
  (forall c, viewer_inv st out c).

Lemma inv_init : inv init [].
Proof. split; intros c; [done|]. unfold viewer_inv. cbn. rewrite lookup_empty. done. Qed.

Lemma inv_same_heap st st' out :
  heap st' = heap st -> nextRes st' = nextRes st -> inv st out -> inv st' out.
Proof.
  intros Hh Hn [H1 H2]. split; intros c.
  - rewrite Hh, Hn. apply H1.
  - unfold viewer_inv. rewrite Hh. apply H2.
Qed.

Lemma inv_Emit st out frame : inv st out -> inv st (out ++ [Emit frame]).
Proof.
  intros [H1 H2]. split; [exact H1|]. intros c. specialize (H2 c).
  unfold viewer_inv in *. rewrite viewer_log_app.
  change (viewer_log c [Emit frame]) with (@nil seen). rewrite app_nil_r. exact H2.
Qed.

Lemma inv_broadcast clients frame st out :
  inv st out ->
  inv (fst (broadcast clients frame st)) (out ++ snd (broadcast clients frame st)).
Proof.
  intros [H1 H2]. split; intros c.
  - rewrite broadcast_nextRes. intros Hc.
    destruct (broadcast_viewer clients frame st c) as [[_ ->]|(v & Hv & _)]; [auto|].
    rewrite H1 in Hv by done. discriminate.
  - specialize (H2 c). unfold viewer_inv in *. rewrite viewer_log_app.
    destruct (broadcast_viewer clients frame st c)
      as [[-> ->]|(v & Hv & Hclear & -> & ->)].
    + rewrite app_nil_r. exact H2.
    + rewrite Hv, Hclear in H2. destruct H2 as [Hu Hr]. cbn [busy unflushed].
      split; [lia|]. rewrite replay_app, Hr. cbn [mbind option_bind].
      apply replay_frame.
Qed.

Lemma inv_scan st out : inv st out -> inv (fst (scan st)) (out ++ snd (scan st)).
Proof.
  revert out.
  apply (scan_ind (λ st r, forall out, inv st out -> inv (fst r) (out ++ snd r))).
  - intros st0 _ out H. cbn. rewrite app_nil_r. exact H.
  - intros st0 frame rest st1 out1 st2 out2 _ Hb _ IH out H. cbn [fst snd] in *.
    replace (out ++ Emit frame :: out1 ++ out2)
      with (((out ++ [Emit frame]) ++ out1) ++ out2)
      by (rewrite <- !app_assoc; done).
    apply IH.
    change st1 with (fst (st1, out1)). change out1 with (snd (st1, out1)) at 2.
    rewrite <- Hb. apply inv_broadcast.
    apply (inv_same_heap st0); [done|done|]. apply inv_Emit, H.
Qed.

Lemma inv_attach st out : inv st out -> inv (fst (attach st)) (out ++ snd (attach st)).
Proof.
  intros [H1 H2]. unfold attach.
  set (c := nextRes st).
  assert (Hc : heap st !! c = None) by (apply H1; done).
  assert (Hlog : viewer_log c out = []).
  { specialize (H2 c). unfold viewer_inv in H2. rewrite Hc in H2. exact H2. }
  destruct (latestFrame st) as [frame|]; cbn [send fst snd].
  - split; intros c'.
    + cbn [set_viewer heap nextRes]. intros Hle.
      rewrite !lookup_insert_ne by lia. apply H1. unfold c in *. lia.
    + specialize (H2 c'). unfold viewer_inv in *. cbn [set_viewer heap].
      rewrite viewer_log_app.
      change (viewer_log c' [Write c _; Write c _; Write c _]) with
        (viewer_log c' (snd (send c {| busy := false; unflushed := 0 |} frame st))).
      rewrite viewer_log_send.
      destruct (decide (c = c')) as [<-|Hne].
      * rewrite lookup_insert_eq. cbn [busy unflushed]. split; [done|].
        rewrite Hlog. apply replay_frame.
      * rewrite !lookup_insert_ne by done. rewrite app_nil_r. exact H2.
  - rewrite app_nil_r. split; intros c'.
    + cbn [heap nextRes]. intros Hle.
      rewrite lookup_insert_ne by lia. apply H1. unfold c in *. lia.
    + specialize (H2 c'). unfold viewer_inv in *. cbn [heap].
      destruct (decide (c = c')) as [<-|Hne].
      * rewrite lookup_insert_eq. cbn [busy unflushed]. rewrite Hlog. done.
      * rewrite lookup_insert_ne by done. exact H2.
Qed.

Lemma viewer_log_Flushed c c' :
  viewer_log c' [Flushed c] = if decide (c = c') then [SawFlush] else [].
Proof. unfold viewer_log. cbn. destruct (decide (c = c')); done. Qed.

Lemma inv_drained c st out :
  inv st out -> inv (fst (drained c st)) (out ++ snd (drained c st)).
Proof.
  intros [H1 H2]. unfold drained.
  destruct (heap st !! c) as [[b [|n]]|] eqn:Hc; cbn [fst snd];
    try (rewrite app_nil_r; split; done).
  pose proof (H2 c) as Hv. unfold viewer_inv in Hv. rewrite Hc in Hv.
  cbn [busy unflushed] in Hv. destruct Hv as [Hu Hr].
  destruct b; [|discriminate]. injection Hu as ->.
  split; intros c'; cbn [set_viewer heap nextRes].
  - intros Hle. rewrite lookup_insert_ne; [apply H1, Hle|].
    intros <-. rewrite H1 in Hc by done. discriminate.
  - specialize (H2 c'). unfold viewer_inv in *. cbn [set_viewer heap].
    rewrite viewer_log_app, viewer_log_Flushed.
    destruct (decide (c = c')) as [<-|Hne].
    + rewrite lookup_insert_eq. cbn [busy unflushed]. split; [done|].
      rewrite replay_app, Hr. done.
    + rewrite lookup_insert_ne by done. rewrite app_nil_r. exact H2.
Qed.

Lemma inv_step st out e : inv st out -> inv (fst (step st e)) (out ++ snd (step st e)).
Proof.
  intros H. destruct e as [chunk| |c|c|]; cbn [step fst snd].
  - unfold broadcastFrame. apply inv_scan. apply (inv_same_heap st); done.
  - apply inv_attach, H.
  - apply inv_drained, H.
  - rewrite app_nil_r. apply (inv_same_heap st); done.
  - rewrite app_nil_r. apply (inv_same_heap st); done.
Qed.

Lemma inv_run tr st out : inv st out -> inv (fst (run st tr)) (out ++ snd (run st tr)).
Proof.
  revert st out. induction tr as [|e tr IH]; intros st out H; cbn [run].
  - cbn. rewrite app_nil_r. exact H.
  - pose proof (inv_step st out e H) as H1.
    destruct (step st e) as [st1 out1]. cbn [fst snd] in H1.
    specialize (IH _ _ H1). destruct (run st1 tr) as [st2 out2].
    cbn [fst snd] in *. rewrite app_assoc. exact IH.
Qed.

(** A raised flag survives everything but the trailer's completion. *)
Lemma scan_keeps_busy st c v :
  heap st !! c = Some v -> busy v = true -> heap (fst (scan st)) !! c = Some v.
Proof.
  revert c v.
  apply (scan_ind (λ st r, forall c v, heap st !! c = Some v -> busy v = true ->
                                       heap (fst r) !! c = Some v)).
  - done.
  - intros st0 frame rest st1 out1 st2 out2 _ Hb _ IH c v Hv Hbusy. cbn [fst].
    apply IH; [|exact Hbusy].
    pose proof (broadcast_viewer (cameraClients st0) frame (emit frame rest st0) c)
      as Hview.
    cbn zeta in Hview. rewrite Hb in Hview. cbn [fst heap emit] in Hview.
    destruct Hview as [[_ Hh]|(v' & Hv' & Hclear & _)].
    + rewrite Hh. exact Hv.
    + rewrite Hv in Hv'. injection Hv' as <-. congruence.
Qed.

Lemma busy_cleared_only_by_flush st out e c v v' :
  inv st out ->
  heap st !! c = Some v -> busy v = true ->
  heap (fst (step st e)) !! c = Some v' -> busy v' = false ->
  e = Drained c.
Proof.
  intros [H1 _] Hv Hbusy Hv' Hclear.
  destruct e as [chunk| |c0|c0|]; cbn [step fst] in Hv'.
  - unfold broadcastFrame in Hv'.
    rewrite (scan_keeps_busy (grow chunk st) c v Hv Hbusy) in Hv'. congruence.
  - assert (c <> nextRes st).
    { intros ->. rewrite H1 in Hv by done. discriminate. }
    unfold attach in Hv'. destruct (latestFrame st); cbn in Hv';
      rewrite ?lookup_insert_ne in Hv' by done; congruence.
  - destruct (decide (c0 = c)) as [->|Hne]; [done|].
    unfold drained in Hv'. destruct (heap st !! c0) as [[b [|n]]|]; cbn in Hv';
      rewrite ?lookup_insert_ne in Hv' by done; congruence.
  - cbn in Hv'. congruence.
  - cbn in Hv'. congruence.
Qed.

(** C6 — the busy flag is the backpressure.  In every round of the client
    loop, whatever the state: a viewer whose flag is set gets no write for
    that frame and nothing about it is recorded for later (its object is left
    as it was), while a viewer that is written to had its flag clear, gets
    exactly header, frame and trailer, and has its flag set with the trailer's
    callback outstanding.  In every state the server can reach: a set flag
    is cleared by nothing but the completion of that viewer's trailer write;
    the flag is set exactly while one such completion is outstanding; and the
    log of every viewer replays without overlap: header, body, trailer, and
    no further header before the flush. *)
Theorem C6_busy_viewer_is_skipped (history : list event) :
  let st := fst (run init history) in
  let out := snd (run init history) in
  (forall s clients frame c v,
      heap s !! c = Some v -> busy v = true ->
      viewer_log c (snd (broadcast clients frame s)) = [] /\
      heap (fst (broadcast clients frame s)) !! c = Some v) /\
  (forall s clients frame c,
      viewer_log c (snd (broadcast clients frame s)) <> [] ->
      exists v,
        heap s !! c = Some v /\ busy v = false /\
        viewer_log c (snd (broadcast clients frame s)) = frame_writes frame /\
        heap (fst (broadcast clients frame s)) !! c =
          Some {| busy := true; unflushed := S (unflushed v) |}) /\
  (forall e c v v',
      heap st !! c = Some v -> busy v = true ->
      heap (fst (step st e)) !! c = Some v' -> busy v' = false ->
      e = Drained c) /\
  (forall c v, heap st !! c = Some v -> unflushed v = if busy v then 1 else 0) /\
  (forall c, replay Idle (viewer_log c out) = Some Idle \/
             replay Idle (viewer_log c out) = Some Awaiting).
Proof.
  intros st out.
  assert (Hinv : inv st out).
  { pose proof (inv_run history init [] inv_init) as H. exact H. }
  split; [|split; [|split; [|split]]].
  - intros s clients frame c v Hv Hbusy.
    destruct (broadcast_viewer clients frame s c) as [[Hlog Hheap]|(v' & Hv' & Hclear & _)].
    + rewrite Hlog, Hheap. done.
    + congruence.
  - intros s clients frame c Hlog.
    destruct (broadcast_viewer clients frame s c) as [[Hnil _]|(v & Hv)]; [done|].
    exists v. exact Hv.
  - intros e c v v'. apply (busy_cleared_only_by_flush st out). exact Hinv.
  - intros c v Hv. destruct Hinv as [_ H]. specialize (H c).
    unfold viewer_inv in H. rewrite Hv in H. apply H.
  - intros c. destruct Hinv as [_ H]. specialize (H c). unfold viewer_inv in H.
    destruct (heap st !! c) as [v|].
    + destruct H as [_ ->]. destruct (busy v); auto.
    + rewrite H. left. done.
Qed.

End MuxFacts.

(** * JavaScript strings and integer-valued numbers *)

Module JS.

#[local] Open Scope N_scope.

(** A string is its sequence of UTF-16 code units. *)
Abbreviation jsstring := (list N).

Definition str (s : string) : jsstring :=
  map Ascii.N_of_ascii (String.list_ascii_of_string s).

(** [WhiteSpace] and [LineTerminator] of ECMAScript: what [trim] strips and
    what [\s] matches. *)
Definition isLineTerminator (c : N) : bool :=
  (c =? 10) || (c =? 13) || (c =? 8232) || (c =? 8233).

Definition isWhiteSpace (c : N) : bool :=
  ((9 <=? c) && (c <=? 13)) || (c =? 32) || (c =? 160) || (c =? 5760) ||
  ((8192 <=? c) && (c <=? 8202)) || (c =? 8232) || (c =? 8233) ||
  (c =? 8239) || (c =? 8287) || (c =? 12288) || (c =? 65279).

Definition isDigit (c : N) : bool := (48 <=? c) && (c <=? 57).

Fixpoint span (p : N -> bool) (s : jsstring) : jsstring * jsstring :=
  match s with
  | [] => ([], [])
  | c :: s' =>
      if p c then let '(run, rest) := span p s' in (c :: run, rest)
      else ([], s)
  end.

Definition trimStart (s : jsstring) : jsstring := snd (span isWhiteSpace s).
Definition trimEnd (s : jsstring) : jsstring := rev (trimStart (rev s)).
Definition trim (s : jsstring) : jsstring := trimEnd (trimStart s).

(** [s.split(sep)] for a one-character separator: never empty. *)
Fixpoint split (sep : N) (s : jsstring) : list jsstring :=
  match s with
  | [] => [[]]
  | c :: s' =>
      if c =? sep then [] :: split sep s'
      else match split sep s' with
           | [] => [[c]]
           | piece :: pieces => (c :: piece) :: pieces
           end
  end.

(** What follows [prefix] in [s], if [s] starts with it. *)
Fixpoint skip_prefix (prefix s : jsstring) : option jsstring :=
  match prefix, s with
  | [], _ => Some s
  | _ :: _, [] => None
  | p :: prefix', c :: s' => if p =? c then skip_prefix prefix' s' else None
  end.

(** [lines.pop()]: the last element and the array without it. *)
Definition pop {A} (l : list A) : option A * list A :=
  (last l, removelast l).

(** The value of a run of decimal digits. *)
Definition decimal (digits : jsstring) : N :=
  fold_left (λ acc c, 10 * acc + (c - 48)) digits 0.

(** Numbers are binary64.  A natural number below 2^53 is itself; above, it
    is rounded to 53 significant bits, ties to even. *)
Definition round53 (n : N) : N :=
  if n <? 2 ^ 53 then n
  else
    let e := N.log2 n - 52 in
    let q := n / 2 ^ e in
    let r := n mod 2 ^ e in
    let half := 2 ^ (e - 1) in
    let q' := if r <? half then q
              else if half <? r then q + 1
              else if N.even q then q else q + 1 in
    q' * 2 ^ e.

(** [Number(digits)] for a non-empty run of digits: [None] is [Infinity]. *)
Definition Number_of_digits (digits : jsstring) : option N :=
  let v := decimal digits in
  if v <? 2 ^ 1024 - 2 ^ 970 then Some (round53 v) else None.

(** [++n] on a number holding a natural. *)
Definition pre_increment (n : N) : N := round53 (n + 1).

End JS.

(** * Actuator link: the persistent servo daemon ([startServoDaemon], [servoCmd]) *)

Module Servo.
Import JS.

#[local] Open Scope N_scope.

(** [String(n)] for a natural below 10^21: its decimal digits. *)
Fixpoint uint_codes (u : Decimal.uint) : jsstring :=
  match u with
  | Decimal.Nil => []
  | Decimal.D0 u' => 48 :: uint_codes u'
  | Decimal.D1 u' => 49 :: uint_codes u'
  | Decimal.D2 u' => 50 :: uint_codes u'
  | Decimal.D3 u' => 51 :: uint_codes u'
  | Decimal.D4 u' => 52 :: uint_codes u'
  | Decimal.D5 u' => 53 :: uint_codes u'
  | Decimal.D6 u' => 54 :: uint_codes u'
  | Decimal.D7 u' => 55 :: uint_codes u'
  | Decimal.D8 u' => 56 :: uint_codes u'
  | Decimal.D9 u' => 57 :: uint_codes u'
  end.

Definition to_decimal (n : N) : jsstring := uint_codes (N.to_uint n).

(** The module-level variables, with the two closures a call leaves behind:
    its response callback, stored under its sequence id, and its timeout. *)
Record state := {
  servoDaemon : option nat;      (* the ChildProcess, by spawn count; None is null *)
  servoReady : bool;
  servoCallbacks : gmap N nat;   (* seq id -> the call whose timer the callback
                                    clears and whose promise it resolves *)
  servoSeq : N;
  servoBuffer : jsstring;
  timeouts : gmap nat N;         (* armed 3000 ms timers, by the call whose promise
                                    they reject: the id they delete *)
  restarts : nat;                (* armed 1000 ms restart timers *)
  nextCall : nat;                (* identity of the next promise *)
  nextSpawn : nat
}.

Inductive failure := TimedOut | NotReady.

Inductive action :=
| StdinWrite (caller : nat) (id : N) (line : jsstring)
| Resolve (caller : nat) (tag : N) (response : jsstring)
| Reject (caller : nat) (why : failure).

(** The response pattern of the stdout handler: at the start "SEQ:", group 1
    one or more digits, then one or more white-space characters, group 2 the
    rest up to the first line terminator.  Every quantifier is greedy and none
    can give back what it took: a shorter run of digits is followed by a
    digit, not by white space. *)
Definition match_response (trimmed : jsstring) : option (jsstring * jsstring) :=
  match skip_prefix (str "SEQ:") trimmed with
  | None => None
  | Some rest =>
      let '(digits, rest1) := span isDigit rest in
      let '(blanks, rest2) := span isWhiteSpace rest1 in
      match digits, blanks with
      | _ :: _, _ :: _ =>
          Some (digits, fst (span (λ c, negb (isLineTerminator c)) rest2))
      | _, _ => None
      end
  end.

Definition jsstring_eqb (a b : jsstring) : bool := bool_decide (a = b).

(** The body of the [for (const line of lines)] loop. *)
Definition on_line (st : state) (line : jsstring) : state * list action :=
  let trimmed := trim line in
  match trimmed with
  | [] => (st, [])
  | _ :: _ =>
      if jsstring_eqb trimmed (str "READY") then
        ({| servoDaemon := servoDaemon st; servoReady := true;
            servoCallbacks := servoCallbacks st; servoSeq := servoSeq st;
            servoBuffer := servoBuffer st; timeouts := timeouts st;
            restarts := restarts st; nextCall := nextCall st;
            nextSpawn := nextSpawn st |}, [])
      else
        match match_response trimmed with
        | None => (st, [])
        | Some (m1, m2) =>
            match Number_of_digits m1 with
            | None => (st, [])             (* Infinity is no key of the map *)
            | Some tag =>
                match servoCallbacks st !! tag with
                | None => (st, [])
                | Some caller =>
                    (* servoCallbacks.delete(tag); cb(m[2]), which is
                       clearTimeout(timeout); resolve(response) *)
                    ({| servoDaemon := servoDaemon st; servoReady := servoReady st;
                        servoCallbacks := delete tag (servoCallbacks st);
                        servoSeq := servoSeq st; servoBuffer := servoBuffer st;
                        timeouts := delete caller (timeouts st);
                        restarts := restarts st; nextCall := nextCall st;
                        nextSpawn := nextSpawn st |},
                     [Resolve caller tag m2])
                end
            end
        end
  end.

Fixpoint on_lines (st : state) (lines : list jsstring) : state * list action :=
  match lines with
  | [] => (st, [])
  | line :: lines' =>
      let '(st1, out1) := on_line st line in
      let '(st2, out2) := on_lines st1 lines' in
      (st2, out1 ++ out2)
  end.

(** [servoDaemon.stdout.on("data", (d) => { ... })] *)
Definition on_stdout (d : jsstring) (st : state) : state * list action :=
  let '(incomplete, lines) := pop (split 10 (servoBuffer st ++ d)) in
  on_lines {| servoDaemon := servoDaemon st; servoReady := servoReady st;
              servoCallbacks := servoCallbacks st; servoSeq := servoSeq st;
              servoBuffer := default [] incomplete; timeouts := timeouts st;
              restarts := restarts st; nextCall := nextCall st;
              nextSpawn := nextSpawn st |} lines.

(** [function servoCmd(cmd)]: the promise executor. *)
Definition servoCmd (cmd : jsstring) (st : state) : state * list action :=
  let caller := nextCall st in
  if negb (servoReady st) || negb (bool_decide (is_Some (servoDaemon st))) then
    ({| servoDaemon := servoDaemon st; servoReady := servoReady st;
        servoCallbacks := servoCallbacks st; servoSeq := servoSeq st;
        servoBuffer := servoBuffer st; timeouts := timeouts st;
        restarts := restarts st; nextCall := S caller;
        nextSpawn := nextSpawn st |},
     [Reject caller NotReady])
  else
    let id := pre_increment (servoSeq st) in
    ({| servoDaemon := servoDaemon st; servoReady := servoReady st;
        servoCallbacks := <[id := caller]> (servoCallbacks st);
        servoSeq := id; servoBuffer := servoBuffer st;
        timeouts := <[caller := id]> (timeouts st);
        restarts := restarts st; nextCall := S caller;
        nextSpawn := nextSpawn st |},
     [StdinWrite caller id (str "SEQ:" ++ to_decimal id ++ str " " ++ cmd ++ [10])]).

(** The timeout closure of a call: [servoCallbacks.delete(id); reject(...)].
    A timer that was cleared or has fired does not fire. *)
Definition on_timeout (caller : nat) (st : state) : state * list action :=
  match timeouts st !! caller with
  | None => (st, [])
  | Some id =>
      ({| servoDaemon := servoDaemon st; servoReady := servoReady st;
          servoCallbacks := delete id (servoCallbacks st);
          servoSeq := servoSeq st; servoBuffer := servoBuffer st;
          timeouts := delete caller (timeouts st);
          restarts := restarts st; nextCall := nextCall st;
          nextSpawn := nextSpawn st |},
       [Reject caller TimedOut])
  end.

(** [servoDaemon.on("exit", ...)]: not ready, no daemon, restart in 1 s.
    Pending callbacks stay; their timeouts will reject them. *)
Definition on_exit (st : state) : state :=
  {| servoDaemon := None; servoReady := false;
     servoCallbacks := servoCallbacks st; servoSeq := servoSeq st;
     servoBuffer := servoBuffer st; timeouts := timeouts st;
     restarts := S (restarts st); nextCall := nextCall st;
     nextSpawn := nextSpawn st |}.

(** [function startServoDaemon()] *)
Definition startServoDaemon (st : state) : state :=
  {| servoDaemon := Some (nextSpawn st); servoReady := servoReady st;
     servoCallbacks := servoCallbacks st; servoSeq := servoSeq st;
     servoBuffer := servoBuffer st; timeouts := timeouts st;
     restarts := restarts st; nextCall := nextCall st;
     nextSpawn := S (nextSpawn st) |}.

Definition on_restart (st : state) : state :=
  match restarts st with
  | O => st
  | S n =>
      startServoDaemon
        {| servoDaemon := servoDaemon st; servoReady := servoReady st;
           servoCallbacks := servoCallbacks st; servoSeq := servoSeq st;
           servoBuffer := servoBuffer st; timeouts := timeouts st;
           restarts := n; nextCall := nextCall st; nextSpawn := nextSpawn st |}
  end.

(** The state after the module body ran: variables initialised and
    [startServoDaemon()] called once. *)
Definition init : state :=
  startServoDaemon
    {| servoDaemon := None; servoReady := false; servoCallbacks := ∅;
       servoSeq := 0; servoBuffer := []; timeouts := ∅; restarts := 0;
       nextCall := 0; nextSpawn := 0 |}.

Inductive event :=
| Cmd (cmd : jsstring)        (* a call of servoCmd *)
| Stdout (d : jsstring)       (* a chunk of the daemon's stdout, decoded *)
| Timeout (caller : nat)      (* the 3000 ms timer of that call fires *)
| Exit                        (* the daemon process exits *)
| Restart.                    (* the 1000 ms restart timer fires *)

Definition step (st : state) (e : event) : state * list action :=
  match e with
  | Cmd cmd => servoCmd cmd st
  | Stdout d => on_stdout d st
  | Timeout caller => on_timeout caller st
  | Exit => (on_exit st, [])
  | Restart => (on_restart st, [])
  end.

Fixpoint run (st : state) (tr : list event) : state * list action :=
  match tr with
  | [] => (st, [])
  | e :: tr' =>
      let '(st1, out1) := step st e in
      let '(st2, out2) := run st1 tr' in
      (st2, out1 ++ out2)
  end.

(** What a run did to one caller's promise, and which ids it handed out. *)
Definition settles (caller : nat) (out : list action) : list action :=
  omap (λ a, match a with
             | Resolve c _ _ | Reject c _ =>
                 if decide (c = caller) then Some a else None
             | StdinWrite _ _ _ => None
             end) out.

Definition issued (out : list action) : list (nat * N) :=
  omap (λ a, match a with
             | StdinWrite c id _ => Some (c, id)
             | _ => None
             end) out.

End Servo.

Module ServoFacts.
Import JS Servo.

#[local] Open Scope N_scope.
#[local] Arguments settles : simpl never.
#[local] Arguments issued : simpl never.

(** ** The counter below 2^53 *)

Lemma round53_small n : n < 2 ^ 53 -> round53 n = n.
Proof. intros H. unfold round53. apply N.ltb_lt in H. rewrite H. done. Qed.

Lemma round53_large n : 2 ^ 53 <= n -> 2 ^ 53 <= round53 n.
Proof.
  intros H. unfold round53.
  destruct (n <? 2 ^ 53) eqn:E; [apply N.ltb_lt in E; lia|].
  set (e := N.log2 n - 52).
  assert (Hlog : 53 <= N.log2 n).
  { change 53 with (N.log2 (2 ^ 53)). apply N.log2_le_mono, H. }
  assert (Hpos : 0 < n) by lia.
  pose proof (N.log2_spec n Hpos) as [Hlo _].
  assert (He : N.log2 n = 52 + e) by lia.
  rewrite He, N.pow_add_r in Hlo.
  assert (Hq : 2 ^ 52 <= n / 2 ^ e).
  { apply N.div_le_lower_bound; [apply N.pow_nonzero; lia|]. lia. }
  assert (H1 : 2 <= 2 ^ e).
  { change 2 with (2 ^ 1) at 1. apply N.pow_le_mono_r; lia. }
  assert (Hq' : n / 2 ^ e <=
                (if n mod 2 ^ e <? 2 ^ (e - 1) then n / 2 ^ e
                 else if 2 ^ (e - 1) <? n mod 2 ^ e then n / 2 ^ e + 1
                 else if N.even (n / 2 ^ e) then n / 2 ^ e else n / 2 ^ e + 1)).
  { repeat match goal with |- context [if ?b then _ else _] => destruct b end; lia. }
  cbv zeta.
  transitivity (2 ^ 52 * 2); [done|].
  apply N.mul_le_mono; lia.
Qed.

Lemma pre_increment_exact n :
  pre_increment n < 2 ^ 53 -> pre_increment n = n + 1.
Proof.
  unfold pre_increment. intros H.
  destruct (N.lt_ge_cases (n + 1) (2 ^ 53)) as [Hlt|Hge].
  - apply round53_small, Hlt.
  - pose proof (round53_large _ Hge). lia.
Qed.

(** ** Bookkeeping of a run *)

Lemma settles_app k out1 out2 : settles k (out1 ++ out2) = settles k out1 ++ settles k out2.
Proof. unfold settles. apply omap_app. Qed.

Lemma issued_app out1 out2 : issued (out1 ++ out2) = issued out1 ++ issued out2.
Proof. unfold issued. apply omap_app. Qed.

(** An action on a caller's promise is among the settlements of that caller. *)
Lemma settles_elem k a out :
  a ∈ out ->
  match a with Resolve c _ _ | Reject c _ => c = k | StdinWrite _ _ _ => False end ->
  a ∈ settles k out.
Proof.
  intros Hin Hk. unfold settles. apply list_elem_of_omap. exists a. split; [done|].
  destruct a; try done; rewrite decide_True; done.
Qed.

Lemma settles_inv k a out :
  a ∈ settles k out ->
  a ∈ out /\
  match a with Resolve c _ _ | Reject c _ => c = k | StdinWrite _ _ _ => False end.
Proof.
  unfold settles. intros (a' & Hin & Ha)%list_elem_of_omap.
  destruct a'; try discriminate; destruct (decide (_ = k)); try discriminate;
    injection Ha as <-; done.
Qed.

(** The three things a handler can do to the pending calls. *)
Inductive settling (caller : nat) (id : N) : action -> Prop :=
| settling_response response : settling caller id (Resolve caller id response)
| settling_timeout : settling caller id (Reject caller TimedOut).

Lemma settles_settling k k' i a :
  settling k i a -> settles k' [a] = if decide (k = k') then [a] else [].
Proof. intros []; unfold settles; cbn; destruct (decide (k = k')); done. Qed.

Lemma issued_settling k i a : settling k i a -> issued [a] = [].
Proof. intros []; done. Qed.

(** The invariant, over the parts of the state it speaks about. *)
Record inv (cbs : gmap N nat) (tmo : gmap nat N) (seq : N) (next : nat)
    (out : list action) : Prop := {
  inv_paired : forall i k, cbs !! i = Some k <-> tmo !! k = Some i;
  inv_pending : forall k i,
      tmo !! k = Some i -> (k, i) ∈ issued out /\ settles k out = [];
  inv_issued : forall k i,
      (k, i) ∈ issued out ->
      (k < next)%nat /\ 1 <= i <= seq /\
      (tmo !! k = Some i \/ (tmo !! k = None /\ length (settles k out) = 1%nat));
  inv_ids : StronglySorted N.lt (snd <$> issued out);
  inv_callers : StronglySorted lt (fst <$> issued out);
  inv_once : forall k, (length (settles k out) <= 1)%nat;
  inv_tag : forall k tag response,
      Resolve k tag response ∈ out -> (k, tag) ∈ issued out;
  inv_fresh : forall k, (next <= k)%nat -> settles k out = [] /\ tmo !! k = None;
  inv_refused : forall k i, Reject k NotReady ∈ out -> (k, i) ∉ issued out
}.

Lemma servo_inv_init : inv ∅ ∅ 0 0 [].
Proof.
  split; try done.
  - intros k i H. apply elem_of_nil in H. done.
  - constructor.
  - constructor.
  - intros k. unfold settles. cbn. lia.
  - intros k tag r H. apply elem_of_nil in H. done.
  - intros k i H. apply elem_of_nil in H. done.
Qed.

Lemma inv_settle cbs tmo seq next out k i a :
  inv cbs tmo seq next out ->
  tmo !! k = Some i ->
  settling k i a ->
  inv (delete i cbs) (delete k tmo) seq next (out ++ [a]).
Proof.
  intros [HA HB HC HD HE HF HG HH HI] Hk Ha.
  pose proof (HB _ _ Hk) as [Hki Hnone].
  pose proof (proj2 (HA _ _) Hk) as Hcb.
  split.
  - intros i' k'.
    destruct (decide (i = i')) as [<-|Hi], (decide (k = k')) as [<-|Hk'];
      rewrite ?lookup_delete_eq, ?lookup_delete_ne by done.
    + done.
    + split; [done|]. intros H. apply HA in H. congruence.
    + split; [|done]. intros H. apply HA in H. congruence.
    + apply HA.
  - intros k' i'. destruct (decide (k = k')) as [<-|Hne].
    { rewrite lookup_delete_eq. done. }
    rewrite lookup_delete_ne by done. intros H.
    rewrite issued_app, (issued_settling _ _ _ Ha), app_nil_r.
    rewrite settles_app, (settles_settling _ k' _ _ Ha), decide_False by done.
    rewrite app_nil_r. apply HB, H.
  - intros k' i'. rewrite issued_app, (issued_settling _ _ _ Ha), app_nil_r.
    intros H. destruct (HC _ _ H) as (Hlt & Hseq & Hst).
    split; [done|]. split; [done|].
    rewrite settles_app, (settles_settling _ k' _ _ Ha).
    destruct (decide (k = k')) as [<-|Hne].
    + right. rewrite lookup_delete_eq, Hnone. done.
    + rewrite lookup_delete_ne, app_nil_r by done. exact Hst.
  - rewrite issued_app, (issued_settling _ _ _ Ha), app_nil_r. exact HD.
  - rewrite issued_app, (issued_settling _ _ _ Ha), app_nil_r. exact HE.
  - intros k'. rewrite settles_app, (settles_settling _ k' _ _ Ha).
    destruct (decide (k = k')) as [<-|Hne]; [rewrite Hnone; cbn; lia|].
    rewrite app_nil_r. apply HF.
  - intros k' tag r. rewrite elem_of_app, list_elem_of_singleton.
    rewrite issued_app, (issued_settling _ _ _ Ha), app_nil_r.
    intros [H|H]; [eapply HG, H|]. rewrite <- H in Ha. inversion Ha; subst.
    exact Hki.
  - intros k' Hle. destruct (HC _ _ Hki) as (Hlt & _).
    rewrite settles_app, (settles_settling _ k' _ _ Ha), decide_False by lia.
    rewrite app_nil_r, lookup_delete_ne by lia. apply HH, Hle.
  - intros k' i'. rewrite elem_of_app, list_elem_of_singleton.
    rewrite issued_app, (issued_settling _ _ _ Ha), app_nil_r.
    intros [H|H]; [apply HI, H|]. rewrite <- H in Ha. inversion Ha.
Qed.

Lemma inv_issue cbs tmo seq next out line :
  inv cbs tmo seq next out ->
  inv (<[seq + 1 := next]> cbs) (<[next := seq + 1]> tmo) (seq + 1) (S next)
      (out ++ [StdinWrite next (seq + 1) line]).
Proof.
  intros [HA HB HC HD HE HF HG HH HI].
  destruct (HH next (le_n _)) as [Hnone Hfree].
  assert (Hold : forall k i, tmo !! k = Some i -> (k < next)%nat /\ i <= seq).
  { intros k i H. apply HB in H as [H _]. apply HC in H. lia. }
  assert (Hiss : issued [StdinWrite next (seq + 1) line] = [(next, seq + 1)]) by done.
  assert (Hset : forall k, settles k [StdinWrite next (seq + 1) line] = []) by done.
  split.
  - intros i k.
    destruct (decide (seq + 1 = i)) as [<-|Hi], (decide (next = k)) as [<-|Hk];
      rewrite ?lookup_insert_eq, ?lookup_insert_ne by done.
    + done.
    + split; [congruence|]. intros H. apply Hold in H. lia.
    + split; [|congruence]. intros H. apply HA, Hold in H. lia.
    + apply HA.
  - intros k i. rewrite issued_app, Hiss, settles_app, Hset, app_nil_r, elem_of_app.
    destruct (decide (next = k)) as [<-|Hk].
    + rewrite lookup_insert_eq. intros [= <-]. split; [|done].
      right. apply list_elem_of_singleton. done.
    + rewrite lookup_insert_ne by done. intros H. apply HB in H as [H1 H2]. auto.
  - intros k i. rewrite issued_app, Hiss, settles_app, Hset, app_nil_r, elem_of_app.
    rewrite list_elem_of_singleton. intros [H|[= -> ->]].
    + destruct (HC _ _ H) as (Hlt & Hseq & Hst).
      rewrite lookup_insert_ne by lia. repeat split; try lia. exact Hst.
    + rewrite lookup_insert_eq. repeat split; try lia. left. done.
  - rewrite issued_app, Hiss, fmap_app. apply StronglySorted_app_2; [|done|].
    + intros i1 i2 [[k1 i1'] [-> H1]]%list_elem_of_fmap H2.
      apply list_elem_of_singleton in H2 as ->. apply HC in H1. cbn. lia.
    + repeat constructor.
  - rewrite issued_app, Hiss, fmap_app. apply StronglySorted_app_2; [|done|].
    + intros k1 k2 [[k1' i1] [-> H1]]%list_elem_of_fmap H2.
      apply list_elem_of_singleton in H2 as ->. apply HC in H1. cbn. lia.
    + repeat constructor.
  - intros k. rewrite settles_app, Hset, app_nil_r. apply HF.
  - intros k tag r. rewrite elem_of_app, list_elem_of_singleton, issued_app, elem_of_app.
    intros [H|H]; [|discriminate]. left. eapply HG, H.
  - intros k Hle. rewrite settles_app, Hset, app_nil_r, lookup_insert_ne by lia.
    apply HH. lia.
  - intros k i. rewrite elem_of_app, list_elem_of_singleton, issued_app, Hiss, elem_of_app.
    rewrite list_elem_of_singleton. intros [H|H]; [|discriminate].
    intros [H'|[= -> ->]]; [eapply HI; eauto|].
    apply (settles_elem next) in H; [|done]. rewrite Hnone in H.
    apply elem_of_nil in H. done.
Qed.

Lemma inv_refuse cbs tmo seq next out :
  inv cbs tmo seq next out ->
  inv cbs tmo seq (S next) (out ++ [Reject next NotReady]).
Proof.
  intros [HA HB HC HD HE HF HG HH HI].
  destruct (HH next (le_n _)) as [Hnone Hfree].
  assert (Hiss : issued [Reject next NotReady] = []) by done.
  assert (Hset : forall k, settles k [Reject next NotReady] =
                           if decide (next = k) then [Reject next NotReady] else []).
  { intros k. unfold settles. cbn. destruct (decide (next = k)); done. }
  split.
  - exact HA.
  - intros k i H. rewrite issued_app, Hiss, app_nil_r, settles_app, Hset.
    destruct (decide (next = k)) as [<-|Hk]; [congruence|].
    rewrite app_nil_r. apply HB, H.
  - intros k i. rewrite issued_app, Hiss, app_nil_r, settles_app, Hset. intros H.
    destruct (HC _ _ H) as (Hlt & Hseq & Hst).
    rewrite decide_False, app_nil_r by lia. repeat split; try lia. exact Hst.
  - rewrite issued_app, Hiss, app_nil_r. exact HD.
  - rewrite issued_app, Hiss, app_nil_r. exact HE.
  - intros k. rewrite settles_app, Hset.
    destruct (decide (next = k)) as [<-|Hk]; [rewrite Hnone; cbn; lia|].
    rewrite app_nil_r. apply HF.
  - intros k tag r. rewrite elem_of_app, list_elem_of_singleton, issued_app, Hiss, app_nil_r.
    intros [H|H]; [|discriminate]. eapply HG, H.
  - intros k Hle. rewrite settles_app, Hset, decide_False, app_nil_r by lia.
    apply HH. lia.
  - intros k i. rewrite elem_of_app, list_elem_of_singleton, issued_app, Hiss, app_nil_r.
    intros [H|[= ->]]; [apply HI, H|]. intros H. apply HC in H. lia.
Qed.

(** ** The handlers keep the invariant *)

Definition sinv (st : state) (out : list action) : Prop :=
  inv (servoCallbacks st) (timeouts st) (servoSeq st) (nextCall st) out.

Lemma on_line_seq st line : servoSeq (fst (on_line st line)) = servoSeq st.
Proof.
  unfold on_line. destruct (trim line); [done|].
  destruct (jsstring_eqb _ _); [done|].
  destruct (match_response _) as [[m1 m2]|]; [|done].
  destruct (Number_of_digits m1) as [tag|]; [|done].
  destruct (servoCallbacks st !! tag); done.
Qed.

Lemma on_line_inv st out line :
  sinv st out -> sinv (fst (on_line st line)) (out ++ snd (on_line st line)).
Proof.
  intros H. unfold on_line. destruct (trim line); cbn [fst snd].
  { rewrite app_nil_r. exact H. }
  destruct (jsstring_eqb _ _); cbn [fst snd].
  { rewrite app_nil_r. exact H. }
  destruct (match_response _) as [[m1 m2]|]; cbn [fst snd];
    [|rewrite app_nil_r; exact H].
  destruct (Number_of_digits m1) as [tag|]; cbn [fst snd];
    [|rewrite app_nil_r; exact H].
  destruct (servoCallbacks st !! tag) as [caller|] eqn:Hcb; cbn [fst snd];
    [|rewrite app_nil_r; exact H].
  apply (inv_settle _ _ _ _ _ caller tag); [exact H| |constructor].
  apply (inv_paired _ _ _ _ _ H), Hcb.
Qed.

Lemma on_lines_seq st lines : servoSeq (fst (on_lines st lines)) = servoSeq st.
Proof.
  revert st. induction lines as [|line lines IH]; intros st; cbn; [done|].
  pose proof (on_line_seq st line) as H1.
  destruct (on_line st line) as [st1 out1]. specialize (IH st1).
  destruct (on_lines st1 lines). cbn in *. congruence.
Qed.

Lemma on_lines_inv st out lines :
  sinv st out -> sinv (fst (on_lines st lines)) (out ++ snd (on_lines st lines)).
Proof.
  revert st out. induction lines as [|line lines IH]; intros st out H; cbn [on_lines].
  - cbn. rewrite app_nil_r. exact H.
  - pose proof (on_line_inv st out line H) as H1.
    destruct (on_line st line) as [st1 out1]. cbn [fst snd] in H1.
    specialize (IH _ _ H1). destruct (on_lines st1 lines) as [st2 out2].
    cbn [fst snd] in *. rewrite app_assoc. exact IH.
Qed.

Lemma step_seq st e :
  match e with
  | Cmd _ => True
  | _ => servoSeq (fst (step st e)) = servoSeq st
  end.
Proof.
  destruct e as [cmd|d|caller| |]; cbn [step fst]; try done.
  - unfold on_stdout. destruct (pop _) as [incomplete lines].
    rewrite on_lines_seq. done.
  - unfold on_timeout. destruct (timeouts st !! caller); done.
  - unfold on_restart. destruct (restarts st); done.
Qed.

(** Where the counter is still exact it was exact before. *)
Lemma step_below st e :
  servoSeq (fst (step st e)) < 2 ^ 53 -> servoSeq st < 2 ^ 53.
Proof.
  pose proof (step_seq st e) as H.
  destruct e as [cmd|d|caller| |]; try (rewrite H; done).
  cbn [step]. unfold servoCmd.
  destruct (negb (servoReady st) || negb (bool_decide (is_Some (servoDaemon st))));
    cbn [fst servoSeq]; [done|].
  intros Hlt. rewrite pre_increment_exact in Hlt by exact Hlt. lia.
Qed.

Lemma run_below tr st :
  servoSeq (fst (run st tr)) < 2 ^ 53 -> servoSeq st < 2 ^ 53.
Proof.
  revert st. induction tr as [|e tr IH]; intros st; cbn [run]; [done|].
  pose proof (step_below st e) as H1.
  destruct (step st e) as [st1 out1]. specialize (IH st1).
  destruct (run st1 tr) as [st2 out2]. cbn [fst] in *. auto.
Qed.

Lemma step_inv st out e :
  sinv st out ->
  servoSeq (fst (step st e)) < 2 ^ 53 ->
  sinv (fst (step st e)) (out ++ snd (step st e)).
Proof.
  intros H Hlt. destruct e as [cmd|d|caller| |]; cbn [step] in *.
  - unfold servoCmd in *.
    destruct (negb (servoReady st) || negb (bool_decide (is_Some (servoDaemon st))));
      cbn [fst snd] in *.
    + apply inv_refuse, H.
    + cbn [servoSeq] in Hlt. unfold sinv. cbn [servoCallbacks timeouts servoSeq nextCall].
      rewrite (pre_increment_exact _ Hlt). apply inv_issue, H.
  - unfold on_stdout. destruct (pop _) as [incomplete lines].
    apply on_lines_inv, H.
  - unfold on_timeout. destruct (timeouts st !! caller) as [id|] eqn:Ht; cbn [fst snd].
    + apply (inv_settle _ _ _ _ _ caller id); [exact H|exact Ht|constructor].
    + rewrite app_nil_r. exact H.
  - cbn. rewrite app_nil_r. exact H.
  - cbn [fst snd]. rewrite app_nil_r. unfold on_restart.
    destruct (restarts st); exact H.
Qed.

Lemma run_inv tr st out :
  sinv st out ->
  servoSeq (fst (run st tr)) < 2 ^ 53 ->
  sinv (fst (run st tr)) (out ++ snd (run st tr)).
Proof.
  revert st out. induction tr as [|e tr IH]; intros st out H Hlt; cbn [run] in *.
  - cbn. rewrite app_nil_r. exact H.
  - pose proof (step_inv st out e H) as H1.
    pose proof (run_below tr (fst (step st e))) as Hb.
    destruct (step st e) as [st1 out1]. cbn [fst snd] in *.
    specialize (IH st1 (out ++ out1)).
    destruct (run st1 tr) as [st2 out2]. cbn [fst snd] in *.
    rewrite app_assoc. apply IH; auto.
Qed.

Lemma pre_increment_above n : n < 2 ^ 53 -> n < pre_increment n.
Proof.
  intros H. unfold pre_increment.
  destruct (N.lt_ge_cases (n + 1) (2 ^ 53)) as [Hlt|Hge].
  - rewrite round53_small by exact Hlt. lia.
  - pose proof (round53_large _ Hge). lia.
Qed.

Lemma sorted_callers_functional (l : list (nat * N)) k i i' :
  StronglySorted lt (fst <$> l) -> (k, i) ∈ l -> (k, i') ∈ l -> i = i'.
Proof.
  induction l as [|[k0 i0] l IH]; cbn; intros Hs H1 H2.
  - apply elem_of_nil in H1. done.
  - apply StronglySorted_cons in Hs as [Hall Hs]. rewrite Forall_forall in Hall.
    apply elem_of_cons in H1, H2.
    destruct H1 as [E1|H1], H2 as [E2|H2]; [congruence| | |auto].
    + inversion E1; subst.
      apply (list_elem_of_fmap_2 fst) in H2. apply Hall in H2. cbn in H2. lia.
    + inversion E2; subst.
      apply (list_elem_of_fmap_2 fst) in H1. apply Hall in H1. cbn in H1. lia.
Qed.

Lemma sorted_ids_functional (l : list (nat * N)) k k' i :
  StronglySorted N.lt (snd <$> l) -> (k, i) ∈ l -> (k', i) ∈ l -> k = k'.
Proof.
  induction l as [|[k0 i0] l IH]; cbn; intros Hs H1 H2.
  - apply elem_of_nil in H1. done.
  - apply StronglySorted_cons in Hs as [Hall Hs]. rewrite Forall_forall in Hall.
    apply elem_of_cons in H1, H2.
    destruct H1 as [E1|H1], H2 as [E2|H2]; [congruence| | |auto].
    + inversion E1; subst.
      apply (list_elem_of_fmap_2 snd) in H2. apply Hall in H2. cbn in H2. lia.
    + inversion E2; subst.
      apply (list_elem_of_fmap_2 snd) in H1. apply Hall in H1. cbn in H1. lia.
Qed.

(** C1 — sequence-id correlation.  In every run of the actuator link in
    which the counter is still an exact integer (below 2^53), whatever the
    interleaving of calls, daemon output chunks, timeouts, daemon exits and
    restarts: (1) no promise is settled twice; (2) a call that got an id is
    either still pending, with its callback stored under its own id and its
    own timer armed, whose firing rejects it, or settled exactly once and
    gone from the map and the timers; (3) what settles it is a response line
    whose tag is its own id, or its own timeout; (4) a response never
    resolves a caller under another id; (5) the map holds only pending
    calls, under their own ids; (6) ids strictly increase along the run, so
    none is reused, and the id of the next call is not a key of the map. *)
Theorem C1_response_reaches_its_own_caller (history : list event) :
  let st := fst (run init history) in
  let out := snd (run init history) in
  servoSeq st < 2 ^ 53 ->
  (forall k, (length (settles k out) <= 1)%nat) /\
  (forall k i, (k, i) ∈ issued out ->
      (settles k out = [] /\ servoCallbacks st !! i = Some k /\
       timeouts st !! k = Some i /\
       snd (step st (Timeout k)) = [Reject k TimedOut]) \/
      (length (settles k out) = 1%nat /\ servoCallbacks st !! i = None /\
       timeouts st !! k = None)) /\
  (forall k i a, (k, i) ∈ issued out -> a ∈ settles k out ->
      (exists response, a = Resolve k i response) \/ a = Reject k TimedOut) /\
  (forall k tag response, Resolve k tag response ∈ out -> (k, tag) ∈ issued out) /\
  (forall i k, servoCallbacks st !! i = Some k ->
      (k, i) ∈ issued out /\ settles k out = []) /\
  StronglySorted N.lt (snd <$> issued out) /\
  StronglySorted lt (fst <$> issued out) /\
  servoCallbacks st !! pre_increment (servoSeq st) = None.
Proof.
  intros st out Hlt.
  assert (Hinv : sinv st out).
  { apply (run_inv history init []); [apply servo_inv_init|exact Hlt]. }
  destruct Hinv as [HA HB HC HD HE HF HG HH HI].
  split; [exact HF|]. split; [|split; [|split; [exact HG|split; [|split; [exact HD|split; [exact HE|]]]]]].
  - intros k i Hin. destruct (HC _ _ Hin) as (_ & _ & [Hp|[Hn Hone]]).
    + left. destruct (HB _ _ Hp) as [_ Hnone]. repeat split; try done.
      * apply HA, Hp.
      * cbn. unfold on_timeout. fold st. rewrite Hp. done.
    + right. repeat split; try done.
      destruct (servoCallbacks st !! i) as [k'|] eqn:Hcb; [|done].
      apply HA in Hcb. pose proof (HB _ _ Hcb) as [Hin' _].
      rewrite (sorted_ids_functional _ _ _ _ HD Hin Hin') in Hn. congruence.
  - intros k i a Hin Ha. apply settles_inv in Ha as [Ha Hk].
    destruct a as [c id line|c tag response|c [|]]; try done; subst c.
    + left. exists response.
      rewrite (sorted_callers_functional _ _ _ _ HE Hin (HG _ _ _ Ha)). done.
    + right. done.
    + exfalso. eapply HI; eauto.
  - intros i k Hcb. apply HA in Hcb. apply HB in Hcb. exact Hcb.
  - destruct (servoCallbacks st !! pre_increment (servoSeq st)) as [k|] eqn:Hcb; [|done].
    apply HA, HB in Hcb as [Hin _]. apply HC in Hin.
    pose proof (pre_increment_above _ Hlt). lia.
Qed.

(** A run with two commands in flight, answered out of order across chunk
    boundaries, the first one timing out. *)
Lemma C1_response_reaches_its_own_caller_witness :
  let history :=
    [Stdout (str "READY" ++ [10]); Cmd (str "SET 0 90"); Cmd (str "SET 1 45");
     Stdout (str "SEQ:2 O"); Timeout 0; Stdout (str "K 45" ++ [10])] in
  servoSeq (fst (run init history)) < 2 ^ 53 /\
  snd (run init history) =
    [StdinWrite 0 1 (str "SEQ:1 SET 0 90" ++ [10]);
     StdinWrite 1 2 (str "SEQ:2 SET 1 45" ++ [10]);
     Reject 0 TimedOut; Resolve 1 2 (str "OK 45")] /\
  forall k, (length (settles k (snd (run init history))) <= 1)%nat.
Proof.
  intros history.
  assert (Hlt : servoSeq (fst (run init history)) < 2 ^ 53) by (vm_compute; done).
  split; [exact Hlt|]. split; [vm_compute; done|].
  exact (proj1 (C1_response_reaches_its_own_caller history Hlt)).
Defined.

(** C10 — a call made while the link is not ready (the ready flag is false
    or the daemon handle is null) rejects its promise at once with "Servo
    daemon not ready" and does nothing else: no id is consumed, no callback
    stored, no timer armed, nothing written to stdin.  Only the promise
    itself is new. *)
Theorem C10_not_ready_call_only_rejects (st : state) (cmd : jsstring) :
  servoReady st = false \/ servoDaemon st = None ->
  snd (servoCmd cmd st) = [Reject (nextCall st) NotReady] /\
  fst (servoCmd cmd st) =
    {| servoDaemon := servoDaemon st; servoReady := servoReady st;
       servoCallbacks := servoCallbacks st; servoSeq := servoSeq st;
       servoBuffer := servoBuffer st; timeouts := timeouts st;
       restarts := restarts st; nextCall := S (nextCall st);
       nextSpawn := nextSpawn st |}.
Proof.
  intros H. unfold servoCmd.
  assert (E : negb (servoReady st) || negb (bool_decide (is_Some (servoDaemon st))) = true).
  { destruct H as [-> | ->]; [done|]. rewrite orb_true_r. done. }
  rewrite E. done.
Qed.

Lemma C10_not_ready_call_only_rejects_witness :
  servoReady init = false /\
  snd (servoCmd (str "SET 0 90") init) = [Reject 0 NotReady] /\
  servoSeq (fst (servoCmd (str "SET 0 90") init)) = 0 /\
  servoCallbacks (fst (servoCmd (str "SET 0 90") init)) = ∅.
Proof.
  pose proof (C10_not_ready_call_only_rejects init (str "SET 0 90") (or_introl eq_refl))
    as [Hout Hst].
  split; [reflexivity|]. split; [exact Hout|].
  rewrite Hst. split; reflexivity.
Defined.

End ServoFacts.

(** * Numbers: binary64 arithmetic, [Math], [parseFloat] *)

Module Num.
Import JS.

#[local] Open Scope Z_scope.

(** A JavaScript number is an IEEE 754 binary64 value.  The operations are
    those of the Standard Library's executable specification of binary
    floating point, at precision 53 and maximal exponent 1024; every value
    built here is in canonical form, so equal numbers are equal terms (but
    for the two zeros). *)
Abbreviation number := spec_float.

Definition prec : Z := 53.
Definition emax : Z := 1024.

Definition add : number -> number -> number := SFadd prec emax.
Definition sub : number -> number -> number := SFsub prec emax.
Definition mul : number -> number -> number := SFmul prec emax.
Definition neg : number -> number := SFopp.

Definition of_Z (z : Z) : number := binary_normalize prec emax z 0 false.

(** The number nearest to [(-1)^s * m * 10^e]: what a decimal literal
    denotes.  A quotient is rounded once, from its exact value. *)
Definition of_decimal (s : bool) (m : N) (e : Z) : number :=
  match m with
  | N0 => S754_zero s
  | Npos p =>
      if 0 <=? e then binary_normalize prec emax (cond_Zopp s (Zpos p * 10 ^ e)) 0 s
      else
        let '(q, e2, loc) := SFdiv_core_binary prec emax (Zpos p) 0 (10 ^ (- e)) 0 in
        binary_round_aux prec emax s q e2 loc
  end.

(** [Number.isFinite] *)
Definition isFinite (x : number) : bool :=
  match x with
  | S754_zero _ | S754_finite _ _ _ => true
  | S754_infinity _ | S754_nan => false
  end.

(** [Math.max] and [Math.min] of two arguments: NaN if either is, and +0
    counts as larger than -0. *)
Definition Math_max (x y : number) : number :=
  match SFcompare x y with
  | None => S754_nan
  | Some Lt => y
  | Some Gt => x
  | Some Eq => match x with S754_zero true => y | _ => x end
  end.

Definition Math_min (x y : number) : number :=
  match SFcompare x y with
  | None => S754_nan
  | Some Lt => x
  | Some Gt => y
  | Some Eq => match y with S754_zero true => y | _ => x end
  end.

(** [Math.round]: the nearest integer, halves towards +Infinity; a result
    of zero keeps the sign of the argument. *)
Definition Math_round (x : number) : number :=
  match x with
  | S754_finite s m e =>
      if 0 <=? e then x
      else binary_normalize prec emax
             (Z.shiftr (2 * cond_Zopp s (Zpos m) + 2 ^ (- e)) (1 - e)) 0 s
  | _ => x
  end.

(** [x !== y] on numbers. *)
Definition strict_ne (x y : number) : bool := negb (SFeqb x y).

(** [parseFloat(string)]: leading white space is skipped, then the longest
    prefix that is a decimal literal counts: an optional sign, then
    "Infinity", or digits with an optional fraction, or a fraction alone,
    and an exponent if one is complete.  No such prefix gives NaN. *)
Definition signed_integer (s : jsstring) : option Z :=
  let '(minus, s1) :=
    match s with
    | 43%N :: r => (false, r)
    | 45%N :: r => (true, r)
    | _ => (false, s)
    end in
  match fst (span isDigit s1) with
  | [] => None
  | digits => Some (cond_Zopp minus (Z.of_N (decimal digits)))
  end.

Definition exponent_part (s : jsstring) : Z :=
  match s with
  | 101%N :: r | 69%N :: r => default 0 (signed_integer r)
  | _ => 0
  end.

Definition parseFloat (s : jsstring) : number :=
  let '(minus, s1) :=
    match trimStart s with
    | 43%N :: r => (false, r)
    | 45%N :: r => (true, r)
    | t => (false, t)
    end in
  match skip_prefix (str "Infinity") s1 with
  | Some _ => S754_infinity minus
  | None =>
      let '(int_digits, r1) := span isDigit s1 in
      let '(frac_digits, r2) :=
        match r1 with
        | 46%N :: r => span isDigit r
        | _ => ([], r1)
        end in
      match int_digits ++ frac_digits with
      | [] => S754_nan
      | digits =>
          of_decimal minus (decimal digits)
            (exponent_part r2 - Z.of_nat (length frac_digits))
      end
  end.

End Num.

(** * The persisted servo position ([readServoState]) *)

Module StateFile.
Import JS Num.

Definition SERVO_MIN : number := of_Z 0.
Definition SERVO_MAX : number := of_Z 270.
Definition SERVO_CENTER : number := of_Z 135.

Record servo_state := { horizontal : number; vertical : number }.

(** [Number.isFinite(x) ? Math.max(SERVO_MIN, Math.min(SERVO_MAX, x)) : SERVO_CENTER] *)
Definition sanitize (x : number) : number :=
  if isFinite x then Math_max SERVO_MIN (Math_min SERVO_MAX x) else SERVO_CENTER.

(** [parts[i]] handed to [parseFloat]: a missing element is [undefined],
    which [parseFloat] reads as the string "undefined". *)
Definition part (parts : list jsstring) (i : nat) : jsstring :=
  default (str "undefined") (parts !! i).

(** [function readServoState()].  The argument is what
    [fs.readFileSync(SERVO_STATE_FILE, "utf8")] returns, [None] when it
    throws; nothing else in the [try] block can throw. *)
Definition readServoState (file : option jsstring) : servo_state :=
  match file with
  | None => {| horizontal := SERVO_CENTER; vertical := SERVO_CENTER |}
  | Some content =>
      let data := trim content in
      let parts := split 44 data in
      let h := parseFloat (part parts 0) in
      let v := parseFloat (part parts 1) in
      {| horizontal := sanitize h; vertical := sanitize v |}
  end.

(** The two numbers [readServoState] parses out of a readable file. *)
Definition parsed (content : jsstring) : number * number :=
  let parts := split 44 (trim content) in
  (parseFloat (part parts 0), parseFloat (part parts 1)).

End StateFile.

Module StateFileFacts.
Import JS Num StateFile.

Lemma sanitize_below x :
  isFinite x = true -> SFltb x SERVO_MIN = true -> sanitize x = SERVO_MIN.
Proof. destruct x as [[]|[]| |[] m e]; done. Qed.

Lemma sanitize_above x :
  isFinite x = true -> SFltb SERVO_MAX x = true -> sanitize x = SERVO_MAX.
Proof.
  intros Hfin Hlt. unfold sanitize, Math_min. rewrite Hfin.
  unfold SFltb in Hlt. destruct (SFcompare SERVO_MAX x) as [[]|]; done.
Qed.

Lemma sanitize_not_finite x : isFinite x = false -> sanitize x = SERVO_CENTER.
Proof. intros H. unfold sanitize. rewrite H. done. Qed.

(** C8, as the code has it — a value outside [SERVO_MIN, SERVO_MAX] read
    from the position file is clamped to the nearer bound: a finite value
    below 0 reads as 0 and a finite value above 270 reads as 270, on either
    axis.  Only a value that is not a finite number (text that is not a
    number, a missing second value, Infinity) reads as the rest position
    135, and so do both axes of a file that cannot be read. *)
Theorem C8_out_of_range_is_clamped (content : jsstring) :
  let h := fst (parsed content) in
  let v := snd (parsed content) in
  let st := readServoState (Some content) in
  (isFinite h = true -> SFltb h SERVO_MIN = true -> horizontal st = SERVO_MIN) /\
  (isFinite h = true -> SFltb SERVO_MAX h = true -> horizontal st = SERVO_MAX) /\
  (isFinite h = false -> horizontal st = SERVO_CENTER) /\
  (isFinite v = true -> SFltb v SERVO_MIN = true -> vertical st = SERVO_MIN) /\
  (isFinite v = true -> SFltb SERVO_MAX v = true -> vertical st = SERVO_MAX) /\
  (isFinite v = false -> vertical st = SERVO_CENTER) /\
  readServoState None = {| horizontal := SERVO_CENTER; vertical := SERVO_CENTER |}.
Proof.
  cbv zeta. unfold parsed, readServoState. cbn [fst snd horizontal vertical].
  repeat split.
  - apply sanitize_below.
  - apply sanitize_above.
  - apply sanitize_not_finite.
  - apply sanitize_below.
  - apply sanitize_above.
  - apply sanitize_not_finite.
Qed.

(** The file "300,-7": both values are out of range, and neither axis reads
    as the rest position: the horizontal reads 270, the vertical 0. *)
Lemma C8_out_of_range_is_not_rest :
  let st := readServoState (Some (str "300,-7")) in
  parsed (str "300,-7") = (of_Z 300, of_Z (-7)) /\
  SFltb SERVO_MAX (of_Z 300) = true /\ SFltb (of_Z (-7)) SERVO_MIN = true /\
  horizontal st = SERVO_MAX /\ horizontal st <> SERVO_CENTER /\
  vertical st = SERVO_MIN /\ vertical st <> SERVO_CENTER.
Proof. vm_compute. repeat split; discriminate. Qed.

Example readServoState_in_range :
  readServoState (Some (str "100,135" ++ [10%N])) =
  {| horizontal := of_Z 100; vertical := of_Z 135 |}.
Proof. vm_compute. done. Qed.

Example readServoState_garbage :
  readServoState (Some (str "left")) =
  {| horizontal := SERVO_CENTER; vertical := SERVO_CENTER |}.
Proof. vm_compute. done. Qed.

Example readServoState_overflow :
  horizontal (readServoState (Some (str "1e999,10"))) = SERVO_CENTER.
Proof. vm_compute. done. Qed.

Lemma C8_out_of_range_is_clamped_witness :
  horizontal (readServoState (Some (str "300,-7"))) = SERVO_MAX /\
  vertical (readServoState (Some (str "300,-7"))) = SERVO_MIN.
Proof.
  pose proof (C8_out_of_range_is_clamped (str "300,-7")) as H. cbv zeta in H.
  destruct H as (_ & Hh & _ & Hv & _).
  split; [apply Hh | apply Hv]; vm_compute; reflexivity.
Defined.

End StateFileFacts.

(** * Tracking controller of index.js: P-control and the in-flight guard *)

Module Track.
Import JS Num StateFile.

Definition TRACK_GAIN : number := of_Z 70.
Definition TRACK_MAX_STEP : number := of_Z 10.
Definition SERVO_H_CHANNEL : N := 0%N.
Definition SERVO_V_CHANNEL : N := 1%N.

(** The literal [0.5]. *)
Definition one_half : number := of_decimal false 5 (-1).

(** The P-controller of the data handler, for one axis:
    [offset = c - 0.5; raw = -offset * TRACK_GAIN;
     d = Math.max(-TRACK_MAX_STEP, Math.min(TRACK_MAX_STEP, raw));
     Math.max(SERVO_MIN, Math.min(SERVO_MAX, Math.round(position + d)))]. *)
Definition raw_delta (c : number) : number :=
  mul (neg (sub c one_half)) TRACK_GAIN.

Definition delta (c : number) : number :=
  Math_max (neg TRACK_MAX_STEP) (Math_min TRACK_MAX_STEP (raw_delta c)).

Definition target (position c : number) : number :=
  Math_max SERVO_MIN (Math_min SERVO_MAX (Math_round (add position (delta c)))).

(** The same with the steps in the order the specification lists them:
    clamp the sum to the axis range, then round. *)
Definition target_clamp_then_round (position c : number) : number :=
  Math_round (Math_max SERVO_MIN (Math_min SERVO_MAX (add position (delta c)))).

(** What the move would be without the step limit. *)
Definition target_unlimited (position c : number) : number :=
  Math_max SERVO_MIN (Math_min SERVO_MAX (Math_round (add position (raw_delta c)))).

(** A line of the tracker as the handler uses it: the truthiness of
    [msg.ready], [msg.error], [msg.active] and [msg.refine], and [msg.cx],
    [msg.cy] as the subtraction converts them to numbers (NaN if missing). *)
Record msg := {
  ready : bool; error : bool; active : bool;
  cx : number; cy : number; refine : bool
}.

(** The result of [JSON.parse(line)]: a syntax error (caught, the line is
    skipped), [null] (reading a property of it throws inside the handler), or
    a value whose properties can be read. *)
Inductive json := Invalid | Null | Obj (m : msg).

Inductive command := SET (channel : N) (angle : number) | OFF (channel : N).

Inductive action :=
| ServoCmd (promise : nat) (c : command)     (* servoCmd(...), by the promise it returns *)
| WriteServoState (h v : number)             (* writeServoState(newH, newV) *)
| RunFaceTrack                               (* runFaceTrack(), not awaited *)
| LogServoError
| Kill (pid : nat)
| Spawn (pid : nat).

(** An invocation of the async data handler suspended at
    [await Promise.all(cmds)], with what it needs to go on. *)
Record suspended := {
  cmds : list nat;            (* the promises of this move *)
  awaiting : list nat;        (* those not fulfilled yet *)
  newH : number;
  newV : number;
  refine_after : bool;        (* msg.refine of the line being handled *)
  remaining : list jsstring   (* the lines of the chunk behind that line *)
}.

Record state := {
  motionTrackerProcess : option nat;
  motionTrackingActive : bool;
  motionTrackerBuffer : jsstring;
  servoTrackingEnabled : bool;
  motionTrackerMoveInFlight : bool;
  faceTrackRunning : bool;           (* faceTrackJob && faceTrackJob.status === "running" *)
  servoFile : number * number;       (* the two numbers SERVO_STATE_FILE reads as *)
  servoVOffTimer : bool;             (* servoVOffTimer.ref is an armed timer *)
  handlers : list suspended;
  nextPromise : nat;
  nextPid : nat
}.

(** The state after the module body ran: [writeServoState(SERVO_CENTER,
    SERVO_CENTER)] was called, tracking is off. *)
Definition init : state :=
  {| motionTrackerProcess := None; motionTrackingActive := false;
     motionTrackerBuffer := []; servoTrackingEnabled := false;
     motionTrackerMoveInFlight := false; faceTrackRunning := false;
     servoFile := (SERVO_CENTER, SERVO_CENTER); servoVOffTimer := false;
     handlers := []; nextPromise := 0; nextPid := 0 |}.

Definition set_tracker (process : option nat) (active : bool) (buffer : jsstring)
    (st : state) : state :=
  {| motionTrackerProcess := process; motionTrackingActive := active;
     motionTrackerBuffer := buffer;
     servoTrackingEnabled := servoTrackingEnabled st;
     motionTrackerMoveInFlight := motionTrackerMoveInFlight st;
     faceTrackRunning := faceTrackRunning st; servoFile := servoFile st;
     servoVOffTimer := servoVOffTimer st; handlers := handlers st;
     nextPromise := nextPromise st; nextPid := nextPid st |}.

Definition set_enabled (b : bool) (st : state) : state :=
  {| motionTrackerProcess := motionTrackerProcess st;
     motionTrackingActive := motionTrackingActive st;
     motionTrackerBuffer := motionTrackerBuffer st;
     servoTrackingEnabled := b;
     motionTrackerMoveInFlight := motionTrackerMoveInFlight st;
     faceTrackRunning := faceTrackRunning st; servoFile := servoFile st;
     servoVOffTimer := servoVOffTimer st; handlers := handlers st;
     nextPromise := nextPromise st; nextPid := nextPid st |}.

Definition set_in_flight (b : bool) (st : state) : state :=
  {| motionTrackerProcess := motionTrackerProcess st;
     motionTrackingActive := motionTrackingActive st;
     motionTrackerBuffer := motionTrackerBuffer st;
     servoTrackingEnabled := servoTrackingEnabled st;
     motionTrackerMoveInFlight := b;
     faceTrackRunning := faceTrackRunning st; servoFile := servoFile st;
     servoVOffTimer := servoVOffTimer st; handlers := handlers st;
     nextPromise := nextPromise st; nextPid := nextPid st |}.

Definition set_face (b : bool) (st : state) : state :=
  {| motionTrackerProcess := motionTrackerProcess st;
     motionTrackingActive := motionTrackingActive st;
     motionTrackerBuffer := motionTrackerBuffer st;
     servoTrackingEnabled := servoTrackingEnabled st;
     motionTrackerMoveInFlight := motionTrackerMoveInFlight st;
     faceTrackRunning := b; servoFile := servoFile st;
     servoVOffTimer := servoVOffTimer st; handlers := handlers st;
     nextPromise := nextPromise st; nextPid := nextPid st |}.

Definition set_file (f : number * number) (st : state) : state :=
  {| motionTrackerProcess := motionTrackerProcess st;
     motionTrackingActive := motionTrackingActive st;
     motionTrackerBuffer := motionTrackerBuffer st;
     servoTrackingEnabled := servoTrackingEnabled st;
     motionTrackerMoveInFlight := motionTrackerMoveInFlight st;
     faceTrackRunning := faceTrackRunning st; servoFile := f;
     servoVOffTimer := servoVOffTimer st; handlers := handlers st;
     nextPromise := nextPromise st; nextPid := nextPid st |}.

Definition set_voff (b : bool) (st : state) : state :=
  {| motionTrackerProcess := motionTrackerProcess st;
     motionTrackingActive := motionTrackingActive st;
     motionTrackerBuffer := motionTrackerBuffer st;
     servoTrackingEnabled := servoTrackingEnabled st;
     motionTrackerMoveInFlight := motionTrackerMoveInFlight st;
     faceTrackRunning := faceTrackRunning st; servoFile := servoFile st;
     servoVOffTimer := b; handlers := handlers st;
     nextPromise := nextPromise st; nextPid := nextPid st |}.

Definition set_handlers (hs : list suspended) (st : state) : state :=
  {| motionTrackerProcess := motionTrackerProcess st;
     motionTrackingActive := motionTrackingActive st;
     motionTrackerBuffer := motionTrackerBuffer st;
     servoTrackingEnabled := servoTrackingEnabled st;
     motionTrackerMoveInFlight := motionTrackerMoveInFlight st;
     faceTrackRunning := faceTrackRunning st; servoFile := servoFile st;
     servoVOffTimer := servoVOffTimer st; handlers := hs;
     nextPromise := nextPromise st; nextPid := nextPid st |}.

(** [servoCmd(cmd)] seen from its caller: a new promise, settled later by
    the actuator link. *)
Definition servoCmd (c : command) (st : state) : state * nat * list action :=
  let p := nextPromise st in
  ({| motionTrackerProcess := motionTrackerProcess st;
      motionTrackingActive := motionTrackingActive st;
      motionTrackerBuffer := motionTrackerBuffer st;
      servoTrackingEnabled := servoTrackingEnabled st;
      motionTrackerMoveInFlight := motionTrackerMoveInFlight st;
      faceTrackRunning := faceTrackRunning st; servoFile := servoFile st;
      servoVOffTimer := servoVOffTimer st; handlers := handlers st;
      nextPromise := S p; nextPid := nextPid st |}, p, [ServoCmd p c]).

(** [servoSetCmd(channel, angle)]: for the vertical channel the pending OFF
    timer is cancelled and armed again. *)
Definition servoSetCmd (channel : N) (angle : number) (st : state) : state * command :=
  if (channel =? SERVO_V_CHANNEL)%N then (set_voff true st, SET channel angle)
  else (st, SET channel angle).

(** [readServoState()] on the file as two numbers. *)
Definition readServoState (st : state) : servo_state :=
  {| horizontal := sanitize (fst (servoFile st));
     vertical := sanitize (snd (servoFile st)) |}.

(** [writeServoState(h, v)] *)
Definition writeServoState (h v : number) (st : state) : state * list action :=
  (set_file (h, v) st, [WriteServoState h v]).

(** The face-detection refinement at the end of the loop body. *)
Definition refinement (wanted : bool) (st : state) : state * list action :=
  if wanted && negb (faceTrackRunning st) then (set_face true st, [RunFaceTrack])
  else (st, []).

Section Controller.

Variable JSON_parse : jsstring -> json.

(** The [for (const raw of lines)] loop of the data handler, up to its end
    or to the [await]. *)
Fixpoint process (st : state) (lines : list jsstring) : state * list action :=
  match lines with
  | [] => (st, [])
  | raw :: rest =>
      match trim raw with
      | [] => process st rest
      | line =>
          match JSON_parse line with
          | Invalid => process st rest
          | Null => (st, [])
          | Obj m =>
              if ready m then process st rest
              else if error m then process st rest
              else if negb (active m) then process st rest
              else if negb (servoTrackingEnabled st) then process st rest
              else if motionTrackerMoveInFlight st then process st rest
              else
                let position := readServoState st in
                let h := target (horizontal position) (cx m) in
                let v := target (vertical position) (cy m) in
                let '(st1, ps1, out1) :=
                  if strict_ne h (horizontal position) then
                    let '(st', p, out) := servoCmd (SET SERVO_H_CHANNEL h) st in
                    (st', [p], out)
                  else (st, [], []) in
                let '(st2, ps2, out2) :=
                  if strict_ne v (vertical position) then
                    let '(st', c) := servoSetCmd SERVO_V_CHANNEL v st1 in
                    let '(st'', p, out) := servoCmd c st' in
                    (st'', [p], out)
                  else (st1, [], []) in
                match ps1 ++ ps2 with
                | [] =>
                    let '(st3, out3) := refinement (refine m) st2 in
                    let '(st4, out4) := process st3 rest in
                    (st4, out1 ++ out2 ++ out3 ++ out4)
                | promises =>
                    if negb (servoTrackingEnabled st2) then
                      let '(st4, out4) := process st2 rest in
                      (st4, out1 ++ out2 ++ out4)
                    else
                      (set_handlers
                         (handlers st2 ++
                          [{| cmds := promises; awaiting := promises;
                              newH := h; newV := v; refine_after := refine m;
                              remaining := rest |}])
                         (set_in_flight true st2),
                       out1 ++ out2)
                end
          end
      end
  end.

(** [motionTrackerProcess.stdout.on("data", async (d) => { ... })] *)
Definition on_data (d : jsstring) (st : state) : state * list action :=
  let '(incomplete, lines) := pop (split 10 (motionTrackerBuffer st ++ d)) in
  process (set_tracker (motionTrackerProcess st) (motionTrackingActive st)
             (default [] incomplete) st) lines.

(** The handler goes on after the [await]: the [try] body or the [catch],
    then [finally], the refinement and the rest of the loop. *)
Definition resume (fulfilled : bool) (w : suspended) (st : state) : state * list action :=
  let '(st1, out1) :=
    if fulfilled then
      if servoTrackingEnabled st then writeServoState (newH w) (newV w) st
      else (st, [])
    else (st, [LogServoError]) in
  let st2 := set_in_flight false st1 in
  let '(st3, out3) := refinement (refine_after w) st2 in
  let '(st4, out4) := process st3 (remaining w) in
  (st4, out1 ++ out3 ++ out4).

(** A promise is fulfilled: the [Promise.all] that waits for it and for
    nothing else is fulfilled too. *)
Fixpoint fulfil (p : nat) (ws : list suspended)
  : list suspended * option suspended :=
  match ws with
  | [] => ([], None)
  | w :: ws' =>
      if bool_decide (p ∈ awaiting w) then
        let left := filter (λ q, q ≠ p) (awaiting w) in
        match left with
        | [] => (ws', Some w)
        | _ => ({| cmds := cmds w; awaiting := left; newH := newH w; newV := newV w;
                   refine_after := refine_after w; remaining := remaining w |} :: ws',
                None)
        end
      else let '(ws'', done) := fulfil p ws' in (w :: ws'', done)
  end.

(** A promise is rejected: the [Promise.all] that waits for it is rejected. *)
Fixpoint reject (p : nat) (ws : list suspended)
  : list suspended * option suspended :=
  match ws with
  | [] => ([], None)
  | w :: ws' =>
      if bool_decide (p ∈ awaiting w) then (ws', Some w)
      else let '(ws'', failed) := reject p ws' in (w :: ws'', failed)
  end.

Definition on_ack (p : nat) (st : state) : state * list action :=
  match fulfil p (handlers st) with
  | (ws, Some w) => resume true w (set_handlers ws st)
  | (ws, None) => (set_handlers ws st, [])
  end.

Definition on_fail (p : nat) (st : state) : state * list action :=
  match reject p (handlers st) with
  | (ws, Some w) => resume false w (set_handlers ws st)
  | (ws, None) => (set_handlers ws st, [])
  end.

(** [function stopMotionTracking()] *)
Definition stopMotionTracking (st : state) : state * list action :=
  let out := match motionTrackerProcess st with Some pid => [Kill pid] | None => [] end in
  (set_in_flight false (set_tracker None false [] st), out).

(** [function startMotionTracking()], up to the registration of the handlers. *)
Definition startMotionTracking (st : state) : state * list action :=
  match motionTrackerProcess st with
  | Some _ => (st, [])
  | None =>
      let pid := nextPid st in
      ({| motionTrackerProcess := Some pid; motionTrackingActive := true;
          motionTrackerBuffer := [];
          servoTrackingEnabled := servoTrackingEnabled st;
          motionTrackerMoveInFlight := motionTrackerMoveInFlight st;
          faceTrackRunning := faceTrackRunning st; servoFile := servoFile st;
          servoVOffTimer := servoVOffTimer st; handlers := handlers st;
          nextPromise := nextPromise st; nextPid := S pid |}, [Spawn pid])
  end.

(** [motionTrackerProcess.on("exit", ...)] *)
Definition on_exit (st : state) : state := set_tracker None false [] st.

(** The timer of [servoSetCmd]: [servoVOffTimer.ref = null; servoCmd("OFF 1").catch(...)] *)
Definition on_voff_timer (st : state) : state * list action :=
  if servoVOffTimer st then
    let '(st1, _, out) := servoCmd (OFF SERVO_V_CHANNEL) (set_voff false st) in
    (st1, out)
  else (st, []).

Inductive event :=
| Data (d : jsstring)          (* a chunk of the tracker's stdout, decoded *)
| Ack (promise : nat)          (* the actuator link fulfils a promise *)
| Fail (promise : nat)         (* the actuator link rejects a promise *)
| Enable                       (* /motion-track/servo-enable *)
| Disable                      (* /motion-track/servo-disable *)
| FaceTrack                    (* /face-track: a scan is requested *)
| FaceTrackDone                (* runFaceTrack settles: the job is done, tracking locked out *)
| Start                        (* /motion-track/start *)
| Stop                         (* /motion-track/stop, or the tracker's "error" event *)
| TrackerExit                  (* the tracker's "exit" event *)
| VOffTimer                    (* the settle timer of the vertical servo fires *)
| FileWritten (h v : number).  (* another route rewrites the position file *)

Definition step (st : state) (e : event) : state * list action :=
  match e with
  | Data d => on_data d st
  | Ack p => on_ack p st
  | Fail p => on_fail p st
  | Enable => (set_enabled true st, [])
  | Disable => (set_enabled false st, [])
  | FaceTrack => refinement true st
  | FaceTrackDone => (set_face false (set_enabled false st), [])
  | Start => startMotionTracking st
  | Stop => stopMotionTracking st
  | TrackerExit => (on_exit st, [])
  | VOffTimer => on_voff_timer st
  | FileWritten h v => (set_file (h, v) st, [])
  end.

Fixpoint run (st : state) (tr : list event) : state * list action :=
  match tr with
  | [] => (st, [])
  | e :: tr' =>
      let '(st1, out1) := step st e in
      let '(st2, out2) := run st1 tr' in
      (st2, out1 ++ out2)
  end.

End Controller.

(** The writes to the position file and the servo commands among the
    actions of a run, in order. *)
Definition written (out : list action) : list (number * number) :=
  omap (λ a, match a with WriteServoState h v => Some (h, v) | _ => None end) out.

Definition commands (out : list action) : list (nat * command) :=
  omap (λ a, match a with ServoCmd p c => Some (p, c) | _ => None end) out.

End Track.

Module TrackFacts.
Import JS Num StateFile Track.

#[local] Arguments written : simpl never.
#[local] Arguments commands : simpl never.

(** ** The data handler *)

Section ControllerFacts.

Variable JSON_parse : jsstring -> json.

#[local] Abbreviation process := (Track.process JSON_parse).
#[local] Abbreviation step := (Track.step JSON_parse).
#[local] Abbreviation run := (Track.run JSON_parse).

Lemma written_app out1 out2 : written (out1 ++ out2) = written out1 ++ written out2.
Proof. unfold written. apply omap_app. Qed.

Lemma commands_app out1 out2 : commands (out1 ++ out2) = commands out1 ++ commands out2.
Proof. unfold commands. apply omap_app. Qed.

Lemma track_run_snoc st tr e :
  run st (tr ++ [e]) =
  (fst (step (fst (run st tr)) e), snd (run st tr) ++ snd (step (fst (run st tr)) e)).
Proof.
  revert st. induction tr as [|e' tr IH]; intros st; cbn [Track.run app fst snd].
  - destruct (step st e). cbn [fst snd app]. rewrite app_nil_r. done.
  - destruct (step st e') as [st1 out1]. rewrite IH.
    destruct (run st1 tr) as [st2 out2]. cbn [fst snd].
    destruct (step st2 e). cbn. rewrite app_assoc. done.
Qed.

Lemma refinement_same wanted st :
  let st' := fst (refinement wanted st) in
  servoFile st' = servoFile st /\
  servoTrackingEnabled st' = servoTrackingEnabled st /\
  motionTrackerMoveInFlight st' = motionTrackerMoveInFlight st /\
  handlers st' = handlers st /\
  nextPromise st' = nextPromise st /\
  written (snd (refinement wanted st)) = [] /\
  commands (snd (refinement wanted st)) = [].
Proof. unfold refinement. destruct (wanted && negb (faceTrackRunning st)); done. Qed.

(** What the loop can do from a state [st]: it writes nothing to the
    position file, it leaves the enable flag alone, and it either suspends
    no invocation or exactly one, at the end of the list, with the guard
    raised. *)
Lemma process_effects lines st :
  let st' := fst (process st lines) in
  let out := snd (process st lines) in
  servoFile st' = servoFile st /\
  servoTrackingEnabled st' = servoTrackingEnabled st /\
  written out = [] /\
  nextPromise st <= nextPromise st' /\
  ((handlers st' = handlers st /\
    motionTrackerMoveInFlight st' = motionTrackerMoveInFlight st) \/
   (exists w, handlers st' = handlers st ++ [w] /\
              motionTrackerMoveInFlight st = false /\
              motionTrackerMoveInFlight st' = true /\
              awaiting w = cmds w /\ cmds w <> [] /\
              forall q, q ∈ cmds w -> nextPromise st <= q < nextPromise st')).
Proof.
  revert st. induction lines as [|raw rest IH]; intros st; cbn zeta.
  { cbn. repeat split; try done. left. done. }
  pose proof (IH st) as IHst. cbn zeta in IHst.
  cbn [Track.process]. destruct (trim raw) as [|c line]; [exact IHst|].
  destruct (JSON_parse (c :: line)) as [| |m]; [exact IHst| |].
  { cbn. repeat split; try done. left. done. }
  destruct (ready m); [exact IHst|]. destruct (error m); [exact IHst|].
  destruct (active m); cbn [negb]; [|exact IHst].
  destruct (servoTrackingEnabled st) eqn:Hen; cbn [negb];
    [|rewrite ?Hen in IHst; exact IHst].
  destruct (motionTrackerMoveInFlight st) eqn:Hfl;
    [rewrite ?Hen, ?Hfl in IHst; exact IHst|].
  clear IHst.
  set (h := target _ (cx m)). set (v := target _ (cy m)). clearbody h v.
  destruct (strict_ne h _); destruct (strict_ne v _);
    cbn [servoCmd servoSetCmd N.eqb SERVO_V_CHANNEL Pos.eqb fst snd app
         servoTrackingEnabled set_voff negb].
  1-3: rewrite ?Hen; cbn; (split; [done|]); (split; [done|]); (split; [done|]);
       (split; [lia|]); right; eexists; (split; [reflexivity|]); cbn;
       (split; [done|]); (split; [done|]); (split; [done|]); (split; [done|]);
       intros q Hq; repeat (apply elem_of_cons in Hq as [->|Hq]);
       try (apply elem_of_nil in Hq; done); lia.
  pose proof (refinement_same (refine m) st) as (R1 & R2 & R3 & R4 & R5 & R6 & _).
  cbn zeta in *. destruct (refinement (refine m) st) as [st3 out3].
  specialize (IH st3). cbn zeta in IH. cbn [fst snd] in *.
  destruct (Track.process JSON_parse st3 rest) as [st4 out4]. cbn [fst snd app] in *.
  rewrite R1, R2, R3, R4, R5, ?Hen, ?Hfl in IH.
  destruct IH as (I1 & I2 & I3 & I4 & I5).
  split; [done|]. split; [done|]. split; [|split; [done|exact I5]].
  rewrite written_app, I3, R6. done.
Qed.

(** With the guard raised, or with tracking disabled, the loop does nothing. *)
Lemma process_guarded lines st :
  motionTrackerMoveInFlight st = true \/ servoTrackingEnabled st = false ->
  process st lines = (st, []).
Proof.
  intros H. induction lines as [|raw rest IH]; [done|].
  cbn [Track.process]. destruct (trim raw) as [|c line]; [exact IH|].
  destruct (JSON_parse (c :: line)) as [| |m]; [exact IH|done|].
  destruct (ready m); [exact IH|]. destruct (error m); [exact IH|].
  destruct (active m); cbn [negb]; [|exact IH].
  destruct H as [-> | ->]; cbn [negb]; [|exact IH].
  destruct (servoTrackingEnabled st); exact IH.
Qed.

(** ** Promises and the invocations that wait for them *)

Lemma fulfil_spec p ws :
  match fulfil p ws with
  | (ws', Some w) =>
      w ∈ ws /\ p ∈ awaiting w /\ (forall q, q ∈ awaiting w -> q = p) /\
      (forall w', w' ∈ ws' -> w' ∈ ws) /\ S (length ws') = length ws
  | (ws', None) =>
      length ws' = length ws /\
      forall w', w' ∈ ws' ->
        exists w, w ∈ ws /\ cmds w' = cmds w /\
                  (forall q, q ∈ awaiting w' -> q ∈ awaiting w) /\
                  (forall q, q ∈ awaiting w -> q ∈ awaiting w' \/ q = p)
  end.
Proof.
  induction ws as [|w ws IH]; cbn [fulfil].
  { split; [done|]. intros w' H. apply elem_of_nil in H. done. }
  destruct (bool_decide (p ∈ awaiting w)) eqn:Hp.
  - apply bool_decide_eq_true in Hp.
    destruct (filter (λ q, q ≠ p) (awaiting w)) as [|q0 left] eqn:Hleft.
    + split; [apply elem_of_cons; auto|]. split; [done|]. split.
      * intros q Hq. destruct (decide (q = p)) as [|Hne]; [done|].
        assert (Hin : q ∈ filter (λ q, q ≠ p) (awaiting w))
          by (apply list_elem_of_filter; done).
        rewrite Hleft in Hin. apply elem_of_nil in Hin. done.
      * split; [|done]. intros w' H. apply elem_of_cons. auto.
    + split; [done|]. intros w' [->|H]%elem_of_cons.
      * exists w. split; [apply elem_of_cons; auto|]. split; [done|].
        cbn [awaiting]. rewrite <- Hleft. split.
        -- intros q Hq. apply list_elem_of_filter in Hq as [_ Hq]. exact Hq.
        -- intros q Hq. destruct (decide (q = p)); [auto|].
           left. apply list_elem_of_filter. done.
      * exists w'. split; [apply elem_of_cons; auto|]. auto.
  - destruct (fulfil p ws) as [ws' [w0|]].
    + destruct IH as (I1 & I2 & I3 & I4 & I5).
      split; [apply elem_of_cons; auto|]. split; [done|]. split; [done|].
      split; [|cbn; lia]. intros w' [->|H]%elem_of_cons; apply elem_of_cons; auto.
    + destruct IH as (I1 & I2). split; [cbn; lia|].
      intros w' [->|H]%elem_of_cons.
      * exists w. split; [apply elem_of_cons; auto|]. auto.
      * destruct (I2 _ H) as (w1 & H1 & H2). exists w1.
        split; [apply elem_of_cons; auto|]. exact H2.
Qed.

Lemma reject_spec p ws :
  (forall w', w' ∈ fst (reject p ws) -> w' ∈ ws) /\
  match snd (reject p ws) with
  | Some w => w ∈ ws /\ p ∈ awaiting w /\ S (length (fst (reject p ws))) = length ws
  | None => fst (reject p ws) = ws
  end.
Proof.
  induction ws as [|w ws IH]; cbn [reject]; [done|].
  destruct (bool_decide (p ∈ awaiting w)) eqn:Hp; cbn [fst snd].
  - apply bool_decide_eq_true in Hp. split.
    + intros w' H. apply elem_of_cons. auto.
    + split; [apply elem_of_cons; auto|]. done.
  - destruct (reject p ws) as [ws' r]. cbn [fst snd] in *. destruct IH as [I1 I2].
    split.
    + intros w' [->|H]%elem_of_cons; apply elem_of_cons; auto.
    + destruct r as [w0|].
      * destruct I2 as (H1 & H2 & H3). split; [apply elem_of_cons; auto|].
        split; [done|]. cbn. lia.
      * rewrite I2. done.
Qed.

(** ** After the await *)

Lemma resume_effects fulfilled w st :
  let st' := fst (resume JSON_parse fulfilled w st) in
  let out := snd (resume JSON_parse fulfilled w st) in
  servoTrackingEnabled st' = servoTrackingEnabled st /\
  (if fulfilled && servoTrackingEnabled st
   then written out = [(newH w, newV w)] /\ servoFile st' = (newH w, newV w)
   else written out = [] /\ servoFile st' = servoFile st) /\
  nextPromise st <= nextPromise st' /\
  ((handlers st' = handlers st /\ motionTrackerMoveInFlight st' = false) \/
   (exists w', handlers st' = handlers st ++ [w'] /\
               motionTrackerMoveInFlight st' = true /\
               awaiting w' = cmds w' /\ cmds w' <> [] /\
               forall q, q ∈ cmds w' -> nextPromise st <= q < nextPromise st')).
Proof.
  cbn zeta. unfold resume.
  set (r1 := if fulfilled then _ else _).
  assert (H1 : servoTrackingEnabled (fst r1) = servoTrackingEnabled st /\
               handlers (fst r1) = handlers st /\
               nextPromise (fst r1) = nextPromise st /\
               (if fulfilled && servoTrackingEnabled st
                then written (snd r1) = [(newH w, newV w)] /\
                     servoFile (fst r1) = (newH w, newV w)
                else written (snd r1) = [] /\ servoFile (fst r1) = servoFile st)).
  { subst r1. destruct fulfilled; cbn [andb]; [|done].
    destruct (servoTrackingEnabled st) eqn:E; cbn; rewrite ?E; done. }
  destruct r1 as [st1 out1]. cbn [fst snd] in H1.
  destruct H1 as (E1 & E2 & E3 & E4).
  pose proof (refinement_same (refine_after w) (set_in_flight false st1))
    as (R1 & R2 & R3 & R4 & R5 & R6 & _). cbn zeta in *.
  destruct (refinement (refine_after w) (set_in_flight false st1)) as [st3 out3].
  cbn [fst snd servoFile set_in_flight servoTrackingEnabled handlers nextPromise
       motionTrackerMoveInFlight] in *.
  pose proof (process_effects (remaining w) st3) as (P1 & P2 & P3 & P4 & P5).
  cbn zeta in *.
  destruct (process st3 (remaining w)) as [st4 out4]. cbn [fst snd] in *.
  rewrite !written_app, R6, P3, app_nil_r.
  rewrite P1, P2, R1, R2, E1. rewrite R3, R4, R5, E2, E3 in *.
  split; [done|]. split.
  { destruct (fulfilled && servoTrackingEnabled st); exact E4. }
  split; [done|].
  destruct P5 as [[H1 H2]|(w' & H1 & H2 & H3 & H4)]; [left|right; exists w']; done.
Qed.

(** ** The guard in a run without [stopMotionTracking] *)

(** Either no invocation is suspended and the guard is down, or exactly one
    is and the guard is up. *)
Definition guard_inv (st : state) : Prop :=
  (motionTrackerMoveInFlight st = false /\ handlers st = []) \/
  (motionTrackerMoveInFlight st = true /\ exists w, handlers st = [w]).

Lemma process_guard_inv lines st :
  guard_inv st -> guard_inv (fst (process st lines)).
Proof.
  intros [[Hfl Hh]|[Hfl Hh]].
  - pose proof (process_effects lines st) as (_ & _ & _ & _ & P). cbn zeta in P.
    destruct P as [[H1 H2]|(w & H1 & _ & H2 & _)].
    + left. rewrite H1, H2. done.
    + right. rewrite H1, Hh. split; [done|]. exists w. done.
  - rewrite process_guarded by auto. right. done.
Qed.

Lemma resume_guard_inv fulfilled w st :
  handlers st = [] -> guard_inv (fst (resume JSON_parse fulfilled w st)).
Proof.
  intros Hh. pose proof (resume_effects fulfilled w st) as (_ & _ & _ & P).
  cbn zeta in P. destruct P as [[H1 H2]|(w' & H1 & H2 & _)].
  - left. rewrite H1, H2. done.
  - right. rewrite H1, Hh. split; [done|]. exists w'. done.
Qed.

Definition is_stop (e : event) : bool := match e with Stop => true | _ => false end.

Lemma step_guard_inv st e :
  is_stop e = false -> guard_inv st -> guard_inv (fst (step st e)).
Proof.
  intros He Hg. destruct e; try discriminate; cbn [Track.step fst]; try exact Hg.
  - unfold on_data. destruct (pop _) as [incomplete lines].
    apply process_guard_inv. exact Hg.
  - unfold on_ack. pose proof (fulfil_spec promise (handlers st)) as Hf.
    destruct (fulfil promise (handlers st)) as [ws [w|]].
    + apply resume_guard_inv. cbn [handlers set_handlers].
      destruct Hf as (_ & _ & _ & _ & Hlen).
      destruct Hg as [[_ Hh]|[_ [w0 Hh]]]; rewrite Hh in Hlen; cbn in Hlen; [lia|].
      destruct ws; [done|cbn in Hlen; lia].
    + cbn [fst]. destruct Hf as [Hlen _].
      destruct Hg as [[Hfl Hh]|[Hfl [w0 Hh]]]; rewrite Hh in Hlen.
      * left. cbn. split; [done|]. destruct ws; [done|discriminate].
      * right. cbn. split; [done|].
        destruct ws as [|w1 [|w2 ws]]; try discriminate. exists w1. done.
  - unfold on_fail. pose proof (reject_spec promise (handlers st)) as [_ Hr].
    destruct (reject promise (handlers st)) as [ws [w|]]; cbn [fst snd] in Hr.
    + apply resume_guard_inv. cbn [handlers set_handlers].
      destruct Hr as (_ & _ & Hlen).
      destruct Hg as [[_ Hh]|[_ [w0 Hh]]]; rewrite Hh in Hlen; cbn in Hlen; [lia|].
      destruct ws; [done|cbn in Hlen; lia].
    + cbn [fst]. rewrite Hr. destruct st. exact Hg.
  - unfold refinement. destruct (true && negb (faceTrackRunning st)); exact Hg.
  - unfold startMotionTracking. destruct (motionTrackerProcess st); exact Hg.
  - unfold on_voff_timer. destruct (servoVOffTimer st); exact Hg.
Qed.

Lemma run_guard_inv tr st :
  forallb (λ e, negb (is_stop e)) tr = true ->
  guard_inv st -> guard_inv (fst (run st tr)).
Proof.
  revert st. induction tr as [|e tr IH]; intros st Hs Hg; cbn [Track.run]; [done|].
  cbn in Hs. apply andb_prop in Hs as [He Hs]. apply negb_true_iff in He.
  pose proof (step_guard_inv st e He Hg) as H1.
  destruct (step st e) as [st1 out1]. specialize (IH st1 Hs H1).
  destruct (run st1 tr). exact IH.
Qed.

(** ** Acknowledgments along a run *)

(** [q] was acknowledged in [history], at a point where it had been issued. *)
Definition acked (history : list event) (q : nat) : Prop :=
  exists h1 h2,
    history = h1 ++ Ack q :: h2 /\ q < nextPromise (fst (run init h1)).

(** Every command of a suspended invocation has been issued, and is still
    awaited or was acknowledged. *)
Definition handler_ok (history : list event) (st : state) (w : suspended) : Prop :=
  forall q, q ∈ cmds w -> q < nextPromise st /\ (q ∈ awaiting w \/ acked history q).

Definition ack_inv (history : list event) (st : state) : Prop :=
  forall w, w ∈ handlers st -> handler_ok history st w.

Lemma acked_snoc history e q : acked history q -> acked (history ++ [e]) q.
Proof.
  intros (h1 & h2 & -> & Hq). exists h1, (h2 ++ [e]).
  rewrite <- app_assoc. done.
Qed.

Lemma acked_now history q :
  q < nextPromise (fst (run init history)) -> acked (history ++ [Ack q]) q.
Proof. intros Hq. exists history, []. done. Qed.

Lemma handler_ok_mono history e st st' w :
  nextPromise st <= nextPromise st' ->
  handler_ok history st w -> handler_ok (history ++ [e]) st' w.
Proof.
  intros Hle H q Hq. destruct (H q Hq) as [Hlt [Ha|Ha]].
  - split; [lia|auto].
  - split; [lia|]. right. apply acked_snoc, Ha.
Qed.

Lemma handler_ok_new history st w :
  awaiting w = cmds w -> (forall q, q ∈ cmds w -> q < nextPromise st) ->
  handler_ok history st w.
Proof. intros Ha Hb q Hq. split; [auto|]. left. rewrite Ha. exact Hq. Qed.

Lemma step_nextPromise st e : nextPromise st <= nextPromise (fst (step st e)).
Proof.
  destruct e; cbn [Track.step fst]; try done.
  - unfold on_data. destruct (pop _) as [incomplete lines].
    pose proof (process_effects lines
      (set_tracker (motionTrackerProcess st) (motionTrackingActive st)
         (default [] incomplete) st)) as (_ & _ & _ & H & _). exact H.
  - unfold on_ack. destruct (fulfil promise (handlers st)) as [ws [w|]]; [|done].
    pose proof (resume_effects true w (set_handlers ws st)) as (_ & _ & H & _).
    exact H.
  - unfold on_fail. destruct (reject promise (handlers st)) as [ws [w|]]; [|done].
    pose proof (resume_effects false w (set_handlers ws st)) as (_ & _ & H & _).
    exact H.
  - unfold refinement. destruct (true && negb (faceTrackRunning st)); done.
  - unfold startMotionTracking. destruct (motionTrackerProcess st); done.
  - unfold on_voff_timer. destruct (servoVOffTimer st); cbn; lia.
Qed.

Lemma ack_inv_extend history e st ws st' :
  (forall w, w ∈ ws -> handler_ok (history ++ [e]) st' w) ->
  (handlers st' = ws \/
   exists w', handlers st' = ws ++ [w'] /\ awaiting w' = cmds w' /\
              forall q, q ∈ cmds w' -> st <= q < nextPromise st') ->
  ack_inv (history ++ [e]) st'.
Proof.
  intros Hold [Hh|(w' & Hh & Ha & Hb)] w Hw; rewrite Hh in Hw; [auto|].
  apply elem_of_app in Hw as [Hw|Hw]; [auto|].
  apply list_elem_of_singleton in Hw as ->.
  apply handler_ok_new; [done|]. intros q Hq. apply Hb in Hq. lia.
Qed.

Lemma step_ack_inv history e :
  let st := fst (run init history) in
  ack_inv history st -> ack_inv (history ++ [e]) (fst (step st e)).
Proof.
  intros st Hinv. pose proof (step_nextPromise st e) as Hmono.
  assert (Hsame : handlers (fst (step st e)) = handlers st ->
                  ack_inv (history ++ [e]) (fst (step st e))).
  { intros Hh w Hw. rewrite Hh in Hw. eapply handler_ok_mono; eauto. }
  destruct e; cbn [Track.step fst] in *; try (apply Hsame; done).
  - unfold on_data in *. destruct (pop _) as [incomplete lines].
    set (st0 := set_tracker _ _ _ st) in *.
    pose proof (process_effects lines st0) as (_ & _ & _ & _ & P). cbn zeta in P.
    apply (ack_inv_extend _ _ (nextPromise st) (handlers st)).
    + intros w Hw. eapply handler_ok_mono; eauto.
    + destruct P as [[H1 _]|(w' & H1 & _ & _ & H2 & _ & H3)]; [left; done|].
      right. exists w'. done.
  - unfold on_ack in *. pose proof (fulfil_spec promise (handlers st)) as Hf.
    destruct (fulfil promise (handlers st)) as [ws [w|]].
    + destruct Hf as (_ & _ & _ & Hsub & _).
      pose proof (resume_effects true w (set_handlers ws st)) as (_ & _ & _ & P).
      cbn zeta in P. cbn [handlers set_handlers nextPromise] in P.
      apply (ack_inv_extend _ _ (nextPromise st) ws).
      * intros w' Hw'. eapply handler_ok_mono; eauto.
      * destruct P as [[H1 _]|(w' & H1 & _ & H2 & _ & H3)]; [left; done|].
        right. exists w'. done.
    + destruct Hf as [_ Hf]. cbn [fst] in *. intros w' Hw'. cbn in Hw'.
      destruct (Hf _ Hw') as (w & Hw & Hc & Hsub & Hsup).
      intros q Hq. rewrite Hc in Hq. destruct (Hinv _ Hw q Hq) as [Hlt [Ha|Ha]].
      * split; [cbn; lia|]. destruct (Hsup _ Ha) as [Ha'| ->]; [auto|].
        right. apply acked_now. exact Hlt.
      * split; [cbn; lia|]. right. apply acked_snoc, Ha.
  - unfold on_fail in *. pose proof (reject_spec promise (handlers st)) as [Hsub Hr].
    destruct (reject promise (handlers st)) as [ws [w|]]; cbn [fst snd] in *.
    + pose proof (resume_effects false w (set_handlers ws st)) as (_ & _ & _ & P).
      cbn zeta in P. cbn [handlers set_handlers nextPromise] in P.
      apply (ack_inv_extend _ _ (nextPromise st) ws).
      * intros w' Hw'. eapply handler_ok_mono; eauto.
      * destruct P as [[H1 _]|(w' & H1 & _ & H2 & _ & H3)]; [left; done|].
        right. exists w'. done.
    + apply Hsame. cbn. congruence.
  - apply Hsame. unfold refinement. destruct (true && negb (faceTrackRunning st)); done.
  - apply Hsame. unfold startMotionTracking. destruct (motionTrackerProcess st); done.
  - apply Hsame. unfold on_voff_timer. destruct (servoVOffTimer st); done.
Qed.

Lemma run_ack_inv history : ack_inv history (fst (run init history)).
Proof.
  induction history as [|e history IH] using rev_ind.
  - intros w Hw. apply elem_of_nil in Hw. done.
  - rewrite track_run_snoc. cbn [fst]. apply step_ack_inv, IH.
Qed.

(** ** Writes of the position file, step by step *)

Lemma step_written st e h v :
  (h, v) ∈ written (snd (step st e)) ->
  servoTrackingEnabled st = true /\
  exists p w, e = Ack p /\ w ∈ handlers st /\ p ∈ awaiting w /\
              (forall q, q ∈ awaiting w -> q = p) /\ h = newH w /\ v = newV w.
Proof.
  destruct e; cbn [Track.step snd];
    try (intros H; apply elem_of_nil in H; done).
  - unfold on_data. destruct (pop _) as [incomplete lines].
    set (st0 := set_tracker _ _ _ st).
    pose proof (process_effects lines st0) as (_ & _ & -> & _).
    intros H. apply elem_of_nil in H. done.
  - unfold on_ack. pose proof (fulfil_spec promise (handlers st)) as Hf.
    destruct (fulfil promise (handlers st)) as [ws [w|]];
      [|intros H; apply elem_of_nil in H; done].
    destruct Hf as (Hw & Hp & Hall & _).
    pose proof (resume_effects true w (set_handlers ws st)) as (_ & R & _).
    cbn zeta in R. cbn [andb servoTrackingEnabled set_handlers] in R.
    destruct (servoTrackingEnabled st); destruct R as [-> _];
      [|intros H; apply elem_of_nil in H; done].
    intros [= -> ->]%list_elem_of_singleton. split; [done|].
    exists promise, w. done.
  - unfold on_fail. destruct (reject promise (handlers st)) as [ws [w|]];
      [|intros H; apply elem_of_nil in H; done].
    pose proof (resume_effects false w (set_handlers ws st)) as (_ & [-> _] & _).
    intros H. apply elem_of_nil in H. done.
  - unfold refinement. destruct (true && negb (faceTrackRunning st));
      intros H; apply elem_of_nil in H; done.
  - unfold startMotionTracking. destruct (motionTrackerProcess st);
      intros H; apply elem_of_nil in H; done.
  - unfold stopMotionTracking. destruct (motionTrackerProcess st);
      intros H; apply elem_of_nil in H; done.
  - unfold on_voff_timer. destruct (servoVOffTimer st);
      intros H; apply elem_of_nil in H; done.
Qed.

Lemma step_not_written st e p :
  e = Fail p \/ (e = Ack p /\ servoTrackingEnabled st = false) ->
  servoFile (fst (step st e)) = servoFile st /\ written (snd (step st e)) = [].
Proof.
  intros [->|[-> Hen]]; cbn [Track.step].
  - unfold on_fail. destruct (reject p (handlers st)) as [ws [w|]]; [|done].
    pose proof (resume_effects false w (set_handlers ws st)) as (_ & [R1 R2] & _).
    rewrite R1, R2. done.
  - unfold on_ack. destruct (fulfil p (handlers st)) as [ws [w|]]; [|done].
    pose proof (resume_effects true w (set_handlers ws st)) as (_ & R & _).
    cbn zeta in R. cbn [andb servoTrackingEnabled set_handlers] in R.
    rewrite Hen in R. destruct R as [R1 R2]. rewrite R1, R2. done.
Qed.

Lemma step_guarded st d :
  motionTrackerMoveInFlight st = true -> snd (step st (Data d)) = [].
Proof.
  intros H. cbn [Track.step]. unfold on_data. destruct (pop _) as [incomplete lines].
  rewrite process_guarded; [done|]. left. exact H.
Qed.

(** C3, as the code has it — the tracking controller and the position file.
    In every run, at every step: (1) the controller writes the position file
    only in the step in which the last outstanding command of a move is
    acknowledged, every other command of that move having been acknowledged
    before, only with servo tracking enabled at that moment, and it writes
    that move's target; (2) when the promise of a command of the move is
    rejected (the link was not ready, or the daemon did not answer in time),
    or when servo tracking is disabled at the moment of the last
    acknowledgment, the file is left as it is; (3) while the in-flight guard
    is up a chunk of detection events issues nothing; (4) in a run in which
    motion tracking was never stopped, the guard is up exactly while a move
    awaits its acknowledgments, so a detection event issues no command then;
    (5) an acknowledgment is the fulfilment of the command's promise by a
    response line of the daemon, whatever the line reports: with servo
    tracking enabled, the acknowledgment that completes a move writes that
    move's target, whether motion tracking is still active or not. *)
Theorem C3_position_written_after_all_acks (history : list event) (e : event) :
  let st := fst (run init history) in
  let st' := fst (step st e) in
  let out := snd (step st e) in
  (forall h v, (h, v) ∈ written out ->
      servoTrackingEnabled st = true /\
      exists p w, e = Ack p /\ w ∈ handlers st /\ p ∈ awaiting w /\
                  h = newH w /\ v = newV w /\
                  forall q, q ∈ cmds w -> q = p \/ acked history q) /\
  (forall p, e = Fail p \/ (e = Ack p /\ servoTrackingEnabled st = false) ->
      servoFile st' = servoFile st /\ written out = []) /\
  (forall d, e = Data d -> motionTrackerMoveInFlight st = true -> out = []) /\
  (forallb (λ e, negb (is_stop e)) history = true ->
      (handlers st <> [] <-> motionTrackerMoveInFlight st = true) /\
      (forall d, e = Data d -> handlers st <> [] -> out = [])) /\
  (forall p ws w, e = Ack p -> fulfil p (handlers st) = (ws, Some w) ->
      servoTrackingEnabled st = true ->
      written out = [(newH w, newV w)] /\ servoFile st' = (newH w, newV w)).
Proof.
  intros st st' out. split; [|split; [|split; [|split]]].
  - intros h v Hin. apply step_written in Hin as (Hen & p & w & -> & Hw & Hp & Hall & -> & ->).
    split; [done|]. exists p, w. repeat split; try done.
    intros q Hq. destruct (run_ack_inv history w Hw q Hq) as [_ [Ha|Ha]]; auto.
  - intros p. apply step_not_written.
  - intros d -> Hfl. apply step_guarded, Hfl.
  - intros Hs.
    assert (Hg : guard_inv st).
    { apply run_guard_inv; [exact Hs|]. left. done. }
    assert (Hiff : handlers st <> [] <-> motionTrackerMoveInFlight st = true).
    { destruct Hg as [[Hfl Hh]|[Hfl [w Hh]]]; rewrite Hfl, Hh; split; done. }
    split; [exact Hiff|]. intros d -> Hh. apply step_guarded, Hiff, Hh.
  - intros p ws w He Hf Hen. subst out st'. rewrite He. cbn [Track.step].
    unfold on_ack. rewrite Hf.
    pose proof (resume_effects true w (set_handlers ws st)) as (_ & R & _).
    cbn zeta in R. cbn [andb servoTrackingEnabled set_handlers] in R.
    rewrite Hen in R. exact R.
Qed.

End ControllerFacts.

(** ** A concrete tracker line *)

(** One line of the tracker, as JSON text, and what [JSON.parse] makes of it;
    the examples below need no other line. *)
Definition quote : jsstring := [34%N].

Definition example_line : jsstring :=
  str "{" ++ quote ++ str "active" ++ quote ++ str ":true," ++
  quote ++ str "cx" ++ quote ++ str ":0.2," ++
  quote ++ str "cy" ++ quote ++ str ":0.8}".

Definition example_msg : msg :=
  {| ready := false; error := false; active := true;
     cx := of_decimal false 2 (-1); cy := of_decimal false 8 (-1);
     refine := false |}.

Definition example_parse (line : jsstring) : json :=
  if bool_decide (line = example_line) then Obj example_msg else Invalid.

Definition example_chunk : jsstring := example_line ++ [10%N].

(** A move of both axes, acknowledged command by command with tracking
    enabled: the file is written at the second acknowledgment, not at the
    first. *)
Lemma C3_position_written_after_all_acks_witness :
  let history := [Enable; Start; Data example_chunk; Ack 0] in
  let st := fst (run example_parse init history) in
  commands (snd (run example_parse init history)) =
    [(0, SET SERVO_H_CHANNEL (of_Z 145)); (1, SET SERVO_V_CHANNEL (of_Z 125))] /\
  written (snd (run example_parse init history)) = [] /\
  written (snd (step example_parse st (Ack 1))) = [(of_Z 145, of_Z 125)] /\
  servoTrackingEnabled st = true /\
  forallb (λ e, negb (is_stop e)) history = true /\
  snd (step example_parse st (Data example_chunk)) = [].
Proof.
  intros history st.
  pose proof (C3_position_written_after_all_acks example_parse history
                (Data example_chunk)) as (_ & _ & _ & Hguard & _).
  assert (Hs : forallb (λ e, negb (is_stop e)) history = true) by reflexivity.
  destruct (Hguard Hs) as [_ Hnone].
  split; [vm_compute; reflexivity|].
  split; [vm_compute; reflexivity|].
  split; [vm_compute; reflexivity|].
  split; [vm_compute; reflexivity|].
  split; [exact Hs|].
  apply (Hnone example_chunk eq_refl). vm_compute. discriminate.
Defined.

(** ** The controller and the actuator link *)

(** How the actuator link settles the promise of a command, seen from the
    handler that awaits it: a response line with the command's tag fulfils
    the promise, whatever the line says after the tag ([cb(m[2])] is
    [resolve(response)]); the 3 s timeout and the not-ready test reject it.
    The handler never looks at the value of a fulfilled promise. *)
Definition delivered (a : Servo.action) : option event :=
  match a with
  | Servo.Resolve caller _ _ => Some (Ack caller)
  | Servo.Reject caller _ => Some (Fail caller)
  | Servo.StdinWrite _ _ _ => None
  end.

(** The two commands of the move the example line asks for, as the link
    sends them, and the daemon's answer: the first is done, the second is
    refused with an error line. *)
Definition example_link : list Servo.event :=
  [Servo.Stdout (str "READY" ++ [10%N]);
   Servo.Cmd (str "SET 0 145"); Servo.Cmd (str "SET 1 125");
   Servo.Stdout (str "SEQ:1 OK" ++ [10%N] ++ str "SEQ:2 ERR angle out of range" ++ [10%N])].

(** Against C3 as it was stated, in three runs.
    (1) A move is awaiting its acknowledgments and motion tracking is
    stopped; servo tracking is still enabled.  When the acknowledgments
    arrive the session is not active any more (no tracker process, the
    active flag down), and the position is written all the same.
    (2) The daemon answers the second command of a move with an error line.
    The link fulfils the promise with that line, the handler takes it for an
    acknowledgment and the position is written: a command that failed in the
    daemon does not leave the file unchanged.
    (3) A move is awaiting its acknowledgments, motion tracking is stopped
    and started again, and the next detection event issues a new move while
    the first one is still awaiting. *)
Lemma C3_written_after_stop_and_after_error_reply :
  (let history := [Enable; Start; Data example_chunk; Stop; Ack 0] in
   let st := fst (run example_parse init history) in
   motionTrackingActive st = false /\ motionTrackerProcess st = None /\
   servoTrackingEnabled st = true /\
   servoFile st = (SERVO_CENTER, SERVO_CENTER) /\
   written (snd (step example_parse st (Ack 1))) = [(of_Z 145, of_Z 125)] /\
   servoFile (fst (step example_parse st (Ack 1))) = (of_Z 145, of_Z 125)) /\
  (let answers := snd (Servo.run Servo.init example_link) in
   let history := [Enable; Start; Data example_chunk] ++ omap delivered answers in
   answers =
     [Servo.StdinWrite 0 1 (str "SEQ:1 SET 0 145" ++ [10%N]);
      Servo.StdinWrite 1 2 (str "SEQ:2 SET 1 125" ++ [10%N]);
      Servo.Resolve 0 1 (str "OK");
      Servo.Resolve 1 2 (str "ERR angle out of range")] /\
   omap delivered answers = [Ack 0; Ack 1] /\
   commands (snd (run example_parse init history)) =
     [(0, SET SERVO_H_CHANNEL (of_Z 145)); (1, SET SERVO_V_CHANNEL (of_Z 125))] /\
   written (snd (run example_parse init history)) = [(of_Z 145, of_Z 125)] /\
   servoFile (fst (run example_parse init history)) = (of_Z 145, of_Z 125)) /\
  (let history := [Enable; Start; Data example_chunk; Stop; Start] in
   let st := fst (run example_parse init history) in
   (exists w, handlers st = [w] /\ awaiting w = [0; 1]) /\
   motionTrackerMoveInFlight st = false /\
   commands (snd (step example_parse st (Data example_chunk))) =
     [(2, SET SERVO_H_CHANNEL (of_Z 145)); (3, SET SERVO_V_CHANNEL (of_Z 125))]).
Proof.
  cbv zeta. split; [|split].
  - repeat split; vm_compute; reflexivity.
  - repeat split; vm_compute; reflexivity.
  - split; [|split]; [|vm_compute; reflexivity..].
    eexists. split; vm_compute; reflexivity.
Qed.

End TrackFacts.

(** * Stream lifecycle: the [/camera/stream] route, [stopCameraStream],
      [startCameraStream] and the idle timer *)

Module Lifecycle.
Import JS.

#[local] Open Scope N_scope.

Definition CAMERA_IDLE_GRACE_MS : N := 5000.

(** Where a stream request waits: for the callback of [exec] in
    [stopCameraStream], for its 600 ms timer, or for the 500 ms timer of
    [startCameraStream]. *)
Inductive phase := Stopping | Settling | Starting.

Record request := { isUiClient : bool; quality : jsstring; stage : phase }.

Record state := {
  cameraProcess : option nat;        (* the child process, by its pid *)
  currentQuality : jsstring;
  uiStreamClients : N;
  cameraIdleTimer : option nat;      (* the timer handle *)
  mux : Mux.state;                   (* frameBuffer, latestFrame, cameraClients *)
  pidFile : option nat;              (* the pid read from CAMERA_PID_FILE *)
  alive : list nat;                  (* the camera processes that run *)
  timers : list nat;                 (* idle timers set, not cleared, not fired *)
  requests : gmap nat request;       (* stream requests waiting at an await *)
  listeners : gmap nat bool;         (* responses with close and error listeners,
                                        each with its isUiClient *)
  nextPid : nat;
  nextTimer : nat;
  nextReq : nat
}.

Definition init : state :=
  {| cameraProcess := None; currentQuality := str "low"; uiStreamClients := 0;
     cameraIdleTimer := None; mux := Mux.init; pidFile := None; alive := [];
     timers := []; requests := ∅; listeners := ∅;
     nextPid := 1; nextTimer := 0; nextReq := 0 |}.

Inductive action :=
| Spawn (pid : nat) (preset : jsstring)  (* spawn("rpicam-vid", ...) *)
| Kill (pid : nat)                       (* cameraProcess.kill("SIGTERM") *)
| ExecKill (pid : option nat)            (* exec of the shell's kill on the pid read *)
| SetTimeout (t : nat) (ms : N)
| ClearTimeout (t : nat)
| WriteHead (req : nat) (client : nat)   (* res.writeHead(200, ...) *)
| Unavailable (req : nat)                (* res.status(503) ... send *)
| EndResponse (client : nat)             (* res.end() *)
| Viewer (a : Mux.action).

Definition set_process (p : option nat) (st : state) : state :=
  {| cameraProcess := p; currentQuality := currentQuality st;
     uiStreamClients := uiStreamClients st; cameraIdleTimer := cameraIdleTimer st;
     mux := mux st; pidFile := pidFile st; alive := alive st; timers := timers st;
     requests := requests st; listeners := listeners st;
     nextPid := nextPid st; nextTimer := nextTimer st; nextReq := nextReq st |}.

Definition set_count (n : N) (st : state) : state :=
  {| cameraProcess := cameraProcess st; currentQuality := currentQuality st;
     uiStreamClients := n; cameraIdleTimer := cameraIdleTimer st;
     mux := mux st; pidFile := pidFile st; alive := alive st; timers := timers st;
     requests := requests st; listeners := listeners st;
     nextPid := nextPid st; nextTimer := nextTimer st; nextReq := nextReq st |}.

Definition set_timer (h : option nat) (armed : list nat) (next : nat) (st : state)
  : state :=
  {| cameraProcess := cameraProcess st; currentQuality := currentQuality st;
     uiStreamClients := uiStreamClients st; cameraIdleTimer := h;
     mux := mux st; pidFile := pidFile st; alive := alive st; timers := armed;
     requests := requests st; listeners := listeners st;
     nextPid := nextPid st; nextTimer := next; nextReq := nextReq st |}.

Definition set_mux (m : Mux.state) (st : state) : state :=
  {| cameraProcess := cameraProcess st; currentQuality := currentQuality st;
     uiStreamClients := uiStreamClients st; cameraIdleTimer := cameraIdleTimer st;
     mux := m; pidFile := pidFile st; alive := alive st; timers := timers st;
     requests := requests st; listeners := listeners st;
     nextPid := nextPid st; nextTimer := nextTimer st; nextReq := nextReq st |}.

Definition set_pidFile (f : option nat) (st : state) : state :=
  {| cameraProcess := cameraProcess st; currentQuality := currentQuality st;
     uiStreamClients := uiStreamClients st; cameraIdleTimer := cameraIdleTimer st;
     mux := mux st; pidFile := f; alive := alive st; timers := timers st;
     requests := requests st; listeners := listeners st;
     nextPid := nextPid st; nextTimer := nextTimer st; nextReq := nextReq st |}.

Definition set_requests (rs : gmap nat request) (st : state) : state :=
  {| cameraProcess := cameraProcess st; currentQuality := currentQuality st;
     uiStreamClients := uiStreamClients st; cameraIdleTimer := cameraIdleTimer st;
     mux := mux st; pidFile := pidFile st; alive := alive st; timers := timers st;
     requests := rs; listeners := listeners st;
     nextPid := nextPid st; nextTimer := nextTimer st; nextReq := nextReq st |}.

(** [isProcessRunning(pid)]: a pid that is not falsy and answers signal 0. *)
Definition isProcessRunning (pid : option nat) (st : state) : bool :=
  match pid with
  | Some p => negb (Nat.eqb p 0) && bool_decide (p ∈ alive st)
  | None => false
  end.

Definition readCameraPid (st : state) : option nat := pidFile st.

(** [a || b] on strings: the empty string is falsy. *)
Definition or_else (a b : jsstring) : jsstring :=
  match a with [] => b | _ => a end.

(** [QUALITY_PRESETS[quality] || QUALITY_PRESETS[currentQuality] ||
    QUALITY_PRESETS.low], as the key of the preset chosen, a key being one
    of the object's own five. *)
Definition QUALITY_PRESETS : list jsstring :=
  [str "veryhigh"; str "high"; str "medium"; str "low"; str "verylow"].

Definition has_preset (q : jsstring) : bool := bool_decide (q ∈ QUALITY_PRESETS).

Definition preset_of (quality current : jsstring) : jsstring :=
  if has_preset quality then quality
  else if has_preset current then current
  else str "low".


(** [startCameraStream(quality)] up to its [setTimeout]: the state is reset,
    the process is spawned with its handlers and its pid is written.  The
    spawn is taken to create the process; one that dies at once is an exit
    before the 500 ms check. *)
Definition startCameraStream (quality : jsstring) (st : state)
  : state * list action :=
  let pid := nextPid st in
  ({| cameraProcess := Some pid;
      currentQuality := or_else quality (currentQuality st);
      uiStreamClients := uiStreamClients st; cameraIdleTimer := cameraIdleTimer st;
      mux := Mux.clear (mux st); pidFile := Some pid; alive := alive st ++ [pid];
      timers := timers st; requests := requests st; listeners := listeners st;
      nextPid := S pid; nextTimer := nextTimer st; nextReq := nextReq st |},
   [Spawn pid (preset_of quality (currentQuality st))]).

(** [stopCameraStream()] up to the call of [exec]; [None] when the promise
    is resolved at once. *)
Definition stopCameraStream (st : state) : option (state * list action) :=
  let pid := readCameraPid st in
  if negb (isProcessRunning pid st) && negb (bool_decide (is_Some (cameraProcess st)))
  then None
  else
    let kill := match cameraProcess st with Some p => [Kill p] | None => [] end in
    Some (set_process None st, kill ++ [ExecKill pid]).

(** The callback of that [exec]: [clearCameraPid(); cameraClients.clear();
    frameBuffer = Buffer.alloc(0); latestFrame = null; setTimeout(resolve, 600)]. *)
Definition stop_callback (st : state) : state :=
  set_mux (Mux.clear (mux st)) (set_pidFile None st).

(** The handler of the process's [exit] event. *)
Definition on_exit (pid : nat) (st : state) : state * list action :=
  if bool_decide (pid ∈ alive st) then
    ({| cameraProcess := None; currentQuality := currentQuality st;
        uiStreamClients := uiStreamClients st;
        cameraIdleTimer := cameraIdleTimer st;
        mux := Mux.clear (mux st); pidFile := None;
        alive := filter (λ p, p ≠ pid) (alive st);
        timers := timers st; requests := requests st; listeners := listeners st;
        nextPid := nextPid st; nextTimer := nextTimer st; nextReq := nextReq st |},
     [])
  else (st, []).

(** The end of the route: [res.writeHead(200, ...); res.busy = false;
    cameraClients.add(res); if (latestFrame) { ... }] and the registration
    of the [close] and [error] listeners. *)
Definition register (req : nat) (ui : bool) (st : state) : state * list action :=
  let c := Mux.nextRes (mux st) in
  let '(m, out) := Mux.attach (mux st) in
  ({| cameraProcess := cameraProcess st; currentQuality := currentQuality st;
      uiStreamClients := uiStreamClients st; cameraIdleTimer := cameraIdleTimer st;
      mux := m; pidFile := pidFile st; alive := alive st; timers := timers st;
      requests := requests st; listeners := <[c := ui]> (listeners st);
      nextPid := nextPid st; nextTimer := nextTimer st; nextReq := nextReq st |},
   WriteHead req c :: map Viewer out).

(** What follows the [try] block for a UI client: [uiStreamClients++], then
    the end of the route. *)
Definition accept_ui (req : nat) (st : state) : state * list action :=
  register req true (set_count (pre_increment (uiStreamClients st)) st).

(** The request [req] is left waiting in [stage]. *)
Definition suspend (req : nat) (ui : bool) (quality : jsstring) (stage : phase)
    (st : state) : state :=
  set_requests (<[req := {| isUiClient := ui; quality := quality; stage := stage |}]>
                  (requests st)) st.

(** [if (cameraIdleTimer) { clearTimeout(cameraIdleTimer); cameraIdleTimer = null; }] *)
Definition cancel_idle (st : state) : state * list action :=
  match cameraIdleTimer st with
  | Some t => (set_timer None (filter (λ t', t' ≠ t) (timers st)) (nextTimer st) st,
               [ClearTimeout t])
  | None => (st, [])
  end.

(** [cleanup()] of the response [c]. *)
Definition cleanup (c : nat) (ui : bool) (st : state) : state * list action :=
  let st1 := set_mux (Mux.detach c (mux st)) st in
  if ui then
    let n := Z.to_N (Z.max 0 (Z.of_N (uiStreamClients st1) - 1)) in
    let st2 := set_count n st1 in
    if n =? 0 then
      let t := nextTimer st2 in
      (set_timer (Some t) (timers st2 ++ [t]) (S t) st2,
       [SetTimeout t CAMERA_IDLE_GRACE_MS])
    else (st2, [])
  else (st1, []).

(** The callback of the idle timer. *)
Definition on_idle (t : nat) (st : state) : state * list action :=
  if bool_decide (t ∈ timers st) then
    let st1 := set_timer None (filter (λ t', t' ≠ t) (timers st)) (nextTimer st) st in
    match cameraProcess st1 with
    | Some p => if uiStreamClients st1 =? 0 then (st1, [Kill p]) else (st1, [])
    | None => (st1, [])
    end
  else (st, []).

Section Route.

(** [String.prototype.toLowerCase] of the platform. *)
Variable toLowerCase : jsstring -> jsstring.

(** [String(req.query.quality || currentQuality || "low").toLowerCase()],
    for a query whose [quality], when present, is a string. *)
Definition requested (q : option jsstring) (st : state) : jsstring :=
  toLowerCase (or_else (default [] q) (or_else (currentQuality st) (str "low"))).

Definition needsRestart (quality : jsstring) (st : state) : bool :=
  negb (bool_decide (is_Some (cameraProcess st))) ||
  negb (isProcessRunning (readCameraPid st) st) ||
  negb (bool_decide (quality = currentQuality st)).

(** [app.get("/camera/stream", async (req, res) => ...)] up to its first
    wait.  A promise that is already resolved is awaited without any other
    event in between, so [startCameraStream] runs in the same step when
    [stopCameraStream] had nothing to stop. *)
Definition on_attach (ui : bool) (q : option jsstring) (st : state)
  : state * list action :=
  let req := nextReq st in
  let st := {| cameraProcess := cameraProcess st; currentQuality := currentQuality st;
               uiStreamClients := uiStreamClients st;
               cameraIdleTimer := cameraIdleTimer st; mux := mux st;
               pidFile := pidFile st; alive := alive st; timers := timers st;
               requests := requests st; listeners := listeners st;
               nextPid := nextPid st; nextTimer := nextTimer st;
               nextReq := S req |} in
  if ui then
    let '(st1, out1) := cancel_idle st in
    let quality := requested q st1 in
    if needsRestart quality st1 then
      match stopCameraStream st1 with
      | Some (st2, out2) => (suspend req ui quality Stopping st2, out1 ++ out2)
      | None =>
          let '(st2, out2) := startCameraStream quality st1 in
          (suspend req ui quality Starting st2, out1 ++ out2)
      end
    else
      let '(st2, out2) := accept_ui req st1 in (st2, out1 ++ out2)
  else
    if negb (isProcessRunning (readCameraPid st) st) ||
       negb (bool_decide (is_Some (cameraProcess st)))
    then (st, [Unavailable req])
    else register req ui st.

(** The callback of [exec] for the request [req]. *)
Definition on_exec_done (req : nat) (st : state) : state * list action :=
  match requests st !! req with
  | Some {| isUiClient := ui; quality := quality; stage := Stopping |} =>
      (suspend req ui quality Settling (stop_callback st), [])
  | _ => (st, [])
  end.

(** The 600 ms timer of [stopCameraStream]: the promise resolves and the
    route goes on to [startCameraStream(quality)]. *)
Definition on_settled (req : nat) (st : state) : state * list action :=
  match requests st !! req with
  | Some {| isUiClient := ui; quality := quality; stage := Settling |} =>
      let '(st1, out) := startCameraStream quality st in
      (suspend req ui quality Starting st1, out)
  | _ => (st, [])
  end.

(** The 500 ms timer of [startCameraStream]:
    [if (isProcessRunning(cameraProcess && cameraProcess.pid)) resolve();
     else reject(...)], and the route after it. *)
Definition on_start_check (req : nat) (st : state) : state * list action :=
  match requests st !! req with
  | Some {| isUiClient := ui; quality := quality; stage := Starting |} =>
      let st1 := set_requests (delete req (requests st)) st in
      if isProcessRunning (cameraProcess st1) st1 then accept_ui req st1
      else (st1, [Unavailable req])
  | _ => (st, [])
  end.

(** The [close] and [error] listeners of a response. *)
Definition on_close (c : nat) (st : state) : state * list action :=
  match listeners st !! c with
  | Some ui => let '(st1, out) := cleanup c ui st in (st1, out ++ [EndResponse c])
  | None => (st, [])
  end.

Definition on_error (c : nat) (st : state) : state * list action :=
  match listeners st !! c with
  | Some ui => cleanup c ui st
  | None => (st, [])
  end.

Definition lift (r : Mux.state * list Mux.action) (st : state)
  : state * list action :=
  (set_mux (fst r) st, map Viewer (snd r)).

Inductive event :=
| Attach (ui : bool) (q : option jsstring)  (* GET /camera/stream *)
| ExecDone (req : nat)
| Settled (req : nat)
| StartCheck (req : nat)
| Close (c : nat)
| Error (c : nat)
| IdleTimer (t : nat)
| Exit (pid : nat)
| Data (chunk : Mux.bytes)                  (* stdout of the camera process *)
| Drained (c : nat).                        (* a trailer write completed *)

Definition step (st : state) (e : event) : state * list action :=
  match e with
  | Attach ui q => on_attach ui q st
  | ExecDone req => on_exec_done req st
  | Settled req => on_settled req st
  | StartCheck req => on_start_check req st
  | Close c => on_close c st
  | Error c => on_error c st
  | IdleTimer t => on_idle t st
  | Exit pid => on_exit pid st
  | Data chunk => lift (Mux.broadcastFrame chunk (mux st)) st
  | Drained c => lift (Mux.drained c (mux st)) st
  end.

Fixpoint run (st : state) (tr : list event) : state * list action :=
  match tr with
  | [] => (st, [])
  | e :: tr' =>
      let '(st1, out1) := step st e in
      let '(st2, out2) := run st1 tr' in
      (st2, out1 ++ out2)
  end.

End Route.

(** The processes started and the stops (either kind) among the actions. *)
Definition spawns (out : list action) : list nat :=
  omap (λ a, match a with Spawn pid _ => Some pid | _ => None end) out.

Definition stops (out : list action) : list action :=
  omap (λ a, match a with
             | Kill _ | ExecKill _ => Some a
             | _ => None
             end) out.

End Lifecycle.

Module LifecycleFacts.
Import JS Lifecycle.

#[local] Open Scope N_scope.
#[local] Arguments spawns : simpl never.
#[local] Arguments stops : simpl never.

Lemma spawns_app out1 out2 : spawns (out1 ++ out2) = spawns out1 ++ spawns out2.
Proof. unfold spawns. apply omap_app. Qed.

Lemma stops_app out1 out2 : stops (out1 ++ out2) = stops out1 ++ stops out2.
Proof. unfold stops. apply omap_app. Qed.

Lemma spawns_viewer out : spawns (map Viewer out) = [].
Proof. induction out as [|a out IH]; [reflexivity|exact IH]. Qed.

Lemma stops_viewer out : stops (map Viewer out) = [].
Proof. induction out as [|a out IH]; [reflexivity|exact IH]. Qed.

(** The end of the route starts and stops nothing, and touches neither the
    process nor the timer. *)
Lemma register_effects req ui st :
  let st' := fst (register req ui st) in
  let out := snd (register req ui st) in
  spawns out = [] /\ stops out = [] /\
  cameraProcess st' = cameraProcess st /\ pidFile st' = pidFile st /\
  alive st' = alive st /\ requests st' = requests st /\
  uiStreamClients st' = uiStreamClients st /\
  cameraIdleTimer st' = cameraIdleTimer st /\ timers st' = timers st /\
  currentQuality st' = currentQuality st /\ nextPid st' = nextPid st.
Proof.
  unfold register. destruct (Mux.attach (mux st)) as [m out]. cbn [fst snd].
  change (WriteHead req (Mux.nextRes (mux st)) :: map Viewer out)
    with ([WriteHead req (Mux.nextRes (mux st))] ++ map Viewer out).
  rewrite spawns_app, stops_app, spawns_viewer, stops_viewer.
  repeat split.
Qed.

Lemma cleanup_effects c ui st :
  let st' := fst (cleanup c ui st) in
  let out := snd (cleanup c ui st) in
  spawns out = [] /\ stops out = [] /\
  cameraProcess st' = cameraProcess st /\ pidFile st' = pidFile st /\
  alive st' = alive st /\ requests st' = requests st /\
  currentQuality st' = currentQuality st /\ nextPid st' = nextPid st.
Proof.
  unfold cleanup. destruct ui; [|repeat split].
  cbn [uiStreamClients set_mux set_count].
  destruct (_ =? 0); repeat split.
Qed.

Lemma cancel_idle_effects st :
  let st' := fst (cancel_idle st) in
  let out := snd (cancel_idle st) in
  spawns out = [] /\ stops out = [] /\
  cameraProcess st' = cameraProcess st /\ pidFile st' = pidFile st /\
  alive st' = alive st /\ requests st' = requests st /\
  uiStreamClients st' = uiStreamClients st /\
  currentQuality st' = currentQuality st /\ nextPid st' = nextPid st /\
  nextReq st' = nextReq st /\
  cameraIdleTimer st' = None /\
  (forall t, cameraIdleTimer st = Some t ->
     (t ∉ timers st') /\ out = [ClearTimeout t]).
Proof.
  unfold cancel_idle. destruct (cameraIdleTimer st) as [t|] eqn:Ht; cbn [fst snd].
  - do 11 (split; [reflexivity|]).
    intros t' [= <-]. split; [|reflexivity].
    cbn. intros [Hne _]%list_elem_of_filter. done.
  - do 10 (split; [reflexivity|]). split; [exact Ht|]. intros t' [=].
Qed.

Section RouteFacts.

Variable toLowerCase : jsstring -> jsstring.

#[local] Abbreviation requested := (Lifecycle.requested toLowerCase).
#[local] Abbreviation step := (Lifecycle.step toLowerCase).
#[local] Abbreviation run := (Lifecycle.run toLowerCase).

Lemma lifecycle_run_app st tr1 tr2 :
  run st (tr1 ++ tr2) =
  (fst (run (fst (run st tr1)) tr2),
   snd (run st tr1) ++ snd (run (fst (run st tr1)) tr2)).
Proof.
  revert st. induction tr1 as [|e tr1 IH]; intros st; cbn [Lifecycle.run app].
  - cbn [fst snd app]. destruct (run st tr2); reflexivity.
  - destruct (step st e) as [st1 out1]. rewrite IH.
    destruct (run st1 tr1) as [st2 out2]. cbn [fst snd].
    rewrite app_assoc. reflexivity.
Qed.

(** ** The producer during a quiet run *)

(** An event of a quiet run: the producer does not exit, a UI viewer that
    attaches to a producer asks for the quality it runs at, and an idle timer
    fires only while a UI viewer is counted. *)
Definition quiet (st : state) (e : event) : bool :=
  match e with
  | Exit _ => false
  | Attach true q =>
      negb (bool_decide (is_Some (cameraProcess st))) ||
      bool_decide (requested q st = currentQuality st)
  | IdleTimer _ => negb (uiStreamClients st =? 0)
  | _ => true
  end.

Fixpoint calm (st : state) (tr : list event) : bool :=
  match tr with
  | [] => true
  | e :: tr' => quiet st e && calm (fst (step st e)) tr'
  end.

Definition is_ui_attach (e : event) : bool :=
  match e with Attach true _ => true | _ => false end.

(** What a quiet run keeps: no request waits for a stop, and a producer,
    once there, runs under the pid in the file and is the one started. *)
Definition steady (st : state) (started : list nat) : Prop :=
  (forall r rq, requests st !! r = Some rq -> stage rq = Starting) /\
  nextPid st <> 0%nat /\
  match cameraProcess st with
  | None => pidFile st = None /\ started = []
  | Some p => pidFile st = Some p /\ p ∈ alive st /\ p <> 0%nat /\ started = [p]
  end.

Lemma steady_init : steady init [].
Proof.
  split; [|split]; [|done|done].
  intros r rq H. cbn in H. rewrite lookup_empty in H. discriminate.
Qed.

Lemma steady_running st started p :
  steady st started -> cameraProcess st = Some p ->
  isProcessRunning (readCameraPid st) st = true /\
  isProcessRunning (cameraProcess st) st = true.
Proof.
  intros (_ & _ & H) Hp. rewrite Hp in H. destruct H as (Hf & Hal & Hne & _).
  unfold readCameraPid. rewrite Hf, Hp. cbn.
  rewrite bool_decide_eq_true_2 by exact Hal.
  destruct p; [done|]. split; reflexivity.
Qed.

Lemma steady_stopped st started :
  steady st started -> cameraProcess st = None ->
  stopCameraStream st = None /\ started = [].
Proof.
  intros (_ & _ & H) Hp. rewrite Hp in H. destruct H as [Hf ->].
  unfold stopCameraStream, readCameraPid. rewrite Hf, Hp. cbn.
  split; reflexivity.
Qed.

Lemma steady_same st st' started :
  requests st' = requests st -> nextPid st' = nextPid st ->
  cameraProcess st' = cameraProcess st -> pidFile st' = pidFile st ->
  alive st' = alive st ->
  steady st started -> steady st' started.
Proof.
  intros Hr Hn Hp Hf Ha (H1 & H2 & H3). unfold steady.
  rewrite Hr, Hn, Hp, Hf, Ha. done.
Qed.

Lemma steady_fewer st started rs :
  rs ⊆ requests st -> steady st started -> steady (set_requests rs st) started.
Proof.
  intros Hsub (H1 & H2 & H3). split; [|split]; [|exact H2|exact H3].
  intros r rq Hr. apply (H1 r). cbn in Hr.
  eapply lookup_weaken; [exact Hr|exact Hsub].
Qed.

Lemma steady_started st quality req ui :
  steady st [] -> cameraProcess st = None ->
  let st' := fst (startCameraStream quality st) in
  steady (suspend req ui quality Starting st') [nextPid st].
Proof.
  intros (H1 & H2 & H3) Hp. cbn. split; [|split]; cbn.
  - intros r rq. destruct (decide (r = req)) as [->|Hne].
    + rewrite lookup_insert_eq. intros [= <-]. reflexivity.
    + rewrite lookup_insert_ne by done. apply H1.
  - done.
  - split; [reflexivity|]. split; [|split]; [|exact H2|reflexivity].
    apply elem_of_app. right. apply list_elem_of_singleton. reflexivity.
Qed.

Lemma accept_ui_effects req st :
  let st' := fst (accept_ui req st) in
  let out := snd (accept_ui req st) in
  spawns out = [] /\ stops out = [] /\
  cameraProcess st' = cameraProcess st /\ pidFile st' = pidFile st /\
  alive st' = alive st /\ requests st' = requests st /\
  uiStreamClients st' = pre_increment (uiStreamClients st) /\
  cameraIdleTimer st' = cameraIdleTimer st /\ timers st' = timers st /\
  currentQuality st' = currentQuality st /\ nextPid st' = nextPid st.
Proof.
  unfold accept_ui.
  exact (register_effects req true (set_count (pre_increment (uiStreamClients st)) st)).
Qed.

(** A UI viewer attaches to a running producer at the quality it runs at:
    nothing is started or stopped, the pending idle timer is cancelled and
    the viewer is counted. *)
Lemma attach_running st q p :
  cameraProcess st = Some p -> isProcessRunning (readCameraPid st) st = true ->
  requested q st = currentQuality st ->
  let st' := fst (step st (Attach true q)) in
  let out := snd (step st (Attach true q)) in
  spawns out = [] /\ stops out = [] /\
  cameraProcess st' = Some p /\ pidFile st' = pidFile st /\
  alive st' = alive st /\ requests st' = requests st /\
  nextPid st' = nextPid st /\
  uiStreamClients st' = pre_increment (uiStreamClients st) /\
  cameraIdleTimer st' = None /\
  (forall t, cameraIdleTimer st = Some t ->
     (t ∉ timers st') /\ ClearTimeout t ∈ out).
Proof.
  intros Hp Hrun Hq. cbn [Lifecycle.step]. unfold on_attach.
  set (st0 := {| cameraProcess := cameraProcess st; nextReq := S (nextReq st) |}).
  pose proof (cancel_idle_effects st0) as
    (Hs1 & Hk1 & Hp1 & Hf1 & Ha1 & Hr1 & Hc1 & Hq1 & Hn1 & _ & Ht1 & Hcl).
  destruct (cancel_idle st0) as [st1 out1]. cbn [fst snd] in *.
  assert (Hno : needsRestart (requested q st1) st1 = false).
  { unfold needsRestart, readCameraPid, isProcessRunning in *.
    unfold Lifecycle.requested in *. rewrite Hp1, Hf1, Ha1, Hq1. cbn. rewrite Hp.
    cbn. rewrite Hrun. cbn. rewrite bool_decide_eq_true_2 by exact Hq. reflexivity. }
  rewrite Hno.
  pose proof (accept_ui_effects (nextReq st) st1) as
    (Hs2 & Hk2 & Hp2 & Hf2 & Ha2 & Hr2 & Hc2 & Hi2 & Ht2 & Hq2 & Hn2).
  destruct (accept_ui (nextReq st) st1) as [st2 out2]. cbn [fst snd] in *.
  rewrite spawns_app, stops_app, Hs1, Hk1, Hs2, Hk2, Hp2, Hp1, Hf2, Hf1, Ha2, Ha1,
    Hr2, Hr1, Hn2, Hn1, Hc2, Hc1, Hi2, Ht1, Ht2.
  do 9 (split; [done|]).
  intros t Ht. destruct (Hcl t Ht) as [Hnot ->]. split; [exact Hnot|].
  apply elem_of_app. left. apply list_elem_of_singleton. reflexivity.
Qed.

Lemma quiet_step st started e :
  steady st started -> quiet st e = true ->
  let st' := fst (step st e) in
  let out := snd (step st e) in
  stops out = [] /\ steady st' (started ++ spawns out) /\
  (is_Some (cameraProcess st) ->
     cameraProcess st' = cameraProcess st /\ spawns out = []) /\
  (is_ui_attach e = true -> is_Some (cameraProcess st')).
Proof.
  intros Hst Hq. destruct e as [ui q|req|req|req|c|c|t|pid|chunk|c];
    cbn [Lifecycle.step is_ui_attach].
  - destruct ui.
    + destruct (cameraProcess st) as [p|] eqn:Hp.
      * destruct (steady_running st started p Hst Hp) as [Hrun _].
        cbn in Hq. rewrite Hp in Hq. cbn in Hq.
        apply bool_decide_eq_true_1 in Hq.
        pose proof (attach_running st q p Hp Hrun Hq) as
          (Hs & Hk & Hp' & Hf & Ha & Hr & Hn & _).
        cbn [Lifecycle.step] in *. rewrite Hs, Hk, app_nil_r.
        split; [done|]. split; [|split]; [|done|intros _; rewrite Hp'; done].
        eapply steady_same; [exact Hr|exact Hn|rewrite Hp', Hp; done|exact Hf
                            |exact Ha|exact Hst].
      * destruct (steady_stopped st started Hst Hp) as [_ ->].
        unfold on_attach.
        set (st0 := {| cameraProcess := cameraProcess st; nextReq := S (nextReq st) |}).
        pose proof (cancel_idle_effects st0) as
          (Hs1 & Hk1 & Hp1 & Hf1 & Ha1 & Hr1 & Hc1 & Hq1 & Hn1 & _).
        destruct (cancel_idle st0) as [st1 out1]. cbn [fst snd] in *.
        assert (Hst1 : steady st1 []).
        { eapply steady_same; [..|exact Hst]; done. }
        assert (Hp1' : cameraProcess st1 = None) by (rewrite Hp1; exact Hp).
        unfold needsRestart. rewrite Hp1'. cbn [negb orb bool_decide].
        rewrite bool_decide_eq_false_2 by (intros [x Hx]; discriminate).
        cbn [negb orb].
        destruct (steady_stopped st1 [] Hst1 Hp1') as [-> _].
        pose proof (steady_started st1 (requested q st1) (nextReq st) true Hst1 Hp1')
          as Hnew.
        cbn [startCameraStream fst snd] in *.
        rewrite stops_app, spawns_app, Hs1, Hk1.
        split; [reflexivity|]. split; [|split]; [|intros [x Hx]; discriminate|].
        -- cbn. exact Hnew.
        -- intros _. cbn. eexists. reflexivity.
    + unfold on_attach.
      set (st0 := {| cameraProcess := cameraProcess st; nextReq := S (nextReq st) |}).
      assert (Hst0 : steady st0 started).
      { eapply steady_same; [..|exact Hst]; done. }
      destruct (_ || _).
      * cbn [fst snd]. rewrite app_nil_r. repeat split; try done; apply Hst0.
      * pose proof (register_effects (nextReq st) false st0) as
          (Hs & Hk & Hp' & Hf & Ha & Hr & _ & _ & _ & _ & Hn).
        cbn [fst snd] in *. rewrite Hs, Hk, app_nil_r.
        split; [done|]. split; [|split]; [|intros _; rewrite Hp'; done|done].
        eapply steady_same; [exact Hr|exact Hn|exact Hp'|exact Hf|exact Ha|exact Hst0].
  - unfold on_exec_done. destruct Hst as (H1 & H2 & H3).
    destruct (requests st !! req) as [[ui quality []]|] eqn:Hr;
      try (apply H1 in Hr; discriminate);
      cbn [fst snd]; rewrite app_nil_r; repeat split; try done; apply H3.
  - unfold on_settled. destruct Hst as (H1 & H2 & H3).
    destruct (requests st !! req) as [[ui quality []]|] eqn:Hr;
      try (apply H1 in Hr; discriminate);
      cbn [fst snd]; rewrite app_nil_r; repeat split; try done; apply H3.
  - unfold on_start_check.
    destruct (requests st !! req) as [[ui quality []]|] eqn:Hr;
      try (cbn [fst snd]; rewrite app_nil_r; repeat split; try done; apply Hst).
    set (st1 := set_requests (delete req (requests st)) st).
    assert (Hst1 : steady st1 started).
    { apply steady_fewer; [apply delete_subseteq|exact Hst]. }
    destruct (isProcessRunning (cameraProcess st1) st1).
    + pose proof (accept_ui_effects req st1) as
        (Hs & Hk & Hp' & Hf & Ha & Hr' & _ & _ & _ & _ & Hn).
      cbn [fst snd] in *. rewrite Hs, Hk, app_nil_r.
      split; [done|]. split; [|split]; [|intros _; rewrite Hp'; done|done].
      eapply steady_same; [exact Hr'|exact Hn|exact Hp'|exact Hf|exact Ha|exact Hst1].
    + cbn [fst snd]. rewrite app_nil_r. repeat split; try done; apply Hst1.
  - unfold on_close. destruct (listeners st !! c) as [ui|];
      [|cbn [fst snd]; rewrite app_nil_r; repeat split; try done; apply Hst].
    pose proof (cleanup_effects c ui st) as (Hs & Hk & Hp' & Hf & Ha & Hr & _ & Hn).
    destruct (cleanup c ui st) as [st1 out]. cbn [fst snd] in *.
    rewrite stops_app, spawns_app, Hs, Hk.
    change (spawns [EndResponse c]) with (@nil nat).
    change (stops [EndResponse c]) with (@nil action). rewrite !app_nil_r.
    split; [done|]. split; [|split]; [|intros _; rewrite Hp'; done|done].
    eapply steady_same; [exact Hr|exact Hn|exact Hp'|exact Hf|exact Ha|exact Hst].
  - unfold on_error. destruct (listeners st !! c) as [ui|];
      [|cbn [fst snd]; rewrite app_nil_r; repeat split; try done; apply Hst].
    pose proof (cleanup_effects c ui st) as (Hs & Hk & Hp' & Hf & Ha & Hr & _ & Hn).
    destruct (cleanup c ui st) as [st1 out]. cbn [fst snd] in *.
    rewrite Hs, Hk, app_nil_r.
    split; [done|]. split; [|split]; [|intros _; rewrite Hp'; done|done].
    eapply steady_same; [exact Hr|exact Hn|exact Hp'|exact Hf|exact Ha|exact Hst].
  - unfold on_idle. cbn in Hq. apply negb_true_iff in Hq.
    destruct (bool_decide _);
      [|cbn [fst snd]; rewrite app_nil_r; repeat split; try done; apply Hst].
    cbn [cameraProcess set_timer uiStreamClients]. rewrite Hq.
    destruct (cameraProcess st) eqn:Hp; cbn [fst snd]; rewrite app_nil_r;
      (split; [done|]); (split; [|split]; [|intros _; cbn; done|done]);
      (eapply steady_same; [..|exact Hst]; done).
  - discriminate.
  - unfold lift. cbn [fst snd]. rewrite stops_viewer, spawns_viewer, app_nil_r.
    split; [done|]. split; [|split]; [|intros _; cbn; done|done].
    eapply steady_same; [..|exact Hst]; done.
  - unfold lift. cbn [fst snd]. rewrite stops_viewer, spawns_viewer, app_nil_r.
    split; [done|]. split; [|split]; [|intros _; cbn; done|done].
    eapply steady_same; [..|exact Hst]; done.
Qed.

Lemma quiet_run tr : forall st started,
  steady st started -> calm st tr = true ->
  let st' := fst (run st tr) in
  let out := snd (run st tr) in
  stops out = [] /\ steady st' (started ++ spawns out) /\
  (is_Some (cameraProcess st) ->
     cameraProcess st' = cameraProcess st /\ spawns out = []) /\
  (existsb is_ui_attach tr = true -> is_Some (cameraProcess st')).
Proof.
  induction tr as [|e tr IH]; intros st started Hst Hcalm.
  - cbn. rewrite app_nil_r. split; [done|]. split; [exact Hst|]. split; done.
  - cbn [calm] in Hcalm. apply andb_true_iff in Hcalm as [Hq Hcalm].
    pose proof (quiet_step st started e Hst Hq) as (Hk1 & Hst1 & Hkeep1 & Hui1).
    cbn [Lifecycle.run]. destruct (step st e) as [st1 out1]. cbn [fst snd] in *.
    pose proof (IH st1 _ Hst1 Hcalm) as (Hk2 & Hst2 & Hkeep2 & Hui2).
    destruct (run st1 tr) as [st2 out2]. cbn [fst snd] in *.
    rewrite stops_app, spawns_app, Hk1, Hk2, app_assoc.
    split; [done|]. split; [exact Hst2|]. split.
    + intros Hp. destruct (Hkeep1 Hp) as [Hp1 Hs1].
      rewrite <- Hp1 in Hp. destruct (Hkeep2 Hp) as [Hp2 Hs2].
      rewrite Hp2, Hp1, Hs1, Hs2. done.
    + cbn [existsb]. intros [Hui|Hui]%orb_true_iff.
      * specialize (Hui1 Hui). destruct (Hkeep2 Hui1) as [-> _]. exact Hui1.
      * exact (Hui2 Hui).
Qed.

(** A UI viewer that attaches cancels the pending idle timer, whatever else
    the route has to do: the handle is cleared and that timer's callback
    never runs. *)
Lemma attach_cancels st q t :
  cameraIdleTimer st = Some t ->
  let st' := fst (step st (Attach true q)) in
  let out := snd (step st (Attach true q)) in
  cameraIdleTimer st' = None /\ (t ∉ timers st') /\ ClearTimeout t ∈ out /\
  step st' (IdleTimer t) = (st', []).
Proof.
  intros Ht. cbn [Lifecycle.step]. unfold on_attach, cancel_idle.
  cbn [cameraIdleTimer]. rewrite Ht.
  assert (Hnot : t ∉ filter (λ t', t' ≠ t) (timers st)).
  { intros [Hne _]%list_elem_of_filter. done. }
  assert (Hin : forall l : list action, ClearTimeout t ∈ [ClearTimeout t] ++ l).
  { intros l. apply elem_of_app. left. apply list_elem_of_singleton. reflexivity. }
  destruct (needsRestart _ _).
  - destruct (stopCameraStream _) as [[st2 out2]|] eqn:Hstop.
    + unfold stopCameraStream in Hstop. destruct (_ && _); [discriminate|].
      injection Hstop as <- <-. cbn [fst snd]. unfold on_idle.
      cbn [cameraIdleTimer timers suspend set_requests set_process set_timer].
      rewrite bool_decide_eq_false_2 by exact Hnot. done.
    + cbn [fst snd startCameraStream]. unfold on_idle.
      cbn [cameraIdleTimer timers suspend set_requests set_process set_timer].
      rewrite bool_decide_eq_false_2 by exact Hnot. done.
  - unfold accept_ui, register. destruct (Mux.attach _) as [m out2].
    cbn [fst snd]. unfold on_idle. cbn [cameraIdleTimer timers].
    rewrite bool_decide_eq_false_2 by exact Hnot. done.
Qed.

(** The callback of an idle timer stops the producer only when no UI viewer
    is counted as it runs. *)
Lemma idle_guard st t :
  let out := snd (step st (IdleTimer t)) in
  (uiStreamClients st <> 0 -> out = []) /\
  (out <> [] -> uiStreamClients st = 0 /\ t ∈ timers st /\
                exists p, cameraProcess st = Some p /\ out = [Kill p]).
Proof.
  cbn [Lifecycle.step]. unfold on_idle.
  destruct (bool_decide (t ∈ timers st)) eqn:Hin; [|cbn; done].
  apply bool_decide_eq_true_1 in Hin.
  cbn [cameraProcess uiStreamClients set_timer].
  destruct (cameraProcess st) as [p|]; [|cbn; done].
  destruct (uiStreamClients st =? 0) eqn:Hz; cbn [snd].
  - apply N.eqb_eq in Hz. split; [done|]. intros _. eauto.
  - split; [done|]. done.
Qed.

(** C5, as the code has it.  Take any run of the stream route from the
    start in which the producer does not exit by itself, every UI viewer that
    attaches while a producer is there asks for the quality it runs at (or
    for none), and every idle timer that fires does so while a UI viewer is
    counted, that is after the viewer attached again.  Then the producer is
    never stopped, it is started at most once, and exactly once as soon as a
    UI viewer has attached; it still runs at the end.  Moreover, in the state
    reached, a UI viewer that attaches cancels the pending idle timer, whose
    callback then never runs, and the callback of an idle timer stops the
    producer only if no UI viewer is counted when it runs. *)
Theorem C5_producer_kept_across_reattach (tr : list event) :
  calm init tr = true ->
  let st := fst (run init tr) in
  let out := snd (run init tr) in
  stops out = [] /\
  (length (spawns out) <= 1)%nat /\
  (existsb is_ui_attach tr = true ->
     exists p, spawns out = [p] /\ cameraProcess st = Some p /\ p ∈ alive st) /\
  (forall q t, cameraIdleTimer st = Some t ->
     let st' := fst (step st (Attach true q)) in
     cameraIdleTimer st' = None /\ (t ∉ timers st') /\
     ClearTimeout t ∈ snd (step st (Attach true q)) /\
     step st' (IdleTimer t) = (st', [])) /\
  (forall t, (uiStreamClients st <> 0 -> snd (step st (IdleTimer t)) = []) /\
             (snd (step st (IdleTimer t)) <> [] ->
                uiStreamClients st = 0 /\ t ∈ timers st /\
                exists p, cameraProcess st = Some p /\
                          snd (step st (IdleTimer t)) = [Kill p])).
Proof.
  intros Hcalm st out.
  pose proof (quiet_run tr init [] steady_init Hcalm) as (Hk & Hst & _ & Hui).
  fold st out in Hk, Hst, Hui. cbn [app] in Hst.
  destruct Hst as (_ & _ & Hst).
  split; [exact Hk|]. split; [|split; [|split]].
  - destruct (cameraProcess st); [destruct Hst as (_ & _ & _ & ->)
                                 |destruct Hst as (_ & ->)]; cbn; lia.
  - intros H. destruct (Hui H) as [p Hp]. rewrite Hp in Hst.
    destruct Hst as (_ & Hal & _ & Hs). exists p. done.
  - intros q t Ht. exact (attach_cancels st q t Ht).
  - intros t. exact (idle_guard st t).
Qed.

(** Pids are handed out upwards from 1. *)
Lemma step_nextPid st e : (nextPid st <= nextPid (fst (step st e)))%nat.
Proof.
  destruct e as [ui q|req|req|req|c|c|t|pid|chunk|c]; cbn [Lifecycle.step].
  - unfold on_attach.
    set (st0 := {| cameraProcess := cameraProcess st; nextReq := S (nextReq st) |}).
    assert (Hn0 : nextPid st0 = nextPid st) by reflexivity.
    destruct ui.
    + pose proof (cancel_idle_effects st0) as
        (_ & _ & _ & _ & _ & _ & _ & _ & Hn1 & _).
      destruct (cancel_idle st0) as [st1 out1]. cbn [fst snd] in *.
      destruct (needsRestart _ _).
      * unfold stopCameraStream. destruct (_ && _); cbn; lia.
      * pose proof (accept_ui_effects (nextReq st) st1) as
          (_ & _ & _ & _ & _ & _ & _ & _ & _ & _ & Hn2).
        destruct (accept_ui _ _) as [st2 out2]. cbn [fst snd] in *. lia.
    + destruct (_ || _); [cbn; lia|].
      pose proof (register_effects (nextReq st) false st0) as
        (_ & _ & _ & _ & _ & _ & _ & _ & _ & _ & Hn).
      rewrite Hn. cbn. lia.
  - unfold on_exec_done.
    destruct (requests st !! req) as [[ui quality []]|]; cbn; lia.
  - unfold on_settled.
    destruct (requests st !! req) as [[ui quality []]|]; cbn; lia.
  - unfold on_start_check.
    destruct (requests st !! req) as [[ui quality []]|]; try (cbn; lia).
    destruct (isProcessRunning _ _); [|cbn; lia].
    pose proof (accept_ui_effects req (set_requests (delete req (requests st)) st))
      as (_ & _ & _ & _ & _ & _ & _ & _ & _ & _ & Hn).
    rewrite Hn. cbn. lia.
  - unfold on_close. destruct (listeners st !! c) as [ui|]; [|cbn; lia].
    pose proof (cleanup_effects c ui st) as (_ & _ & _ & _ & _ & _ & _ & Hn).
    destruct (cleanup c ui st) as [st1 out]. cbn [fst snd] in *. lia.
  - unfold on_error. destruct (listeners st !! c) as [ui|]; [|cbn; lia].
    pose proof (cleanup_effects c ui st) as (_ & _ & _ & _ & _ & _ & _ & Hn).
    lia.
  - unfold on_idle. destruct (bool_decide _); [|cbn; lia].
    cbn [cameraProcess set_timer uiStreamClients].
    destruct (cameraProcess st); [destruct (_ =? _)|]; cbn; lia.
  - unfold on_exit. destruct (bool_decide _); cbn; lia.
  - cbn. lia.
  - cbn. lia.
Qed.

Lemma run_nextPid tr : forall st, (nextPid st <= nextPid (fst (run st tr)))%nat.
Proof.
  induction tr as [|e tr IH]; intros st; cbn [Lifecycle.run]; [cbn; lia|].
  pose proof (step_nextPid st e) as H1.
  destruct (step st e) as [st1 out1]. pose proof (IH st1) as H2.
  destruct (run st1 tr) as [st2 out2]. cbn [fst snd] in *. lia.
Qed.

(** C9, as the code has it.  When the producer exits, in any state the
    route can reach, its exit handler empties the set of live viewers, the
    frame buffer and the latest frame, and forgets the process and its pid
    file.  The count of UI viewers, the idle timer and the listeners of the
    open responses are left as they were: a UI viewer that attaches later
    starts a new producer and is counted on top of the count from before the
    exit, while it is the only viewer in the set. *)
Theorem C9_exit_clears_viewers_keeps_count (history : list event) (pid : nat) :
  let st := fst (run init history) in
  pid ∈ alive st ->
  let st' := fst (step st (Exit pid)) in
  (Mux.cameraClients (mux st') = [] /\ Mux.frameBuffer (mux st') = [] /\
   Mux.latestFrame (mux st') = None /\
   cameraProcess st' = None /\ pidFile st' = None) /\
  (uiStreamClients st' = uiStreamClients st /\
   cameraIdleTimer st' = cameraIdleTimer st /\ timers st' = timers st /\
   listeners st' = listeners st) /\
  snd (step st (Exit pid)) = [] /\
  forall q,
    let later := run st' [Attach true q; StartCheck (nextReq st')] in
    uiStreamClients (fst later) = pre_increment (uiStreamClients st) /\
    Mux.cameraClients (mux (fst later)) = [Mux.nextRes (mux st)] /\
    spawns (snd later) = [nextPid st].
Proof.
  intros st Hal st'.
  assert (Hpid : nextPid st <> 0%nat).
  { pose proof (run_nextPid history init) as H. fold st in H. cbn in H. lia. }
  subst st'. cbn [Lifecycle.step]. unfold on_exit.
  rewrite bool_decide_eq_true_2 by exact Hal. cbn [fst snd].
  split; [done|]. split; [done|]. split; [done|].
  intros q. cbn [Lifecycle.run Lifecycle.step]. unfold on_attach, cancel_idle.
  cbn [cameraIdleTimer].
  destruct (cameraIdleTimer st) as [t|]; cbn; unfold on_start_check; cbn;
    rewrite lookup_insert_eq; cbn;
    rewrite bool_decide_eq_true_2
      by (apply elem_of_app; right; apply list_elem_of_singleton; reflexivity);
    destruct (nextPid st) as [|n]; try done; cbn; done.
Qed.

End RouteFacts.

(** ** Concrete runs *)

(** The case mapping on the letters A to Z, which is all that the runs below
    put through [toLowerCase]. *)
Definition toLowerCase_ascii (s : jsstring) : jsstring :=
  map (λ c, if (65 <=? c) && (c <=? 90) then c + 32 else c) s.

(** The count of UI viewers after each event of a run. *)
Fixpoint counts (toLowerCase : jsstring -> jsstring) (st : state) (tr : list event)
  : list N :=
  match tr with
  | [] => []
  | e :: tr' =>
      let st1 := fst (step toLowerCase st e) in
      uiStreamClients st1 :: counts toLowerCase st1 tr'
  end.

Definition reattach_same : list event :=
  [Attach true None; StartCheck 0; Close 0; Attach true None; IdleTimer 0].

Definition reattach_other : list event :=
  [Attach true (Some (str "low")); StartCheck 0; Close 0;
   Attach true (Some (str "high")); Exit 1; ExecDone 1; Settled 1; StartCheck 1].

Definition exit_while_watched : list event :=
  [Attach true None; StartCheck 0].

(** The count goes 0, 1, 0, 1 and the timer set at the detach is cancelled
    by the viewer that attaches again; when it would have fired nothing
    happens.  One producer is started and none is stopped. *)
Lemma C5_producer_kept_across_reattach_witness :
  calm toLowerCase_ascii init reattach_same = true /\
  counts toLowerCase_ascii init reattach_same = [0; 1; 0; 1; 1] /\
  stops (snd (run toLowerCase_ascii init reattach_same)) = [] /\
  spawns (snd (run toLowerCase_ascii init reattach_same)) = [1%nat] /\
  cameraProcess (fst (run toLowerCase_ascii init reattach_same)) = Some 1%nat.
Proof.
  assert (Hcalm : calm toLowerCase_ascii init reattach_same = true)
    by (vm_compute; reflexivity).
  pose proof (C5_producer_kept_across_reattach toLowerCase_ascii reattach_same Hcalm)
    as (Hstops & _ & Hstarted & _).
  destruct (Hstarted eq_refl) as (p & Hp & Hproc & _).
  split; [exact Hcalm|]. split; [vm_compute; reflexivity|].
  split; [exact Hstops|].
  assert (Hone : p = 1%nat).
  { assert (H : spawns (snd (run toLowerCase_ascii init reattach_same)) = [1%nat])
      by (vm_compute; reflexivity).
    rewrite Hp in H. injection H as ->. reflexivity. }
  subst p. split; [exact Hp|exact Hproc].
Defined.

(** Against C5 as it was stated: the count goes 0, 1, 0, 1 and no idle timer
    fires (the one set at the detach is cancelled), but the viewer that
    attaches again asks for another quality: the producer is stopped and a
    second one is started. *)
Lemma C5_reattach_with_other_quality_restarts :
  counts toLowerCase_ascii init reattach_other = [0; 1; 0; 0; 0; 0; 0; 1] /\
  forallb (λ e, match e with IdleTimer _ => false | _ => true end)
    reattach_other = true /\
  timers (fst (run toLowerCase_ascii init reattach_other)) = [] /\
  spawns (snd (run toLowerCase_ascii init reattach_other)) = [1%nat; 2%nat] /\
  stops (snd (run toLowerCase_ascii init reattach_other)) =
    [Kill 1; ExecKill (Some 1%nat)].
Proof. repeat split; vm_compute; reflexivity. Qed.

(** A producer exits while one UI viewer is attached. *)
Lemma C9_exit_clears_viewers_keeps_count_witness :
  let st := fst (run toLowerCase_ascii init exit_while_watched) in
  let st' := fst (step toLowerCase_ascii st (Exit 1)) in
  1%nat ∈ alive st /\
  Mux.cameraClients (mux st) = [0%nat] /\ Mux.cameraClients (mux st') = [] /\
  uiStreamClients st = 1 /\ uiStreamClients st' = 1.
Proof.
  intros st st'.
  assert (Hal : 1%nat ∈ alive st) by (vm_compute; apply list_elem_of_here).
  pose proof (C9_exit_clears_viewers_keeps_count toLowerCase_ascii
                exit_while_watched 1%nat Hal) as ((Hclients & _) & (Hcount & _) & _).
  split; [exact Hal|]. split; [vm_compute; reflexivity|].
  split; [exact Hclients|]. split; [vm_compute; reflexivity|].
  etransitivity; [exact Hcount|vm_compute; reflexivity].
Defined.

(** Against C9 as it was stated: after the exit the count of UI viewers is
    still 1, and a viewer that attaches later is counted as the second one
    although it is alone in the set of live viewers. *)
Lemma C9_count_survives_exit :
  let st' := fst (run toLowerCase_ascii init (exit_while_watched ++ [Exit 1])) in
  let later := fst (run toLowerCase_ascii st' [Attach true None; StartCheck 1]) in
  Mux.cameraClients (mux st') = [] /\ uiStreamClients st' = 1 /\
  uiStreamClients st' <> 0 /\
  uiStreamClients later = 2 /\ Mux.cameraClients (mux later) = [1%nat].
Proof.
  cbv zeta. split; [|split; [|split; [|split]]]; try (vm_compute; reflexivity).
  vm_compute. discriminate.
Qed.

End LifecycleFacts.

(** * Fire and cooldown: the motion tracker of the earlier revision
      ([startMotionTracking], [stopMotionTracking] with [motionCooldown]) *)

Module Fire.
Import JS Num StateFile.
Import Track (msg, json(..), command(..), ready, error, active, cx, cy, target,
  SERVO_H_CHANNEL, SERVO_V_CHANNEL).

#[local] Open Scope N_scope.

Definition FIRE_SETTLE_MS : N := 300.
Definition FIRE_COOLDOWN_MS : N := 2000.

(** A timer set by the controller and neither cleared nor run yet: its
    handle, which callback it runs and the time before which it does not. *)
Inductive kind := Settle | Cooldown.

Record timer := { handle : nat; callback : kind; deadline : N }.

(** The module-level variables of the controller. *)
Record vars := {
  motionTrackerProcess : option nat;
  motionTrackingActive : bool;
  motionTrackerBuffer : jsstring;
  motionCooldown : bool;
  motionCooldownTimer : option nat;
  motionSettleTimer : option nat;
  motionBoutActive : bool;
  motionServoInflight : bool
}.

(** What the controller acts on: the clock (in ms), the position file, the
    timer of [servoSetCmd], the timers, the trigger requests and the moves
    that are under way. *)
Record world := {
  now : N;
  servoFile : number * number;
  servoVOffTimer : bool;
  timers : list timer;
  fetches : list nat;              (* [fetch] calls not settled yet *)
  moves : list (list nat);         (* per [Promise.all(cmds)], the promises
                                      it still waits for *)
  nextTimer : nat;
  nextPromise : nat;
  nextFetch : nat;
  nextPid : nat
}.

Record state := { ctl : vars; env : world }.

(** The state after the module body ran: [writeServoState(SERVO_CENTER,
    SERVO_CENTER)] was called, the tracker is not started. *)
Definition init : state :=
  {| ctl := {| motionTrackerProcess := None; motionTrackingActive := false;
               motionTrackerBuffer := []; motionCooldown := false;
               motionCooldownTimer := None; motionSettleTimer := None;
               motionBoutActive := false; motionServoInflight := false |};
     env := {| now := 0; servoFile := (SERVO_CENTER, SERVO_CENTER);
               servoVOffTimer := false; timers := []; fetches := []; moves := [];
               nextTimer := 0; nextPromise := 0; nextFetch := 0; nextPid := 0 |} |}.

Inductive action :=
| ServoCmd (promise : nat) (c : command)   (* servoCmd(...), by its promise *)
| WriteServoState (h v : number)
| Trigger (request : nat)                  (* fetch(".../cicka?mode=pulse&ms=1500") *)
| SetTimeout (h : nat) (k : kind) (ms : N)
| ClearTimeout (h : nat)
| LogServoError
| LogFireError
| Kill (pid : nat)
| Spawn (pid : nat).

(** ** Updates of single variables *)

Definition set_buffer (b : jsstring) (c : vars) : vars :=
  {| motionTrackerProcess := motionTrackerProcess c;
     motionTrackingActive := motionTrackingActive c; motionTrackerBuffer := b;
     motionCooldown := motionCooldown c;
     motionCooldownTimer := motionCooldownTimer c;
     motionSettleTimer := motionSettleTimer c;
     motionBoutActive := motionBoutActive c;
     motionServoInflight := motionServoInflight c |}.

Definition set_cooldown (b : bool) (c : vars) : vars :=
  {| motionTrackerProcess := motionTrackerProcess c;
     motionTrackingActive := motionTrackingActive c;
     motionTrackerBuffer := motionTrackerBuffer c; motionCooldown := b;
     motionCooldownTimer := motionCooldownTimer c;
     motionSettleTimer := motionSettleTimer c;
     motionBoutActive := motionBoutActive c;
     motionServoInflight := motionServoInflight c |}.

Definition set_cooldown_timer (h : option nat) (c : vars) : vars :=
  {| motionTrackerProcess := motionTrackerProcess c;
     motionTrackingActive := motionTrackingActive c;
     motionTrackerBuffer := motionTrackerBuffer c;
     motionCooldown := motionCooldown c; motionCooldownTimer := h;
     motionSettleTimer := motionSettleTimer c;
     motionBoutActive := motionBoutActive c;
     motionServoInflight := motionServoInflight c |}.

Definition set_settle_timer (h : option nat) (c : vars) : vars :=
  {| motionTrackerProcess := motionTrackerProcess c;
     motionTrackingActive := motionTrackingActive c;
     motionTrackerBuffer := motionTrackerBuffer c;
     motionCooldown := motionCooldown c;
     motionCooldownTimer := motionCooldownTimer c; motionSettleTimer := h;
     motionBoutActive := motionBoutActive c;
     motionServoInflight := motionServoInflight c |}.

Definition set_bout (b : bool) (c : vars) : vars :=
  {| motionTrackerProcess := motionTrackerProcess c;
     motionTrackingActive := motionTrackingActive c;
     motionTrackerBuffer := motionTrackerBuffer c;
     motionCooldown := motionCooldown c;
     motionCooldownTimer := motionCooldownTimer c;
     motionSettleTimer := motionSettleTimer c; motionBoutActive := b;
     motionServoInflight := motionServoInflight c |}.

Definition set_inflight (b : bool) (c : vars) : vars :=
  {| motionTrackerProcess := motionTrackerProcess c;
     motionTrackingActive := motionTrackingActive c;
     motionTrackerBuffer := motionTrackerBuffer c;
     motionCooldown := motionCooldown c;
     motionCooldownTimer := motionCooldownTimer c;
     motionSettleTimer := motionSettleTimer c;
     motionBoutActive := motionBoutActive c; motionServoInflight := b |}.

Definition set_now (t : N) (w : world) : world :=
  {| now := t; servoFile := servoFile w; servoVOffTimer := servoVOffTimer w;
     timers := timers w; fetches := fetches w; moves := moves w;
     nextTimer := nextTimer w; nextPromise := nextPromise w;
     nextFetch := nextFetch w; nextPid := nextPid w |}.

Definition set_file (f : number * number) (w : world) : world :=
  {| now := now w; servoFile := f; servoVOffTimer := servoVOffTimer w;
     timers := timers w; fetches := fetches w; moves := moves w;
     nextTimer := nextTimer w; nextPromise := nextPromise w;
     nextFetch := nextFetch w; nextPid := nextPid w |}.

Definition set_voff (b : bool) (w : world) : world :=
  {| now := now w; servoFile := servoFile w; servoVOffTimer := b;
     timers := timers w; fetches := fetches w; moves := moves w;
     nextTimer := nextTimer w; nextPromise := nextPromise w;
     nextFetch := nextFetch w; nextPid := nextPid w |}.

Definition set_timers (ts : list timer) (w : world) : world :=
  {| now := now w; servoFile := servoFile w; servoVOffTimer := servoVOffTimer w;
     timers := ts; fetches := fetches w; moves := moves w;
     nextTimer := nextTimer w; nextPromise := nextPromise w;
     nextFetch := nextFetch w; nextPid := nextPid w |}.

Definition set_fetches (fs : list nat) (w : world) : world :=
  {| now := now w; servoFile := servoFile w; servoVOffTimer := servoVOffTimer w;
     timers := timers w; fetches := fs; moves := moves w;
     nextTimer := nextTimer w; nextPromise := nextPromise w;
     nextFetch := nextFetch w; nextPid := nextPid w |}.

Definition set_moves (ms : list (list nat)) (w : world) : world :=
  {| now := now w; servoFile := servoFile w; servoVOffTimer := servoVOffTimer w;
     timers := timers w; fetches := fetches w; moves := ms;
     nextTimer := nextTimer w; nextPromise := nextPromise w;
     nextFetch := nextFetch w; nextPid := nextPid w |}.

Definition with_ctl (f : vars -> vars) (st : state) : state :=
  {| ctl := f (ctl st); env := env st |}.

Definition with_env (f : world -> world) (st : state) : state :=
  {| ctl := ctl st; env := f (env st) |}.


(** ** The functions the handler calls *)

(** [servoCmd(cmd)] seen from its caller: a new promise, settled later by
    the actuator link. *)
Definition servoCmd (c : command) (st : state) : state * nat * list action :=
  let w := env st in
  let p := nextPromise w in
  ({| ctl := ctl st;
      env := {| now := now w; servoFile := servoFile w;
                servoVOffTimer := servoVOffTimer w; timers := timers w;
                fetches := fetches w; moves := moves w;
                nextTimer := nextTimer w; nextPromise := S p;
                nextFetch := nextFetch w; nextPid := nextPid w |} |},
   p, [ServoCmd p c]).

(** [servoSetCmd(channel, angle)]: for the vertical channel the pending OFF
    timer is cancelled and set again. *)
Definition servoSetCmd (channel : N) (angle : number) (st : state) : state * command :=
  if channel =? SERVO_V_CHANNEL then (with_env (set_voff true) st, SET channel angle)
  else (st, SET channel angle).

Definition readServoState (st : state) : servo_state :=
  {| horizontal := sanitize (fst (servoFile (env st)));
     vertical := sanitize (snd (servoFile (env st))) |}.

Definition writeServoState (h v : number) (st : state) : state * list action :=
  (with_env (set_file (h, v)) st, [WriteServoState h v]).

(** [setTimeout(callback, ms)]: the handle of the new timer. *)
Definition setTimeout (k : kind) (ms : N) (st : state) : state * nat * list action :=
  let w := env st in
  let h := nextTimer w in
  ({| ctl := ctl st;
      env := {| now := now w; servoFile := servoFile w;
                servoVOffTimer := servoVOffTimer w;
                timers := timers w ++ [{| handle := h; callback := k;
                                          deadline := now w + ms |}];
                fetches := fetches w; moves := moves w;
                nextTimer := S h; nextPromise := nextPromise w;
                nextFetch := nextFetch w; nextPid := nextPid w |} |},
   h, [SetTimeout h k ms]).

(** [clearTimeout(h)] *)
Definition clearTimeout (h : nat) (st : state) : state * list action :=
  (with_env (λ w, set_timers (filter (λ t, handle t ≠ h) (timers w)) w) st,
   [ClearTimeout h]).

(** [if (motionSettleTimer) { clearTimeout(motionSettleTimer);
    motionSettleTimer = null; }] and the same for the cooldown timer. *)
Definition clear_settle (st : state) : state * list action :=
  match motionSettleTimer (ctl st) with
  | Some h =>
      let '(st1, out) := clearTimeout h st in
      (with_ctl (set_settle_timer None) st1, out)
  | None => (st, [])
  end.

Definition clear_cooldown (st : state) : state * list action :=
  match motionCooldownTimer (ctl st) with
  | Some h =>
      let '(st1, out) := clearTimeout h st in
      (with_ctl (set_cooldown_timer None) st1, out)
  | None => (st, [])
  end.

(** The assignments that [stopMotionTracking] and the [exit] handler share. *)
Definition reset (st : state) : state * list action :=
  let c := ctl st in
  let st1 := {| ctl := {| motionTrackerProcess := None;
                          motionTrackingActive := false;
                          motionTrackerBuffer := []; motionCooldown := false;
                          motionCooldownTimer := motionCooldownTimer c;
                          motionSettleTimer := motionSettleTimer c;
                          motionBoutActive := false;
                          motionServoInflight := false |};
                env := env st |} in
  let '(st2, out2) := clear_cooldown st1 in
  let '(st3, out3) := clear_settle st2 in
  (st3, out2 ++ out3).

(** [function stopMotionTracking()] *)
Definition stopMotionTracking (st : state) : state * list action :=
  let kill := match motionTrackerProcess (ctl st) with
              | Some pid => [Kill pid]
              | None => []
              end in
  let '(st1, out) := reset st in (st1, kill ++ out).

(** The handler of the tracker's [exit] event. *)
Definition on_exit (st : state) : state * list action := reset st.

(** [function startMotionTracking()], up to the registration of the handlers. *)
Definition startMotionTracking (st : state) : state * list action :=
  match motionTrackerProcess (ctl st) with
  | Some _ => (st, [])
  | None =>
      let c := ctl st in
      let w := env st in
      let pid := nextPid w in
      ({| ctl := {| motionTrackerProcess := Some pid;
                    motionTrackingActive := true; motionTrackerBuffer := [];
                    motionCooldown := false;
                    motionCooldownTimer := motionCooldownTimer c;
                    motionSettleTimer := motionSettleTimer c;
                    motionBoutActive := false;
                    motionServoInflight := motionServoInflight c |};
          env := {| now := now w; servoFile := servoFile w;
                    servoVOffTimer := servoVOffTimer w; timers := timers w;
                    fetches := fetches w; moves := moves w;
                    nextTimer := nextTimer w; nextPromise := nextPromise w;
                    nextFetch := nextFetch w; nextPid := S pid |} |},
       [Spawn pid])
  end.

(** [if (cmds.length && !motionServoInflight) { ... }]: the guard is raised,
    the position is written at once and the move waits for its promises. *)
Definition launch (promises : list nat) (h v : number) (st : state)
  : state * list action :=
  match promises with
  | [] => (st, [])
  | _ =>
      if motionServoInflight (ctl st) then (st, [])
      else
        let '(st1, out) := writeServoState h v (with_ctl (set_inflight true) st) in
        (with_env (λ w, set_moves (moves w ++ [promises]) w) st1, out)
  end.

(** [if (!motionBoutActive) { motionBoutActive = true;
    motionSettleTimer = setTimeout(..., FIRE_SETTLE_MS); }] *)
Definition schedule_fire (st : state) : state * list action :=
  if motionBoutActive (ctl st) then (st, [])
  else
    let '(st1, h, out) := setTimeout Settle FIRE_SETTLE_MS (with_ctl (set_bout true) st) in
    (with_ctl (set_settle_timer (Some h)) st1, out).

(** The branch of a line that is not active: the bout, if one is on, ends
    and its settle timer is cleared. *)
Definition quiet_line (st : state) : state * list action :=
  if motionBoutActive (ctl st) then clear_settle (with_ctl (set_bout false) st)
  else (st, []).

(** The P-controller step of an active line: the targets are computed from
    the position read, the commands of the axes that move are sent, and, if
    there is one and no move is under way, [launch] takes them. *)
Definition aim (m : msg) (st : state) : state * list action :=
  let position := readServoState st in
  let h := target (horizontal position) (cx m) in
  let v := target (vertical position) (cy m) in
  let '(st1, ps1, out1) :=
    if strict_ne h (horizontal position) then
      let '(st', p, out) := servoCmd (SET SERVO_H_CHANNEL h) st in
      (st', [p], out)
    else (st, [], []) in
  let '(st2, ps2, out2) :=
    if strict_ne v (vertical position) then
      let '(st', c) := servoSetCmd SERVO_V_CHANNEL v st1 in
      let '(st'', p, out) := servoCmd c st' in
      (st'', [p], out)
    else (st1, [], []) in
  let '(st3, out3) := launch (ps1 ++ ps2) h v st2 in
  (st3, out1 ++ out2 ++ out3).

(** An active line outside the cooldown: the P-controller, then the settle
    timer of the bout. *)
Definition active_line (m : msg) (st : state) : state * list action :=
  let '(st1, out1) := aim m st in
  let '(st2, out2) := schedule_fire st1 in
  (st2, out1 ++ out2).

Section Controller.

Variable JSON_parse : jsstring -> json.

(** The [for (const raw of lines)] loop of the data handler. *)
Fixpoint process (st : state) (lines : list jsstring) : state * list action :=
  match lines with
  | [] => (st, [])
  | raw :: rest =>
      match trim raw with
      | [] => process st rest
      | line =>
          match JSON_parse line with
          | Invalid => process st rest
          | Null => (st, [])
          | Obj m =>
              if ready m then process st rest
              else if error m then stopMotionTracking st
              else if negb (active m) then
                let '(st1, out1) := quiet_line st in
                let '(st2, out2) := process st1 rest in
                (st2, out1 ++ out2)
              else if motionCooldown (ctl st) then process st rest
              else
                let '(st1, out1) := active_line m st in
                let '(st2, out2) := process st1 rest in
                (st2, out1 ++ out2)
          end
      end
  end.

(** [motionTrackerProcess.stdout.on("data", (d) => { ... })] *)
Definition on_data (d : jsstring) (st : state) : state * list action :=
  let '(incomplete, lines) := pop (split 10 (motionTrackerBuffer (ctl st) ++ d)) in
  process (with_ctl (set_buffer (default [] incomplete)) st) lines.

(** The callback of the settle timer, up to its [await]. *)
Definition settle_callback (st : state) : state * list action :=
  let st1 := with_ctl (set_settle_timer None) st in
  if motionCooldown (ctl st1) || negb (motionTrackingActive (ctl st1)) then (st1, [])
  else
    let st2 := with_ctl (set_cooldown true) st1 in
    let w := env st2 in
    let f := nextFetch w in
    ({| ctl := ctl st2;
        env := {| now := now w; servoFile := servoFile w;
                  servoVOffTimer := servoVOffTimer w; timers := timers w;
                  fetches := fetches w ++ [f]; moves := moves w;
                  nextTimer := nextTimer w; nextPromise := nextPromise w;
                  nextFetch := S f; nextPid := nextPid w |} |},
     [Trigger f]).

(** The same callback after the [await]: whether the request succeeded or
    not, the cooldown timer is set. *)
Definition on_fetched (f : nat) (ok : bool) (st : state) : state * list action :=
  if bool_decide (f ∈ fetches (env st)) then
    let st1 := with_env (λ w, set_fetches (filter (λ g, g ≠ f) (fetches w)) w) st in
    let '(st2, h, out) := setTimeout Cooldown FIRE_COOLDOWN_MS st1 in
    (with_ctl (set_cooldown_timer (Some h)) st2,
     (if ok then [] else [LogFireError]) ++ out)
  else (st, []).

(** The callback of the cooldown timer. *)
Definition cooldown_callback (st : state) : state * list action :=
  (with_ctl (λ c, set_bout false (set_cooldown false (set_cooldown_timer None c))) st,
   []).

(** A timer runs its callback once its time has come. *)
Definition on_timeout (h : nat) (st : state) : state * list action :=
  match find (λ t, Nat.eqb (handle t) h) (timers (env st)) with
  | Some t =>
      if deadline t <=? now (env st) then
        let st1 := with_env (λ w, set_timers (filter (λ t, handle t ≠ h) (timers w)) w)
                     st in
        match callback t with
        | Settle => settle_callback st1
        | Cooldown => cooldown_callback st1
        end
      else (st, [])
  | None => (st, [])
  end.

(** A promise of [servoCmd] is fulfilled: the [Promise.all] that waits for
    it and for nothing else is fulfilled too ([true]). *)
Fixpoint fulfil (p : nat) (ms : list (list nat)) : list (list nat) * bool :=
  match ms with
  | [] => ([], false)
  | m :: ms' =>
      if bool_decide (p ∈ m) then
        match filter (λ q, q ≠ p) m with
        | [] => (ms', true)
        | rest => (rest :: ms', false)
        end
      else let '(ms'', done) := fulfil p ms' in (m :: ms'', done)
  end.

(** A promise is rejected: the [Promise.all] that waits for it is rejected. *)
Fixpoint reject (p : nat) (ms : list (list nat)) : list (list nat) * bool :=
  match ms with
  | [] => ([], false)
  | m :: ms' =>
      if bool_decide (p ∈ m) then (ms', true)
      else let '(ms'', failed) := reject p ms' in (m :: ms'', failed)
  end.

(** [.catch((e) => console.error(...)).finally(() => { motionServoInflight =
    false; })] *)
Definition on_ack (p : nat) (st : state) : state * list action :=
  let '(ms, done) := fulfil p (moves (env st)) in
  let st1 := with_env (set_moves ms) st in
  if done then (with_ctl (set_inflight false) st1, []) else (st1, []).

Definition on_fail (p : nat) (st : state) : state * list action :=
  let '(ms, failed) := reject p (moves (env st)) in
  let st1 := with_env (set_moves ms) st in
  if failed then (with_ctl (set_inflight false) st1, [LogServoError]) else (st1, []).

(** The timer of [servoSetCmd]:
    [servoVOffTimer.ref = null; servoCmd("OFF 1").catch(...)] *)
Definition on_voff_timer (st : state) : state * list action :=
  if servoVOffTimer (env st) then
    let '(st1, _, out) := servoCmd (OFF SERVO_V_CHANNEL) (with_env (set_voff false) st) in
    (st1, out)
  else (st, []).

Inductive event :=
| Start                        (* /motion-track/start *)
| Stop                         (* /motion-track/stop *)
| Data (d : jsstring)          (* a chunk of the tracker's stdout, decoded *)
| Timeout (h : nat)            (* the timer with this handle is run *)
| Fetched (f : nat) (ok : bool)  (* a trigger request is settled *)
| Ack (promise : nat)          (* the actuator link fulfils a promise *)
| Fail (promise : nat)         (* the actuator link rejects a promise *)
| VOffTimer
| TrackerError                 (* the tracker's [error] event *)
| TrackerExit.                 (* the tracker's [exit] event *)

(** An event with the time, in ms, that passed since the event before. *)
Definition timed : Type := N * event.

Definition step (st : state) (te : timed) : state * list action :=
  let st := with_env (λ w, set_now (now w + fst te) w) st in
  match snd te with
  | Start => startMotionTracking st
  | Stop => stopMotionTracking st
  | Data d => on_data d st
  | Timeout h => on_timeout h st
  | Fetched f ok => on_fetched f ok st
  | Ack p => on_ack p st
  | Fail p => on_fail p st
  | VOffTimer => on_voff_timer st
  | TrackerError => stopMotionTracking st
  | TrackerExit => on_exit st
  end.

Fixpoint run (st : state) (tr : list timed) : state * list action :=
  match tr with
  | [] => (st, [])
  | te :: tr' =>
      let '(st1, out1) := step st te in
      let '(st2, out2) := run st1 tr' in
      (st2, out1 ++ out2)
  end.

End Controller.

(** The servo moves, the trigger requests and the bouts that set a settle
    timer among the actions of a run, in order. *)
Definition moved (out : list action) : list (nat * command) :=
  omap (λ a, match a with
             | ServoCmd p (SET channel angle) => Some (p, SET channel angle)
             | _ => None
             end) out.

Definition triggers (out : list action) : list nat :=
  omap (λ a, match a with Trigger f => Some f | _ => None end) out.

Definition bouts (out : list action) : list nat :=
  omap (λ a, match a with SetTimeout h Settle _ => Some h | _ => None end) out.

End Fire.

Module FireFacts.
Import JS Num StateFile Fire.
Import Track (msg, json(..), command(..), ready, error, active, cx, cy).

#[local] Open Scope N_scope.
#[local] Arguments moved : simpl never.
#[local] Arguments triggers : simpl never.
#[local] Arguments bouts : simpl never.

Lemma moved_app out1 out2 : moved (out1 ++ out2) = moved out1 ++ moved out2.
Proof. unfold moved. apply omap_app. Qed.

Lemma triggers_app out1 out2 : triggers (out1 ++ out2) = triggers out1 ++ triggers out2.
Proof. unfold triggers. apply omap_app. Qed.

Lemma bouts_app out1 out2 : bouts (out1 ++ out2) = bouts out1 ++ bouts out2.
Proof. unfold bouts. apply omap_app. Qed.

(** ** What the steps of a line change *)

(** The part of the state that the cooldown logic reads. *)
Definition core (st : state)
  : bool * option nat * bool * option nat * bool * list nat * list timer * N :=
  (motionTrackingActive (ctl st), motionTrackerProcess (ctl st),
   motionCooldown (ctl st), motionSettleTimer (ctl st), motionBoutActive (ctl st),
   fetches (env st), timers (env st), now (env st)).

(** The P-controller sends commands and writes the position; it sets no
    timer and triggers nothing. *)
Lemma aim_core m st :
  core (fst (aim m st)) = core st /\
  triggers (snd (aim m st)) = [] /\ bouts (snd (aim m st)) = [].
Proof.
  unfold aim.
  destruct (strict_ne _ (horizontal _)); destruct (strict_ne _ (vertical _));
    cbn; unfold launch; cbn; try destruct (motionServoInflight _);
    cbn; repeat split; reflexivity.
Qed.

(** ** The loop over the lines, one line at a time *)

(** ** Settle timers and triggers *)

Definition is_settle (t : timer) : bool :=
  match callback t with Settle => true | Cooldown => false end.

(** The settle timers that are pending. *)
Definition pending (st : state) : nat :=
  length (List.filter is_settle (timers (env st))).

Lemma pending_cleared h ts :
  (length (List.filter is_settle (filter (λ t, handle t ≠ h) ts)) <=
   length (List.filter is_settle ts))%nat.
Proof.
  induction ts as [|t ts IH]; [reflexivity|].
  rewrite filter_cons. destruct (decide (handle t ≠ h)); cbn;
    destruct (is_settle t); cbn; lia.
Qed.

Lemma pending_fired h t ts :
  find (λ t, Nat.eqb (handle t) h) ts = Some t -> is_settle t = true ->
  (S (length (List.filter is_settle (filter (λ t, handle t ≠ h) ts))) <=
   length (List.filter is_settle ts))%nat.
Proof.
  induction ts as [|t' ts IH]; [discriminate|].
  cbn [find]. intros Hfind Hk. rewrite filter_cons.
  destruct (Nat.eqb (handle t') h) eqn:Hh.
  - injection Hfind as ->. apply Nat.eqb_eq in Hh.
    rewrite decide_False by (intros H; apply H; exact Hh).
    cbn. rewrite Hk. cbn. pose proof (pending_cleared h ts). lia.
  - apply Nat.eqb_neq in Hh. rewrite decide_True by exact Hh.
    specialize (IH Hfind Hk). cbn. destruct (is_settle t'); cbn; lia.
Qed.

(** Every trigger uses up a pending settle timer, and a settle timer is only
    set where a bout starts. *)
Definition within_budget (st st' : state) (out : list action) : Prop :=
  (length (triggers out) + pending st' <= pending st + length (bouts out))%nat.

Lemma within_budget_refl st : within_budget st st [].
Proof. unfold within_budget, triggers, bouts. cbn. lia. Qed.

Lemma within_budget_trans st1 st2 st3 out1 out2 :
  within_budget st1 st2 out1 -> within_budget st2 st3 out2 ->
  within_budget st1 st3 (out1 ++ out2).
Proof.
  unfold within_budget. rewrite triggers_app, bouts_app, !length_app. lia.
Qed.

Lemma reset_effects st :
  triggers (snd (reset st)) = [] /\ bouts (snd (reset st)) = [] /\
  moved (snd (reset st)) = [] /\
  (pending (fst (reset st)) <= pending st)%nat.
Proof.
  unfold reset, clear_cooldown, clear_settle, clearTimeout, pending. cbn.
  destruct (motionCooldownTimer (ctl st)) as [h1|]; cbn;
    destruct (motionSettleTimer (ctl st)) as [h2|]; cbn;
    repeat split; try reflexivity; try lia.
  - etransitivity; apply pending_cleared.
  - apply pending_cleared.
  - apply pending_cleared.
Qed.

Lemma stop_effects st :
  triggers (snd (stopMotionTracking st)) = [] /\
  bouts (snd (stopMotionTracking st)) = [] /\
  moved (snd (stopMotionTracking st)) = [] /\
  (pending (fst (stopMotionTracking st)) <= pending st)%nat.
Proof.
  unfold stopMotionTracking. pose proof (reset_effects st) as (Ht & Hb & Hm & Hp).
  destruct (reset st) as [st1 out]. cbn [fst snd] in *.
  rewrite triggers_app, bouts_app, moved_app, Ht, Hb, Hm.
  destruct (motionTrackerProcess (ctl st)); auto.
Qed.

Section Lines.

Variable JSON_parse : jsstring -> json.

#[local] Abbreviation process := (Fire.process JSON_parse).
#[local] Abbreviation step := (Fire.step JSON_parse).
#[local] Abbreviation run := (Fire.run JSON_parse).

(** A relation between the state before, the state after and the actions
    that holds for doing nothing, for one step after another, for
    [stopMotionTracking], for a line that is not active and for an active
    line outside the cooldown, holds for the whole loop. *)
Lemma process_rel (R : state -> state -> list action -> Prop) :
  (forall st, R st st []) ->
  (forall st1 st2 st3 out1 out2,
      R st1 st2 out1 -> R st2 st3 out2 -> R st1 st3 (out1 ++ out2)) ->
  (forall st, R st (fst (stopMotionTracking st)) (snd (stopMotionTracking st))) ->
  (forall st, R st (fst (quiet_line st)) (snd (quiet_line st))) ->
  (forall m st, motionCooldown (ctl st) = false ->
                R st (fst (active_line m st)) (snd (active_line m st))) ->
  forall lines st, R st (fst (process st lines)) (snd (process st lines)).
Proof.
  intros Hrefl Htrans Hstop Hquiet Hactive.
  induction lines as [|raw rest IH]; intros st; cbn [Fire.process].
  - apply Hrefl.
  - destruct (trim raw) as [|c line]; [apply IH|].
    destruct (JSON_parse (c :: line)) as [| |m]; [apply IH|apply Hrefl|].
    destruct (ready m); [apply IH|].
    destruct (error m); [apply Hstop|].
    destruct (active m); cbn [negb].
    + destruct (motionCooldown (ctl st)) eqn:Hc; [apply IH|].
      pose proof (Hactive m st Hc) as H1.
      destruct (active_line m st) as [st1 out1]. pose proof (IH st1) as H2.
      destruct (process st1 rest) as [st2 out2]. cbn [fst snd] in *.
      eapply Htrans; eassumption.
    + pose proof (Hquiet st) as H1.
      destruct (quiet_line st) as [st1 out1]. pose proof (IH st1) as H2.
      destruct (process st1 rest) as [st2 out2]. cbn [fst snd] in *.
      eapply Htrans; eassumption.
Qed.

(** ** A session that runs *)

(** The tracker runs, and what is pending fits the flag: outside the
    cooldown no trigger request and at most the settle timer of the bout
    that is on; inside it no settle timer, and either the trigger request or
    the cooldown timer. *)
Definition in_session (st : state) : Prop :=
  motionTrackingActive (ctl st) = true /\
  is_Some (motionTrackerProcess (ctl st)) /\
  if motionCooldown (ctl st) then
    motionSettleTimer (ctl st) = None /\
    ((exists f, fetches (env st) = [f] /\ timers (env st) = []) \/
     (fetches (env st) = [] /\
      exists t, timers (env st) = [t] /\ callback t = Cooldown))
  else
    fetches (env st) = [] /\
    (timers (env st) = [] \/
     exists t, timers (env st) = [t] /\ callback t = Settle /\
               motionSettleTimer (ctl st) = Some (handle t) /\
               motionBoutActive (ctl st) = true).

(** A session as [startMotionTracking] leaves it when nothing of an earlier
    one is pending. *)
Definition fresh_session (st : state) : Prop :=
  motionTrackingActive (ctl st) = true /\
  is_Some (motionTrackerProcess (ctl st)) /\
  motionCooldown (ctl st) = false /\
  fetches (env st) = [] /\ timers (env st) = [].

Lemma fresh_in_session st : fresh_session st -> in_session st.
Proof.
  intros (Ha & Hp & Hc & Hf & Ht). unfold in_session. rewrite Hc. auto.
Qed.

(** The tracker is not torn down by any event of the run: after each one
    it is still active. *)
Fixpoint session (st : state) (tr : list timed) : bool :=
  match tr with
  | [] => true
  | te :: tr' =>
      let st1 := fst (step st te) in
      motionTrackingActive (ctl st1) && session st1 tr'
  end.

(** The time a run takes. *)
Definition elapsed (tr : list timed) : N := foldr (λ te acc, fst te + acc) 0 tr.

(** What a step of the loop keeps of a session: it does not start the
    tracker, the clock stands still, and a session that is still active
    afterwards is in order. *)
Definition keeps_session (st st' : state) (out : list action) : Prop :=
  (motionTrackingActive (ctl st') = true -> motionTrackingActive (ctl st) = true) /\
  now (env st') = now (env st) /\
  (in_session st -> motionTrackingActive (ctl st') = true -> in_session st').

Lemma keeps_session_refl st : keeps_session st st [].
Proof. split; [|split]; auto. Qed.

Lemma keeps_session_trans st1 st2 st3 out1 out2 :
  keeps_session st1 st2 out1 -> keeps_session st2 st3 out2 ->
  keeps_session st1 st3 (out1 ++ out2).
Proof.
  intros (Ha1 & Hn1 & Hs1) (Ha2 & Hn2 & Hs2). split; [|split].
  - auto.
  - congruence.
  - intros Hs Ha. apply Hs2; [|exact Ha]. apply Hs1; auto.
Qed.

Lemma stop_inactive st :
  motionTrackingActive (ctl (fst (stopMotionTracking st))) = false /\
  now (env (fst (stopMotionTracking st))) = now (env st).
Proof.
  unfold stopMotionTracking, reset, clear_cooldown, clear_settle, clearTimeout.
  cbn. destruct (motionCooldownTimer (ctl st)); cbn;
    destruct (motionSettleTimer (ctl st)); cbn; split; reflexivity.
Qed.

Lemma keeps_session_stop st :
  keeps_session st (fst (stopMotionTracking st)) (snd (stopMotionTracking st)).
Proof.
  destruct (stop_inactive st) as [Ha Hn]. split; [|split].
  - rewrite Ha. discriminate.
  - exact Hn.
  - rewrite Ha. discriminate.
Qed.

Lemma keeps_session_quiet st :
  keeps_session st (fst (quiet_line st)) (snd (quiet_line st)).
Proof.
  unfold quiet_line. destruct (motionBoutActive (ctl st)) eqn:Hb;
    [|apply keeps_session_refl].
  unfold clear_settle, clearTimeout. cbn.
  destruct (motionSettleTimer (ctl st)) as [h|] eqn:Hh; cbn.
  - split; [|split]; [auto|reflexivity|].
    intros (Ha & Hp & Hs) _. split; [exact Ha|]. split; [exact Hp|]. cbn.
    destruct (motionCooldown (ctl st)); [destruct Hs as [Hn _]; congruence|].
    destruct Hs as [Hf [Ht|(t & Ht & Hk & Hst & _)]]; rewrite Ht.
    + auto.
    + split; [exact Hf|]. left. rewrite Hh in Hst. injection Hst as ->.
      cbn. rewrite decide_False by (intros H; apply H; reflexivity). reflexivity.
  - split; [|split]; [auto|reflexivity|].
    intros (Ha & Hp & Hs) _. split; [exact Ha|]. split; [exact Hp|]. cbn.
    destruct (motionCooldown (ctl st)); [exact Hs|].
    destruct Hs as [Hf [Ht|(t & Ht & Hk & Hst & _)]]; [auto|congruence].
Qed.

Lemma in_session_core st st' : core st' = core st -> in_session st -> in_session st'.
Proof.
  unfold core, in_session. intros [= -> -> -> -> -> -> -> _]. auto.
Qed.

Lemma keeps_session_core st st' out :
  core st' = core st -> keeps_session st st' out.
Proof.
  intros Hc. split; [|split].
  - unfold core in Hc. injection Hc as -> _ _ _ _ _ _ _. auto.
  - unfold core in Hc. injection Hc as _ _ _ _ _ _ _ ->. reflexivity.
  - intros Hs _. exact (in_session_core st st' Hc Hs).
Qed.

Lemma keeps_session_schedule st :
  motionCooldown (ctl st) = false ->
  keeps_session st (fst (schedule_fire st)) (snd (schedule_fire st)).
Proof.
  intros Hc. unfold schedule_fire.
  destruct (motionBoutActive (ctl st)) eqn:Hb; [apply keeps_session_refl|].
  cbn. split; [|split]; [auto|reflexivity|].
  intros (Ha & Hp & Hs) _. split; [exact Ha|]. split; [exact Hp|]. cbn.
  rewrite Hc in *. destruct Hs as [Hf [Ht|(t & _ & _ & _ & Hb')]]; [|congruence].
  split; [exact Hf|]. right. rewrite Ht. cbn. eexists. repeat split.
Qed.

Lemma keeps_session_active m st :
  motionCooldown (ctl st) = false ->
  keeps_session st (fst (active_line m st)) (snd (active_line m st)).
Proof.
  intros Hc. unfold active_line.
  destruct (aim_core m st) as (Hcore & _).
  destruct (aim m st) as [st1 out1]. cbn [fst snd] in *.
  assert (Hc1 : motionCooldown (ctl st1) = false).
  { unfold core in Hcore. injection Hcore as _ _ -> _ _ _ _ _. exact Hc. }
  pose proof (keeps_session_schedule st1 Hc1) as H2.
  destruct (schedule_fire st1) as [st2 out2]. cbn [fst snd] in *.
  eapply keeps_session_trans; [|exact H2].
  apply keeps_session_core. exact Hcore.
Qed.

Lemma keeps_session_process lines st :
  keeps_session st (fst (process st lines)) (snd (process st lines)).
Proof.
  apply process_rel.
  - apply keeps_session_refl.
  - apply keeps_session_trans.
  - apply keeps_session_stop.
  - apply keeps_session_quiet.
  - apply keeps_session_active.
Qed.

(** ** The loop during the cooldown *)

(** What a step of the loop does while the cooldown is on and no settle
    timer is recorded, if the tracker is still active afterwards: nothing
    but, possibly, ending the bout. *)
Definition blocked (st st' : state) (out : list action) : Prop :=
  (motionTrackingActive (ctl st') = true -> motionTrackingActive (ctl st) = true) /\
  (motionCooldown (ctl st) = true -> motionSettleTimer (ctl st) = None ->
   motionTrackingActive (ctl st') = true ->
   motionCooldown (ctl st') = true /\ motionSettleTimer (ctl st') = None /\
   env st' = env st /\ out = []).

Lemma blocked_refl st : blocked st st [].
Proof. split; auto. Qed.

Lemma blocked_trans st1 st2 st3 out1 out2 :
  blocked st1 st2 out1 -> blocked st2 st3 out2 -> blocked st1 st3 (out1 ++ out2).
Proof.
  intros [Ha1 H1] [Ha2 H2]. split; [auto|].
  intros Hc Hs Ha. destruct (H1 Hc Hs (Ha2 Ha)) as (Hc2 & Hs2 & He2 & ->).
  destruct (H2 Hc2 Hs2 Ha) as (Hc3 & Hs3 & He3 & ->).
  rewrite He3, He2. auto.
Qed.

Lemma blocked_stop st :
  blocked st (fst (stopMotionTracking st)) (snd (stopMotionTracking st)).
Proof.
  destruct (stop_inactive st) as [Ha _]. split; rewrite Ha; [discriminate|].
  intros _ _. discriminate.
Qed.

Lemma blocked_quiet st : blocked st (fst (quiet_line st)) (snd (quiet_line st)).
Proof.
  destruct (keeps_session_quiet st) as [Ha _]. split; [exact Ha|].
  intros Hc Hs _. unfold quiet_line, clear_settle.
  destruct (motionBoutActive (ctl st)); cbn; rewrite ?Hs; cbn; auto.
Qed.

Lemma blocked_active m st :
  motionCooldown (ctl st) = false ->
  blocked st (fst (active_line m st)) (snd (active_line m st)).
Proof.
  intros Hc. destruct (keeps_session_active m st Hc) as [Ha _].
  split; [exact Ha|]. congruence.
Qed.

Lemma blocked_process lines st :
  blocked st (fst (process st lines)) (snd (process st lines)).
Proof.
  apply process_rel.
  - apply blocked_refl.
  - apply blocked_trans.
  - apply blocked_stop.
  - apply blocked_quiet.
  - apply blocked_active.
Qed.

(** ** One event of a session *)

Lemma reset_inactive st :
  motionTrackingActive (ctl (fst (reset st))) = false.
Proof.
  unfold reset, clear_cooldown, clear_settle, clearTimeout.
  cbn. destruct (motionCooldownTimer (ctl st)); cbn;
    destruct (motionSettleTimer (ctl st)); cbn; reflexivity.
Qed.

Lemma Forall_old {A} (P : A -> Prop) (l : list A) : Forall (λ x, x ∈ l \/ P x) l.
Proof. apply Forall_forall. intros x Hx. left. exact Hx. Qed.

(** An event that leaves the tracker active keeps the session in order and
    moves the clock by its delay.  If the cooldown is on and no timer is due
    at the time of the event, the cooldown stays on, nothing is moved,
    triggered or scheduled, and a timer set by the event is a cooldown
    timer that starts at that time. *)
Lemma session_step st te :
  in_session st ->
  motionTrackingActive (ctl (fst (step st te))) = true ->
  let st' := fst (step st te) in
  let out := snd (step st te) in
  in_session st' /\ now (env st') = now (env st) + fst te /\
  (motionCooldown (ctl st) = true ->
   Forall (λ t, now (env st) + fst te < deadline t) (timers (env st)) ->
   motionCooldown (ctl st') = true /\
   moved out = [] /\ triggers out = [] /\ bouts out = [] /\
   Forall (λ t, t ∈ timers (env st) \/
                deadline t = now (env st) + fst te + FIRE_COOLDOWN_MS)
     (timers (env st'))).
Proof.
  intros Hs Ha. destruct te as [d e]. unfold Fire.step in *. cbn [fst snd] in *.
  set (st0 := with_env (λ w, set_now (now w + d) w) st) in *.
  assert (Hs0 : in_session st0) by exact Hs.
  destruct e as [| |data|h|f ok|p|p| | |].
  - (* Start *)
    unfold startMotionTracking in *. destruct Hs as (_ & [pid Hp] & _).
    change (motionTrackerProcess (ctl st0)) with (motionTrackerProcess (ctl st)) in *.
    rewrite Hp in *. cbn [fst snd].
    split; [exact Hs0|]. split; [reflexivity|].
    intros Hc Hd. split; [exact Hc|]. do 3 (split; [reflexivity|]).
    apply Forall_old.
  - (* Stop *)
    destruct (stop_inactive st0) as [Hin _]. congruence.
  - (* Data *)
    unfold on_data in *. destruct (pop _) as [incomplete lines].
    set (st1 := with_ctl (set_buffer (default [] incomplete)) st0) in *.
    destruct (keeps_session_process lines st1) as (_ & Hn & Hk).
    destruct (blocked_process lines st1) as (_ & Hb).
    destruct (process st1 lines) as [st' out]. cbn [fst snd] in *.
    split; [exact (Hk Hs Ha)|]. split; [exact Hn|].
    intros Hc Hd.
    assert (Hnone : motionSettleTimer (ctl st) = None).
    { destruct Hs as (_ & _ & Hs). rewrite Hc in Hs. apply Hs. }
    destruct (Hb Hc Hnone Ha) as (Hc' & _ & He & ->).
    split; [exact Hc'|]. do 3 (split; [reflexivity|]).
    rewrite He. apply Forall_old.
  - (* Timeout *)
    unfold on_timeout in *.
    change (timers (env st0)) with (timers (env st)) in *.
    change (now (env st0)) with (now (env st) + d) in *.
    destruct Hs as (Hact & Hp & Hs).
    destruct (motionCooldown (ctl st)) eqn:Hc.
    + destruct Hs as [Hnone [(f & Hf & Ht)|(Hf & t & Ht & Hk)]]; rewrite Ht in *.
      * cbn [find fst snd] in *. split; [exact Hs0|]. split; [reflexivity|].
        intros _ _. split; [exact Hc|]. do 3 (split; [reflexivity|]).
        change (timers (env st0)) with (timers (env st)). rewrite Ht. constructor.
      * cbn [find] in *. destruct (Nat.eqb (handle t) h) eqn:Hh.
        -- apply Nat.eqb_eq in Hh. destruct (deadline t <=? now (env st) + d) eqn:Hdue.
           ++ rewrite Hk in *. cbn [cooldown_callback fst snd] in *.
              split; [|split; [reflexivity|]].
              ** split; [exact Hact|]. split; [exact Hp|]. cbn. rewrite Ht. cbn.
                 rewrite decide_False by (intros H; apply H; exact Hh). auto.
              ** intros _ Hd. apply Forall_inv in Hd.
                 apply N.leb_le in Hdue. lia.
           ++ cbn [fst snd] in *. split; [exact Hs0|]. split; [reflexivity|].
              intros _ _. split; [exact Hc|]. do 3 (split; [reflexivity|]).
              change (timers (env st0)) with (timers (env st));
             rewrite ?Ht; apply Forall_old.
        -- cbn [fst snd] in *. split; [exact Hs0|]. split; [reflexivity|].
           intros _ _. split; [exact Hc|]. do 3 (split; [reflexivity|]).
           change (timers (env st0)) with (timers (env st));
             rewrite ?Ht; apply Forall_old.
    + destruct Hs as [Hf [Ht|(t & Ht & Hk & Hst & Hb)]]; rewrite Ht in *.
      * cbn [find fst snd] in *. split; [exact Hs0|]. split; [reflexivity|].
        intros [=].
      * cbn [find] in *. destruct (Nat.eqb (handle t) h) eqn:Hh.
        -- apply Nat.eqb_eq in Hh. destruct (deadline t <=? now (env st) + d) eqn:Hdue.
           ++ rewrite Hk in *. unfold settle_callback in *. cbn in Ha |- *.
              rewrite Hc, Hact in *. cbn in Ha |- *.
              split; [|split; [reflexivity|intros [=]]].
              split; [exact Hact|]. split; [exact Hp|]. cbn.
              split; [reflexivity|]. left. exists (nextFetch (env st)).
              rewrite Hf, Ht. cbn.
              rewrite decide_False by (intros H; apply H; exact Hh). auto.
           ++ cbn [fst snd] in *. split; [exact Hs0|]. split; [reflexivity|].
              intros [=].
        -- cbn [fst snd] in *. split; [exact Hs0|]. split; [reflexivity|].
           intros [=].
  - (* Fetched *)
    unfold on_fetched in *.
    change (fetches (env st0)) with (fetches (env st)) in *.
    destruct Hs as (Hact & Hp & Hs).
    destruct (bool_decide (f ∈ fetches (env st))) eqn:Hin; cycle 1.
    { cbn [fst snd]. split; [exact Hs0|]. split; [reflexivity|].
      intros Hc _. split; [exact Hc|]. do 3 (split; [reflexivity|]).
      apply Forall_old. }
    apply bool_decide_eq_true_1 in Hin.
    destruct (motionCooldown (ctl st)) eqn:Hc.
    + destruct Hs as [Hnone [(f' & Hf & Ht)|(Hf & _)]];
        [|rewrite Hf in Hin; apply elem_of_nil in Hin; done].
      rewrite Hf in Hin. apply list_elem_of_singleton in Hin. subst f'.
      cbn. split; [|split; [reflexivity|]].
      * split; [exact Hact|]. split; [exact Hp|]. cbn. rewrite Hc.
        split; [exact Hnone|]. right. rewrite Hf, Ht. cbn.
        rewrite decide_False by (intros H; apply H; reflexivity).
        split; [reflexivity|]. eexists. split; reflexivity.
      * intros _ _. split; [exact Hc|].
        rewrite Ht. destruct ok; cbn; do 3 (split; [reflexivity|]);
          (constructor; [right; reflexivity|constructor]).
    + destruct Hs as [Hf _]. rewrite Hf in Hin. apply elem_of_nil in Hin. done.
  - (* Ack *)
    unfold on_ack in *. change (moves (env st0)) with (moves (env st)) in *.
    destruct (fulfil p (moves (env st))) as [ms [|]]; cbn [fst snd] in *;
      (split; [exact Hs|]); (split; [reflexivity|]);
      intros Hc _; (split; [exact Hc|]); do 3 (split; [reflexivity|]);
      apply Forall_old.
  - (* Fail *)
    unfold on_fail in *. change (moves (env st0)) with (moves (env st)) in *.
    destruct (reject p (moves (env st))) as [ms [|]]; cbn [fst snd] in *;
      (split; [exact Hs|]); (split; [reflexivity|]);
      intros Hc _; (split; [exact Hc|]); do 3 (split; [reflexivity|]);
      apply Forall_old.
  - (* VOffTimer *)
    unfold on_voff_timer in *.
    change (servoVOffTimer (env st0)) with (servoVOffTimer (env st)) in *.
    destruct (servoVOffTimer (env st)); cbn [fst snd servoCmd] in *;
      (split; [exact Hs|]); (split; [reflexivity|]);
      intros Hc _; (split; [exact Hc|]); do 3 (split; [reflexivity|]);
      apply Forall_old.
  - (* TrackerError *)
    destruct (stop_inactive st0) as [Hin _]. congruence.
  - (* TrackerExit *)
    unfold on_exit in Ha. rewrite reset_inactive in Ha. discriminate.
Qed.

(** ** Runs of a session *)

Lemma session_run tr : forall st,
  in_session st -> session st tr = true ->
  in_session (fst (run st tr)) /\
  now (env (fst (run st tr))) = now (env st) + elapsed tr.
Proof.
  induction tr as [|te tr IH]; intros st Hs Hall; cbn [Fire.run session elapsed foldr] in *.
  - cbn. split; [exact Hs|]. lia.
  - apply andb_true_iff in Hall as [Ha Hall].
    destruct (session_step st te Hs Ha) as (Hs1 & Hn1 & _).
    destruct (step st te) as [st1 out1]. cbn [fst snd] in *.
    destruct (IH st1 Hs1 Hall) as (Hs2 & Hn2).
    destruct (run st1 tr) as [st2 out2]. cbn [fst snd] in *.
    split; [exact Hs2|]. fold (elapsed tr) in *. lia.
Qed.

(** While the cooldown is on and every timer is due no earlier than
    [FIRE_COOLDOWN_MS] after the time [T], the events of a session up to
    that time move nothing, trigger nothing and start no bout. *)
Lemma cooldown_run T tr : forall st,
  in_session st -> motionCooldown (ctl st) = true -> T <= now (env st) ->
  Forall (λ t, T + FIRE_COOLDOWN_MS <= deadline t) (timers (env st)) ->
  session st tr = true ->
  now (env st) + elapsed tr < T + FIRE_COOLDOWN_MS ->
  moved (snd (run st tr)) = [] /\ triggers (snd (run st tr)) = [] /\
  bouts (snd (run st tr)) = [] /\ motionCooldown (ctl (fst (run st tr))) = true.
Proof.
  induction tr as [|te tr IH]; intros st Hs Hc HT Hd Hall Hlt;
    cbn [Fire.run session elapsed foldr] in *.
  - cbn. auto.
  - fold (elapsed tr) in *. apply andb_true_iff in Hall as [Ha Hall].
    destruct (session_step st te Hs Ha) as (Hs1 & Hn1 & Hcool).
    destruct Hcool as (Hc1 & Hm1 & Ht1 & Hb1 & Hd1); [exact Hc| |].
    { eapply Forall_impl; [exact Hd|]. cbn. intros t Ht. lia. }
    destruct (step st te) as [st1 out1]. cbn [fst snd] in *.
    destruct (IH st1 Hs1 Hc1) as (Hm2 & Ht2 & Hb2 & Hc2); [lia| |exact Hall|lia|].
    { rewrite Forall_forall in Hd, Hd1 |- *. intros t Ht.
      destruct (Hd1 t Ht) as [Hold|Hnew]; [exact (Hd t Hold)|lia]. }
    destruct (run st1 tr) as [st2 out2]. cbn [fst snd] in *.
    rewrite moved_app, triggers_app, bouts_app, Hm1, Ht1, Hb1, Hm2, Ht2, Hb2. auto.
Qed.

(** ** Where a trigger comes from *)

(** The loop over the lines triggers nothing itself, and sets a settle timer
    only where a bout starts. *)
Definition sets_timers_only (st st' : state) (out : list action) : Prop :=
  triggers out = [] /\ within_budget st st' out.

Lemma sets_timers_only_process lines st :
  sets_timers_only st (fst (process st lines)) (snd (process st lines)).
Proof.
  apply process_rel.
  - intros st0. split; [reflexivity|apply within_budget_refl].
  - intros st1 st2 st3 out1 out2 [Ht1 Hb1] [Ht2 Hb2]. split.
    + rewrite triggers_app, Ht1, Ht2. reflexivity.
    + eapply within_budget_trans; eassumption.
  - intros st0. destruct (stop_effects st0) as (Ht & Hb & _ & Hp).
    split; [exact Ht|]. unfold within_budget. rewrite Ht, Hb. cbn. lia.
  - intros st0. unfold quiet_line, clear_settle, clearTimeout.
    destruct (motionBoutActive (ctl st0)); cbn;
      [|split; [reflexivity|apply within_budget_refl]].
    destruct (motionSettleTimer (ctl st0)) as [h|]; cbn;
      (split; [reflexivity|]); unfold within_budget, pending, triggers, bouts; cbn.
    + pose proof (pending_cleared h (timers (env st0))). lia.
    + lia.
  - intros m st0 _. unfold active_line.
    destruct (aim_core m st0) as (Hcore & Ht & Hb).
    destruct (aim m st0) as [st1 out1]. cbn [fst snd] in *.
    assert (Hts : timers (env st1) = timers (env st0)).
    { unfold core in Hcore. injection Hcore as _ _ _ _ _ _ -> _. reflexivity. }
    unfold schedule_fire. destruct (motionBoutActive (ctl st1)); cbn [fst snd].
    + rewrite app_nil_r. split; [exact Ht|].
      unfold within_budget, pending. rewrite Ht, Hb, Hts. cbn. lia.
    + unfold setTimeout. cbn [fst snd]. split.
      * rewrite triggers_app, Ht. reflexivity.
      * unfold within_budget, pending. rewrite triggers_app, bouts_app, Ht, Hb.
        cbn [env timers with_ctl]. rewrite Hts, List.filter_app, !length_app.
        unfold triggers, bouts. cbn. lia.
Qed.

(** A trigger is issued only by the callback of a settle timer that finds
    the cooldown off, and that callback has turned the cooldown on when the
    request goes out; every step stays within the budget of settle timers. *)
Lemma budget_step st te :
  within_budget st (fst (step st te)) (snd (step st te)) /\
  (triggers (snd (step st te)) <> [] ->
   exists h f, snd te = Timeout h /\ snd (step st te) = [Trigger f] /\
               motionCooldown (ctl st) = false /\
               motionCooldown (ctl (fst (step st te))) = true /\
               f ∈ fetches (env (fst (step st te)))).
Proof.
  destruct te as [d e]. unfold Fire.step. cbn [fst snd].
  set (st0 := with_env (λ w, set_now (now w + d) w) st).
  assert (Hp0 : pending st0 = pending st) by reflexivity.
  unfold within_budget. rewrite <- Hp0.
  destruct e as [| |data|h|f ok|p|p| | |].
  - unfold startMotionTracking. destruct (motionTrackerProcess (ctl st0));
      cbn [fst snd]; unfold triggers, bouts; cbn; (split; [lia|done]).
  - destruct (stop_effects st0) as (Ht & Hb & _ & Hp). rewrite Ht, Hb.
    split; [cbn [length]; lia|done].
  - unfold on_data. destruct (pop _) as [incomplete lines].
    set (st1 := with_ctl (set_buffer (default [] incomplete)) st0).
    destruct (sets_timers_only_process lines st1) as [Ht Hb].
    split; [exact Hb|]. rewrite Ht. done.
  - unfold on_timeout.
    destruct (find _ (timers (env st0))) as [t|] eqn:Hfind;
      [|cbn [fst snd]; unfold triggers, bouts; cbn; split; [lia|done]].
    destruct (deadline t <=? now (env st0));
      [|cbn [fst snd]; unfold triggers, bouts; cbn; split; [lia|done]].
    pose proof (pending_cleared h (timers (env st))) as Hle.
    destruct (callback t) eqn:Hk.
    + assert (Hs : is_settle t = true) by (unfold is_settle; rewrite Hk; reflexivity).
      pose proof (pending_fired h t (timers (env st)) Hfind Hs) as Hlt.
      unfold settle_callback. cbn [ctl env with_ctl with_env motionCooldown
        motionTrackingActive set_settle_timer timers set_timers].
      change (motionCooldown (ctl st0)) with (motionCooldown (ctl st)).
      destruct (motionCooldown (ctl st)); cbn [orb fst snd];
        [unfold triggers, bouts, pending; cbn; split; [lia|done]|].
      destruct (motionTrackingActive (ctl st0)); cbn [negb fst snd];
        [|unfold triggers, bouts, pending; cbn; split; [lia|done]].
      split; [unfold triggers, bouts, pending; cbn; lia|].
      intros _. exists h, (nextFetch (env st0)). cbn.
      do 4 (split; [reflexivity|]).
      apply elem_of_app. right. apply list_elem_of_singleton. reflexivity.
    + cbn [cooldown_callback fst snd]. unfold triggers, bouts, pending. cbn.
      split; [lia|done].
  - unfold on_fetched. destruct (bool_decide _);
      [|cbn [fst snd]; unfold triggers, bouts; cbn; split; [lia|done]].
    cbn. unfold pending. cbn. rewrite List.filter_app, length_app.
    destruct ok; unfold triggers, bouts; cbn; (split; [lia|done]).
  - unfold on_ack. destruct (fulfil p _) as [ms [|]]; cbn [fst snd];
      unfold triggers, bouts; cbn; (split; [lia|done]).
  - unfold on_fail. destruct (reject p _) as [ms [|]]; cbn [fst snd];
      unfold triggers, bouts; cbn; (split; [lia|done]).
  - unfold on_voff_timer. destruct (servoVOffTimer _); cbn [fst snd servoCmd];
      unfold triggers, bouts; cbn; (split; [lia|done]).
  - destruct (stop_effects st0) as (Ht & Hb & _ & Hp). rewrite Ht, Hb.
    split; [cbn [length]; lia|done].
  - unfold on_exit. destruct (reset_effects st0) as (Ht & Hb & _ & Hp).
    rewrite Ht, Hb. split; [cbn [length]; lia|done].
Qed.

Lemma budget_run tr : forall st,
  within_budget st (fst (run st tr)) (snd (run st tr)).
Proof.
  induction tr as [|te tr IH]; intros st; cbn [Fire.run].
  - apply within_budget_refl.
  - destruct (budget_step st te) as [H1 _].
    destruct (step st te) as [st1 out1]. pose proof (IH st1) as H2.
    destruct (run st1 tr) as [st2 out2]. cbn [fst snd] in *.
    eapply within_budget_trans; eassumption.
Qed.

Lemma session_app tr1 tr2 : forall st,
  session st (tr1 ++ tr2) = session st tr1 && session (fst (run st tr1)) tr2.
Proof.
  induction tr1 as [|te tr1 IH]; intros st; cbn [app session Fire.run].
  - reflexivity.
  - rewrite IH. destruct (step st te) as [st1 out1]. cbn [fst].
    destruct (run st1 tr1) as [st2 out2]. cbn [fst].
    rewrite andb_assoc. reflexivity.
Qed.

(** C4, as the code has it.  Take a tracking session that starts with
    nothing pending from an earlier one and is not torn down (no stop, no
    error of the tracker, no exit) during the run.  When an event of the run
    issues the trigger, it is the callback of the settle timer, which found
    the cooldown off and has turned it on when the request goes out.  All
    events that follow less than [FIRE_COOLDOWN_MS] after it, the active
    lines of a second bout among them, cause no servo move, no trigger and no
    settle timer, and the cooldown is still on after them.  In every run of
    such a session, torn down or not, there are at most as many triggers as
    bouts that set their settle timer. *)
Theorem C4_cooldown_blocks_second_bout
    (st0 : state) (history : list timed) (te : timed) (rest : list timed) :
  fresh_session st0 ->
  session st0 (history ++ te :: rest) = true ->
  let st := fst (run st0 history) in
  let fired := step st te in
  triggers (snd fired) <> [] ->
  elapsed rest < FIRE_COOLDOWN_MS ->
  (exists h f, snd te = Timeout h /\ snd fired = [Trigger f] /\
               motionCooldown (ctl st) = false /\
               motionCooldown (ctl (fst fired)) = true) /\
  (let final := run (fst fired) rest in
   moved (snd final) = [] /\ triggers (snd final) = [] /\
   bouts (snd final) = [] /\ motionCooldown (ctl (fst final)) = true) /\
  (forall tr, length (triggers (snd (run st0 tr))) <=
              length (bouts (snd (run st0 tr))))%nat.
Proof.
  intros Hfresh Hall st fired Hfire Hlt.
  rewrite session_app in Hall. apply andb_true_iff in Hall as [Hhist Hall].
  cbn [session] in Hall. apply andb_true_iff in Hall as [Hact Hrest].
  fold st in Hact, Hrest. fold fired in Hact, Hrest.
  destruct (session_run history st0 (fresh_in_session st0 Hfresh) Hhist) as [Hs _].
  fold st in Hs.
  destruct (session_step st te Hs Hact) as (Hs1 & _ & _).
  destruct (budget_step st te) as [_ Hwhy].
  destruct (Hwhy Hfire) as (h & f & He & Hout & Hc & Hc1 & Hf).
  fold fired in Hs1, Hout, Hc1, Hf.
  split; [exists h, f; auto|]. split.
  - apply (cooldown_run (now (env (fst fired))) rest (fst fired) Hs1 Hc1).
    + lia.
    + destruct Hs1 as (_ & _ & Hs1). rewrite Hc1 in Hs1.
      destruct Hs1 as [_ [(f' & _ & ->)|(Hnone & _)]]; [constructor|].
      rewrite Hnone in Hf. apply elem_of_nil in Hf. done.
    + exact Hrest.
    + lia.
  - intros tr. pose proof (budget_run tr st0) as Hb. unfold within_budget in Hb.
    destruct Hfresh as (_ & _ & _ & _ & Ht). unfold pending in Hb at 2.
    rewrite Ht in Hb. cbn in Hb. lia.
Qed.

End Lines.

(** ** Concrete runs *)

Definition parse : jsstring -> json := TrackFacts.example_parse.
Definition active_chunk : jsstring := TrackFacts.example_chunk.

(** The session right after [startMotionTracking]. *)
Definition started : state := fst (step parse init (0, Start)).

(** A bout starts, its settle timer runs after 300 ms and triggers; the
    request is answered, and two more active lines arrive, the last one
    1999 ms after the trigger. *)
Definition first_bout : list timed := [(0, Data active_chunk)].
Definition settle_elapses : timed := (300, Timeout 0).
Definition second_bout : list timed :=
  [(10, Fetched 0 true); (100, Data active_chunk); (1889, Data active_chunk)].

(** The same, with the tracker stopped and started again between the
    trigger and the second bout, whose line arrives 300 ms after the trigger
    and whose settle timer runs 600 ms after it. *)
Definition restarted_bout : list timed :=
  [(10, Fetched 0 true); (90, Stop); (100, Start); (100, Data active_chunk);
   (300, Timeout 2)].

Lemma C4_cooldown_blocks_second_bout_witness :
  fresh_session started /\
  session parse started (first_bout ++ settle_elapses :: second_bout) = true /\
  elapsed second_bout = 1999 /\
  snd (step parse (fst (run parse started first_bout)) settle_elapses) = [Trigger 0] /\
  moved (snd (run parse started first_bout)) <> [] /\
  moved (snd (run parse
                (fst (step parse (fst (run parse started first_bout)) settle_elapses))
                second_bout)) = [] /\
  triggers (snd (run parse
                   (fst (step parse (fst (run parse started first_bout)) settle_elapses))
                   second_bout)) = [].
Proof.
  assert (Hfresh : fresh_session started).
  { split; [reflexivity|]. split; [eexists; reflexivity|]. repeat split. }
  assert (Hall : session parse started (first_bout ++ settle_elapses :: second_bout)
                 = true) by (vm_compute; reflexivity).
  assert (Hfire : triggers (snd (step parse (fst (run parse started first_bout))
                                   settle_elapses)) <> [])
    by (vm_compute; discriminate).
  assert (Hlt : elapsed second_bout < FIRE_COOLDOWN_MS) by (vm_compute; reflexivity).
  pose proof (C4_cooldown_blocks_second_bout parse started first_bout settle_elapses
                second_bout Hfresh Hall Hfire Hlt) as (_ & (Hm & Ht & _) & _).
  split; [exact Hfresh|]. split; [exact Hall|].
  split; [vm_compute; reflexivity|]. split; [vm_compute; reflexivity|].
  split; [vm_compute; discriminate|]. split; [exact Hm|exact Ht].
Defined.

(** Against C4 as it was stated: the tracker is stopped and started again
    after the first trigger.  The active line of the second bout arrives
    300 ms after that trigger, well inside [FIRE_COOLDOWN_MS], and yet both
    axes are moved and, 300 ms later, a second trigger is issued. *)
Lemma C4_cooldown_reset_by_stop :
  let fired := step parse (fst (run parse started first_bout)) settle_elapses in
  let out := snd (run parse (fst fired) restarted_bout) in
  snd fired = [Trigger 0] /\
  elapsed restarted_bout = 600 /\ elapsed restarted_bout < FIRE_COOLDOWN_MS /\
  map fst (moved out) = [2%nat; 3%nat] /\ triggers out = [1%nat].
Proof. cbv zeta. repeat split; vm_compute; reflexivity. Qed.

End FireFacts.

(** * Line buffering: [buffer += d; lines = buffer.split("\n");
      buffer = lines.pop()] *)

Module LineFacts.
Import JS.

#[local] Open Scope N_scope.

(** The piece after the last separator: what [lines.pop()] leaves in the
    buffer. *)
Definition tail_piece (sep : N) (s : jsstring) : jsstring :=
  default [] (last (split sep s)).

(** The pieces before it: the complete lines. *)
Definition complete (sep : N) (s : jsstring) : list jsstring :=
  removelast (split sep s).

Lemma split_nonempty sep s : split sep s <> [].
Proof.
  induction s as [|c s IH]; cbn; [done|].
  destruct (c =? sep); [done|]. destruct (split sep s); done.
Qed.

Lemma pop_split sep s : pop (split sep s) = (Some (tail_piece sep s), complete sep s).
Proof.
  unfold pop, tail_piece, complete. pose proof (split_nonempty sep s) as Hne.
  destruct (last (split sep s)) as [p|] eqn:Hl; [reflexivity|].
  apply last_None in Hl. contradiction.
Qed.

Lemma split_cons_other sep c s :
  (c =? sep) = false ->
  complete sep (c :: s) =
    match complete sep s with
    | [] => []
    | p :: ps => (c :: p) :: ps
    end /\
  tail_piece sep (c :: s) =
    match complete sep s with
    | [] => c :: tail_piece sep s
    | _ :: _ => tail_piece sep s
    end.
Proof.
  intros Hc. unfold complete, tail_piece. cbn [split]. rewrite Hc.
  pose proof (split_nonempty sep s) as Hne.
  destruct (split sep s) as [|p [|p2 ps]]; [done|cbn; done|].
  split; reflexivity.
Qed.

Lemma split_cons_sep sep c s :
  (c =? sep) = true ->
  complete sep (c :: s) = [] :: complete sep s /\
  tail_piece sep (c :: s) = tail_piece sep s.
Proof.
  intros Hc. unfold complete, tail_piece. cbn [split]. rewrite Hc.
  pose proof (split_nonempty sep s) as Hne.
  destruct (split sep s) as [|p ps]; [done|]. split; reflexivity.
Qed.

(** Splitting a text given in two parts: the complete lines of the first
    part, then the first part's tail joined to the first piece of the second
    part. *)
Lemma split_app sep a b :
  split sep (a ++ b) =
    complete sep a ++
    match split sep b with
    | [] => []
    | p :: ps => (tail_piece sep a ++ p) :: ps
    end.
Proof.
  pose proof (split_nonempty sep b) as Hb.
  destruct (split sep b) as [|p ps] eqn:Eb; [done|]. clear Hb.
  induction a as [|c a IH].
  - cbn. exact Eb.
  - cbn [app split]. destruct (c =? sep) eqn:Hc.
    + destruct (split_cons_sep sep c a Hc) as [-> ->]. rewrite IH. reflexivity.
    + destruct (split_cons_other sep c a Hc) as [-> ->]. rewrite IH.
      destruct (complete sep a); reflexivity.
Qed.

Lemma complete_app sep a b :
  complete sep (a ++ b) =
    complete sep a ++
    match complete sep b with
    | [] => []
    | p :: ps => (tail_piece sep a ++ p) :: ps
    end.
Proof.
  unfold complete at 1. rewrite split_app.
  pose proof (split_nonempty sep b) as Hb. unfold complete, tail_piece.
  destruct (split sep b) as [|p [|p2 ps]]; [done| |].
  - cbn. rewrite removelast_app by done. cbn. reflexivity.
  - rewrite removelast_app by done. reflexivity.
Qed.

Lemma tail_piece_app sep a b :
  tail_piece sep (a ++ b) =
    match complete sep b with
    | [] => tail_piece sep a ++ tail_piece sep b
    | _ :: _ => tail_piece sep b
    end.
Proof.
  unfold tail_piece at 1. rewrite split_app.
  pose proof (split_nonempty sep b) as Hb. unfold complete, tail_piece.
  destruct (split sep b) as [|p [|p2 ps]]; [done| |].
  - rewrite last_app. cbn. reflexivity.
  - rewrite last_app. rewrite !last_cons_cons. cbn [removelast].
    destruct (last (p2 :: ps)) eqn:Hl; [reflexivity|].
    apply last_None in Hl. discriminate.
Qed.

(** The tail holds no separator: it has no complete line of its own. *)
Lemma tail_piece_complete sep s : complete sep (tail_piece sep s) = [].
Proof.
  induction s as [|c s IH]; [reflexivity|].
  destruct (c =? sep) eqn:Hc.
  - destruct (split_cons_sep sep c s Hc) as [_ ->]. exact IH.
  - destruct (split_cons_other sep c s Hc) as [_ ->].
    destruct (complete sep s) eqn:Hs; [|exact IH].
    destruct (split_cons_other sep c (tail_piece sep s) Hc) as [-> _].
    rewrite IH. reflexivity.
Qed.

Lemma tail_piece_idem sep s : tail_piece sep (tail_piece sep s) = tail_piece sep s.
Proof.
  induction s as [|c s IH]; [reflexivity|].
  destruct (c =? sep) eqn:Hc.
  - destruct (split_cons_sep sep c s Hc) as [_ ->]. exact IH.
  - destruct (split_cons_other sep c s Hc) as [_ ->].
    destruct (complete sep s) eqn:Hs; [|exact IH].
    destruct (split_cons_other sep c (tail_piece sep s) Hc) as [_ ->].
    rewrite tail_piece_complete, IH. reflexivity.
Qed.

End LineFacts.

(** * More on the actuator link *)

Module LinkFacts.
Import JS Servo LineFacts.

#[local] Open Scope N_scope.

Definition with_buffer (b : jsstring) (st : state) : state :=
  {| servoDaemon := servoDaemon st; servoReady := servoReady st;
     servoCallbacks := servoCallbacks st; servoSeq := servoSeq st;
     servoBuffer := b; timeouts := timeouts st; restarts := restarts st;
     nextCall := nextCall st; nextSpawn := nextSpawn st |}.

Lemma on_stdout_lines d st :
  on_stdout d st =
  on_lines (with_buffer (tail_piece 10 (servoBuffer st ++ d)) st)
    (complete 10 (servoBuffer st ++ d)).
Proof. unfold on_stdout. rewrite pop_split. reflexivity. Qed.

(** The loop over the lines does not look at the buffer. *)
Lemma on_line_buffer b st line :
  on_line (with_buffer b st) line =
  (with_buffer b (fst (on_line st line)), snd (on_line st line)).
Proof.
  unfold on_line. destruct (trim line); [reflexivity|].
  destruct (jsstring_eqb _ _); [reflexivity|].
  destruct (match_response _) as [[m1 m2]|]; [|reflexivity].
  destruct (Number_of_digits m1) as [tag|]; [|reflexivity].
  cbn [servoCallbacks with_buffer].
  destruct (servoCallbacks st !! tag); reflexivity.
Qed.

Lemma on_lines_buffer b lines : forall st,
  on_lines (with_buffer b st) lines =
  (with_buffer b (fst (on_lines st lines)), snd (on_lines st lines)).
Proof.
  induction lines as [|line lines IH]; intros st; cbn [on_lines]; [reflexivity|].
  rewrite on_line_buffer. destruct (on_line st line) as [st1 out1]. cbn [fst snd].
  rewrite IH. destruct (on_lines st1 lines) as [st2 out2]. reflexivity.
Qed.

Lemma on_lines_app lines1 lines2 : forall st,
  on_lines st (lines1 ++ lines2) =
  (fst (on_lines (fst (on_lines st lines1)) lines2),
   snd (on_lines st lines1) ++ snd (on_lines (fst (on_lines st lines1)) lines2)).
Proof.
  induction lines1 as [|line lines1 IH]; intros st; cbn [on_lines app].
  - cbn [fst snd app]. destruct (on_lines st lines2); reflexivity.
  - destruct (on_line st line) as [st1 out1]. rewrite IH.
    destruct (on_lines st1 lines1) as [st2 out2]. cbn [fst snd].
    rewrite app_assoc. reflexivity.
Qed.

Lemma with_buffer_twice b1 b2 st : with_buffer b1 (with_buffer b2 st) = with_buffer b1 st.
Proof. reflexivity. Qed.

Lemma on_lines_servoBuffer lines st :
  servoBuffer (fst (on_lines st lines)) = servoBuffer st.
Proof.
  revert st. induction lines as [|line lines IH]; intros st; cbn [on_lines]; [reflexivity|].
  assert (H1 : servoBuffer (fst (on_line st line)) = servoBuffer st).
  { unfold on_line. destruct (trim line); [reflexivity|].
    destruct (jsstring_eqb _ _); [reflexivity|].
    destruct (match_response _) as [[m1 m2]|]; [|reflexivity].
    destruct (Number_of_digits m1) as [tag|]; [|reflexivity].
    destruct (servoCallbacks st !! tag); reflexivity. }
  destruct (on_line st line) as [st1 out1]. specialize (IH st1).
  destruct (on_lines st1 lines) as [st2 out2]. cbn [fst snd] in *. congruence.
Qed.

(** Two chunks one after the other do what their concatenation does. *)
Lemma on_stdout_app d1 d2 st :
  on_stdout (d1 ++ d2) st =
  (fst (on_stdout d2 (fst (on_stdout d1 st))),
   snd (on_stdout d1 st) ++ snd (on_stdout d2 (fst (on_stdout d1 st)))).
Proof.
  rewrite (on_stdout_lines (d1 ++ d2)), (on_stdout_lines d1).
  set (buf := servoBuffer st).
  rewrite (on_stdout_lines d2), !on_lines_buffer. cbn [fst snd].
  change (servoBuffer (with_buffer (tail_piece 10 (buf ++ d1)) _))
    with (tail_piece 10 (buf ++ d1)).
  rewrite on_lines_buffer. cbn [fst snd]. rewrite with_buffer_twice.
  rewrite (app_assoc buf d1 d2), (complete_app 10 (buf ++ d1) d2),
    (tail_piece_app 10 (buf ++ d1) d2).
  rewrite (complete_app 10 (tail_piece 10 (buf ++ d1)) d2),
    (tail_piece_app 10 (tail_piece 10 (buf ++ d1)) d2),
    tail_piece_complete, tail_piece_idem.
  cbn [app]. rewrite on_lines_app. cbn [fst snd].
  reflexivity.
Qed.


(** Chunks of text handled one by one do what their concatenation does. *)
Lemma run_stdout_chunks (st : state) (chunk : jsstring) (chunks : list jsstring) :
  run st (map Stdout (chunk :: chunks)) = on_stdout (concat (chunk :: chunks)) st.
Proof.
  revert st chunk. induction chunks as [|chunk' chunks IH]; intros st chunk.
  - cbn [map run step concat]. rewrite app_nil_r.
    destruct (on_stdout chunk st) as [st1 out1]. rewrite app_nil_r. reflexivity.
  - change (map Stdout (chunk :: chunk' :: chunks))
      with (Stdout chunk :: map Stdout (chunk' :: chunks)).
    cbn [run step]. change (concat (chunk :: chunk' :: chunks))
      with (chunk ++ concat (chunk' :: chunks)).
    rewrite on_stdout_app. destruct (on_stdout chunk st) as [st1 out1].
    rewrite IH. cbn [fst snd].
    destruct (on_stdout (concat (chunk' :: chunks)) st1); reflexivity.
Qed.

(** ** The chunks as the daemon's pipe delivers them *)

(** A byte below 128, and the text a run of such bytes stands for. *)
Definition is_ascii (b : byte) : bool := Byte.to_N b <? 128.

Definition ascii_text (d : list byte) : jsstring := map Byte.to_N d.

Lemma ascii_text_concat chunks :
  ascii_text (concat chunks) = concat (map ascii_text chunks).
Proof.
  unfold ascii_text. induction chunks as [|d chunks IH]; [reflexivity|].
  cbn [concat map]. rewrite map_app, IH. reflexivity.
Qed.

Lemma is_ascii_concat chunks :
  forallb (forallb is_ascii) chunks = true -> forallb is_ascii (concat chunks) = true.
Proof.
  induction chunks as [|d chunks IH]; [reflexivity|].
  cbn [forallb concat]. intros [H1 H2]%andb_true_iff.
  rewrite forallb_app, H1. exact (IH H2).
Qed.

Section Chunks.

(** [Buffer.prototype.toString()] of the platform: the UTF-8 decoding of one
    chunk, on its own. *)
Variable Buffer_toString : list byte -> jsstring.

(** The handler as it is registered: [servoBuffer += d.toString()] and the
    rest, for a chunk of bytes. *)
Definition on_stdout_data (d : list byte) (st : state) : state * list action :=
  on_stdout (Buffer_toString d) st.

(** The daemon's output reaches the handler chunk by chunk, each decoded on
    its own. *)
Definition stdout_chunks (chunks : list (list byte)) : list event :=
  map (λ d, Stdout (Buffer_toString d)) chunks.

(** A chunk of ASCII bytes decodes to the characters with the bytes'
    values. *)
Hypothesis toString_ascii :
  forall d, forallb is_ascii d = true -> Buffer_toString d = ascii_text d.

(** X1 — the stdout handler of the actuator link does not depend on how the
    daemon's output is cut into chunks, as long as the output is ASCII, which
    the protocol's lines (READY, the tagged OK and ERR responses) are.  In
    any state, handling a non-empty sequence of chunks of ASCII bytes one by
    one, each decoded on its own, resolves the same callers with the same
    responses, in the same order, and leaves the same state (ready flag,
    pending callbacks, timers, buffer) as handling their concatenation as one
    chunk: a response line, its tag or the READY line may be split anywhere.
    Nothing is said of output with other bytes, where the decoding of a chunk
    that ends inside a character is the platform's matter. *)
Theorem X1_link_chunk_boundary_independence
    (st : state) (chunk : list byte) (chunks : list (list byte)) :
  forallb (forallb is_ascii) (chunk :: chunks) = true ->
  run st (stdout_chunks (chunk :: chunks)) = on_stdout_data (concat (chunk :: chunks)) st.
Proof using toString_ascii.
  intros Hascii. unfold on_stdout_data, stdout_chunks.
  rewrite (toString_ascii _ (is_ascii_concat _ Hascii)), ascii_text_concat.
  assert (Hmap : forall ds, forallb (forallb is_ascii) ds = true ->
            map (λ d, Stdout (Buffer_toString d)) ds = map Stdout (map ascii_text ds)).
  { induction ds as [|d ds IH]; [reflexivity|].
    cbn [forallb map]. intros [H1 H2]%andb_true_iff.
    rewrite (toString_ascii d H1), (IH H2). reflexivity. }
  rewrite (Hmap _ Hascii). cbn [map]. apply run_stdout_chunks.
Qed.

End Chunks.

(** A decoder that agrees with the platform's on ASCII: every other byte
    becomes the replacement character. *)
Definition toString_replacing (d : list byte) : jsstring :=
  map (λ b, if is_ascii b then Byte.to_N b else 65533) d.

Lemma toString_replacing_ascii d :
  forallb is_ascii d = true -> toString_replacing d = ascii_text d.
Proof.
  unfold toString_replacing, ascii_text. induction d as [|b d IH]; [reflexivity|].
  cbn [forallb map]. intros [H1 H2]%andb_true_iff. rewrite H1, (IH H2). reflexivity.
Qed.

(** The READY line and a response arrive cut inside the words. *)
Lemma X1_link_chunk_boundary_independence_witness :
  let chunks := [[x52; x45; x41]; [x44; x59; x0a; x53; x45; x51; x3a];
                 [x31; x20; x4f; x4b; x0a]] in
  forallb (forallb is_ascii) chunks = true /\
  run init (stdout_chunks toString_replacing chunks) =
    on_stdout_data toString_replacing (concat chunks) init /\
  servoReady (fst (run init (stdout_chunks toString_replacing chunks))) = true.
Proof.
  intros chunks.
  assert (Hascii : forallb (forallb is_ascii) chunks = true) by reflexivity.
  split; [exact Hascii|]. split.
  - exact (X1_link_chunk_boundary_independence toString_replacing
             toString_replacing_ascii init _ _ Hascii).
  - vm_compute. reflexivity.
Defined.

(** ** The ready flag *)

Definition is_stdout (e : event) : bool :=
  match e with Stdout _ => true | _ => false end.

Lemma on_line_ready st line :
  servoReady (fst (on_line st line)) =
  servoReady st || bool_decide (trim line = str "READY").
Proof.
  unfold on_line. destruct (trim line) as [|c rest] eqn:Ht.
  { cbn. rewrite orb_false_r. reflexivity. }
  unfold jsstring_eqb. destruct (bool_decide (c :: rest = str "READY")).
  { cbn. rewrite orb_true_r. reflexivity. }
  rewrite orb_false_r.
  destruct (match_response _) as [[m1 m2]|]; [|reflexivity].
  destruct (Number_of_digits m1) as [tag|]; [|reflexivity].
  destruct (servoCallbacks st !! tag); reflexivity.
Qed.

Lemma on_lines_ready lines : forall st,
  servoReady (fst (on_lines st lines)) =
  servoReady st || bool_decide (str "READY" ∈ map trim lines).
Proof.
  induction lines as [|line lines IH]; intros st; cbn [on_lines map].
  - cbn. rewrite bool_decide_eq_false_2 by apply not_elem_of_nil.
    rewrite orb_false_r. reflexivity.
  - pose proof (on_line_ready st line) as H1.
    destruct (on_line st line) as [st1 out1]. specialize (IH st1).
    destruct (on_lines st1 lines) as [st2 out2]. cbn [fst snd] in *.
    rewrite IH, H1, <- orb_assoc. f_equal.
    destruct (bool_decide (trim line = str "READY")) eqn:Hl.
    + apply bool_decide_eq_true_1 in Hl. symmetry. apply bool_decide_eq_true_2.
      rewrite Hl. apply list_elem_of_here.
    + apply bool_decide_eq_false_1 in Hl. cbn [orb].
      apply bool_decide_ext. rewrite elem_of_cons.
      split; [intros H; right; exact H|intros [H|H]; [congruence|exact H]].
Qed.

Lemma link_quiet_step st e :
  servoReady st = false -> is_stdout e = false ->
  servoReady (fst (step st e)) = false /\ issued (snd (step st e)) = [] /\
  (forall cmd, e = Cmd cmd -> snd (step st e) = [Reject (nextCall st) NotReady]).
Proof.
  intros Hr He. destruct e as [cmd|d|caller| |]; cbn [step is_stdout] in *.
  - unfold servoCmd. rewrite Hr. cbn. split; [reflexivity|]. split; [reflexivity|].
    intros cmd' _. reflexivity.
  - discriminate.
  - unfold on_timeout. destruct (timeouts st !! caller); cbn;
      (split; [exact Hr|]); (split; [reflexivity|]); intros cmd [=].
  - cbn. split; [reflexivity|]. split; [reflexivity|]. intros cmd [=].
  - unfold on_restart. destruct (restarts st); cbn;
      (split; [exact Hr|]); (split; [reflexivity|]); intros cmd [=].
Qed.

(** X2 — the actuator link is used only after the daemon has said READY.
    The ready flag is raised by nothing but a line of the daemon's output
    that trims to READY.  So from the daemon's exit on, through the restart
    and until the daemon writes to its stdout, the flag stays down, every call
    of [servoCmd] is rejected as not ready and nothing is written to the
    daemon's stdin. *)
Theorem X2_link_waits_for_ready (st : state) (tr : list event) (e : event) :
  (servoReady st = false -> servoReady (fst (step st e)) = true ->
   exists d, e = Stdout d /\
             str "READY" ∈ map trim (complete 10 (servoBuffer st ++ d))) /\
  (forallb (λ e, negb (is_stdout e)) tr = true ->
   let after := run (on_exit st) tr in
   servoReady (fst after) = false /\ issued (snd after) = [] /\
   forall caller id line, StdinWrite caller id line ∉ snd after).
Proof.
  split.
  - intros Hr Hr'. destruct (is_stdout e) eqn:He.
    + destruct e as [|d| | |]; try discriminate. exists d. split; [reflexivity|].
      cbn [step] in Hr'. rewrite on_stdout_lines, on_lines_buffer in Hr'.
      cbn [fst] in Hr'. change (servoReady (with_buffer ?b ?s)) with (servoReady s) in Hr'.
      rewrite on_lines_ready, Hr in Hr'. cbn in Hr'.
      apply bool_decide_eq_true_1 in Hr'. exact Hr'.
    + destruct (link_quiet_step st e Hr He) as [Hf _]. congruence.
  - intros Hall after. subst after.
    assert (Hgen : forall tr s, servoReady s = false ->
              forallb (λ e, negb (is_stdout e)) tr = true ->
              servoReady (fst (run s tr)) = false /\ issued (snd (run s tr)) = []).
    { clear. induction tr as [|e tr IH]; intros s Hr Hall; cbn [run forallb] in *.
      - auto.
      - apply andb_true_iff in Hall as [He Hall]. apply negb_true_iff in He.
        destruct (link_quiet_step s e Hr He) as (Hr1 & Hi1 & _).
        destruct (step s e) as [s1 out1]. cbn [fst snd] in *.
        destruct (IH s1 Hr1 Hall) as [Hr2 Hi2].
        destruct (run s1 tr) as [s2 out2]. cbn [fst snd] in *.
        rewrite ServoFacts.issued_app, Hi1, Hi2. auto. }
    destruct (Hgen tr (on_exit st) eq_refl Hall) as [Hr Hi].
    split; [exact Hr|]. split; [exact Hi|].
    intros caller id line Hin.
    assert (Hx : (caller, id) ∈ issued (snd (run (on_exit st) tr))).
    { unfold issued. apply list_elem_of_omap. eexists. split; [exact Hin|reflexivity]. }
    rewrite Hi in Hx. apply elem_of_nil in Hx. exact Hx.
Qed.

Lemma X2_link_waits_for_ready_witness :
  let tr := [Cmd (str "SET 0 90"); Restart; Cmd (str "SET 0 90"); Timeout 0] in
  let after := run (on_exit init) tr in
  servoReady (fst after) = false /\
  snd after = [Reject 0 NotReady; Reject 1 NotReady] /\
  servoReady (fst (run (on_exit init) (tr ++ [Stdout (str "READY" ++ [10])]))) = true.
Proof.
  intros tr after.
  destruct (X2_link_waits_for_ready init tr Exit) as [_ H].
  destruct (H eq_refl) as (Hr & _ & _).
  split; [exact Hr|]. split; vm_compute; reflexivity.
Defined.

(** ** The tag of a request read back from a response *)

Lemma span_all (p : N -> bool) (l rest : jsstring) :
  Forall (λ c, p c = true) l ->
  match rest with [] => True | c :: _ => p c = false end ->
  span p (l ++ rest) = (l, rest).
Proof.
  intros Hl Hrest. induction Hl as [|c l Hc Hl IH]; cbn [app span].
  - destruct rest as [|c rest]; [reflexivity|]. cbn [span]. rewrite Hrest. reflexivity.
  - rewrite Hc, IH. reflexivity.
Qed.

Lemma uint_codes_digits u : Forall (λ c, isDigit c = true) (uint_codes u).
Proof. induction u; cbn [uint_codes]; constructor; auto. Qed.

Lemma decimal_uint_acc u : forall p,
  fold_left (λ acc c, 10 * acc + (c - 48)) (uint_codes u) (N.pos p) =
  N.pos (Pos.of_uint_acc u p).
Proof.
  induction u; intros p; cbn [uint_codes fold_left Pos.of_uint_acc];
    try reflexivity;
    match goal with
    | |- fold_left _ _ ?a = N.pos (Pos.of_uint_acc _ ?q) =>
        replace a with (N.pos q) by lia; apply IHu
    end.
Qed.

Lemma decimal_uint u : decimal (uint_codes u) = Pos.of_uint u.
Proof.
  unfold decimal. induction u; cbn [uint_codes fold_left Pos.of_uint];
    try reflexivity; try exact IHu;
    match goal with
    | |- fold_left _ _ ?a = N.pos (Pos.of_uint_acc _ ?q) =>
        replace a with (N.pos q) by lia; apply decimal_uint_acc
    end.
Qed.

(** [Number(String(n))] is [n] for a natural number held exactly. *)
Lemma decimal_to_decimal n : decimal (to_decimal n) = n.
Proof.
  unfold to_decimal. rewrite decimal_uint. apply DecimalN.Unsigned.of_to.
Qed.

Lemma to_decimal_nonempty n : to_decimal n <> [].
Proof.
  intros H. destruct n as [|p]; [discriminate|].
  pose proof (decimal_to_decimal (N.pos p)) as Hd. rewrite H in Hd. discriminate.
Qed.

Lemma Number_of_to_decimal n :
  n < 2 ^ 53 -> Number_of_digits (to_decimal n) = Some n.
Proof.
  intros Hn. unfold Number_of_digits. rewrite decimal_to_decimal.
  assert (H : (n <? 2 ^ 1024 - 2 ^ 970) = true).
  { apply N.ltb_lt. eapply N.lt_trans; [exact Hn|]. reflexivity. }
  rewrite H. unfold round53. apply N.ltb_lt in Hn. rewrite Hn. reflexivity.
Qed.

(** ** A response line as the daemon writes it *)

(** A response text that the pattern hands over unchanged: not empty, free
    of line terminators, and without white space at either end. *)
Definition plain_response (r : jsstring) : Prop :=
  Forall (λ c, isLineTerminator c = false) r /\
  (exists c rest, r = c :: rest /\ isWhiteSpace c = false) /\
  (exists front c, r = front ++ [c] /\ isWhiteSpace c = false).

Definition response_line (id : N) (r : jsstring) : jsstring :=
  str "SEQ:" ++ to_decimal id ++ str " " ++ r.

Lemma trimStart_plain c s : isWhiteSpace c = false -> trimStart (c :: s) = c :: s.
Proof. intros Hc. unfold trimStart. cbn [span]. rewrite Hc. reflexivity. Qed.

Lemma trim_plain c s front d :
  isWhiteSpace c = false -> c :: s = front ++ [d] -> isWhiteSpace d = false ->
  trim (c :: s) = c :: s.
Proof.
  intros Hc Hs Hd. unfold trim. rewrite (trimStart_plain c s Hc).
  unfold trimEnd. rewrite Hs, rev_app_distr. cbn [rev app].
  rewrite (trimStart_plain d _ Hd). cbn [rev]. rewrite rev_involutive. reflexivity.
Qed.

Lemma response_line_trim id r :
  plain_response r -> trim (response_line id r) = response_line id r.
Proof.
  intros (_ & _ & front & d & Hr & Hd). unfold response_line.
  change (str "SEQ:" ++ to_decimal id ++ str " " ++ r)
    with (83 :: (str "EQ:" ++ to_decimal id ++ str " " ++ r)).
  apply (trim_plain 83 _ (str "SEQ:" ++ to_decimal id ++ str " " ++ front) d);
    [reflexivity| |exact Hd].
  rewrite Hr. cbn [str app]. rewrite <- !app_assoc. reflexivity.
Qed.

Lemma response_line_match id r :
  plain_response r ->
  match_response (response_line id r) = Some (to_decimal id, r).
Proof.
  intros (Hlt & (c & rest & Hr & Hc) & _). unfold match_response, response_line.
  change (skip_prefix (str "SEQ:") (str "SEQ:" ++ ?x)) with (Some x).
  cbn beta iota.
  rewrite (span_all isDigit (to_decimal id) (str " " ++ r));
    [|apply uint_codes_digits|reflexivity].
  rewrite Hr. change (str " " ++ c :: rest) with ([32] ++ c :: rest).
  rewrite (span_all isWhiteSpace [32] (c :: rest));
    [|repeat constructor|exact Hc].
  pose proof (to_decimal_nonempty id) as Hne.
  destruct (to_decimal id) as [|d ds]; [done|].
  rewrite <- Hr. rewrite <- (app_nil_r r) at 1.
  rewrite (span_all (λ c, negb (isLineTerminator c)) r []); [reflexivity| |exact I].
  eapply Forall_impl; [exact Hlt|]. cbn. intros x ->. reflexivity.
Qed.

Lemma no_newline_complete s :
  Forall (λ c, (c =? 10) = false) s ->
  complete 10 (s ++ [10]) = [s] /\ tail_piece 10 (s ++ [10]) = [].
Proof.
  intros Hs. induction Hs as [|c s Hc Hs IH].
  - split; reflexivity.
  - cbn [app]. destruct (split_cons_other 10 c (s ++ [10]) Hc) as [-> ->].
    destruct IH as [-> ->]. split; reflexivity.
Qed.

Lemma response_line_no_newline id r :
  plain_response r -> Forall (λ c, (c =? 10) = false) (response_line id r).
Proof.
  intros (Hlt & _). unfold response_line. rewrite !Forall_app. repeat split.
  - repeat constructor.
  - eapply Forall_impl; [apply uint_codes_digits|]. cbn. intros c Hc.
    unfold isDigit in Hc. apply andb_true_iff in Hc as [H1 H2].
    apply N.leb_le in H1. apply N.eqb_neq. lia.
  - repeat constructor.
  - eapply Forall_impl; [exact Hlt|]. cbn. intros c Hc.
    unfold isLineTerminator in Hc. apply N.eqb_neq. intros ->. discriminate.
Qed.

(** X3 — a response reaches the call it answers.  A call made while the
    link is ready (and its counter below 2^53 - 1) writes the line
    "SEQ:<id> <cmd>" with the next id to the daemon's stdin.  When the daemon
    then writes "SEQ:<id> <text>" and a line feed (nothing being left in the
    buffer), that caller's promise is resolved with exactly <text>, for every
    text without line terminators and without white space at its ends; its
    callback and its timer are gone, so its timeout does nothing any more. *)
Theorem X3_link_response_reaches_caller (st : state) (cmd r : jsstring) :
  servoReady st = true -> is_Some (servoDaemon st) ->
  servoSeq st + 1 < 2 ^ 53 -> servoBuffer st = [] ->
  plain_response r ->
  let id := servoSeq st + 1 in
  let caller := nextCall st in
  let called := servoCmd cmd st in
  let answered := step (fst called) (Stdout (response_line id r ++ [10])) in
  snd called = [StdinWrite caller id (response_line id cmd ++ [10])] /\
  snd answered = [Resolve caller id r] /\
  servoCallbacks (fst answered) !! id = None /\
  timeouts (fst answered) !! caller = None /\
  step (fst answered) (Timeout caller) = (fst answered, []).
Proof.
  intros Hready Hdaemon Hseq Hbuf Hplain id caller called answered.
  assert (Hid : pre_increment (servoSeq st) = id).
  { unfold pre_increment, round53. apply N.ltb_lt in Hseq. rewrite Hseq. reflexivity. }
  assert (Hcalled : called =
    ({| servoDaemon := servoDaemon st; servoReady := servoReady st;
        servoCallbacks := <[id := caller]> (servoCallbacks st);
        servoSeq := id; servoBuffer := servoBuffer st;
        timeouts := <[caller := id]> (timeouts st);
        restarts := restarts st; nextCall := S caller;
        nextSpawn := nextSpawn st |},
     [StdinWrite caller id (response_line id cmd ++ [10])])).
  { subst called. unfold servoCmd. rewrite Hready.
    rewrite bool_decide_eq_true_2 by exact Hdaemon. cbn [negb orb].
    rewrite Hid. unfold response_line. rewrite <- !app_assoc. reflexivity. }
  subst answered. rewrite Hcalled. cbn [fst snd step].
  split; [reflexivity|].
  rewrite on_stdout_lines. cbn [servoBuffer]. rewrite Hbuf. cbn [app].
  destruct (no_newline_complete _ (response_line_no_newline id r Hplain)) as [-> ->].
  cbn [on_lines]. unfold on_line.
  rewrite (response_line_trim id r Hplain).
  assert (Hne : response_line id r <> []) by discriminate.
  destruct (response_line id r) as [|c line] eqn:Hline; [done|].
  assert (Hnot : jsstring_eqb (c :: line) (str "READY") = false).
  { unfold jsstring_eqb. apply bool_decide_eq_false_2. rewrite <- Hline.
    unfold response_line. cbn. discriminate. }
  rewrite Hnot, <- Hline, (response_line_match id r Hplain).
  rewrite (Number_of_to_decimal id Hseq).
  cbn [servoCallbacks with_buffer]. rewrite lookup_insert_eq.
  cbn [fst snd app]. split; [reflexivity|].
  cbn [servoCallbacks timeouts]. rewrite !lookup_delete_eq.
  split; [reflexivity|]. split; [reflexivity|].
  unfold on_timeout. cbn [timeouts]. rewrite lookup_delete_eq. reflexivity.
Qed.

Lemma X3_link_response_reaches_caller_witness :
  let st := fst (run init [Stdout (str "READY" ++ [10])]) in
  let called := servoCmd (str "SET 0 90") st in
  let answered := step (fst called) (Stdout (response_line 1 (str "OK 90") ++ [10])) in
  plain_response (str "OK 90") /\
  snd called = [StdinWrite 0 1 (str "SEQ:1 SET 0 90" ++ [10])] /\
  snd answered = [Resolve 0 1 (str "OK 90")].
Proof.
  intros st called answered.
  assert (Hplain : plain_response (str "OK 90")).
  { split; [repeat constructor|]. split.
    - exists 79, (str "K 90"). split; reflexivity.
    - exists (str "OK 9"), 48. split; reflexivity. }
  destruct (X3_link_response_reaches_caller st (str "SET 0 90") (str "OK 90"))
    as (Hc & Ha & _); [reflexivity|eexists; reflexivity|reflexivity|reflexivity
                       |exact Hplain|].
  split; [exact Hplain|]. split; [exact Hc|exact Ha].
Defined.
End LinkFacts.

(** * More on the frame multiplexer: who is written to *)

Module ViewerFacts.
Import Mux MuxFacts.

Lemma broadcast_cameraClients clients frame st :
  cameraClients (fst (broadcast clients frame st)) = cameraClients st.
Proof.
  revert st. induction clients as [|c clients IH]; intros st; cbn; [done|].
  destruct (heap st !! c) as [v|]; [|apply IH].
  destruct (busy v); [apply IH|].
  specialize (IH (set_viewer c {| busy := true; unflushed := S (unflushed v) |} st)).
  destruct (broadcast clients frame _). cbn in *. exact IH.
Qed.

Lemma scan_cameraClients st : cameraClients (fst (scan st)) = cameraClients st.
Proof.
  apply (scan_ind (λ s r, cameraClients (fst r) = cameraClients s)).
  - reflexivity.
  - intros s frame rest st1 out1 st2 out2 Hnext Hsent Hscan IH.
    cbn [fst] in *. rewrite IH. change st1 with (fst (st1, out1)).
    rewrite <- Hsent, broadcast_cameraClients. reflexivity.
Qed.


(** ** Writes go to members of the set *)

Lemma broadcast_writes clients frame c p : forall st,
  Write c p ∈ snd (broadcast clients frame st) -> c ∈ clients.
Proof.
  induction clients as [|c0 clients IH]; intros st; cbn [broadcast].
  - cbn. intros H. apply elem_of_nil in H. done.
  - destruct (heap st !! c0) as [v|];
      [|intros H; apply elem_of_cons; right; exact (IH _ H)].
    destruct (busy v); [intros H; apply elem_of_cons; right; exact (IH _ H)|].
    unfold send.
    destruct (broadcast clients frame _) as [st2 out2] eqn:Hb. cbn [snd].
    intros H. apply elem_of_app in H as [H|H].
    + apply elem_of_cons. left.
      repeat (apply elem_of_cons in H as [H|H]; [injection H as -> _; reflexivity|]).
      apply elem_of_nil in H. done.
    + apply elem_of_cons. right. eapply IH. rewrite Hb. exact H.
Qed.

Lemma scan_writes c p st : Write c p ∈ snd (scan st) -> c ∈ cameraClients st.
Proof.
  apply (scan_ind (λ s r, Write c p ∈ snd r -> c ∈ cameraClients s)).
  - intros s _ H. apply elem_of_nil in H. done.
  - intros s frame rest st1 out1 st2 out2 Hnext Hsent Hscan IH. cbn [snd] in *.
    intros H. apply elem_of_cons in H as [H|H]; [discriminate|].
    apply elem_of_app in H as [H|H].
    + apply (broadcast_writes (cameraClients s) frame c p (emit frame rest s)).
      rewrite Hsent. exact H.
    + specialize (IH H). change st1 with (fst (st1, out1)) in IH.
      rewrite <- Hsent, broadcast_cameraClients in IH. exact IH.
Qed.

Lemma step_writes c p st e :
  Write c p ∈ snd (step st e) ->
  c ∈ cameraClients st \/ (e = Attach /\ c = nextRes st).
Proof.
  destruct e as [chunk| |c0|c0|]; cbn [step].
  - intros H. left. unfold broadcastFrame in H. apply scan_writes in H. exact H.
  - intros H. right. split; [reflexivity|]. unfold attach, send in H.
    destruct (latestFrame st); cbn [snd] in H;
      [|apply elem_of_nil in H; done].
    repeat (apply elem_of_cons in H as [H|H]; [injection H as -> _; reflexivity|]).
    apply elem_of_nil in H. done.
  - unfold drained. intros H. destruct (heap st !! c0) as [[b [|n]]|]; cbn in H.
    + apply elem_of_nil in H. done.
    + apply elem_of_cons in H as [H|H]; [discriminate|]. apply elem_of_nil in H. done.
    + apply elem_of_nil in H. done.
  - cbn. intros H. apply elem_of_nil in H. done.
  - cbn. intros H. apply elem_of_nil in H. done.
Qed.

Lemma scan_nextRes st : nextRes (fst (scan st)) = nextRes st.
Proof.
  apply (scan_ind (λ s r, nextRes (fst r) = nextRes s)); [reflexivity|].
  intros s frame rest st1 out1 st2 out2 _ Hsent _ IH. cbn [fst] in *.
  rewrite IH. change st1 with (fst (st1, out1)).
  rewrite <- Hsent, broadcast_nextRes. reflexivity.
Qed.

(** A response that is not in the set, and not new, stays out of it. *)
Definition gone (c : nat) (st : state) : Prop :=
  (c ∉ cameraClients st) /\ c < nextRes st.

Lemma step_gone c st e : gone c st -> gone c (fst (step st e)).
Proof.
  intros [Hout Hlt]. destruct e as [chunk| |c0|c0|]; cbn [step fst].
  - unfold broadcastFrame. split.
    + rewrite scan_cameraClients. exact Hout.
    + rewrite scan_nextRes. exact Hlt.
  - unfold attach, send, set_viewer.
    destruct (latestFrame st); split; simpl; try lia;
      rewrite elem_of_app, list_elem_of_singleton; intros [H|H]; try done; lia.
  - unfold drained. destruct (heap st !! c0) as [[b [|n]]|]; cbn; split; done.
  - cbn. split; [|exact Hlt]. intros [_ H]%list_elem_of_filter. done.
  - cbn. split; [apply not_elem_of_nil|exact Hlt].
Qed.

Lemma run_gone c tr : forall st p,
  gone c st -> Write c p ∉ snd (run st tr).
Proof.
  induction tr as [|e tr IH]; intros st p Hg; cbn [run].
  - cbn. apply not_elem_of_nil.
  - pose proof (step_gone c st e Hg) as Hg1.
    pose proof (step_writes c p st e) as Hw.
    destruct (step st e) as [st1 out1]. cbn [fst snd] in *.
    specialize (IH st1 p Hg1). destruct (run st1 tr) as [st2 out2]. cbn [snd] in *.
    intros H. apply elem_of_app in H as [H|H]; [|exact (IH H)].
    destruct (Hw H) as [Hin|[_ ->]]; [exact (proj1 Hg Hin)|].
    destruct Hg as [_ Hlt]. lia.
Qed.

(** X5 — a viewer that left is not written to again.  Once a response was
    removed from the set of viewers, by the cleanup of its request or with
    all others when the set was cleared, no later chunk of the producer, no
    later attach and no other event writes to it, whatever follows. *)
Theorem X5_viewer_removed_gets_no_write
    (history tr : list event) (c : nat) (p : part) :
  let st := fst (run init history) in
  c < nextRes st ->
  (Write c p ∉ snd (run (fst (step st (Detach c))) tr)) /\
  (Write c p ∉ snd (run (fst (step st Clear)) tr)).
Proof.
  intros st Hlt. split; apply run_gone.
  - split; [|exact Hlt]. simpl.
    intros [H _]%list_elem_of_filter. done.
  - cbn. split; [apply not_elem_of_nil|exact Hlt].
Qed.

Lemma X5_viewer_removed_gets_no_write_witness :
  let frame := jpegStart ++ [Byte.x2a] ++ jpegEnd in
  let st := fst (run init [Attach]) in
  0 < nextRes st /\
  viewer_log 0 (snd (run st [Data frame])) = frame_writes frame /\
  viewer_log 0 (snd (run (fst (step st (Detach 0))) [Data frame])) = [] /\
  (forall p, Write 0 p ∉ snd (run (fst (step st (Detach 0))) [Data frame; Attach])).
Proof.
  intros frame st.
  assert (Hlt : 0 < nextRes st) by (vm_compute; lia).
  split; [exact Hlt|]. split; [vm_compute; reflexivity|].
  split; [vm_compute; reflexivity|].
  intros p.
  exact (proj1 (X5_viewer_removed_gets_no_write [Attach] [Data frame; Attach] 0 p Hlt)).
Defined.

(** ** Every free viewer of the set gets the frame *)

(** The set holds each viewer once, and each one is a response object that
    exists. *)
Definition members_ok (st : state) : Prop :=
  NoDup (cameraClients st) /\
  forall c, c ∈ cameraClients st -> c < nextRes st /\ is_Some (heap st !! c).

Lemma broadcast_keeps clients frame st c :
  is_Some (heap st !! c) -> is_Some (heap (fst (broadcast clients frame st)) !! c).
Proof.
  intros Hc. destruct (broadcast_viewer clients frame st c) as [[_ ->]|(v & _ & _ & _ & ->)];
    [exact Hc|eexists; reflexivity].
Qed.

Lemma scan_keeps c st :
  is_Some (heap st !! c) -> is_Some (heap (fst (scan st)) !! c).
Proof.
  apply (scan_ind (λ s r, is_Some (heap s !! c) -> is_Some (heap (fst r) !! c))).
  - auto.
  - intros s frame rest st1 out1 st2 out2 _ Hsent _ IH Hc. cbn [fst] in *.
    apply IH. change st1 with (fst (st1, out1)). rewrite <- Hsent.
    apply broadcast_keeps. exact Hc.
Qed.

Lemma members_ok_step st e : members_ok st -> members_ok (fst (step st e)).
Proof.
  intros [Hnd Hm]. destruct e as [chunk| |c0|c0|]; cbn [step fst].
  - unfold broadcastFrame. split.
    + rewrite scan_cameraClients. exact Hnd.
    + intros c. rewrite scan_cameraClients, scan_nextRes. intros Hc.
      destruct (Hm c Hc) as [Hlt Hh]. split; [exact Hlt|].
      apply scan_keeps. exact Hh.
  - assert (Hnew : nextRes st ∉ cameraClients st).
    { intros H. destruct (Hm _ H) as [Hlt _]. lia. }
    unfold attach, send, set_viewer. destruct (latestFrame st); simpl; split.
    + apply NoDup_app. split; [exact Hnd|]. split; [|apply NoDup_singleton].
      intros x Hx ->%list_elem_of_singleton. exact (Hnew Hx).
    + intros c [Hc| ->%list_elem_of_singleton]%elem_of_app.
      * destruct (Hm c Hc) as [Hlt Hh]. simpl. split; [lia|].
        destruct (decide (c = nextRes st)) as [->|Hne];
          [rewrite lookup_insert_eq; eexists; reflexivity|].
        rewrite !lookup_insert_ne by done. exact Hh.
      * simpl. split; [lia|]. rewrite lookup_insert_eq. eexists. reflexivity.
    + apply NoDup_app. split; [exact Hnd|]. split; [|apply NoDup_singleton].
      intros x Hx ->%list_elem_of_singleton. exact (Hnew Hx).
    + intros c [Hc| ->%list_elem_of_singleton]%elem_of_app.
      * destruct (Hm c Hc) as [Hlt Hh]. simpl. split; [lia|].
        destruct (decide (c = nextRes st)) as [->|Hne];
          [rewrite lookup_insert_eq; eexists; reflexivity|].
        rewrite lookup_insert_ne by done. exact Hh.
      * simpl. split; [lia|]. rewrite lookup_insert_eq. eexists. reflexivity.
  - unfold drained. destruct (heap st !! c0) as [[b [|n]]|] eqn:H0; simpl;
      try (split; assumption).
    split; [exact Hnd|]. intros c Hc. destruct (Hm c Hc) as [Hlt Hh].
    unfold set_viewer. simpl.
    split; [exact Hlt|]. destruct (decide (c = c0)) as [->|Hne];
      [rewrite lookup_insert_eq; eexists; reflexivity|].
    rewrite lookup_insert_ne by done. exact Hh.
  - simpl. split; [apply NoDup_filter; exact Hnd|].
    intros c [_ Hc]%list_elem_of_filter. exact (Hm c Hc).
  - simpl. split; [apply NoDup_nil_2|]. intros c Hc. apply elem_of_nil in Hc. done.
Qed.

Lemma members_ok_run tr : forall st, members_ok st -> members_ok (fst (run st tr)).
Proof.
  induction tr as [|e tr IH]; intros st H; cbn [run]; [exact H|].
  pose proof (members_ok_step st e H) as H1.
  destruct (step st e) as [st1 out1]. specialize (IH st1 H1).
  destruct (run st1 tr) as [st2 out2]. exact IH.
Qed.

Lemma broadcast_reaches clients frame c : forall st v,
  c ∈ clients -> heap st !! c = Some v -> busy v = false ->
  viewer_log c (snd (broadcast clients frame st)) = frame_writes frame.
Proof.
  induction clients as [|c0 clients IH]; intros st v Hin Hv Hfree.
  - apply elem_of_nil in Hin. done.
  - cbn [broadcast]. destruct (decide (c0 = c)) as [->|Hne].
    + rewrite Hv, Hfree.
      set (st1 := set_viewer c {| busy := true; unflushed := S (unflushed v) |} st).
      pose proof (viewer_log_send c c v frame st) as Hsend.
      pose proof (broadcast_viewer clients frame st1 c) as Hrest.
      unfold send in *. fold st1 in Hsend |- *.
      destruct (broadcast clients frame st1) as [st2 out2]. cbn [fst snd] in *.
      rewrite viewer_log_app, Hsend, decide_True by reflexivity.
      destruct Hrest as [[-> _]|(v' & Hv' & Hfree' & _)]; [apply app_nil_r|].
      subst st1. simpl in Hv'. rewrite lookup_insert_eq in Hv'.
      injection Hv' as <-. discriminate.
    + apply elem_of_cons in Hin as [->|Hin]; [done|].
      destruct (heap st !! c0) as [v0|] eqn:H0; [|exact (IH st v Hin Hv Hfree)].
      destruct (busy v0); [exact (IH st v Hin Hv Hfree)|].
      set (st1 := set_viewer c0 {| busy := true; unflushed := S (unflushed v0) |} st).
      pose proof (viewer_log_send c0 c v0 frame st) as Hsend.
      assert (Hv1 : heap st1 !! c = Some v).
      { subst st1. simpl. rewrite lookup_insert_ne by done. exact Hv. }
      pose proof (IH st1 v Hin Hv1 Hfree) as Hrest.
      unfold send in *. fold st1 in Hsend |- *.
      destruct (broadcast clients frame st1) as [st2 out2]. cbn [fst snd] in *.
      rewrite viewer_log_app, Hsend, decide_False by done. exact Hrest.
Qed.

(** X4 — every viewer that is free gets the frame.  In every state the
    server can reach, the set of viewers holds each response once and each is
    an existing response object; when a frame is broadcast, every viewer of
    the set whose busy flag is clear is written header, frame and trailer, in
    this order and once, and every viewer whose flag is set is written
    nothing. *)
Theorem X4_frame_reaches_every_free_viewer
    (history : list event) (frame : bytes) (c : nat) :
  let st := fst (run init history) in
  let sent := broadcast (cameraClients st) frame st in
  NoDup (cameraClients st) /\
  (c ∈ cameraClients st ->
   exists v, heap st !! c = Some v /\
             viewer_log c (snd sent) = if busy v then [] else frame_writes frame).
Proof.
  intros st sent.
  assert (Hok : members_ok st).
  { apply members_ok_run. split; [apply NoDup_nil_2|].
    intros x Hx. apply elem_of_nil in Hx. done. }
  destruct Hok as [Hnd Hm]. split; [exact Hnd|].
  intros Hc. destruct (Hm c Hc) as [_ [v Hv]]. exists v. split; [exact Hv|].
  destruct (busy v) eqn:Hb.
  - destruct (broadcast_viewer (cameraClients st) frame st c)
      as [[Hlog _]|(v' & Hv' & Hfree & _)]; [exact Hlog|congruence].
  - exact (broadcast_reaches _ frame c st v Hc Hv Hb).
Qed.
End ViewerFacts.

(** * More on numbers *)

Module NumFacts.
Import JS Num.

#[local] Open Scope Z_scope.

Ltac fold_compare :=
  repeat match goal with
  | H : context [Pos.compare_cont Eq ?a ?b] |- _ =>
      change (Pos.compare_cont Eq a b) with (Pos.compare a b) in H
  | |- context [Pos.compare_cont Eq ?a ?b] =>
      change (Pos.compare_cont Eq a b) with (Pos.compare a b)
  end.

Ltac cmp_cases :=
  repeat match goal with
  | H : context [Z.compare ?a ?b] |- _ =>
      destruct (Z.compare_spec a b); try discriminate
  | |- context [Z.compare ?a ?b] =>
      destruct (Z.compare_spec a b); try discriminate
  | H : context [Pos.compare ?a ?b] |- _ =>
      destruct (Pos.compare_spec a b); try discriminate
  | |- context [Pos.compare ?a ?b] =>
      destruct (Pos.compare_spec a b); try discriminate
  end.

(** The order of the numbers: less-than followed by at-most is less-than,
    and the other way round. *)
Lemma SFltb_SFleb_trans x y z :
  SFltb x y = true -> SFleb y z = true -> SFltb x z = true.
Proof.
  unfold SFltb, SFleb.
  destruct x as [sx|sx| |sx mx ex], y as [sy|sy| |sy my ey], z as [sz|sz| |sz mz ez];
    cbn [SFcompare]; fold_compare;
    repeat match goal with b : bool |- _ => destruct b end;
    cbn; try discriminate; try reflexivity; fold_compare;
    intros Hxy Hyz; cmp_cases; subst; try reflexivity; try discriminate; try lia.
Qed.

Lemma SFleb_SFltb_trans x y z :
  SFleb x y = true -> SFltb y z = true -> SFltb x z = true.
Proof.
  unfold SFltb, SFleb.
  destruct x as [sx|sx| |sx mx ex], y as [sy|sy| |sy my ey], z as [sz|sz| |sz mz ez];
    cbn [SFcompare]; fold_compare;
    repeat match goal with b : bool |- _ => destruct b end;
    cbn; try discriminate; try reflexivity; fold_compare;
    intros Hxy Hyz; cmp_cases; subst; try reflexivity; try discriminate; try lia.
Qed.

(** Comparing the other way round gives the opposite answer. *)
Lemma SFcompare_swap x y : SFcompare y x = option_map CompOpp (SFcompare x y).
Proof.
  destruct x as [sx|sx| |sx mx ex], y as [sy|sy| |sy my ey]; cbn [SFcompare option_map];
    fold_compare;
    repeat match goal with b : bool |- _ => destruct b end; cbn; try reflexivity;
    fold_compare;
    rewrite (Z.compare_antisym ex ey); destruct (ex ?= ey)%Z; cbn; try reflexivity;
    rewrite (Pos.compare_antisym mx my); destruct (mx ?= my)%positive; reflexivity.
Qed.

Lemma SFltb_SFleb x y : SFltb x y = true -> SFleb x y = true.
Proof. unfold SFltb, SFleb. destruct (SFcompare x y) as [[]|]; done. Qed.

Lemma SFltb_Gt x y : SFltb x y = true <-> SFcompare y x = Some Gt.
Proof.
  unfold SFltb. rewrite (SFcompare_swap x y).
  destruct (SFcompare x y) as [[]|]; cbn; split; congruence.
Qed.

Lemma SFleb_refl_not_nan x : x <> S754_nan <-> SFleb x x = true.
Proof.
  unfold SFleb. destruct x as [s|s| |s m e]; cbn; try (destruct s); try done.
  - fold_compare. rewrite Z.compare_refl, Pos.compare_refl. done.
  - fold_compare. rewrite Z.compare_refl, Pos.compare_refl. done.
Qed.

(** [Math.max(lo, Math.min(hi, x))] for bounds [lo < hi] and a number [x]:
    the result lies between the bounds; it is [x] when [x] lies strictly
    between them, [lo] when [x] is below and [hi] when [x] is above. *)
Lemma clamp_between lo hi x :
  SFltb lo hi = true -> x <> S754_nan ->
  let r := Math_max lo (Math_min hi x) in
  SFleb lo r = true /\ SFleb r hi = true /\
  (SFltb lo x = true -> SFltb x hi = true -> r = x) /\
  (SFltb x lo = true -> r = lo) /\
  (SFltb hi x = true -> r = hi).
Proof.
  intros Hlh Hx r. subst r.
  assert (Hle : SFleb lo hi = true) by (apply SFltb_SFleb; exact Hlh).
  assert (Hln : lo <> S754_nan) by (intros ->; discriminate).
  assert (Hhn : hi <> S754_nan) by (intros ->; destruct lo; discriminate).
  pose proof (proj1 (SFleb_refl_not_nan lo) Hln) as Hll.
  pose proof (proj1 (SFleb_refl_not_nan hi) Hhn) as Hhh.
  assert (Hmax : Math_max lo hi = hi).
  { unfold Math_max. unfold SFltb in Hlh. destruct (SFcompare lo hi) as [[]|]; done. }
  assert (Hcmp : forall a b, a <> S754_nan -> b <> S754_nan -> SFcompare a b <> None).
  { intros [| | |] [| | |]; cbn; congruence. }
  destruct (SFcompare hi x) as [c1|] eqn:H1; [|exfalso; exact (Hcmp hi x Hhn Hx H1)].
  destruct (SFcompare lo x) as [c2|] eqn:H2; [|exfalso; exact (Hcmp lo x Hln Hx H2)].
  pose proof (SFcompare_swap hi x) as S1. rewrite H1 in S1. cbn in S1.
  pose proof (SFcompare_swap lo x) as S2. rewrite H2 in S2. cbn in S2.
  assert (Hlow : SFltb x lo = true -> c1 = Gt).
  { intros Hxl. pose proof (SFltb_SFleb_trans x lo hi Hxl Hle) as Hxh.
    apply SFltb_Gt in Hxh. congruence. }
  assert (Hhigh : SFltb hi x = true -> c2 = Lt).
  { intros Hhx. pose proof (SFleb_SFltb_trans lo hi x Hle Hhx) as Hlx.
    unfold SFltb in Hlx. rewrite H2 in Hlx. destruct c2; done. }
  unfold Math_min. rewrite H1. destruct c1.
  - (* hi and x compare equal *)
    assert (Hm : (match x with S754_zero true => x | _ => hi end) = hi \/
                 (x = S754_zero true)).
    { destruct x as [[]| | |]; auto. }
    destruct Hm as [-> | ->].
    + rewrite Hmax. repeat split; try assumption.
      * unfold SFltb. rewrite S1. discriminate.
      * intros H. specialize (Hlow H). discriminate.
    + cbv beta iota.
      assert (c2 = Lt).
      { assert (Hhz : SFleb hi (S754_zero true) = true)
          by (unfold SFleb; rewrite H1; reflexivity).
        pose proof (SFltb_SFleb_trans lo hi (S754_zero true) Hlh Hhz) as T.
        unfold SFltb in T. rewrite H2 in T. destruct c2; done. }
      subst c2. unfold Math_max. rewrite H2. repeat split.
      * unfold SFleb. rewrite H2. reflexivity.
      * unfold SFleb. rewrite S1. reflexivity.
      * unfold SFltb. rewrite S2. discriminate.
      * unfold SFltb. rewrite H1. discriminate.
  - (* hi < x *)
    rewrite Hmax. repeat split; try assumption.
    + unfold SFltb. rewrite S1. discriminate.
    + intros H. specialize (Hlow H). discriminate.
  - (* x < hi *)
    unfold Math_max. rewrite H2. destruct c2.
    + assert (Hr : (match lo with S754_zero true => x | _ => lo end) = lo \/
                   (lo = S754_zero true /\
                    (match lo with S754_zero true => x | _ => lo end) = x)).
      { destruct lo as [[]| | |]; auto. }
      destruct Hr as [-> | [Hz ->]].
      * repeat split; try assumption.
        -- unfold SFltb. rewrite H2. discriminate.
        -- unfold SFltb. rewrite H1. discriminate.
      * repeat split.
        -- unfold SFleb. rewrite H2. reflexivity.
        -- unfold SFleb. rewrite S1. reflexivity.
        -- unfold SFltb. rewrite S2. discriminate.
        -- unfold SFltb. rewrite H1. discriminate.
    + repeat split.
      * unfold SFleb. rewrite H2. reflexivity.
      * unfold SFleb. rewrite S1. reflexivity.
      * unfold SFltb. rewrite S2. discriminate.
      * unfold SFltb. rewrite H1. discriminate.
    + repeat split; try assumption.
      * unfold SFltb. rewrite H2. discriminate.
      * unfold SFltb. rewrite H1. discriminate.
Qed.

End NumFacts.

(** * More on the position file *)

Module PositionFacts.
Import JS Num StateFile NumFacts.

Lemma sanitize_range x :
  SFleb SERVO_MIN (sanitize x) = true /\ SFleb (sanitize x) SERVO_MAX = true /\
  (SFltb SERVO_MIN x = true -> SFltb x SERVO_MAX = true -> sanitize x = x).
Proof.
  unfold sanitize. destruct (isFinite x) eqn:Hfin.
  - assert (Hx : x <> S754_nan) by (intros ->; discriminate).
    destruct (clamp_between SERVO_MIN SERVO_MAX x eq_refl Hx) as (H1 & H2 & H3 & _).
    auto.
  - split; [reflexivity|]. split; [reflexivity|].
    intros H1 H2. destruct x as [| [] | |]; discriminate.
Qed.

(** X6 — the position read is always a position.  Whatever the position
    file holds, and also when it cannot be read, [readServoState] returns on
    both axes a number between SERVO_MIN (0) and SERVO_MAX (270), never NaN
    or an infinity; and a value of the file that lies strictly between the
    bounds is returned as it is. *)
Theorem X6_position_read_is_in_range (file : option jsstring) :
  let st := readServoState file in
  SFleb SERVO_MIN (horizontal st) = true /\ SFleb (horizontal st) SERVO_MAX = true /\
  SFleb SERVO_MIN (vertical st) = true /\ SFleb (vertical st) SERVO_MAX = true /\
  isFinite (horizontal st) = true /\ isFinite (vertical st) = true /\
  (forall content, file = Some content ->
     let h := fst (parsed content) in
     let v := snd (parsed content) in
     (SFltb SERVO_MIN h = true -> SFltb h SERVO_MAX = true -> horizontal st = h) /\
     (SFltb SERVO_MIN v = true -> SFltb v SERVO_MAX = true -> vertical st = v)).
Proof.
  intros st.
  assert (Hfin : forall x, SFleb SERVO_MIN x = true -> SFleb x SERVO_MAX = true ->
                           isFinite x = true).
  { intros [| [] | |]; done. }
  destruct file as [content|]; subst st; cbn [readServoState horizontal vertical].
  - destruct (sanitize_range (parseFloat (part (split 44 (trim content)) 0)))
      as (H1 & H2 & H3).
    destruct (sanitize_range (parseFloat (part (split 44 (trim content)) 1)))
      as (V1 & V2 & V3).
    do 4 (split; [assumption|]). split; [apply Hfin; assumption|].
    split; [apply Hfin; assumption|].
    intros content' [= <-]. unfold parsed. cbn [fst snd]. split; assumption.
  - do 6 (split; [reflexivity|]). intros content [=].
Qed.


(** ** Writing the position and reading it back *)

Import Servo (to_decimal, uint_codes).

Lemma digit_not_space c : isDigit c = true -> isWhiteSpace c = false.
Proof.
  unfold isDigit, isWhiteSpace. intros [H1 H2]%andb_true_iff.
  apply N.leb_le in H1, H2.
  repeat match goal with
  | |- context [(?a =? ?b)%N] => destruct (N.eqb_spec a b); [lia|]
  | |- context [(?a <=? ?b)%N] => destruct (N.leb_spec a b); try lia
  end; reflexivity.
Qed.

(** [parseFloat] of the decimal digits of a natural number is that number. *)
Lemma parseFloat_to_decimal n : parseFloat (to_decimal n) = of_Z (Z.of_N n).
Proof.
  pose proof (LinkFacts.to_decimal_nonempty n) as Hne.
  pose proof (LinkFacts.uint_codes_digits (N.to_uint n)) as Hd.
  pose proof (LinkFacts.decimal_to_decimal n) as Hval.
  unfold to_decimal in *. destruct (uint_codes (N.to_uint n)) as [|c digits] eqn:E; [done|].
  assert (Hc : isDigit c = true) by (inversion Hd; assumption).
  unfold parseFloat. rewrite (LinkFacts.trimStart_plain c digits (digit_not_space c Hc)).
  assert (Hcases : (c = 48 \/ c = 49 \/ c = 50 \/ c = 51 \/ c = 52 \/ c = 53 \/ c = 54 \/
                    c = 55 \/ c = 56 \/ c = 57)%N).
  { unfold isDigit in Hc. apply andb_true_iff in Hc as [H1 H2].
    apply N.leb_le in H1, H2. lia. }
  assert (Hspan : span isDigit (c :: digits) = (c :: digits, [])).
  { rewrite <- (app_nil_r (c :: digits)) at 1. apply LinkFacts.span_all; done. }
  assert (Hvalue : of_decimal false n 0 = of_Z (Z.of_N n)).
  { destruct n as [|q]; [reflexivity|]. unfold of_decimal, of_Z.
    cbn [Z.leb Z.compare cond_Zopp Z.of_N]. rewrite Z.pow_0_r, Z.mul_1_r. reflexivity. }
  assert (Hskip : skip_prefix (str "Infinity") (c :: digits) = None).
  { destruct Hcases as [->|[->|[->|[->|[->|[->|[->|[->|[->| ->]]]]]]]]]; reflexivity. }
  replace (match c :: digits with
           | 43%N :: r => (false, r)
           | 45%N :: r => (true, r)
           | t => (false, t)
           end) with (false, c :: digits)
    by (destruct Hcases as [->|[->|[->|[->|[->|[->|[->|[->|[->| ->]]]]]]]]]; reflexivity).
  rewrite Hskip, Hspan. cbn [app]. rewrite app_nil_r.
  cbn [length exponent_part Z.of_nat]. rewrite Hval. exact Hvalue.
Qed.

Definition same (x y : number) : bool :=
  match x, y with
  | S754_zero s, S754_zero s' => Bool.eqb s s'
  | S754_infinity s, S754_infinity s' => Bool.eqb s s'
  | S754_nan, S754_nan => true
  | S754_finite s m e, S754_finite s' m' e' => Bool.eqb s s' && (m =? m')%positive && (e =? e')%Z
  | _, _ => false
  end.

Lemma same_eq x y : same x y = true -> x = y.
Proof.
  destruct x as [s|s| |s m e], y as [s'|s'| |s' m' e']; cbn; try discriminate;
    try reflexivity.
  - intros ->%Bool.eqb_prop. reflexivity.
  - intros ->%Bool.eqb_prop. reflexivity.
  - intros [[->%Bool.eqb_prop ->%Pos.eqb_eq]%andb_true_iff ->%Z.eqb_eq]%andb_true_iff.
    reflexivity.
Qed.

Lemma below_all (f : N -> bool) (k : nat) :
  forallb f (map N.of_nat (seq 0 k)) = true ->
  forall n, (n < N.of_nat k)%N -> f n = true.
Proof.
  intros Hall n Hn. rewrite forallb_forall in Hall. apply Hall.
  apply in_map_iff. exists (N.to_nat n). split; [apply N2Nat.id|].
  apply in_seq. lia.
Qed.

(** Every whole position of the servo range is kept by [sanitize]. *)
Lemma sanitize_whole n : (n <= 270)%N -> sanitize (of_Z (Z.of_N n)) = of_Z (Z.of_N n).
Proof.
  intros Hn. apply same_eq.
  apply (below_all (λ n, same (sanitize (of_Z (Z.of_N n))) (of_Z (Z.of_N n))) 271);
    [vm_compute; reflexivity | lia].
Qed.

(** [writeServoState(horizontal, vertical)]: the text it writes to
    [SERVO_STATE_FILE], the template literal [`${horizontal},${vertical}\n`],
    with the conversion of a number to a string as [Number_toString]. *)
Section RoundTrip.

Variable Number_toString : number -> jsstring.

Definition writeServoState (horizontal vertical : number) : jsstring :=
  Number_toString horizontal ++ str "," ++ Number_toString vertical ++ [10%N].

(** A whole number of the servo range is written as its decimal digits. *)
Hypothesis toString_whole :
  forall n, (n <= 270)%N -> Number_toString (of_Z (Z.of_N n)) = to_decimal n.

Lemma digits_no_comma l :
  Forall (λ c, isDigit c = true) l -> split 44 l = [l].
Proof.
  induction 1 as [|c l Hc Hl IH]; [reflexivity|]. cbn [split]. rewrite IH.
  replace (c =? 44)%N with false; [reflexivity|].
  unfold isDigit in Hc. apply andb_true_iff in Hc as [H1%N.leb_le _].
  symmetry. apply N.eqb_neq. lia.
Qed.

Lemma digits_comma_digits a b :
  Forall (λ c, isDigit c = true) a -> Forall (λ c, isDigit c = true) b ->
  split 44 (a ++ 44%N :: b) = [a; b].
Proof.
  intros Ha Hb. induction Ha as [|c a Hc Ha IH].
  - cbn [app split N.eqb Pos.eqb]. rewrite (digits_no_comma b Hb). reflexivity.
  - cbn [app split]. rewrite IH.
    replace (c =? 44)%N with false; [reflexivity|].
    unfold isDigit in Hc. apply andb_true_iff in Hc as [H1%N.leb_le _].
    symmetry. apply N.eqb_neq. lia.
Qed.

Lemma trim_digits_line a b :
  a <> [] -> b <> [] ->
  Forall (λ c, isDigit c = true) a -> Forall (λ c, isDigit c = true) b ->
  trim (a ++ 44%N :: b ++ [10%N]) = a ++ 44%N :: b.
Proof.
  intros Hane Hbne Ha Hb.
  destruct a as [|c a]; [done|]. inversion Ha as [|? ? Hc Ha']; subst.
  destruct (exists_last Hbne) as (front & d & ->).
  apply Forall_app in Hb as [_ Hd]. inversion Hd as [|? ? Hd' _]; subst.
  unfold trim. cbn [app]. rewrite (LinkFacts.trimStart_plain c _ (digit_not_space c Hc)).
  unfold trimEnd.
  replace (c :: a ++ 44%N :: (front ++ [d]) ++ [10%N])
    with ((c :: a ++ 44%N :: front) ++ [d] ++ [10%N])
    by (cbn [app]; rewrite <- !app_assoc; reflexivity).
  rewrite !rev_app_distr. cbn [rev app].
  unfold trimStart at 1. cbn [span].
  replace (isWhiteSpace 10) with true by reflexivity.
  rewrite (digit_not_space d Hd').
  destruct (span isWhiteSpace (rev (a ++ 44%N :: front) ++ [c])) as [run rest'].
  unfold snd. cbn [rev]. rewrite rev_app_distr, rev_involutive. cbn [rev app].
  rewrite <- app_assoc. reflexivity.
Qed.

(** X7 — the position file round trip.  A whole position of the servo range
    written by [writeServoState] is the position [readServoState] returns
    from that file: the text is [h,v] and a line feed, [trim] drops the line
    feed, the comma separates exactly two pieces, [parseFloat] reads each one
    back, and the range check keeps it. *)
Theorem X7_position_round_trip (h v : N) :
  (h <= 270)%N -> (v <= 270)%N ->
  let written := writeServoState (of_Z (Z.of_N h)) (of_Z (Z.of_N v)) in
  written = to_decimal h ++ str "," ++ to_decimal v ++ [10%N] /\
  readServoState (Some written) =
    {| horizontal := of_Z (Z.of_N h); vertical := of_Z (Z.of_N v) |}.
Proof using toString_whole.
  intros Hh Hv written. subst written. unfold writeServoState.
  rewrite (toString_whole h Hh), (toString_whole v Hv). split; [reflexivity|].
  pose proof (LinkFacts.uint_codes_digits (N.to_uint h)) as Dh.
  pose proof (LinkFacts.uint_codes_digits (N.to_uint v)) as Dv.
  fold (to_decimal h) in Dh. fold (to_decimal v) in Dv.
  unfold readServoState. change (str ",") with [44%N]. cbn [app].
  rewrite (trim_digits_line _ _ (LinkFacts.to_decimal_nonempty h)
             (LinkFacts.to_decimal_nonempty v) Dh Dv).
  rewrite (digits_comma_digits _ _ Dh Dv). unfold part. cbn [lookup list_lookup default]. unfold id.
  rewrite !parseFloat_to_decimal, !sanitize_whole by assumption. reflexivity.
Qed.

End RoundTrip.

(** The digits of a whole number, for a number that is one. *)
Definition whole_toString (x : number) : jsstring :=
  match x with
  | S754_finite false m e => to_decimal (Z.to_N (Z.shiftl (Z.pos m) e))
  | _ => str "0"
  end.

Lemma whole_toString_digits n :
  (n <= 270)%N -> whole_toString (of_Z (Z.of_N n)) = to_decimal n.
Proof.
  intros Hn.
  pose proof (below_all
    (λ k, bool_decide (whole_toString (of_Z (Z.of_N k)) = to_decimal k)) 271) as Hall.
  assert (Hk : (n < N.of_nat 271)%N) by lia.
  specialize (Hall ltac:(vm_compute; reflexivity) n Hk). cbv beta in Hall.
  exact (bool_decide_eq_true_1 _ Hall).
Qed.

Lemma X7_position_round_trip_witness :
  readServoState (Some (writeServoState whole_toString (of_Z 90) (of_Z 135))) =
    {| horizontal := of_Z 90; vertical := of_Z 135 |} /\
  writeServoState whole_toString (of_Z 90) (of_Z 135) = str "90,135" ++ [10%N].
Proof.
  destruct (X7_position_round_trip whole_toString whole_toString_digits 90 135) as [Ht Hr];
    [lia | lia |].
  split; [exact Hr | exact Ht].
Defined.
End PositionFacts.

(** * The step limit of the P-controller, in the data handler *)

Module StepLimitFacts.
Import JS Num StateFile Track TrackFacts LineFacts.

(** The literal [-0.3]. *)
Definition minus_three_tenths : number := of_decimal true 3 (-1).

(** The controller's arithmetic for an offset of -0.3 at position 100: with
    gain 70 the raw delta is 21, the step limit makes it 10 and the target
    is 110, where the raw delta would give 121.  Clamping to the axis range
    before rounding, as the specification words it, gives the same 110. *)
Lemma step_limit_values c :
  sub c one_half = minus_three_tenths ->
  raw_delta c = of_Z 21 /\ delta c = of_Z 10 /\
  target (of_Z 100) c = of_Z 110 /\
  target_unlimited (of_Z 100) c = of_Z 121 /\
  target_clamp_then_round (of_Z 100) c = of_Z 110.
Proof.
  intros H. unfold target, target_unlimited, target_clamp_then_round, delta, raw_delta.
  rewrite H. vm_compute. repeat split.
Qed.

Section Handler.

Variable JSON_parse : jsstring -> json.

(** C7 — the scenario of the P-controller, in the data handler.  Servo
    tracking is enabled, no move is in flight, and the tracker's output
    completes one line, which reports an active detection.  If the offset
    [cx - 0.5] of the detection is -0.3 and the horizontal axis is at 100,
    the raw delta is 21, the step limit makes it 10, and the handler calls
    [servoCmd] with a SET of the horizontal channel to exactly 110, not to
    the 121 the raw delta would give; the only other command of the chunk is
    the move of the vertical axis, if that axis moves.  The same holds for
    the vertical axis with [cy - 0.5 = -0.3] at position 100. *)
Theorem C7_step_limit_scenario (st : state) (d raw : jsstring) (m : msg) :
  servoTrackingEnabled st = true ->
  motionTrackerMoveInFlight st = false ->
  motionTrackerBuffer st ++ d = raw ++ [10%N] ->
  Forall (λ c, (c =? 10)%N = false) raw ->
  trim raw <> [] ->
  JSON_parse (trim raw) = Obj m ->
  ready m = false -> error m = false -> active m = true ->
  let p := nextPromise st in
  let position := readServoState st in
  let h := target (horizontal position) (cx m) in
  let v := target (vertical position) (cy m) in
  let out := snd (Track.step JSON_parse st (Data d)) in
  (sub (cx m) one_half = minus_three_tenths -> fst (servoFile st) = of_Z 100 ->
     raw_delta (cx m) = of_Z 21 /\ delta (cx m) = of_Z 10 /\
     target_unlimited (horizontal position) (cx m) = of_Z 121 /\
     target_clamp_then_round (horizontal position) (cx m) = of_Z 110 /\
     out = ServoCmd p (SET SERVO_H_CHANNEL (of_Z 110)) ::
           (if strict_ne v (vertical position)
            then [ServoCmd (S p) (SET SERVO_V_CHANNEL v)] else [])) /\
  (sub (cy m) one_half = minus_three_tenths -> snd (servoFile st) = of_Z 100 ->
     raw_delta (cy m) = of_Z 21 /\ delta (cy m) = of_Z 10 /\
     target_unlimited (vertical position) (cy m) = of_Z 121 /\
     target_clamp_then_round (vertical position) (cy m) = of_Z 110 /\
     out = if strict_ne h (horizontal position)
           then [ServoCmd p (SET SERVO_H_CHANNEL h);
                 ServoCmd (S p) (SET SERVO_V_CHANNEL (of_Z 110))]
           else [ServoCmd p (SET SERVO_V_CHANNEL (of_Z 110))]).
Proof.
  intros Hen Hfl Hbuf Hraw Htrim Hparse Hready Herror Hactive p position h v out.
  assert (Hout : strict_ne h (horizontal position) || strict_ne v (vertical position) = true ->
            out = (if strict_ne h (horizontal position)
                   then [ServoCmd p (SET SERVO_H_CHANNEL h)] else []) ++
                  (if strict_ne v (vertical position)
                   then [ServoCmd (if strict_ne h (horizontal position) then S p else p)
                           (SET SERVO_V_CHANNEL v)]
                   else [])).
  { subst out. cbn [Track.step]. unfold on_data. rewrite Hbuf, pop_split.
    destruct (LinkFacts.no_newline_complete raw Hraw) as [-> ->].
    cbn [default Track.process].
    destruct (trim raw) as [|c line] eqn:Ht; [done|].
    rewrite Hparse, Hready, Herror, Hactive. cbn [negb].
    cbn [servoTrackingEnabled motionTrackerMoveInFlight set_tracker].
    rewrite Hen, Hfl. cbn [negb].
    change (readServoState (set_tracker _ _ _ st)) with position.
    fold h v.
    clearbody h v position.
    destruct (strict_ne h (horizontal position)); destruct (strict_ne v (vertical position));
      cbn [orb]; intros Hmove; try discriminate;
      cbn [servoCmd servoSetCmd N.eqb SERVO_V_CHANNEL Pos.eqb fst snd app
           servoTrackingEnabled set_voff set_tracker nextPromise negb];
      rewrite ?Hen; reflexivity. }
  assert (Hsan : sanitize (of_Z 100) = of_Z 100) by (vm_compute; reflexivity).
  split.
  - intros Hoff Hpos.
    assert (Hh : horizontal position = of_Z 100).
    { subst position. unfold readServoState. cbn [horizontal]. rewrite Hpos. exact Hsan. }
    destruct (step_limit_values (cx m) Hoff) as (H1 & H2 & H3 & H4 & H5).
    assert (Hh' : h = of_Z 110) by (subst h; rewrite Hh; exact H3).
    rewrite Hh. do 4 (split; [assumption|]).
    rewrite Hh, Hh' in Hout.
    replace (strict_ne (of_Z 110) (of_Z 100)) with true in Hout
      by (vm_compute; reflexivity).
    exact (Hout eq_refl).
  - intros Hoff Hpos.
    assert (Hv : vertical position = of_Z 100).
    { subst position. unfold readServoState. cbn [vertical]. rewrite Hpos. exact Hsan. }
    destruct (step_limit_values (cy m) Hoff) as (H1 & H2 & H3 & H4 & H5).
    assert (Hv' : v = of_Z 110) by (subst v; rewrite Hv; exact H3).
    rewrite Hv. do 4 (split; [assumption|]).
    rewrite Hv, Hv' in Hout.
    replace (strict_ne (of_Z 110) (of_Z 100)) with true in Hout
      by (vm_compute; reflexivity).
    rewrite Hout by apply orb_true_r.
    destruct (strict_ne h (horizontal position)); reflexivity.
Qed.

End Handler.

(** A tracker line with the detection at (0.2, 0.2), and what [JSON.parse]
    makes of it. *)
Definition scenario_line : jsstring :=
  str "{" ++ quote ++ str "active" ++ quote ++ str ":true," ++
  quote ++ str "cx" ++ quote ++ str ":0.2," ++
  quote ++ str "cy" ++ quote ++ str ":0.2}".

Definition scenario_msg : msg :=
  {| ready := false; error := false; active := true;
     cx := of_decimal false 2 (-1); cy := of_decimal false 2 (-1);
     refine := false |}.

Definition scenario_parse (line : jsstring) : json :=
  if bool_decide (line = scenario_line) then Obj scenario_msg else Invalid.

(** Both axes at 100, servo tracking on, and the tracker reports the
    detection at (0.2, 0.2), with its line cut in two chunks: both axes are
    moved to 110. *)
Lemma C7_step_limit_scenario_witness :
  let history := [Enable; Start; FileWritten (of_Z 100) (of_Z 100);
                  Data (take 10 scenario_line)] in
  let st := fst (run scenario_parse init history) in
  sub (cx scenario_msg) one_half = minus_three_tenths /\
  snd (step scenario_parse st (Data (drop 10 scenario_line ++ [10%N]))) =
    [ServoCmd 0 (SET SERVO_H_CHANNEL (of_Z 110));
     ServoCmd 1 (SET SERVO_V_CHANNEL (of_Z 110))].
Proof.
  intros history st.
  assert (Hoff : sub (cx scenario_msg) one_half = minus_three_tenths)
    by (vm_compute; reflexivity).
  split; [exact Hoff|].
  assert (Hraw : Forall (λ c, (c =? 10)%N = false) scenario_line)
    by (repeat constructor).
  assert (Htrim : trim scenario_line <> []) by (vm_compute; discriminate).
  destruct (C7_step_limit_scenario scenario_parse st
              (drop 10 scenario_line ++ [10%N]) scenario_line scenario_msg
              eq_refl eq_refl eq_refl Hraw Htrim eq_refl eq_refl eq_refl eq_refl)
    as [Hh _].
  destruct (Hh Hoff eq_refl) as (_ & _ & _ & _ & Hout).
  rewrite Hout. vm_compute. reflexivity.
Defined.

End StepLimitFacts.

(** * The tracking controller while servo tracking is off *)

Module SeekFacts.
Import JS Num StateFile Track TrackFacts.

#[local] Arguments written : simpl never.
#[local] Arguments commands : simpl never.

Section Seek.

Variable JSON_parse : jsstring -> json.

#[local] Abbreviation process := (Track.process JSON_parse).
#[local] Abbreviation resume := (Track.resume JSON_parse).
#[local] Abbreviation step := (Track.step JSON_parse).
#[local] Abbreviation run := (Track.run JSON_parse).

(** What a step may do while servo tracking is off. *)
Definition idle_actions (out : list action) : Prop :=
  written out = [] /\ forall p c, (p, c) ∈ commands out -> c = OFF SERVO_V_CHANNEL.

Lemma idle_nil : idle_actions [].
Proof. split; [reflexivity|]. intros p c H. apply elem_of_nil in H. done. Qed.

Lemma idle_app out1 out2 : idle_actions out1 -> idle_actions out2 -> idle_actions (out1 ++ out2).
Proof.
  intros [W1 C1] [W2 C2]. split.
  - rewrite written_app, W1, W2. reflexivity.
  - intros p c. rewrite commands_app. intros [H|H]%elem_of_app; eauto.
Qed.

Lemma resume_disabled fulfilled w st :
  servoTrackingEnabled st = false ->
  servoTrackingEnabled (fst (resume fulfilled w st)) = false /\
  servoFile (fst (resume fulfilled w st)) = servoFile st /\
  idle_actions (snd (resume fulfilled w st)).
Proof.
  intros Hoff. unfold Track.resume. rewrite Hoff.
  set (r1 := if fulfilled then _ else _).
  assert (H1 : fst r1 = st /\ idle_actions (snd r1)).
  { subst r1. destruct fulfilled; cbn [fst snd]; split; try reflexivity.
    - apply idle_nil.
    - split; [reflexivity|]. intros p c H. unfold commands in H. cbn in H.
      apply elem_of_nil in H. done. }
  destruct r1 as [st1 out1]. cbn [fst snd] in H1. destruct H1 as [-> Hout1].
  pose proof (refinement_same (refine_after w) (set_in_flight false st))
    as (F & E & _ & _ & _ & W3 & C3).
  destruct (refinement (refine_after w) (set_in_flight false st)) as [st3 out3].
  cbn [fst snd] in *. cbn [servoTrackingEnabled set_in_flight servoFile] in E, F.
  rewrite process_guarded by (right; congruence). cbn [fst snd].
  split; [congruence|]. split; [exact F|].
  rewrite app_nil_r. apply idle_app; [exact Hout1|].
  split; [exact W3|]. intros p c H. rewrite C3 in H. apply elem_of_nil in H. done.
Qed.

Lemma step_disabled st e :
  servoTrackingEnabled st = false -> e <> Enable ->
  servoTrackingEnabled (fst (step st e)) = false /\
  (servoFile (fst (step st e)) = servoFile st \/ exists h v, e = FileWritten h v) /\
  idle_actions (snd (step st e)).
Proof.
  intros Hoff Hne. destruct e; cbn [Track.step fst snd]; try done.
  - unfold on_data. destruct (pop _) as [incomplete lines].
    rewrite process_guarded by (right; exact Hoff). cbn [fst snd].
    split; [exact Hoff|]. split; [left; reflexivity|apply idle_nil].
  - unfold on_ack. destruct (fulfil promise (handlers st)) as [ws [w|]].
    + destruct (resume_disabled true w (set_handlers ws st) Hoff) as (H1 & H2 & H3).
      split; [exact H1|]. split; [left; exact H2|exact H3].
    + cbn [fst snd]. split; [exact Hoff|]. split; [left; reflexivity|apply idle_nil].
  - unfold on_fail. destruct (reject promise (handlers st)) as [ws [w|]].
    + destruct (resume_disabled false w (set_handlers ws st) Hoff) as (H1 & H2 & H3).
      split; [exact H1|]. split; [left; exact H2|exact H3].
    + cbn [fst snd]. split; [exact Hoff|]. split; [left; reflexivity|apply idle_nil].
  - split; [reflexivity|]. split; [left; reflexivity|apply idle_nil].
  - pose proof (refinement_same true st) as (F & E & _ & _ & _ & W3 & C3).
    split; [congruence|]. split; [left; exact F|].
    split; [exact W3|]. intros p c H. rewrite C3 in H. apply elem_of_nil in H. done.
  - split; [reflexivity|]. split; [left; reflexivity|apply idle_nil].
  - unfold startMotionTracking. destruct (motionTrackerProcess st); cbn [fst snd].
    + split; [exact Hoff|]. split; [left; reflexivity|apply idle_nil].
    + split; [exact Hoff|]. split; [left; reflexivity|].
      split; [reflexivity|]. intros p c H. unfold commands in H. cbn in H.
      apply elem_of_nil in H. done.
  - unfold stopMotionTracking. cbn [fst snd]. split; [exact Hoff|].
    split; [left; reflexivity|].
    destruct (motionTrackerProcess st); [|apply idle_nil].
    split; [reflexivity|]. intros p c H. unfold commands in H. cbn in H.
    apply elem_of_nil in H. done.
  - split; [exact Hoff|]. split; [left; reflexivity|apply idle_nil].
  - unfold on_voff_timer. destruct (servoVOffTimer st); cbn [fst snd].
    + split; [exact Hoff|]. split; [left; reflexivity|].
      split; [reflexivity|]. intros p c H. unfold commands in H. cbn in H.
      apply list_elem_of_singleton in H. congruence.
    + split; [exact Hoff|]. split; [left; reflexivity|apply idle_nil].
  - split; [exact Hoff|]. split; [right; eauto|apply idle_nil].
Qed.

Definition is_enable (e : event) : bool :=
  match e with Enable => true | _ => false end.

Definition is_file_written (e : event) : bool :=
  match e with FileWritten _ _ => true | _ => false end.

(** X8 — with servo tracking off the tracker does not move the camera.  From
    any state in which servo tracking is off, and until it is enabled again,
    whatever the tracker reports and whichever acknowledgments of earlier
    moves arrive: servo tracking stays off, the controller never writes the
    position file, and the only servo command it issues is the power-off of
    the vertical servo when its settle timer fires; the position file changes
    only when another route rewrites it. *)
Theorem X8_no_move_while_servo_tracking_is_off (st : state) (tr : list event) :
  servoTrackingEnabled st = false ->
  forallb (λ e, negb (is_enable e)) tr = true ->
  let after := run st tr in
  servoTrackingEnabled (fst after) = false /\
  written (snd after) = [] /\
  (forall p c, (p, c) ∈ commands (snd after) -> c = OFF SERVO_V_CHANNEL) /\
  (forallb (λ e, negb (is_file_written e)) tr = true ->
   servoFile (fst after) = servoFile st).
Proof.
  intros Hoff Htr. cbn zeta. revert st Hoff.
  induction tr as [|e tr IH]; intros st Hoff; cbn [Track.run].
  { split; [exact Hoff|]. destruct idle_nil as [W C]. auto. }
  cbn [forallb] in Htr. apply andb_true_iff in Htr as [He Htr].
  assert (Hne : e <> Enable) by (intros ->; discriminate).
  destruct (step_disabled st e Hoff Hne) as (H1 & H2 & H3).
  destruct (step st e) as [st1 out1]. cbn [fst snd] in *.
  destruct (IH Htr st1 H1) as (I1 & I2 & I3 & I4).
  destruct (run st1 tr) as [st2 out2]. cbn [fst snd] in *.
  split; [exact I1|].
  destruct (idle_app out1 out2 H3 (conj I2 I3)) as [W C].
  split; [exact W|]. split; [exact C|].
  intros [Hf Hftr]%andb_true_iff. rewrite (I4 Hftr).
  destruct H2 as [H2|(h & v & ->)]; [exact H2|discriminate].
Qed.

End Seek.

(** A move of both axes is awaiting its acknowledgments when servo tracking
    is turned off: the acknowledgments arrive, the tracker reports the target
    again, the settle timer fires, and only the power-off is issued. *)
Lemma X8_no_move_while_servo_tracking_is_off_witness :
  let st := fst (run example_parse init [Enable; Start; Data example_chunk; Disable]) in
  let tr := [Ack 0; Ack 1; Data example_chunk; VOffTimer] in
  servoTrackingEnabled st = false /\
  (exists w, handlers st = [w] /\ awaiting w = [0; 1]) /\
  written (snd (run example_parse st tr)) = [] /\
  commands (snd (run example_parse st tr)) = [(2, OFF SERVO_V_CHANNEL)] /\
  servoFile (fst (run example_parse st tr)) = servoFile st.
Proof.
  intros st tr.
  assert (Hoff : servoTrackingEnabled st = false) by (vm_compute; reflexivity).
  destruct (X8_no_move_while_servo_tracking_is_off example_parse st tr Hoff eq_refl)
    as (_ & W & _ & F).
  split; [exact Hoff|]. split; [eexists; split; vm_compute; reflexivity|].
  split; [exact W|]. split; [vm_compute; reflexivity|]. exact (F eq_refl).
Defined.

End SeekFacts.

(** * Face-detection scans of the tracking controller *)

Module ScanFacts.
Import JS Num StateFile Track TrackFacts.

(** The scans launched among the actions of a run, the scans that completed
    among its events, and whether a scan may be launched in a state. *)
Definition scans (out : list action) : nat :=
  length (omap (λ a, match a with RunFaceTrack => Some a | _ => None end) out).

Definition completions (tr : list event) : nat :=
  length (omap (λ e, match e with FaceTrackDone => Some e | _ => None end) tr).

Definition free (st : state) : nat := if faceTrackRunning st then 0 else 1.

#[local] Arguments scans : simpl never.
#[local] Arguments completions : simpl never.

Section Scan.

Variable JSON_parse : jsstring -> json.

#[local] Abbreviation process := (Track.process JSON_parse).
#[local] Abbreviation resume := (Track.resume JSON_parse).
#[local] Abbreviation step := (Track.step JSON_parse).
#[local] Abbreviation run := (Track.run JSON_parse).

Lemma scans_app out1 out2 : scans (out1 ++ out2) = scans out1 + scans out2.
Proof. unfold scans. rewrite omap_app, length_app. reflexivity. Qed.

Lemma refinement_scans wanted st :
  scans (snd (refinement wanted st)) + free (fst (refinement wanted st)) = free st.
Proof.
  unfold refinement, free.
  destruct wanted, (faceTrackRunning st) eqn:E; cbn [andb negb fst snd];
    rewrite ?E; reflexivity.
Qed.

Lemma process_scans lines st :
  scans (snd (process st lines)) + free (fst (process st lines)) = free st.
Proof.
  revert st. induction lines as [|raw rest IH]; intros st; [reflexivity|].
  pose proof (IH st) as IHst.
  cbn [Track.process]. destruct (trim raw) as [|c line]; [exact IHst|].
  destruct (JSON_parse (c :: line)) as [| |m]; [exact IHst|reflexivity|].
  destruct (ready m); [exact IHst|]. destruct (error m); [exact IHst|].
  destruct (active m); cbn [negb]; [|exact IHst].
  destruct (servoTrackingEnabled st) eqn:Hen; cbn [negb]; [|exact IHst].
  destruct (motionTrackerMoveInFlight st) eqn:Hfl; [exact IHst|].
  clear IHst.
  set (h := target _ (cx m)). set (v := target _ (cy m)). clearbody h v.
  destruct (strict_ne h _); destruct (strict_ne v _);
    cbn [servoCmd servoSetCmd N.eqb SERVO_V_CHANNEL Pos.eqb fst snd app
         servoTrackingEnabled set_voff negb].
  1-3: rewrite ?Hen; reflexivity.
  pose proof (refinement_scans (refine m) st) as R.
  destruct (refinement (refine m) st) as [st3 out3].
  specialize (IH st3).
  destruct (Track.process JSON_parse st3 rest) as [st4 out4]. cbn [fst snd app] in *.
  rewrite scans_app. lia.
Qed.

Lemma resume_scans fulfilled w st :
  scans (snd (resume fulfilled w st)) + free (fst (resume fulfilled w st)) = free st.
Proof.
  unfold Track.resume.
  set (r1 := if fulfilled then _ else _).
  assert (H1 : scans (snd r1) = 0 /\ free (fst r1) = free st).
  { subst r1. destruct fulfilled; [destruct (servoTrackingEnabled st)|]; split; reflexivity. }
  destruct r1 as [st1 out1]. cbn [fst snd] in H1. destruct H1 as [S1 F1].
  pose proof (refinement_scans (refine_after w) (set_in_flight false st1)) as R.
  destruct (refinement (refine_after w) (set_in_flight false st1)) as [st3 out3].
  pose proof (process_scans (remaining w) st3) as P.
  destruct (Track.process JSON_parse st3 (remaining w)) as [st4 out4].
  cbn [fst snd] in *. rewrite !scans_app.
  change (free (set_in_flight false st1)) with (free st1) in R. lia.
Qed.

Lemma step_scans st e :
  scans (snd (step st e)) + free (fst (step st e)) <= completions [e] + free st.
Proof.
  assert (Hzero : forall n, n <= completions [e] + n) by (intros n; lia).
  destruct e; cbn [Track.step];
    unfold on_data, on_ack, on_fail;
    repeat match goal with
    | |- context [let '(_, _) := ?x in _] => destruct x as [? ?]
    | |- context [match ?x with Some _ => _ | None => _ end] => destruct x
    end;
    rewrite ?process_scans, ?resume_scans, ?refinement_scans;
    try exact (Hzero _).
  - unfold free, scans, completions. cbn. destruct (faceTrackRunning st); lia.
  - unfold startMotionTracking. destruct (motionTrackerProcess st); exact (Hzero _).
  - unfold stopMotionTracking. destruct (motionTrackerProcess st); exact (Hzero _).
  - unfold on_voff_timer. destruct (servoVOffTimer st); exact (Hzero _).
Qed.

Lemma completions_cons e tr : completions (e :: tr) = completions [e] + completions tr.
Proof. unfold completions. destruct e; reflexivity. Qed.

Lemma run_scans st tr :
  scans (snd (run st tr)) + free (fst (run st tr)) <= completions tr + free st.
Proof.
  revert st. induction tr as [|e tr IH]; intros st; cbn [Track.run].
  { unfold scans, completions. cbn. lia. }
  pose proof (step_scans st e) as Hs. destruct (step st e) as [st1 out1].
  specialize (IH st1). destruct (run st1 tr) as [st2 out2]. cbn [fst snd] in *.
  rewrite scans_app, completions_cons. lia.
Qed.

(** X9 — face-detection scans never overlap.  Whether a scan is asked for by
    the tracker (a line with [refine]) or by the /face-track route, it is
    launched only when no scan is running: in every run the scans launched
    are at most the scans that completed, plus one if no scan was running at
    the start; and after a launch a scan is running until one completes. *)
Theorem X9_face_scans_never_overlap (st : state) (tr : list event) :
  let after := run st tr in
  scans (snd after) <= completions tr + (if faceTrackRunning st then 0 else 1) /\
  (completions tr = 0 -> 0 < scans (snd after) ->
   faceTrackRunning st = false /\ faceTrackRunning (fst after) = true /\
   scans (snd after) = 1).
Proof.
  cbn zeta. pose proof (run_scans st tr) as H. unfold free in H.
  split; [lia|]. intros Hc Hs.
  destruct (faceTrackRunning st), (faceTrackRunning (fst (run st tr)));
    first [lia | split; [reflexivity|]; split; [reflexivity|lia]].
Qed.

End Scan.

End ScanFacts.

(** * The fire controller while tracking is stopped *)

Module DisarmFacts.
Import JS Num StateFile Fire FireFacts.
Import Track (msg, json(..), command(..), ready, error, active, cx, cy).

#[local] Open Scope N_scope.
#[local] Arguments moved : simpl never.
#[local] Arguments triggers : simpl never.
#[local] Arguments bouts : simpl never.

Definition is_start (te : timed) : bool :=
  match snd te with Start => true | _ => false end.

Definition is_teardown (e : event) : bool :=
  match e with Stop | TrackerError | TrackerExit => true | _ => false end.

Section Disarm.

Variable JSON_parse : jsstring -> json.

#[local] Abbreviation process := (Fire.process JSON_parse).
#[local] Abbreviation step := (Fire.step JSON_parse).
#[local] Abbreviation run := (Fire.run JSON_parse).

Lemma process_inactive lines st :
  motionTrackingActive (ctl st) = false ->
  motionTrackingActive (ctl (fst (process st lines))) = false /\
  triggers (snd (process st lines)) = [].
Proof.
  intros Hoff.
  destruct (keeps_session_process JSON_parse lines st) as (Ha & _).
  destruct (sets_timers_only_process JSON_parse lines st) as [Ht _].
  split; [|exact Ht].
  destruct (motionTrackingActive (ctl (fst (process st lines)))); [|reflexivity].
  rewrite Ha in Hoff by reflexivity. discriminate.
Qed.

Lemma step_inactive st te :
  motionTrackingActive (ctl st) = false -> is_start te = false ->
  motionTrackingActive (ctl (fst (step st te))) = false /\
  triggers (snd (step st te)) = [].
Proof.
  intros Hoff Hns. destruct te as [d e]. unfold Fire.step. cbn [fst snd].
  set (st0 := with_env (λ w, set_now (now w + d) w) st).
  assert (Hoff0 : motionTrackingActive (ctl st0) = false) by exact Hoff.
  clearbody st0.
  destruct e as [| |data|h|f ok|p|p| | |]; [discriminate| | | | | | | | |].
  - destruct (stop_inactive st0) as [Ha _]. destruct (stop_effects st0) as (Ht & _).
    auto.
  - unfold on_data. destruct (pop _) as [incomplete lines].
    apply process_inactive. exact Hoff0.
  - unfold on_timeout. destruct (find _ (timers (env st0))) as [t|]; [|auto].
    destruct (deadline t <=? now (env st0)); [|auto].
    destruct (callback t).
    + unfold settle_callback. cbn [with_ctl with_env ctl motionTrackingActive
        motionCooldown set_settle_timer]. rewrite Hoff0, orb_true_r.
      cbn. auto.
    + cbn. auto.
  - unfold on_fetched. destruct (bool_decide _); [|auto].
    cbn. split; [exact Hoff0|]. unfold triggers. destruct ok; reflexivity.
  - unfold on_ack. destruct (fulfil p (moves (env st0))) as [ms done].
    destruct done; cbn; auto.
  - unfold on_fail. destruct (reject p (moves (env st0))) as [ms failed].
    destruct failed; cbn; auto.
  - unfold on_voff_timer. destruct (servoVOffTimer (env st0)); cbn; auto.
  - destruct (stop_inactive st0) as [Ha _]. destruct (stop_effects st0) as (Ht & _).
    auto.
  - unfold on_exit. destruct (reset_effects st0) as (Ht & _).
    split; [apply reset_inactive|exact Ht].
Qed.

Lemma run_inactive tr : forall st,
  motionTrackingActive (ctl st) = false -> forallb (λ te, negb (is_start te)) tr = true ->
  motionTrackingActive (ctl (fst (run st tr))) = false /\
  triggers (snd (run st tr)) = [].
Proof.
  induction tr as [|te tr IH]; intros st Hoff Htr; cbn [Fire.run]; [auto|].
  cbn [forallb] in Htr. apply andb_true_iff in Htr as [Hte Htr].
  apply negb_true_iff in Hte.
  destruct (step_inactive st te Hoff Hte) as [H1 T1].
  destruct (step st te) as [st1 out1]. cbn [fst snd] in *.
  destruct (IH st1 H1 Htr) as [H2 T2].
  destruct (run st1 tr) as [st2 out2]. cbn [fst snd] in *.
  split; [exact H2|]. rewrite triggers_app, T1, T2. reflexivity.
Qed.

(** X10 — nothing is fired while tracking is stopped.  After
    [stopMotionTracking], after the tracker's error event and after its exit,
    and until the next start, no trigger request is issued and tracking stays
    inactive, whatever happens in between: lines of the stopped tracker that
    still arrive may move the servos and set a settle timer, but the callback
    of that timer gives up when it finds tracking inactive.  The same holds
    from the start of the server until the first start of the tracker. *)
Theorem X10_no_trigger_while_stopped (st : state) (te : timed) (tr : list timed) :
  is_teardown (snd te) = true ->
  forallb (λ te, negb (is_start te)) tr = true ->
  let stopped := step st te in
  triggers (snd stopped) = [] /\
  triggers (snd (run (fst stopped) tr)) = [] /\
  motionTrackingActive (ctl (fst (run (fst stopped) tr))) = false /\
  triggers (snd (run init tr)) = [].
Proof.
  intros Hdown Htr stopped.
  assert (Hstopped : motionTrackingActive (ctl (fst stopped)) = false /\
                     triggers (snd stopped) = []).
  { subst stopped. destruct te as [d e]. unfold Fire.step. cbn [fst snd] in *.
    set (st0 := with_env (λ w, set_now (now w + d) w) st). clearbody st0.
    destruct e; try discriminate.
    - destruct (stop_inactive st0) as [Ha _]. destruct (stop_effects st0) as (Ht & _).
      auto.
    - destruct (stop_inactive st0) as [Ha _]. destruct (stop_effects st0) as (Ht & _).
      auto.
    - unfold on_exit. destruct (reset_effects st0) as (Ht & _).
      split; [apply reset_inactive|exact Ht]. }
  destruct Hstopped as [Hoff Ht]. split; [exact Ht|].
  destruct (run_inactive tr (fst stopped) Hoff Htr) as [Ha Hn].
  split; [exact Hn|]. split; [exact Ha|].
  exact (proj2 (run_inactive tr init eq_refl Htr)).
Qed.

End Disarm.

(** A bout is on when the tracker is stopped.  A line of the stopped tracker
    still arrives: both axes are moved and a settle timer is set; the timer
    runs 300 ms later and nothing is fired. *)
Lemma X10_no_trigger_while_stopped_witness :
  let st := fst (run parse started first_bout) in
  let late := [(10, Data active_chunk); (300, Timeout 1%nat)] in
  let after := run parse (fst (step parse st (5, Stop))) late in
  moved (snd after) <> [] /\ bouts (snd after) = [1%nat] /\
  timers (env (fst after)) = [] /\
  triggers (snd after) = [] /\
  motionTrackingActive (ctl (fst after)) = false.
Proof.
  intros st late after.
  destruct (X10_no_trigger_while_stopped parse st (5, Stop) late eq_refl eq_refl)
    as (_ & Ht & Ha & _).
  split; [vm_compute; discriminate|]. split; [vm_compute; reflexivity|].
  split; [vm_compute; reflexivity|]. split; [exact Ht|exact Ha].
Defined.

End DisarmFacts.

(** * A bout that ends before its settle time *)

Module BoutFacts.
Import JS Num StateFile Fire FireFacts.
Import Track (msg, json(..), command(..), ready, error, active, cx, cy).

#[local] Open Scope N_scope.
#[local] Arguments moved : simpl never.
#[local] Arguments triggers : simpl never.
#[local] Arguments bouts : simpl never.

Definition is_data (te : timed) : bool :=
  match snd te with Data _ => true | _ => false end.

(** Nothing is pending: no timer of the controller and no trigger request. *)
Definition nothing_pending (st : state) : Prop :=
  timers (env st) = [] /\ fetches (env st) = [].

Section Bout.

Variable JSON_parse : jsstring -> json.

#[local] Abbreviation step := (Fire.step JSON_parse).
#[local] Abbreviation run := (Fire.run JSON_parse).

Lemma reset_nothing_pending st :
  nothing_pending st -> nothing_pending (fst (reset st)).
Proof.
  intros [Ht Hf]. unfold nothing_pending, reset, clear_cooldown, clear_settle, clearTimeout.
  cbn. destruct (motionCooldownTimer (ctl st)); cbn;
    destruct (motionSettleTimer (ctl st)); cbn; rewrite ?Ht; auto.
Qed.

Lemma step_nothing_pending st te :
  nothing_pending st -> is_data te = false ->
  nothing_pending (fst (step st te)) /\ triggers (snd (step st te)) = [].
Proof.
  intros Hp Hnd. destruct te as [d e]. unfold Fire.step. cbn [fst snd].
  set (st0 := with_env (λ w, set_now (now w + d) w) st).
  assert (Hp0 : nothing_pending st0) by exact Hp. clearbody st0.
  destruct e as [| |data|h|f ok|p|p| | |]; [| |discriminate| | | | | | |].
  - unfold startMotionTracking. destruct (motionTrackerProcess (ctl st0)); auto.
  - destruct (stop_effects st0) as (Ht & _). split; [|exact Ht].
    unfold stopMotionTracking. pose proof (reset_nothing_pending st0 Hp0) as Hr.
    destruct (reset st0). exact Hr.
  - unfold on_timeout. destruct Hp0 as [Ht Hf]. rewrite Ht. cbn [find].
    split; [split; assumption|reflexivity].
  - unfold on_fetched. destruct Hp0 as [Ht Hf]. rewrite Hf.
    rewrite bool_decide_eq_false_2 by apply not_elem_of_nil. split; [|reflexivity].
    split; assumption.
  - unfold on_ack. destruct (fulfil p (moves (env st0))) as [ms done].
    destruct done; cbn; auto.
  - unfold on_fail. destruct (reject p (moves (env st0))) as [ms failed].
    destruct failed; cbn; auto.
  - unfold on_voff_timer. destruct (servoVOffTimer (env st0)); cbn; auto.
  - destruct (stop_effects st0) as (Ht & _). split; [|exact Ht].
    unfold stopMotionTracking. pose proof (reset_nothing_pending st0 Hp0) as Hr.
    destruct (reset st0). exact Hr.
  - unfold on_exit. destruct (reset_effects st0) as (Ht & _).
    split; [apply reset_nothing_pending; exact Hp0|exact Ht].
Qed.

Lemma run_nothing_pending tr : forall st,
  nothing_pending st -> forallb (λ te, negb (is_data te)) tr = true ->
  nothing_pending (fst (run st tr)) /\ triggers (snd (run st tr)) = [].
Proof.
  induction tr as [|te tr IH]; intros st Hp Htr; cbn [Fire.run]; [auto|].
  cbn [forallb] in Htr. apply andb_true_iff in Htr as [Hte Htr].
  apply negb_true_iff in Hte.
  destruct (step_nothing_pending st te Hp Hte) as [H1 T1].
  destruct (step st te) as [st1 out1]. cbn [fst snd] in *.
  destruct (IH st1 H1 Htr) as [H2 T2].
  destruct (run st1 tr) as [st2 out2]. cbn [fst snd] in *.
  split; [exact H2|]. rewrite triggers_app, T1, T2. reflexivity.
Qed.

(** X11 — a bout that ends before its settle time does not fire.  In a
    tracking session (started with nothing pending, not torn down), whenever
    no bout is on and the cooldown is off, no timer and no trigger request is
    pending: the settle timer of a bout that a not-active line ended was
    cleared with it.  From there nothing is fired, however long one waits and
    whichever timers are said to run, until the tracker reports again. *)
Theorem X11_interrupted_bout_does_not_fire
    (st0 : state) (history tr : list timed) :
  fresh_session st0 ->
  session JSON_parse st0 history = true ->
  let st := fst (run st0 history) in
  motionBoutActive (ctl st) = false ->
  motionCooldown (ctl st) = false ->
  forallb (λ te, negb (is_data te)) tr = true ->
  timers (env st) = [] /\ fetches (env st) = [] /\
  triggers (snd (run st tr)) = [].
Proof.
  intros Hfresh Hall st Hbout Hcool Htr.
  destruct (session_run JSON_parse history st0 (fresh_in_session st0 Hfresh) Hall)
    as [(_ & _ & Hs) _].
  fold st in Hs. rewrite Hcool in Hs. destruct Hs as [Hf Ht].
  assert (Hts : timers (env st) = []).
  { destruct Ht as [Ht|(t & _ & _ & _ & Hb)]; [exact Ht|congruence]. }
  split; [exact Hts|]. split; [exact Hf|].
  exact (proj2 (run_nothing_pending tr st (conj Hts Hf) Htr)).
Qed.

End Bout.

(** One line that is not active, as the tracker prints it. *)
Definition quiet_text : jsstring :=
  str "{" ++ TrackFacts.quote ++ str "active" ++ TrackFacts.quote ++ str ":false}".

Definition quiet_chunk : jsstring := quiet_text ++ [10].

Definition quiet_msg : msg :=
  {| ready := false; error := false; active := false;
     cx := S754_nan; cy := S754_nan; Track.refine := false |}.

Definition parse_both (line : jsstring) : json :=
  if bool_decide (line = quiet_text) then Obj quiet_msg else parse line.

(** A bout starts and sets its settle timer; 100 ms later the tracker reports
    no motion; the timer's time comes and nothing is fired.  Had the bout
    gone on, the same timer would have fired. *)
Lemma X11_interrupted_bout_does_not_fire_witness :
  let history := [(0, Data active_chunk); (100, Data quiet_chunk)] in
  let st := fst (run parse_both started history) in
  bouts (snd (run parse_both started history)) = [0%nat] /\
  ClearTimeout 0 ∈ snd (run parse_both started history) /\
  timers (env st) = [] /\
  triggers (snd (run parse_both st [(200, Timeout 0%nat); (1000, Timeout 0%nat)])) = [] /\
  triggers (snd (run parse_both started [(0, Data active_chunk); (300, Timeout 0%nat)]))
    = [0%nat].
Proof.
  intros history st.
  assert (Hfresh : fresh_session started).
  { split; [reflexivity|]. split; [eexists; reflexivity|]. repeat split. }
  destruct (X11_interrupted_bout_does_not_fire parse_both started history
              [(200, Timeout 0%nat); (1000, Timeout 0%nat)] Hfresh)
    as (Ht & _ & Hn); try (vm_compute; reflexivity).
  split; [vm_compute; reflexivity|].
  split; [vm_compute; apply list_elem_of_In; cbn; tauto|].
  split; [exact Ht|]. split; [exact Hn|]. vm_compute. reflexivity.
Defined.

End BoutFacts.

(** * The camera route: [/camera?action=start|stop|status] *)

Module Camera.
Import JS Lifecycle.

#[local] Open Scope N_scope.

Inductive reply :=
| AlreadyRunning (pid : option nat)      (* "Camera already running (PID ...)" *)
| Started (pid : nat)                    (* "Camera started (PID ...)" *)
| FailedToStart                          (* status 500 *)
| NotRunning                             (* "Camera not running" *)
| Stopped (pid : option nat)             (* "Camera stopped (PID ...)" *)
| StatusRunning (pid : option nat) (quality : jsstring)
| StatusUnlabelled                       (* running, and currentQuality is no preset:
                                            the text cannot name the quality *)
| StatusStopped.

Inductive action :=
| Stream (a : Lifecycle.action)          (* an action the stream route has too *)
| ExecKillOrPkill (pid : option nat)     (* exec of the shell's kill on the pid read,
                                            or else of pkill -f "rpicam-vid" *)
| Send (req : nat) (r : reply)
| TypeError (req : nat).                 (* a property of null or undefined is read *)

(** What a [/camera] request waits for: the 500 ms timer of the start, or
    the callback of [exec] of the stop, which holds the pid read. *)
Inductive waiting := StartCheck | KillCallback (pid : option nat).

Record state := {
  life : Lifecycle.state;        (* the variables shared with the stream route *)
  pending : gmap nat waiting;
  nextCall : nat
}.

Definition init : state := {| life := Lifecycle.init; pending := ∅; nextCall := 0 |}.

(** The start branch after its test: [currentQuality = quality], the
    multiplexer is reset, the process is spawned with the handlers of
    [broadcastFrame] and of its exit, and its pid is written.  As in
    [startCameraStream], the spawn is taken to create the process. *)
Definition start (quality : jsstring) (l : Lifecycle.state)
  : Lifecycle.state * list Lifecycle.action :=
  let pid := nextPid l in
  ({| cameraProcess := Some pid; currentQuality := quality;
      uiStreamClients := uiStreamClients l; cameraIdleTimer := cameraIdleTimer l;
      mux := Mux.clear (mux l); pidFile := Some pid; alive := alive l ++ [pid];
      timers := timers l; requests := requests l; listeners := listeners l;
      nextPid := S pid; nextTimer := nextTimer l; nextReq := nextReq l |},
   [Spawn pid (if has_preset quality then quality else str "low")]).

(** The 500 ms timer of the start:
    [if (isProcessRunning(cameraProcess.pid)) ... else ...], where
    [cameraProcess] is null if the process has exited meanwhile. *)
Definition on_start_timer (req : nat) (st : state) : state * list action :=
  match pending st !! req with
  | Some StartCheck =>
      let st1 := {| life := life st; pending := delete req (pending st);
                    nextCall := nextCall st |} in
      match cameraProcess (life st) with
      | None => (st1, [TypeError req])
      | Some p =>
          if isProcessRunning (Some p) (life st) then (st1, [Send req (Started p)])
          else (st1, [Send req FailedToStart])
      end
  | _ => (st, [])
  end.

(** The callback of [exec] of the stop: [clearCameraPid()] and the reply. *)
Definition on_kill_done (req : nat) (st : state) : state * list action :=
  match pending st !! req with
  | Some (KillCallback pid) =>
      ({| life := set_pidFile None (life st); pending := delete req (pending st);
          nextCall := nextCall st |},
       [Send req (Stopped pid)])
  | _ => (st, [])
  end.

Section Route.

(** [String.prototype.toLowerCase] of the platform. *)
Variable toLowerCase : jsstring -> jsstring.

(** [String(req.query.action || "status").toLowerCase()] and
    [String(req.query.quality || "low").toLowerCase()], for a query whose
    values, when present, are strings. *)
Definition action_of (a : option jsstring) : jsstring :=
  toLowerCase (or_else (default [] a) (str "status")).

Definition quality_of (q : option jsstring) : jsstring :=
  toLowerCase (or_else (default [] q) (str "low")).

(** [app.get("/camera", (req, res) => ...)] up to its return. *)
Definition on_camera (a q : option jsstring) (st : state) : state * list action :=
  let req := nextCall st in
  let l := life st in
  let pid := readCameraPid l in
  let running := isProcessRunning pid l in
  let action := action_of a in
  if bool_decide (action = str "start") then
    if running then
      ({| life := l; pending := pending st; nextCall := S req |},
       [Send req (AlreadyRunning pid)])
    else
      let '(l1, out) := start (quality_of q) l in
      ({| life := l1; pending := <[req := StartCheck]> (pending st);
          nextCall := S req |},
       map Stream out)
  else if bool_decide (action = str "stop") then
    if negb running then
      ({| life := set_pidFile None l; pending := pending st; nextCall := S req |},
       [Send req NotRunning])
    else
      let kill := match cameraProcess l with Some p => [Stream (Kill p)] | None => [] end in
      ({| life := set_process None l;
          pending := <[req := KillCallback pid]> (pending st); nextCall := S req |},
       kill ++ [ExecKillOrPkill pid])
  else
    ({| life := l; pending := pending st; nextCall := S req |},
     [Send req
        (if running then
           (* QUALITY_PRESETS[currentQuality].label *)
           if has_preset (currentQuality l) then StatusRunning pid (currentQuality l)
           else StatusUnlabelled
         else StatusStopped)]).

Inductive event :=
| Life (e : Lifecycle.event)                     (* the stream route, the camera
                                                    process and the viewers *)
| CameraRequest (action quality : option jsstring)   (* GET /camera *)
| StartTimer (req : nat)
| KillDone (req : nat).

Definition step (st : state) (e : event) : state * list action :=
  match e with
  | Life e =>
      let '(l, out) := Lifecycle.step toLowerCase (life st) e in
      ({| life := l; pending := pending st; nextCall := nextCall st |}, map Stream out)
  | CameraRequest a q => on_camera a q st
  | StartTimer req => on_start_timer req st
  | KillDone req => on_kill_done req st
  end.

Fixpoint run (st : state) (tr : list event) : state * list action :=
  match tr with
  | [] => (st, [])
  | e :: tr' =>
      let '(st1, out1) := step st e in
      let '(st2, out2) := run st1 tr' in
      (st2, out1 ++ out2)
  end.


End Route.




End Camera.

(** * The camera without a UI viewer *)

Module StandbyFacts.
Import JS Lifecycle LifecycleFacts.

#[local] Open Scope N_scope.






Section Standby.

Variable toLowerCase : jsstring -> jsstring.

#[local] Abbreviation step := (Lifecycle.step toLowerCase).
#[local] Abbreviation run := (Lifecycle.run toLowerCase).







(** ** With the [/camera] route *)











End Standby.


End StandbyFacts.

(** * The delayed power-off of the vertical servo ([servoSetCmd]) *)

Module Settle.
Import JS Num.
Import Track (command(..), SERVO_H_CHANNEL, SERVO_V_CHANNEL).

#[local] Open Scope N_scope.

Definition SERVO_V_SETTLE_MS : N := 500.

(** The clock (in ms), [servoVOffTimer.ref], and the timers that are set and
    neither cleared nor run, each with the time before which it does not
    run. *)
Record state := {
  now : N;
  ref : option nat;
  timers : list (nat * N);
  nextTimer : nat
}.

Definition init : state := {| now := 0; ref := None; timers := []; nextTimer := 0 |}.

Inductive action :=
| SetTimeout (h : nat) (ms : N)
| ClearTimeout (h : nat)
| ServoCmd (c : command).       (* servoCmd(...) with an OFF command *)

(** [function servoSetCmd(channel, angle)]: the command text it returns,
    and for the vertical channel the timer it sets after clearing the one
    that was pending. *)
Definition servoSetCmd (channel : N) (angle : number) (st : state)
  : state * list action * command :=
  if negb (channel =? SERVO_V_CHANNEL) then (st, [], SET channel angle)
  else
    let '(live, out1) :=
      match ref st with
      | Some h => (filter (λ t, fst t ≠ h) (timers st), [ClearTimeout h])
      | None => (timers st, [])
      end in
    let h := nextTimer st in
    ({| now := now st; ref := Some h;
        timers := live ++ [(h, now st + SERVO_V_SETTLE_MS)];
        nextTimer := S h |},
     out1 ++ [SetTimeout h SERVO_V_SETTLE_MS], SET channel angle).

(** The timer with handle [h] runs, if it is set and its time has come:
    [servoVOffTimer.ref = null; servoCmd(`OFF ${SERVO_V_CHANNEL}`)]. *)
Definition on_timeout (h : nat) (st : state) : state * list action :=
  match find (λ t, Nat.eqb (fst t) h) (timers st) with
  | Some t =>
      if snd t <=? now st then
        ({| now := now st; ref := None;
            timers := filter (λ t, fst t ≠ h) (timers st);
            nextTimer := nextTimer st |},
         [ServoCmd (OFF SERVO_V_CHANNEL)])
      else (st, [])
  | None => (st, [])
  end.

(** [/servo?dir=off]: [servoCmd(`OFF ${SERVO_H_CHANNEL}`)] and
    [servoCmd(`OFF ${SERVO_V_CHANNEL}`)], called at once; the timer of
    [servoSetCmd] is not looked at. *)
Definition on_power_off (st : state) : state * list action :=
  (st, [ServoCmd (OFF SERVO_H_CHANNEL); ServoCmd (OFF SERVO_V_CHANNEL)]).

Inductive event :=
| Call (channel : N) (angle : number)   (* a caller builds a SET command *)
| Timeout (h : nat)                     (* the timer with this handle is due *)
| PowerOff.                             (* GET /servo?dir=off *)

(** An event with the time, in ms, that passed since the event before. *)
Definition timed : Type := N * event.

Definition step (st : state) (te : timed) : state * list action :=
  let st := {| now := now st + fst te; ref := ref st; timers := timers st;
               nextTimer := nextTimer st |} in
  match snd te with
  | Call channel angle => let '(st1, out, _) := servoSetCmd channel angle st in (st1, out)
  | Timeout h => on_timeout h st
  | PowerOff => on_power_off st
  end.

Fixpoint run (st : state) (tr : list timed) : state * list action :=
  match tr with
  | [] => (st, [])
  | te :: tr' =>
      let '(st1, out1) := step st te in
      let '(st2, out2) := run st1 tr' in
      (st2, out1 ++ out2)
  end.

(** The time a run takes, and the time, from its start, of its last call
    for the vertical channel. *)
Definition elapsed (tr : list timed) : N := foldr (λ te acc, fst te + acc) 0 tr.

Definition is_vertical (e : event) : bool :=
  match e with Call channel _ => channel =? SERVO_V_CHANNEL | _ => false end.

Fixpoint last_vertical (start : N) (tr : list timed) : option N :=
  match tr with
  | [] => None
  | te :: tr' =>
      match last_vertical (start + fst te) tr' with
      | Some t => Some t
      | None => if is_vertical (snd te) then Some (start + fst te) else None
      end
  end.

End Settle.

Module SettleFacts.
Import JS Num Settle.
Import Track (command(..), SERVO_H_CHANNEL, SERVO_V_CHANNEL).

#[local] Open Scope N_scope.

(** The pending timer, if any, is the one recorded in [servoVOffTimer.ref],
    and it is due [SERVO_V_SETTLE_MS] after the last call for the vertical
    channel, which was at [last]. *)
Definition settle_inv (st : state) (last : option N) : Prop :=
  match ref st with
  | Some h => exists t0, last = Some t0 /\ timers st = [(h, t0 + SERVO_V_SETTLE_MS)] /\
                         t0 <= now st
  | None => timers st = []
  end.

Definition latest (last : option N) (start : N) (tr : list timed) : option N :=
  match last_vertical start tr with Some t => Some t | None => last end.

Lemma filter_own (h : nat) (d : N) : filter (λ t : nat * N, fst t ≠ h) [(h, d)] = [].
Proof. rewrite filter_cons. cbn. rewrite decide_False by (intros H; apply H; reflexivity). reflexivity. Qed.

Lemma settle_step st last te :
  settle_inv st last ->
  let st' := fst (step st te) in
  let out := snd (step st te) in
  settle_inv st' (if is_vertical (snd te) then Some (now st + fst te) else last) /\
  now st' = now st + fst te /\
  (ServoCmd (OFF SERVO_V_CHANNEL) ∈ out ->
   (exists h t0, snd te = Timeout h /\ ref st = Some h /\ last = Some t0 /\
                 t0 + SERVO_V_SETTLE_MS <= now st + fst te /\
                 ref st' = None /\ timers st' = [] /\
                 out = [ServoCmd (OFF SERVO_V_CHANNEL)]) \/
   (snd te = PowerOff /\ ref st' = ref st /\ timers st' = timers st /\
    out = [ServoCmd (OFF SERVO_H_CHANNEL); ServoCmd (OFF SERVO_V_CHANNEL)])).
Proof.
  intros Hinv. destruct te as [d [channel angle|h|]]; unfold step; cbn [fst snd is_vertical].
  - unfold servoSetCmd. cbn [now ref timers nextTimer].
    destruct (channel =? SERVO_V_CHANNEL) eqn:Hv; cbn [negb fst snd].
    + unfold settle_inv in *. destruct (ref st) as [h0|]; cbn [fst snd ref timers now].
      * destruct Hinv as (t0 & _ & -> & _). rewrite filter_own. cbn [app].
        split; [eexists; split; [reflexivity|]; split; [reflexivity|lia]|].
        split; [reflexivity|].
        intros [H|H]%elem_of_cons; [discriminate|].
        apply list_elem_of_singleton in H. discriminate.
      * rewrite Hinv. cbn [app].
        split; [eexists; split; [reflexivity|]; split; [reflexivity|lia]|].
        split; [reflexivity|].
        intros H. apply list_elem_of_singleton in H. discriminate.
    + split; [|split; [reflexivity|intros H; apply elem_of_nil in H; done]].
      unfold settle_inv in *. cbn [ref timers now].
      destruct (ref st) as [h0|]; [|exact Hinv].
      destruct Hinv as (t0 & H1 & H2 & H3). exists t0. split; [exact H1|].
      split; [exact H2|lia].
  - unfold on_timeout. cbn [now ref timers nextTimer].
    unfold settle_inv in Hinv. destruct (ref st) as [h0|] eqn:Href.
    + destruct Hinv as (t0 & Hlast & Ht & Hle). rewrite Ht. cbn [find fst snd now].
      destruct (Nat.eqb h0 h) eqn:Hh.
      * apply Nat.eqb_eq in Hh. subst h0. cbn [snd].
        destruct (t0 + SERVO_V_SETTLE_MS <=? now st + d) eqn:Hdue; cbn [fst snd].
        -- apply N.leb_le in Hdue. rewrite filter_own.
           split; [reflexivity|]. split; [reflexivity|].
           intros _. left. exists h, t0. auto 10.
        -- split; [|split; [reflexivity|intros H; apply elem_of_nil in H; done]].
           unfold settle_inv. cbn [ref timers now]. rewrite ?Href.
           exists t0. split; [exact Hlast|]. split; [reflexivity|lia].
      * cbn [fst snd].
        split; [|split; [reflexivity|intros H; apply elem_of_nil in H; done]].
        unfold settle_inv. cbn [ref timers now]. rewrite ?Href.
        exists t0. split; [exact Hlast|]. split; [reflexivity|lia].
    + rewrite Hinv. cbn [find fst snd].
      split; [|split; [reflexivity|intros H; apply elem_of_nil in H; done]].
      unfold settle_inv. cbn [ref timers]. rewrite ?Href. reflexivity.
  - unfold on_power_off. cbn [fst snd now ref timers].
    split; [|split; [reflexivity|intros _; right; auto]].
    unfold settle_inv in *. cbn [ref timers now].
    destruct (ref st) as [h0|]; [|exact Hinv].
    destruct Hinv as (t0 & H1 & H2 & H3). exists t0. split; [exact H1|].
    split; [exact H2|lia].
Qed.

Lemma settle_run tr : forall st last,
  settle_inv st last ->
  settle_inv (fst (run st tr)) (latest last (now st) tr) /\
  now (fst (run st tr)) = now st + elapsed tr.
Proof.
  induction tr as [|te tr IH]; intros st last Hinv; cbn [run elapsed foldr].
  { unfold latest. cbn. split; [exact Hinv|lia]. }
  destruct (settle_step st last te Hinv) as (H1 & Hn1 & _).
  destruct (step st te) as [st1 out1]. cbn [fst snd] in *.
  destruct (IH st1 _ H1) as (H2 & Hn2).
  destruct (run st1 tr) as [st2 out2]. cbn [fst snd] in *.
  fold (elapsed tr). split; [|lia].
  unfold latest in *. cbn [last_vertical]. rewrite Hn1 in H2.
  destruct (last_vertical (now st + fst te) tr); [exact H2|].
  destruct (is_vertical (snd te)); exact H2.
Qed.

(** X13 — the vertical servo is powered off one settle time after its last
    move.  At any moment at most one power-off timer is pending.  The command
    [OFF] for the vertical channel is sent in two ways only.  One is that
    timer: it sends the command no earlier than [SERVO_V_SETTLE_MS] after the
    most recent call of [servoSetCmd] for the vertical channel, and then no
    timer is left; a move that comes before the settle time has passed takes
    the place of the pending power-off instead of adding one.  The other is
    the request [/servo?dir=off], which powers both servos off at once, at
    any time, and leaves a pending timer as it is, so that the timer's
    command follows later.  While a timer is pending it sends the command as
    soon as it runs after the settle time, and nothing runs before. *)
Theorem X13_vertical_off_follows_last_move (history : list timed) (te : timed) :
  let st := fst (run init history) in
  let time := elapsed history + fst te in
  (length (timers st) <= 1)%nat /\
  (ServoCmd (OFF SERVO_V_CHANNEL) ∈ snd (step st te) ->
   (exists h t0, snd te = Timeout h /\ last_vertical 0 history = Some t0 /\
                 t0 + SERVO_V_SETTLE_MS <= time /\
                 timers (fst (step st te)) = [] /\
                 snd (step st te) = [ServoCmd (OFF SERVO_V_CHANNEL)]) \/
   (snd te = PowerOff /\
    ref (fst (step st te)) = ref st /\ timers (fst (step st te)) = timers st /\
    snd (step st te) =
      [ServoCmd (OFF SERVO_H_CHANNEL); ServoCmd (OFF SERVO_V_CHANNEL)])) /\
  (forall d, snd (step st (d, PowerOff)) =
     [ServoCmd (OFF SERVO_H_CHANNEL); ServoCmd (OFF SERVO_V_CHANNEL)]) /\
  (timers st <> [] ->
   exists h t0, ref st = Some h /\ last_vertical 0 history = Some t0 /\
     (t0 + SERVO_V_SETTLE_MS <= time ->
      snd (step st (fst te, Timeout h)) = [ServoCmd (OFF SERVO_V_CHANNEL)]) /\
     (time < t0 + SERVO_V_SETTLE_MS ->
      forall h', snd (step st (fst te, Timeout h')) = [])).
Proof.
  intros st time.
  assert (Hinit : settle_inv init None) by reflexivity.
  destruct (settle_run history init None Hinit) as [Hinv Hnow].
  fold st in Hinv, Hnow. cbn [now init] in Hnow, Hinv. rewrite N.add_0_l in Hnow.
  assert (Hlast : latest None 0 history = last_vertical 0 history).
  { unfold latest. destruct (last_vertical 0 history); reflexivity. }
  rewrite Hlast in Hinv. clear Hlast.
  split; [|split; [|split]].
  - unfold settle_inv in Hinv. destruct (ref st).
    + destruct Hinv as (t0 & _ & -> & _). cbn. lia.
    + rewrite Hinv. cbn. lia.
  - intros Hoff.
    destruct (settle_step st _ te Hinv) as (_ & _ & H).
    destruct (H Hoff) as [(h & t0 & He & _ & Hl & Hdue & _ & Ht & Hout)|Hp].
    + left. exists h, t0. subst time. rewrite <- Hnow. auto 10.
    + right. exact Hp.
  - intros d. reflexivity.
  - intros Hne. unfold settle_inv in Hinv. destruct (ref st) as [h|] eqn:Href; [|done].
    destruct Hinv as (t0 & Hl & Ht & Hle). exists h, t0.
    split; [reflexivity|]. split; [exact Hl|].
    unfold step, on_timeout. cbn [fst snd now timers]. rewrite Ht. cbn [find fst snd].
    subst time. rewrite <- Hnow. split.
    + intros Hdue. rewrite Nat.eqb_refl. cbn [snd].
      apply N.leb_le in Hdue. rewrite Hdue. reflexivity.
    + intros Hearly h'. destruct (Nat.eqb h h'); [|reflexivity].
      apply N.leb_gt in Hearly. cbn [snd]. rewrite Hearly. reflexivity.
Qed.

End SettleFacts.

(** * Arithmetic that does not produce NaN *)

Module FiniteFacts.
Import JS Num NumFacts.

#[local] Open Scope Z_scope.

Lemma shr_1_nonneg mrs : 0 <= shr_m mrs -> 0 <= shr_m (shr_1 mrs).
Proof.
  destruct mrs as [m r s]. cbn [shr_m]. intros Hm.
  destruct m as [|[p|p|]|p]; cbn; lia.
Qed.

Lemma iter_shr_1_nonneg p : forall mrs,
  0 <= shr_m mrs -> 0 <= shr_m (SpecFloat.iter_pos shr_1 p mrs).
Proof.
  induction p as [p IH|p IH|]; intros mrs Hm; cbn [SpecFloat.iter_pos].
  - apply IH, IH, shr_1_nonneg, Hm.
  - apply IH, IH, Hm.
  - apply shr_1_nonneg, Hm.
Qed.

Lemma shr_fexp_nonneg m e l :
  0 <= m -> 0 <= shr_m (fst (shr_fexp prec emax m e l)).
Proof.
  intros Hm. unfold shr_fexp, shr.
  assert (H0 : 0 <= shr_m (shr_record_of_loc m l)) by (destruct l as [|[]]; exact Hm).
  destruct (fexp prec emax (Zdigits2 m + e) - e) as [|p|p]; cbn [fst];
    [exact H0|apply iter_shr_1_nonneg; exact H0|exact H0].
Qed.

Lemma round_nearest_even_nonneg m l : 0 <= m -> 0 <= round_nearest_even m l.
Proof.
  intros Hm. destruct l as [|[]]; cbn [round_nearest_even]; try lia.
  destruct (Z.even m); lia.
Qed.

(** Rounding a non-negative mantissa gives a zero, a finite number or an
    infinity. *)
Lemma binary_round_aux_not_nan s m e l :
  0 <= m -> binary_round_aux prec emax s m e l <> S754_nan.
Proof.
  intros Hm. unfold binary_round_aux.
  pose proof (shr_fexp_nonneg m e l Hm) as H1.
  destruct (shr_fexp prec emax m e l) as [mrs1 e1]. cbn [fst] in H1.
  pose proof (shr_fexp_nonneg _ e1 loc_Exact
                (round_nearest_even_nonneg (shr_m mrs1) (loc_of_shr_record mrs1) H1)) as H2.
  destruct (shr_fexp prec emax _ e1 loc_Exact) as [mrs2 e2]. cbn [fst] in H2.
  destruct (shr_m mrs2) as [|p|p]; [discriminate| |lia].
  destruct (e2 <=? emax - prec); discriminate.
Qed.

Lemma binary_round_not_nan s m e : binary_round prec emax s m e <> S754_nan.
Proof.
  unfold binary_round. destruct (shl_align _ _ _) as [mz ez].
  apply binary_round_aux_not_nan. lia.
Qed.

Lemma binary_normalize_not_nan m e s : binary_normalize prec emax m e s <> S754_nan.
Proof.
  destruct m; cbn [binary_normalize]; [discriminate|apply binary_round_not_nan..].
Qed.

Lemma add_not_nan x y : isFinite x = true -> y <> S754_nan -> add x y <> S754_nan.
Proof.
  unfold add. destruct x as [sx|sx| |sx mx ex]; try discriminate; intros _ Hy;
    destruct y as [sy|sy| |sy my ey]; try done; cbn [SFadd].
  - destruct sx, sy; discriminate.
  - apply binary_normalize_not_nan.
Qed.

Lemma sub_not_nan x y : x <> S754_nan -> isFinite y = true -> sub x y <> S754_nan.
Proof.
  unfold sub. intros Hx. destruct y as [sy|sy| |sy my ey]; try discriminate; intros _;
    destruct x as [sx|sx| |sx mx ex]; try done; cbn [SFsub].
  - destruct sx, sy; discriminate.
  - apply binary_normalize_not_nan.
Qed.

Lemma mul_not_nan x y s m e :
  x <> S754_nan -> y = S754_finite s m e -> mul x y <> S754_nan.
Proof.
  unfold mul. intros Hx ->. destruct x as [sx|sx| |sx mx ex]; try done; cbn [SFmul].
  apply binary_round_aux_not_nan. lia.
Qed.

Lemma neg_not_nan x : x <> S754_nan -> neg x <> S754_nan.
Proof. destruct x; done. Qed.

Lemma Math_round_not_nan x : x <> S754_nan -> Math_round x <> S754_nan.
Proof.
  destruct x as [s|s| |s m e]; try done. intros _. cbn [Math_round].
  destruct (0 <=? e); [discriminate|apply binary_normalize_not_nan].
Qed.

End FiniteFacts.

(** * The targets of the tracking controller *)

Module RangeFacts.
Import JS Num StateFile NumFacts FiniteFacts Track TrackFacts.

#[local] Arguments written : simpl never.
#[local] Arguments commands : simpl never.

(** A position of the mechanical range. *)
Definition position_ok (x : number) : Prop :=
  SFleb SERVO_MIN x = true /\ SFleb x SERVO_MAX = true.

Lemma between_finite lo hi x :
  isFinite lo = true -> isFinite hi = true ->
  SFleb lo x = true -> SFleb x hi = true -> isFinite x = true.
Proof.
  destruct lo as [| | |]; try discriminate; destruct hi as [| | |]; try discriminate;
    destruct x as [|[]| |]; done.
Qed.

Lemma sanitize_ok x : position_ok (sanitize x) /\ isFinite (sanitize x) = true.
Proof.
  destruct (PositionFacts.sanitize_range x) as (H1 & H2 & _).
  split; [split; assumption|].
  exact (between_finite SERVO_MIN SERVO_MAX _ eq_refl eq_refl H1 H2).
Qed.

(** The step is limited to [TRACK_MAX_STEP] either way, for every offset
    that is a number. *)
Lemma delta_limited c :
  c <> S754_nan ->
  SFleb (neg TRACK_MAX_STEP) (delta c) = true /\
  SFleb (delta c) TRACK_MAX_STEP = true /\ isFinite (delta c) = true.
Proof.
  intros Hc.
  assert (Hraw : raw_delta c <> S754_nan).
  { unfold raw_delta. eapply mul_not_nan; [|vm_compute; reflexivity].
    apply neg_not_nan, sub_not_nan; [exact Hc|reflexivity]. }
  destruct (clamp_between (neg TRACK_MAX_STEP) TRACK_MAX_STEP (raw_delta c) eq_refl Hraw)
    as (H1 & H2 & _).
  split; [exact H1|]. split; [exact H2|].
  exact (between_finite (neg TRACK_MAX_STEP) TRACK_MAX_STEP _ eq_refl eq_refl H1 H2).
Qed.

(** The target is a position of the range, for every position read and
    every offset that is a number. *)
Lemma target_ok position c :
  isFinite position = true -> c <> S754_nan -> position_ok (target position c).
Proof.
  intros Hp Hc. destruct (delta_limited c Hc) as (_ & _ & Hd).
  assert (Hsum : Math_round (add position (delta c)) <> S754_nan).
  { apply Math_round_not_nan, add_not_nan; [exact Hp|].
    intros E. rewrite E in Hd. discriminate. }
  destruct (clamp_between SERVO_MIN SERVO_MAX _ eq_refl Hsum) as (H1 & H2 & _).
  split; assumption.
Qed.

(** An offset that is not a number makes the target not a number. *)
Lemma target_nan position : target position S754_nan = S754_nan.
Proof. unfold target, delta, raw_delta. destruct position; reflexivity. Qed.

Definition command_ok (c : command) : Prop :=
  match c with SET _ angle => position_ok angle | OFF _ => True end.

Definition action_ok (a : action) : Prop :=
  match a with
  | ServoCmd _ c => command_ok c
  | WriteServoState h v => position_ok h /\ position_ok v
  | _ => True
  end.

Definition handler_ok (w : suspended) : Prop :=
  position_ok (newH w) /\ position_ok (newV w).

(** The targets of the waiting moves are positions, and so was everything
    sent and written. *)
Definition range_inv (st : state) (out : list action) : Prop :=
  Forall handler_ok (handlers st) /\ Forall action_ok out.

Section Range.

Variable JSON_parse : jsstring -> json.

(** The offsets of a line that parses are numbers. *)
Hypothesis parse_numbers :
  forall line m, JSON_parse line = Obj m -> cx m <> S754_nan /\ cy m <> S754_nan.

#[local] Abbreviation process := (Track.process JSON_parse).
#[local] Abbreviation resume := (Track.resume JSON_parse).
#[local] Abbreviation step := (Track.step JSON_parse).
#[local] Abbreviation run := (Track.run JSON_parse).

Lemma refinement_ok wanted st :
  handlers (fst (refinement wanted st)) = handlers st /\
  Forall action_ok (snd (refinement wanted st)).
Proof.
  unfold refinement. destruct (wanted && negb (faceTrackRunning st)); cbn [fst snd].
  - split; [reflexivity|]. repeat constructor.
  - split; [reflexivity|constructor].
Qed.

Lemma process_ok lines : forall st,
  Forall handler_ok (handlers st) ->
  range_inv (fst (process st lines)) (snd (process st lines)).
Proof using parse_numbers.
  induction lines as [|raw rest IH]; intros st Hst.
  { split; [exact Hst|constructor]. }
  pose proof (IH st Hst) as IHst.
  cbn [Track.process]. destruct (trim raw) as [|c line]; [exact IHst|].
  destruct (JSON_parse (c :: line)) as [| |m] eqn:Hm; [exact IHst| |].
  { split; [exact Hst|constructor]. }
  destruct (parse_numbers _ _ Hm) as [Hcx Hcy].
  destruct (ready m); [exact IHst|]. destruct (error m); [exact IHst|].
  destruct (active m); cbn [negb]; [|exact IHst].
  destruct (servoTrackingEnabled st) eqn:Hen; cbn [negb]; [|exact IHst].
  destruct (motionTrackerMoveInFlight st) eqn:Hfl; [exact IHst|].
  clear IHst.
  pose proof (target_ok (horizontal (readServoState st)) (cx m)
                (proj2 (sanitize_ok _)) Hcx) as Hh.
  pose proof (target_ok (vertical (readServoState st)) (cy m)
                (proj2 (sanitize_ok _)) Hcy) as Hv.
  set (h := target _ (cx m)) in *. set (v := target _ (cy m)) in *. clearbody h v.
  destruct (strict_ne h _); destruct (strict_ne v _);
    cbn [servoCmd servoSetCmd N.eqb SERVO_V_CHANNEL Pos.eqb fst snd app
         servoTrackingEnabled set_voff negb].
  1-3: rewrite ?Hen; cbn [negb fst snd handlers set_handlers set_in_flight set_voff];
       (split; [apply Forall_app_2; [exact Hst|];
                apply Forall_singleton; split; assumption
               |repeat (apply Forall_cons_2; [first [exact Hh|exact Hv]|]);
                apply Forall_nil_2]).
  pose proof (refinement_ok (refine m) st) as [R1 R2].
  destruct (refinement (refine m) st) as [st3 out3]. cbn [fst snd] in *.
  rewrite <- R1 in Hst. destruct (IH st3 Hst) as [I1 I2].
  destruct (Track.process JSON_parse st3 rest) as [st4 out4]. cbn [fst snd app] in *.
  split; [exact I1|]. apply Forall_app. split; assumption.
Qed.

Lemma resume_ok fulfilled w st :
  handler_ok w -> Forall handler_ok (handlers st) ->
  range_inv (fst (resume fulfilled w st)) (snd (resume fulfilled w st)).
Proof using parse_numbers.
  intros Hw Hst. unfold Track.resume.
  set (r1 := if fulfilled then _ else _).
  assert (H1 : handlers (fst r1) = handlers st /\ Forall action_ok (snd r1)).
  { subst r1. destruct fulfilled; [destruct (servoTrackingEnabled st)|];
      cbn [fst snd writeServoState]; (split; [reflexivity|]); repeat constructor;
      apply Hw. }
  destruct r1 as [st1 out1]. cbn [fst snd] in H1. destruct H1 as [E1 A1].
  pose proof (refinement_ok (refine_after w) (set_in_flight false st1)) as [R1 R2].
  destruct (refinement (refine_after w) (set_in_flight false st1)) as [st3 out3].
  cbn [fst snd handlers set_in_flight] in *.
  rewrite <- E1, <- R1 in Hst. destruct (process_ok (remaining w) st3 Hst) as [I1 I2].
  destruct (Track.process JSON_parse st3 (remaining w)) as [st4 out4].
  cbn [fst snd] in *. split; [exact I1|].
  apply Forall_app. split; [exact A1|]. apply Forall_app. split; assumption.
Qed.

Lemma fulfil_ok p ws :
  Forall handler_ok ws ->
  Forall handler_ok (fst (fulfil p ws)) /\
  (forall w, snd (fulfil p ws) = Some w -> handler_ok w).
Proof.
  induction 1 as [|w ws Hw Hws IH]; cbn [fulfil].
  { split; [constructor|discriminate]. }
  destruct (bool_decide (p ∈ awaiting w)).
  - destruct (filter (λ q, q ≠ p) (awaiting w)) as [|q0 rest]; cbn [fst snd].
    + split; [exact Hws|]. intros w' [= <-]. exact Hw.
    + split; [constructor; [exact Hw|exact Hws]|discriminate].
  - destruct (fulfil p ws) as [ws' r]. cbn [fst snd] in *. destruct IH as [I1 I2].
    split; [constructor; assumption|exact I2].
Qed.

Lemma reject_ok p ws :
  Forall handler_ok ws ->
  Forall handler_ok (fst (reject p ws)) /\
  (forall w, snd (reject p ws) = Some w -> handler_ok w).
Proof.
  induction 1 as [|w ws Hw Hws IH]; cbn [reject].
  { split; [constructor|discriminate]. }
  destruct (bool_decide (p ∈ awaiting w)); cbn [fst snd].
  - split; [exact Hws|]. intros w' [= <-]. exact Hw.
  - destruct (reject p ws) as [ws' r]. cbn [fst snd] in *. destruct IH as [I1 I2].
    split; [constructor; assumption|exact I2].
Qed.

Lemma step_ok st e :
  Forall handler_ok (handlers st) ->
  range_inv (fst (step st e)) (snd (step st e)).
Proof using parse_numbers.
  intros Hst. destruct e; cbn [Track.step].
  - unfold on_data. destruct (pop _) as [incomplete lines]. apply process_ok. exact Hst.
  - unfold on_ack. destruct (fulfil_ok promise (handlers st) Hst) as [F1 F2].
    destruct (fulfil promise (handlers st)) as [ws [w|]]; cbn [fst snd] in *.
    + apply resume_ok; [apply F2; reflexivity|exact F1].
    + split; [exact F1|constructor].
  - unfold on_fail. destruct (reject_ok promise (handlers st) Hst) as [F1 F2].
    destruct (reject promise (handlers st)) as [ws [w|]]; cbn [fst snd] in *.
    + apply resume_ok; [apply F2; reflexivity|exact F1].
    + split; [exact F1|constructor].
  - split; [exact Hst|constructor].
  - split; [exact Hst|constructor].
  - destruct (refinement_ok true st) as [R1 R2]. split; [rewrite R1; exact Hst|exact R2].
  - split; [exact Hst|constructor].
  - unfold startMotionTracking. destruct (motionTrackerProcess st); cbn [fst snd].
    + split; [exact Hst|constructor].
    + split; [exact Hst|repeat constructor].
  - unfold stopMotionTracking. cbn [fst snd]. split; [exact Hst|].
    destruct (motionTrackerProcess st); repeat constructor.
  - split; [exact Hst|constructor].
  - unfold on_voff_timer. destruct (servoVOffTimer st); cbn [fst snd].
    + split; [exact Hst|repeat constructor].
    + split; [exact Hst|constructor].
  - split; [exact Hst|constructor].
Qed.

Lemma run_ok tr : forall st,
  Forall handler_ok (handlers st) ->
  range_inv (fst (run st tr)) (snd (run st tr)).
Proof using parse_numbers.
  induction tr as [|e tr IH]; intros st Hst; cbn [Track.run].
  { split; [exact Hst|constructor]. }
  destruct (step_ok st e Hst) as [H1 A1]. destruct (step st e) as [st1 out1].
  cbn [fst snd] in *. destruct (IH st1 H1) as [H2 A2].
  destruct (run st1 tr) as [st2 out2]. cbn [fst snd] in *.
  split; [exact H2|]. apply Forall_app. split; assumption.
Qed.

(** X14 — the tracking controller never aims outside the mechanical range.
    If the offsets of every line that parses are numbers, then in every run
    from the start, whatever the position file holds when it is read, every
    angle of a [SET] command the controller sends and every position it
    writes to the file lies between [SERVO_MIN] and [SERVO_MAX]. *)
Theorem X14_tracker_targets_stay_in_range (history : list event) :
  let out := snd (run init history) in
  (forall p channel angle, (p, SET channel angle) ∈ commands out ->
     SFleb SERVO_MIN angle = true /\ SFleb angle SERVO_MAX = true) /\
  (forall h v, (h, v) ∈ written out ->
     (SFleb SERVO_MIN h = true /\ SFleb h SERVO_MAX = true) /\
     (SFleb SERVO_MIN v = true /\ SFleb v SERVO_MAX = true)).
Proof using parse_numbers.
  intros out. destruct (run_ok history init (Forall_nil_2 _)) as [_ Hout].
  fold out in Hout. rewrite Forall_forall in Hout. split.
  - intros p channel angle Hin. unfold commands in Hin.
    apply list_elem_of_omap in Hin as (a & Ha & Hsome).
    destruct a; try discriminate. injection Hsome as -> ->.
    exact (Hout _ Ha).
  - intros h v Hin. unfold written in Hin.
    apply list_elem_of_omap in Hin as (a & Ha & Hsome).
    destruct a; try discriminate. injection Hsome as -> ->.
    exact (Hout _ Ha).
Qed.

End Range.

(** The run of the two-axis move: both commands and the position written
    are in the range. *)
Lemma X14_tracker_targets_stay_in_range_witness :
  let history := [Enable; Start; Data example_chunk; Ack 0; Ack 1] in
  let out := snd (Track.run example_parse init history) in
  commands out = [(0, SET SERVO_H_CHANNEL (of_Z 145)); (1, SET SERVO_V_CHANNEL (of_Z 125))] /\
  written out = [(of_Z 145, of_Z 125)] /\
  (SFleb SERVO_MIN (of_Z 145) = true /\ SFleb (of_Z 145) SERVO_MAX = true) /\
  (SFleb SERVO_MIN (of_Z 125) = true /\ SFleb (of_Z 125) SERVO_MAX = true).
Proof.
  intros history out.
  assert (Hparse : forall line m, example_parse line = Obj m ->
                                  cx m <> S754_nan /\ cy m <> S754_nan).
  { intros line m. unfold example_parse. destruct (bool_decide _); [|discriminate].
    intros [= <-]. split; discriminate. }
  destruct (X14_tracker_targets_stay_in_range example_parse Hparse history) as [Hc Hw].
  assert (Hcmds : commands out = [(0, SET SERVO_H_CHANNEL (of_Z 145));
                                  (1, SET SERVO_V_CHANNEL (of_Z 125))])
    by (vm_compute; reflexivity).
  assert (Hwr : written out = [(of_Z 145, of_Z 125)]) by (vm_compute; reflexivity).
  split; [exact Hcmds|]. split; [exact Hwr|].
  apply (Hw (of_Z 145) (of_Z 125)). fold out. rewrite Hwr.
  apply list_elem_of_singleton. reflexivity.
Defined.

End RangeFacts.

(** * The targets of the fire controller *)

Module AimFacts.
Import JS Num StateFile NumFacts FiniteFacts Fire FireFacts.
Import Track (msg, json(..), command(..), ready, error, active, cx, cy, target,
  SERVO_H_CHANNEL, SERVO_V_CHANNEL).
Import RangeFacts (position_ok, command_ok, target_ok, sanitize_ok).

#[local] Open Scope N_scope.

Definition sent_ok (c : command) : Prop :=
  match c with
  | SET _ angle => position_ok angle
  | OFF channel => channel = SERVO_V_CHANNEL
  end.

Definition aimed_ok (a : action) : Prop :=
  match a with
  | ServoCmd _ c => sent_ok c
  | WriteServoState h v => position_ok h /\ position_ok v
  | _ => True
  end.

(** The servo commands and the positions written among the actions. *)
Definition sent (out : list action) : list command :=
  omap (λ a, match a with ServoCmd _ c => Some c | _ => None end) out.

Definition stored (out : list action) : list (number * number) :=
  omap (λ a, match a with WriteServoState h v => Some (h, v) | _ => None end) out.

Lemma aim_ok m st :
  cx m <> S754_nan -> cy m <> S754_nan -> Forall aimed_ok (snd (aim m st)).
Proof.
  intros Hcx Hcy. unfold aim.
  pose proof (target_ok (horizontal (readServoState st)) (cx m)
                (proj2 (sanitize_ok _)) Hcx) as Hh.
  pose proof (target_ok (vertical (readServoState st)) (cy m)
                (proj2 (sanitize_ok _)) Hcy) as Hv.
  set (h := target _ (cx m)) in *. set (v := target _ (cy m)) in *. clearbody h v.
  destruct (strict_ne h _); destruct (strict_ne v _);
    cbn [servoCmd servoSetCmd N.eqb SERVO_V_CHANNEL Pos.eqb fst snd app];
    unfold launch; cbn [app ctl with_env with_ctl motionServoInflight];
    try destruct (motionServoInflight (ctl st)); cbn [fst snd app writeServoState];
    repeat (apply Forall_cons_2; [first [exact Hh|exact Hv|exact (conj Hh Hv)]|]);
    apply Forall_nil_2.
Qed.

Lemma reset_ok st : Forall aimed_ok (snd (reset st)).
Proof.
  unfold reset, clear_cooldown, clear_settle, clearTimeout. cbn.
  destruct (motionCooldownTimer (ctl st)); cbn;
    destruct (motionSettleTimer (ctl st)); cbn; repeat constructor.
Qed.

Lemma stop_ok st : Forall aimed_ok (snd (stopMotionTracking st)).
Proof.
  unfold stopMotionTracking. pose proof (reset_ok st) as H.
  destruct (reset st) as [st1 out]. cbn [fst snd] in *.
  destruct (motionTrackerProcess (ctl st)); [constructor; [exact I|exact H]|exact H].
Qed.

Section Aim.

Variable JSON_parse : jsstring -> json.

(** The offsets of a line that parses are numbers. *)
Hypothesis parse_numbers :
  forall line m, JSON_parse line = Obj m -> cx m <> S754_nan /\ cy m <> S754_nan.

#[local] Abbreviation process := (Fire.process JSON_parse).
#[local] Abbreviation step := (Fire.step JSON_parse).
#[local] Abbreviation run := (Fire.run JSON_parse).

Lemma fire_process_ok lines : forall st, Forall aimed_ok (snd (process st lines)).
Proof using parse_numbers.
  induction lines as [|raw rest IH]; intros st; cbn [Fire.process]; [constructor|].
  destruct (trim raw) as [|c line]; [apply IH|].
  destruct (JSON_parse (c :: line)) as [| |m] eqn:Hm; [apply IH|constructor|].
  destruct (parse_numbers _ _ Hm) as [Hcx Hcy].
  destruct (ready m); [apply IH|].
  destruct (error m); [apply stop_ok|].
  destruct (active m); cbn [negb].
  - destruct (motionCooldown (ctl st)); [apply IH|].
    unfold active_line. pose proof (aim_ok m st Hcx Hcy) as Ha.
    destruct (aim m st) as [st1 out1]. cbn [snd] in Ha.
    assert (Hs : Forall aimed_ok (snd (schedule_fire st1))).
    { unfold schedule_fire. destruct (motionBoutActive (ctl st1)); cbn;
        repeat constructor. }
    destruct (schedule_fire st1) as [st2 out2]. cbn [snd] in Hs.
    specialize (IH st2). destruct (Fire.process JSON_parse st2 rest) as [st3 out3].
    cbn [snd] in *. apply Forall_app. split; [|exact IH].
    apply Forall_app. split; assumption.
  - assert (Hq : Forall aimed_ok (snd (quiet_line st))).
    { unfold quiet_line, clear_settle, clearTimeout.
      destruct (motionBoutActive (ctl st)); cbn; [|constructor].
      destruct (motionSettleTimer (ctl st)); cbn; repeat constructor. }
    destruct (quiet_line st) as [st1 out1]. cbn [snd] in Hq.
    specialize (IH st1). destruct (Fire.process JSON_parse st1 rest) as [st2 out2].
    cbn [snd] in *. apply Forall_app. split; assumption.
Qed.

Lemma fire_step_ok st te : Forall aimed_ok (snd (step st te)).
Proof using parse_numbers.
  destruct te as [d e]. unfold Fire.step. cbn [fst snd].
  set (st0 := with_env (λ w, set_now (now w + d) w) st). clearbody st0.
  destruct e as [| |data|h|f ok|p|p| | |].
  - unfold startMotionTracking. destruct (motionTrackerProcess (ctl st0));
      repeat constructor.
  - apply stop_ok.
  - unfold on_data. destruct (pop _) as [incomplete lines]. apply fire_process_ok.
  - unfold on_timeout. destruct (find _ (timers (env st0))) as [t|]; [|constructor].
    destruct (deadline t <=? now (env st0)); [|constructor].
    destruct (callback t); [|constructor].
    unfold settle_callback. destruct (_ || _); repeat constructor.
  - unfold on_fetched. destruct (bool_decide _); [|constructor].
    cbn. destruct ok; repeat constructor.
  - unfold on_ack. destruct (fulfil p (moves (env st0))) as [ms done].
    destruct done; constructor.
  - unfold on_fail. destruct (reject p (moves (env st0))) as [ms failed].
    destruct failed; repeat constructor.
  - unfold on_voff_timer. destruct (servoVOffTimer (env st0)); repeat constructor.
  - apply stop_ok.
  - apply reset_ok.
Qed.

Lemma fire_run_ok tr : forall st, Forall aimed_ok (snd (run st tr)).
Proof using parse_numbers.
  induction tr as [|te tr IH]; intros st; cbn [Fire.run]; [constructor|].
  pose proof (fire_step_ok st te) as H1. destruct (step st te) as [st1 out1].
  specialize (IH st1). destruct (run st1 tr) as [st2 out2]. cbn [snd] in *.
  apply Forall_app. split; assumption.
Qed.

(** X15 — the fire controller never aims outside the mechanical range.  If
    the offsets of every line that parses are numbers, then in every run,
    from any state and whatever the position file holds when it is read,
    every angle of a [SET] command the controller sends and every position it
    writes to the file lies between [SERVO_MIN] and [SERVO_MAX]; the only
    other command it sends is the power-off of the vertical servo. *)
Theorem X15_fire_targets_stay_in_range (st : state) (tr : list timed) :
  let out := snd (run st tr) in
  (forall c, c ∈ sent out ->
     match c with
     | SET channel angle =>
         SFleb SERVO_MIN angle = true /\ SFleb angle SERVO_MAX = true
     | OFF channel => channel = SERVO_V_CHANNEL
     end) /\
  (forall h v, (h, v) ∈ stored out ->
     (SFleb SERVO_MIN h = true /\ SFleb h SERVO_MAX = true) /\
     (SFleb SERVO_MIN v = true /\ SFleb v SERVO_MAX = true)).
Proof using parse_numbers.
  intros out. pose proof (fire_run_ok tr st) as Hout. fold out in Hout.
  rewrite Forall_forall in Hout. split.
  - intros c Hin. unfold sent in Hin.
    apply list_elem_of_omap in Hin as (a & Ha & Hsome).
    destruct a; try discriminate. injection Hsome as ->.
    destruct c as [channel angle|channel]; exact (Hout _ Ha).
  - intros h v Hin. unfold stored in Hin.
    apply list_elem_of_omap in Hin as (a & Ha & Hsome).
    destruct a; try discriminate. injection Hsome as -> ->.
    exact (Hout _ Ha).
Qed.

End Aim.

(** The first bout of a session: both axes are moved and the position is
    written at once, all in the range. *)
Lemma X15_fire_targets_stay_in_range_witness :
  let out := snd (Fire.run parse started first_bout) in
  sent out = [SET SERVO_H_CHANNEL (of_Z 145); SET SERVO_V_CHANNEL (of_Z 125)] /\
  stored out = [(of_Z 145, of_Z 125)] /\
  (SFleb SERVO_MIN (of_Z 145) = true /\ SFleb (of_Z 145) SERVO_MAX = true) /\
  (SFleb SERVO_MIN (of_Z 125) = true /\ SFleb (of_Z 125) SERVO_MAX = true).
Proof.
  intros out.
  assert (Hparse : forall line m, parse line = Obj m ->
                                  cx m <> S754_nan /\ cy m <> S754_nan).
  { intros line m. unfold parse, TrackFacts.example_parse.
    destruct (bool_decide _); [|discriminate]. intros [= <-]. split; discriminate. }
  destruct (X15_fire_targets_stay_in_range parse Hparse started first_bout) as [_ Hw].
  assert (Hsent : sent out = [SET SERVO_H_CHANNEL (of_Z 145);
                              SET SERVO_V_CHANNEL (of_Z 125)])
    by (vm_compute; reflexivity).
  assert (Hwr : stored out = [(of_Z 145, of_Z 125)]) by (vm_compute; reflexivity).
  split; [exact Hsent|]. split; [exact Hwr|].
  apply (Hw (of_Z 145) (of_Z 125)). fold out. rewrite Hwr.
  apply list_elem_of_singleton. reflexivity.
Defined.

End AimFacts.

(** * Face tracking: the scan job, its result and its move *)

Module FaceTrack.
Import JS Num StateFile.
Import Track (command(..), SERVO_H_CHANNEL, SERVO_V_CHANNEL, one_half).

Definition SERVO_FOV_H : number := of_Z 150.
Definition SERVO_FOV_V : number := of_Z 112.

(** The literal [0.1]. *)
Definition one_tenth : number := of_decimal false 1 (-1).

(** A value used as a condition: [NaN] and the zeros are falsy. *)
Definition truthy (x : number) : bool :=
  match x with
  | S754_nan | S754_zero _ => false
  | _ => true
  end.

(** [x || d] on numbers. *)
Definition or_default (x d : number) : number := if truthy x then x else d.

(** The crop hint passed to the scan. *)
Record crop := { crop_cx : number; crop_cy : number; crop_scale : number }.

(** The crop hint of the [/face-track] route, for a query whose [cx], [cy]
    and [scale], when present, are strings. *)
Definition crop_of (cx cy scale : option jsstring) : option crop :=
  match cx, cy, scale with
  | Some a, Some b, Some c =>
      Some {| crop_cx := Math_max (of_Z 0) (Math_min (of_Z 1)
                           (or_default (parseFloat a) one_half));
              crop_cy := Math_max (of_Z 0) (Math_min (of_Z 1)
                           (or_default (parseFloat b) one_half));
              crop_scale := Math_max one_tenth (Math_min (of_Z 1)
                              (or_default (parseFloat c) (of_Z 1))) |}
  | _, _, _ => None
  end.

(** What the scan script printed, as [_runFaceTrackInner] reads it: the
    truthiness of [error] and [found], and [cx] and [cy] as the subtraction
    converts them to numbers.  The other properties are copied to the result
    for the client. *)
Record detection := {
  det_error : bool; det_found : bool; det_cx : number; det_cy : number
}.

(** How a scan ends: [runPython] rejects, the script prints nothing, its
    output is not JSON, it is JSON without properties to read ([null]), or it
    is a value to read. *)
Inductive outcome := Rejected | NoOutput | BadJson | JsonNull | Parsed (d : detection).

(** [faceTrackJob.result], by its shape. *)
Inductive report :=
| ReportError                    (* { error: ... } *)
| ReportNone                     (* { found: false, label: "none" } *)
| ReportFound (d : detection).   (* { found: true, label, cx, cy, ... } *)

Inductive status := Running | Done.

Record job := {
  job_status : status;
  result : option report;
  pendingMove : option (number * number)
}.

Inductive reply :=
| Busy                      (* { status: "busy" } *)
| Started                   (* { status: "started" } *)
| Pending                   (* { status: "pending" } *)
| Result (r : option report)
| Moved (b : bool)          (* { moved: ... } *)
| MoveFailed.               (* status 500 *)

Inductive action :=
| RunFaceTrack (c : option crop)           (* runFaceTrack(crop), not awaited *)
| Reply (req : nat) (r : reply)
| ServoCmd (promise : nat) (c : command)
| WriteServoState (h v : number)
| LogMoveError.

(** A [/face-track/move] request suspended at its [await Promise.all]. *)
Record moving := {
  request : nat; awaiting : list nat; newH : number; newV : number
}.

Record state := {
  faceTrackJob : option job;
  servoTrackingEnabled : bool;
  servoFile : number * number;
  servoVOffTimer : bool;
  moves : list moving;
  nextPromise : nat;
  nextReq : nat
}.

Definition init : state :=
  {| faceTrackJob := None; servoTrackingEnabled := false;
     servoFile := (SERVO_CENTER, SERVO_CENTER); servoVOffTimer := false;
     moves := []; nextPromise := 0; nextReq := 0 |}.

Definition set_job (j : option job) (st : state) : state :=
  {| faceTrackJob := j; servoTrackingEnabled := servoTrackingEnabled st;
     servoFile := servoFile st; servoVOffTimer := servoVOffTimer st;
     moves := moves st; nextPromise := nextPromise st; nextReq := nextReq st |}.

Definition set_enabled (b : bool) (st : state) : state :=
  {| faceTrackJob := faceTrackJob st; servoTrackingEnabled := b;
     servoFile := servoFile st; servoVOffTimer := servoVOffTimer st;
     moves := moves st; nextPromise := nextPromise st; nextReq := nextReq st |}.

Definition set_file (f : number * number) (st : state) : state :=
  {| faceTrackJob := faceTrackJob st; servoTrackingEnabled := servoTrackingEnabled st;
     servoFile := f; servoVOffTimer := servoVOffTimer st;
     moves := moves st; nextPromise := nextPromise st; nextReq := nextReq st |}.

Definition set_moves (ms : list moving) (st : state) : state :=
  {| faceTrackJob := faceTrackJob st; servoTrackingEnabled := servoTrackingEnabled st;
     servoFile := servoFile st; servoVOffTimer := servoVOffTimer st;
     moves := ms; nextPromise := nextPromise st; nextReq := nextReq st |}.

(** A new request: its number. *)
Definition accept (st : state) : state * nat :=
  ({| faceTrackJob := faceTrackJob st; servoTrackingEnabled := servoTrackingEnabled st;
      servoFile := servoFile st; servoVOffTimer := servoVOffTimer st;
      moves := moves st; nextPromise := nextPromise st; nextReq := S (nextReq st) |},
   nextReq st).

Definition running (st : state) : bool :=
  match faceTrackJob st with
  | Some {| job_status := Running |} => true
  | _ => false
  end.

Definition readServoState (st : state) : servo_state :=
  {| horizontal := sanitize (fst (servoFile st));
     vertical := sanitize (snd (servoFile st)) |}.

(** The target of one axis:
    [Math.max(SERVO_MIN, Math.min(SERVO_MAX, Math.round(position + -offset * fov)))]
    with [offset = c - 0.5]. *)
Definition centre (position c fov : number) : number :=
  Math_max SERVO_MIN (Math_min SERVO_MAX
    (Math_round (add position (mul (neg (sub c one_half)) fov)))).

(** [runFaceTrack] settles: what [_runFaceTrackInner] did, or the catch-all
    around it. *)
Definition on_completed (o : outcome) (st : state) : state * list action :=
  let finished r move :=
    set_job (Some {| job_status := Done; result := Some r; pendingMove := move |})
      (set_enabled false st) in
  match o with
  | Parsed d =>
      if det_error d then (finished ReportError None, [])
      else if negb (det_found d) then (finished ReportNone None, [])
      else
        let position := readServoState st in
        let h := centre (horizontal position) (det_cx d) SERVO_FOV_H in
        let v := centre (vertical position) (det_cy d) SERVO_FOV_V in
        (finished (ReportFound d) (Some (h, v)), [])
  | _ => (finished ReportError None, [])
  end.

(** [app.get("/face-track", ...)] *)
Definition on_request (cx cy scale : option jsstring) (st : state)
  : state * list action :=
  let '(st, req) := accept st in
  if running st then (st, [Reply req Busy])
  else
    (set_job (Some {| job_status := Running; result := None; pendingMove := None |}) st,
     [RunFaceTrack (crop_of cx cy scale); Reply req Started]).

(** The refinement asked for by the motion tracker. *)
Definition on_refine (st : state) : state * list action :=
  if running st then (st, [])
  else
    (set_job (Some {| job_status := Running; result := None; pendingMove := None |}) st,
     [RunFaceTrack None]).

(** [app.get("/face-track/result", ...)] *)
Definition on_poll (st : state) : state * list action :=
  let '(st, req) := accept st in
  match faceTrackJob st with
  | Some {| job_status := Done; result := r |} => (st, [Reply req (Result r)])
  | _ => (st, [Reply req Pending])
  end.

(** [app.get("/face-track/move", ...)] up to its [await]. *)
Definition on_move (st : state) : state * list action :=
  let '(st, req) := accept st in
  match faceTrackJob st with
  | Some {| job_status := s; result := r; pendingMove := Some (h, v) |} =>
      let p1 := nextPromise st in
      let p2 := S p1 in
      ({| faceTrackJob :=
            Some {| job_status := s; result := r; pendingMove := None |};
          servoTrackingEnabled := servoTrackingEnabled st;
          servoFile := servoFile st; servoVOffTimer := true;
          moves := moves st ++ [{| request := req; awaiting := [p1; p2];
                                   newH := h; newV := v |}];
          nextPromise := S p2; nextReq := nextReq st |},
       [ServoCmd p1 (SET SERVO_H_CHANNEL h); ServoCmd p2 (SET SERVO_V_CHANNEL v)])
  | _ => (st, [Reply req (Moved false)])
  end.

(** A promise of [servoCmd] is fulfilled: the request that waits for it and
    for nothing else goes on to [writeServoState] and its reply. *)
Fixpoint fulfil (p : nat) (ms : list moving) : list moving * option moving :=
  match ms with
  | [] => ([], None)
  | m :: ms' =>
      if bool_decide (p ∈ awaiting m) then
        match filter (λ q, q ≠ p) (awaiting m) with
        | [] => (ms', Some m)
        | rest => ({| request := request m; awaiting := rest;
                      newH := newH m; newV := newV m |} :: ms', None)
        end
      else let '(ms'', done) := fulfil p ms' in (m :: ms'', done)
  end.

Fixpoint reject (p : nat) (ms : list moving) : list moving * option moving :=
  match ms with
  | [] => ([], None)
  | m :: ms' =>
      if bool_decide (p ∈ awaiting m) then (ms', Some m)
      else let '(ms'', failed) := reject p ms' in (m :: ms'', failed)
  end.

Definition on_ack (p : nat) (st : state) : state * list action :=
  match fulfil p (moves st) with
  | (ms, Some m) =>
      (set_file (newH m, newV m) (set_moves ms st),
       [WriteServoState (newH m) (newV m); Reply (request m) (Moved true)])
  | (ms, None) => (set_moves ms st, [])
  end.

Definition on_fail (p : nat) (st : state) : state * list action :=
  match reject p (moves st) with
  | (ms, Some m) => (set_moves ms st, [LogMoveError; Reply (request m) MoveFailed])
  | (ms, None) => (set_moves ms st, [])
  end.

Inductive event :=
| Request (cx cy scale : option jsstring)   (* GET /face-track *)
| Refine                                    (* a tracker line with refine *)
| Completed (o : outcome)                   (* the scan settles *)
| Poll                                      (* GET /face-track/result *)
| Move                                      (* GET /face-track/move *)
| Ack (promise : nat)
| Fail (promise : nat)
| Enable                                    (* /motion-track/servo-enable *)
| FileWritten (h v : number).               (* another route rewrites the file *)

Definition step (st : state) (e : event) : state * list action :=
  match e with
  | Request cx cy scale => on_request cx cy scale st
  | Refine => on_refine st
  | Completed o => on_completed o st
  | Poll => on_poll st
  | Move => on_move st
  | Ack p => on_ack p st
  | Fail p => on_fail p st
  | Enable => (set_enabled true st, [])
  | FileWritten h v => (set_file (h, v) st, [])
  end.

Fixpoint run (st : state) (tr : list event) : state * list action :=
  match tr with
  | [] => (st, [])
  | e :: tr' =>
      let '(st1, out1) := step st e in
      let '(st2, out2) := run st1 tr' in
      (st2, out1 ++ out2)
  end.

End FaceTrack.

Module FaceTrackFacts.
Import JS Num StateFile NumFacts FiniteFacts FaceTrack.
Import Track (command(..), SERVO_H_CHANNEL, SERVO_V_CHANNEL, one_half).
Import RangeFacts (position_ok, sanitize_ok, between_finite).

(** ** The crop hint *)

Lemma or_default_not_nan x d : d <> S754_nan -> or_default x d <> S754_nan.
Proof. unfold or_default. destruct x; cbn; done. Qed.

(** X16 — the crop hint of a scan is always usable.  Whatever the three
    query strings are, the hint passed to the scan has [cx] and [cy] between
    0 and 1 and [scale] between 0.1 and 1.  A value that parses to a number
    strictly inside its range is passed as it is; one that does not parse to
    a number, or parses to zero, is replaced by the default: 0.5 for [cx] and
    [cy], 1 for [scale]. *)
Theorem X16_crop_hint_is_sanitized (a b c : jsstring) :
  exists hint, crop_of (Some a) (Some b) (Some c) = Some hint /\
    (SFleb (of_Z 0) (crop_cx hint) = true /\ SFleb (crop_cx hint) (of_Z 1) = true) /\
    (SFleb (of_Z 0) (crop_cy hint) = true /\ SFleb (crop_cy hint) (of_Z 1) = true) /\
    (SFleb one_tenth (crop_scale hint) = true /\
     SFleb (crop_scale hint) (of_Z 1) = true) /\
    (SFltb (of_Z 0) (parseFloat a) = true -> SFltb (parseFloat a) (of_Z 1) = true ->
     crop_cx hint = parseFloat a) /\
    (SFltb (of_Z 0) (parseFloat b) = true -> SFltb (parseFloat b) (of_Z 1) = true ->
     crop_cy hint = parseFloat b) /\
    (SFltb one_tenth (parseFloat c) = true -> SFltb (parseFloat c) (of_Z 1) = true ->
     crop_scale hint = parseFloat c) /\
    (truthy (parseFloat a) = false -> crop_cx hint = one_half) /\
    (truthy (parseFloat b) = false -> crop_cy hint = one_half) /\
    (truthy (parseFloat c) = false -> crop_scale hint = of_Z 1).
Proof.
  eexists. split; [reflexivity|]. cbn [crop_cx crop_cy crop_scale].
  assert (Hhalf : one_half <> S754_nan) by discriminate.
  assert (Hone : of_Z 1 <> S754_nan) by discriminate.
  destruct (clamp_between (of_Z 0) (of_Z 1) _ eq_refl
              (or_default_not_nan (parseFloat a) one_half Hhalf)) as (A1 & A2 & A3 & _).
  destruct (clamp_between (of_Z 0) (of_Z 1) _ eq_refl
              (or_default_not_nan (parseFloat b) one_half Hhalf)) as (B1 & B2 & B3 & _).
  destruct (clamp_between one_tenth (of_Z 1) _ eq_refl
              (or_default_not_nan (parseFloat c) (of_Z 1) Hone)) as (C1 & C2 & C3 & _).
  assert (Hkeep : forall lo x d, SFltb lo x = true -> SFleb (of_Z 0) lo = true ->
                                 or_default x d = x).
  { intros lo x d Hlt Hlo. unfold or_default.
    destruct x as [[]|[]| |[] m e]; try reflexivity;
      destruct lo as [[]|[]| |[] m' e']; discriminate. }
  split; [split; assumption|]. split; [split; assumption|]. split; [split; assumption|].
  split; [|split; [|split]].
  - intros H1 H2. rewrite (Hkeep (of_Z 0) (parseFloat a) one_half H1 eq_refl) in A3 |- *.
    exact (A3 H1 H2).
  - intros H1 H2. rewrite (Hkeep (of_Z 0) (parseFloat b) one_half H1 eq_refl) in B3 |- *.
    exact (B3 H1 H2).
  - intros H1 H2. rewrite (Hkeep one_tenth (parseFloat c) (of_Z 1) H1 eq_refl) in C3 |- *.
    exact (C3 H1 H2).
  - unfold or_default. split; [|split]; intros ->; reflexivity.
Qed.

(** ** The move of a scan that found a face *)

(** The target of an axis is a position of the range, for every position
    read and every detection whose coordinate is a number. *)
Lemma centre_ok position c fov s m e :
  isFinite position = true -> c <> S754_nan -> fov = S754_finite s m e ->
  position_ok (centre position c fov).
Proof.
  intros Hp Hc Hfov.
  assert (Hsum : Math_round (add position (mul (neg (sub c one_half)) fov))
                 <> S754_nan).
  { apply Math_round_not_nan, add_not_nan; [exact Hp|].
    eapply mul_not_nan; [|exact Hfov].
    apply neg_not_nan, sub_not_nan; [exact Hc|reflexivity]. }
  destruct (clamp_between SERVO_MIN SERVO_MAX _ eq_refl Hsum) as (H1 & H2 & _).
  split; assumption.
Qed.

(** The moves carried out, among the actions of a run: each sends one
    command for the horizontal channel. *)
Definition carried_out (out : list action) : nat :=
  length (omap (λ a, match a with
                     | ServoCmd _ (SET 0%N _) => Some a
                     | _ => None
                     end) out).

(** The scans of a run that found a face. *)
Definition finds (o : outcome) : bool :=
  match o with
  | Parsed d => negb (det_error d) && det_found d
  | _ => false
  end.

Definition found (tr : list event) : nat :=
  length (omap (λ e, match e with
                     | Completed o => if finds o then Some e else None
                     | _ => None
                     end) tr).

(** Whether a move is waiting to be carried out. *)
Definition waiting (st : state) : nat :=
  match faceTrackJob st with
  | Some {| pendingMove := Some _ |} => 1
  | _ => 0
  end.

(** The coordinates of a detection that found a face are numbers. *)
Definition numbers (e : event) : Prop :=
  match e with
  | Completed (Parsed d) => det_cx d <> S754_nan /\ det_cy d <> S754_nan
  | _ => True
  end.

Definition move_ok (hv : number * number) : Prop :=
  position_ok (fst hv) /\ position_ok (snd hv).

Definition face_action_ok (a : action) : Prop :=
  match a with
  | ServoCmd _ (SET _ angle) => position_ok angle
  | WriteServoState h v => position_ok h /\ position_ok v
  | _ => True
  end.

Definition face_inv (st : state) : Prop :=
  match faceTrackJob st with
  | Some {| pendingMove := Some hv |} => move_ok hv
  | _ => True
  end /\
  Forall (λ m, position_ok (newH m) /\ position_ok (newV m)) (moves st).

Lemma carried_out_app out1 out2 :
  carried_out (out1 ++ out2) = carried_out out1 + carried_out out2.
Proof. unfold carried_out. rewrite omap_app, length_app. reflexivity. Qed.

Lemma found_cons e tr : found (e :: tr) = found [e] + found tr.
Proof.
  unfold found. change (e :: tr) with ([e] ++ tr). rewrite omap_app, length_app.
  reflexivity.
Qed.

Lemma face_fulfil_ok (P : moving -> Prop) p ms :
  (forall m rest, P m ->
     P {| request := request m; awaiting := rest; newH := newH m; newV := newV m |}) ->
  Forall P ms ->
  Forall P (fst (fulfil p ms)) /\ (forall m, snd (fulfil p ms) = Some m -> P m).
Proof.
  intros Hkeep. induction 1 as [|m ms Hm Hms IH]; cbn [fulfil].
  { split; [constructor|discriminate]. }
  destruct (bool_decide (p ∈ awaiting m)).
  - destruct (filter (λ q, q ≠ p) (awaiting m)) as [|q0 rest]; cbn [fst snd].
    + split; [exact Hms|]. intros m' [= <-]. exact Hm.
    + split; [constructor; [apply Hkeep; exact Hm|exact Hms]|discriminate].
  - destruct (fulfil p ms) as [ms' r]. cbn [fst snd] in *. destruct IH as [I1 I2].
    split; [constructor; assumption|exact I2].
Qed.

Lemma face_reject_ok (P : moving -> Prop) p ms :
  Forall P ms -> Forall P (fst (reject p ms)).
Proof.
  induction 1 as [|m ms Hm Hms IH]; cbn [reject]; [constructor|].
  destruct (bool_decide (p ∈ awaiting m)); cbn [fst]; [exact Hms|].
  destruct (reject p ms) as [ms' r]. cbn [fst] in *. constructor; assumption.
Qed.

Lemma face_step st e :
  let st' := fst (step st e) in
  let out := snd (step st e) in
  carried_out out + waiting st' <= found [e] + waiting st /\
  (face_inv st -> numbers e -> face_inv st' /\ Forall face_action_ok out).
Proof.
  unfold waiting, face_inv, carried_out, found.
  destruct e as [cx cy scale| |o| | |p|p| |h v]; cbn [step].
  - unfold on_request, accept, running. cbn [faceTrackJob].
    destruct (faceTrackJob st) as [[[] r [hv|]]|]; cbn; (split; [lia|]);
      intros [H1 H2] _;
      (split; [split; [first [exact H1|exact I]|exact H2]|repeat constructor]).
  - unfold on_refine, running.
    destruct (faceTrackJob st) as [[[] r [hv|]]|] eqn:Hjob; cbn; rewrite ?Hjob;
      (split; [lia|]); intros [H1 H2] _;
      (split; [split; [first [exact H1|exact I]|exact H2]|repeat constructor]).
  - unfold on_completed.
    destruct o as [| | | |d]; cbn [finds];
      try (cbn; split; [destruct (faceTrackJob st) as [[? ? [?|]]|]; lia|];
           intros [H1 H2] _; (split; [split; [exact I|exact H2]|constructor])).
    destruct (det_error d) eqn:He; cbn [negb andb];
      [cbn; split; [destruct (faceTrackJob st) as [[? ? [?|]]|]; lia|];
       intros [H1 H2] _; (split; [split; [exact I|exact H2]|constructor])|].
    destruct (det_found d) eqn:Hf; cbn [negb];
      [|cbn; split; [destruct (faceTrackJob st) as [[? ? [?|]]|]; lia|];
        intros [H1 H2] _; (split; [split; [exact I|exact H2]|constructor])].
    cbn [fst snd]. split.
    + cbn. rewrite He, Hf. cbn.
      destruct (faceTrackJob st) as [[? ? [?|]]|]; lia.
    + intros [H1 H2] [Hcx Hcy]. split; [|constructor].
      split; [|exact H2]. cbn. split.
      * eapply centre_ok; [apply sanitize_ok|exact Hcx|vm_compute; reflexivity].
      * eapply centre_ok; [apply sanitize_ok|exact Hcy|vm_compute; reflexivity].
  - unfold on_poll, accept. cbn [faceTrackJob].
    destruct (faceTrackJob st) as [[[] r [hv|]]|]; cbn; (split; [lia|]);
      intros [H1 H2] _;
      (split; [split; [first [exact H1|exact I]|exact H2]|repeat constructor]).
  - unfold on_move, accept. cbn [faceTrackJob].
    destruct (faceTrackJob st) as [[s r [[h v]|]]|]; cbn; (split; [lia|]);
      intros [H1 H2] _.
    + split; [split; [exact I|]|].
      * apply Forall_app_2; [exact H2|]. apply Forall_singleton. exact H1.
      * destruct H1 as [Hh Hv]. apply Forall_cons_2; [exact Hh|].
        apply Forall_cons_2; [exact Hv|]. apply Forall_nil_2.
    + split; [split; [exact I|exact H2]|repeat constructor].
    + split; [split; [exact I|exact H2]|repeat constructor].
  - unfold on_ack. split.
    + destruct (fulfil p (moves st)) as [ms [m|]]; cbn; lia.
    + intros [H1 H2] _.
      destruct (face_fulfil_ok (λ m, position_ok (newH m) /\ position_ok (newV m))
                  p (moves st) (λ m rest H, H) H2) as [F1 F2].
      destruct (fulfil p (moves st)) as [ms [m|]]; cbn [fst snd] in *.
      * split; [split; [exact H1|exact F1]|].
        repeat constructor; apply (F2 m eq_refl).
      * split; [split; [exact H1|exact F1]|constructor].
  - unfold on_fail. split.
    + destruct (reject p (moves st)) as [ms [m|]]; cbn; lia.
    + intros [H1 H2] _. pose proof (face_reject_ok _ p (moves st) H2) as F1.
      destruct (reject p (moves st)) as [ms [m|]]; cbn [fst snd] in *.
      * split; [split; [exact H1|exact F1]|repeat constructor].
      * split; [split; [exact H1|exact F1]|constructor].
  - cbn. split; [lia|]. intros H _. split; [exact H|constructor].
  - cbn. split; [lia|]. intros H _. split; [exact H|constructor].
Qed.

Lemma face_run tr : forall st,
  let st' := fst (run st tr) in
  let out := snd (run st tr) in
  carried_out out + waiting st' <= found tr + waiting st /\
  (face_inv st -> Forall numbers tr -> face_inv st' /\ Forall face_action_ok out).
Proof.
  induction tr as [|e tr IH]; intros st; cbn [run].
  { cbn. split; [lia|]. intros H _. split; [exact H|constructor]. }
  destruct (face_step st e) as [C1 R1]. destruct (step st e) as [st1 out1].
  destruct (IH st1) as [C2 R2]. destruct (run st1 tr) as [st2 out2].
  cbn [fst snd] in *. rewrite carried_out_app, found_cons. split; [lia|].
  intros Hinv Hnum. apply Forall_cons in Hnum as [Hn1 Hn2].
  destruct (R1 Hinv Hn1) as [I1 A1]. destruct (R2 I1 Hn2) as [I2 A2].
  split; [exact I2|]. apply Forall_app_2; assumption.
Qed.

(** X17 — the move of a face scan is carried out at most once, and inside
    the range.  In every run of the face-tracking routes from the start, the
    moves carried out by [/face-track/move], together with the one still
    waiting, are at most the scans that found a face; right after a move
    request another one sends nothing and answers that nothing moved.  If the
    coordinates of every detection are numbers, every angle sent and every
    position written lies between [SERVO_MIN] and [SERVO_MAX], whatever the
    position file held when the scan read it. *)
Theorem X17_face_move_once_and_in_range (tr : list event) :
  let st := fst (run init tr) in
  let out := snd (run init tr) in
  carried_out out + waiting st <= found tr /\
  (let st1 := fst (step st Move) in
   snd (step st1 Move) = [Reply (nextReq st1) (Moved false)]) /\
  (Forall numbers tr ->
   (forall p channel angle, ServoCmd p (SET channel angle) ∈ out ->
      SFleb SERVO_MIN angle = true /\ SFleb angle SERVO_MAX = true) /\
   (forall h v, WriteServoState h v ∈ out ->
      (SFleb SERVO_MIN h = true /\ SFleb h SERVO_MAX = true) /\
      (SFleb SERVO_MIN v = true /\ SFleb v SERVO_MAX = true))).
Proof.
  intros st out. destruct (face_run tr init) as [Hcount Hrange].
  fold st out in Hcount, Hrange. cbn [waiting init faceTrackJob] in Hcount.
  split; [lia|]. split.
  - cbn [step]. unfold on_move, accept. cbn [faceTrackJob].
    destruct (faceTrackJob st) as [[s r [[h v]|]]|]; reflexivity.
  - intros Hnum. assert (Hinit : face_inv init) by (split; [exact I|constructor]).
    destruct (Hrange Hinit Hnum) as [_ Hout]. rewrite Forall_forall in Hout.
    split.
    + intros p channel angle Hin. exact (Hout _ Hin).
    + intros h v Hin. exact (Hout _ Hin).
Qed.

(** A scan finds a face left of and above the centre; the client asks for
    the move twice and both commands of the first request are acknowledged:
    one move, inside the range, and the position is written once. *)
Lemma X17_face_move_once_and_in_range_witness :
  let d := {| det_error := false; det_found := true;
              det_cx := of_decimal false 2 (-1); det_cy := of_decimal false 8 (-1) |} in
  let tr := [Request None None None; Completed (Parsed d); Move; Move; Ack 0; Ack 1] in
  snd (run init tr) =
    [RunFaceTrack None; Reply 0 Started;
     ServoCmd 0 (SET SERVO_H_CHANNEL (of_Z 180));
     ServoCmd 1 (SET SERVO_V_CHANNEL (of_Z 101));
     Reply 2 (Moved false);
     WriteServoState (of_Z 180) (of_Z 101); Reply 1 (Moved true)] /\
  carried_out (snd (run init tr)) = 1 /\ found tr = 1 /\
  (SFleb SERVO_MIN (of_Z 180) = true /\ SFleb (of_Z 180) SERVO_MAX = true).
Proof.
  intros d tr.
  destruct (X17_face_move_once_and_in_range tr) as (_ & _ & Hrange).
  assert (Hnum : Forall numbers tr).
  { repeat (apply Forall_cons_2; [cbn; try exact I; split; discriminate|]).
    apply Forall_nil_2. }
  destruct (Hrange Hnum) as [Hset _].
  assert (Hout : snd (run init tr) =
    [RunFaceTrack None; Reply 0 Started;
     ServoCmd 0 (SET SERVO_H_CHANNEL (of_Z 180));
     ServoCmd 1 (SET SERVO_V_CHANNEL (of_Z 101));
     Reply 2 (Moved false);
     WriteServoState (of_Z 180) (of_Z 101); Reply 1 (Moved true)])
    by (vm_compute; reflexivity).
  split; [exact Hout|]. split; [vm_compute; reflexivity|].
  split; [vm_compute; reflexivity|].
  apply (Hset 0 SERVO_H_CHANNEL). rewrite Hout.
  apply (list_elem_of_lookup_2 _ 2). reflexivity.
Defined.

End FaceTrackFacts.

(** * Manual aiming: the [/servo], [/servo/status] and [/servo/center] routes *)

Module Manual.
Import JS Num StateFile.
Import Track (command(..), SERVO_H_CHANNEL, SERVO_V_CHANNEL).

Definition SERVO_STEP : number := of_Z 5.

Inductive reply :=
| BadDirection (h v : number)             (* status 400, with the position *)
| Disabled                                (* "Servos disabled (PWM off)" *)
| AtLimit (h v : number)                  (* "H: ... (limit) V: ... (limit)" *)
| Stepped (h newH v newV : number)        (* "H: h -> newH, V: v -> newV" *)
| Centered
| Status (h v : number)
| NodeError.                              (* status 500 *)

Inductive action :=
| ServoCmd (promise : nat) (c : command)
| WriteServoState (h v : number)
| Reply (req : nat) (r : reply)
| LogError.

(** What a request does once its commands are acknowledged. *)
Inductive completion :=
| Written (h v : number) (r : reply)      (* writeServoState(h, v), then the reply *)
| Answered (r : reply).

(** A request suspended at its [await Promise.all]. *)
Record moving := { request : nat; awaiting : list nat; finish : completion }.

Record state := {
  servoFile : number * number;
  servoVOffTimer : bool;
  moves : list moving;
  nextPromise : nat;
  nextReq : nat
}.

(** After the module body ran: [writeServoState(SERVO_CENTER, SERVO_CENTER)]. *)
Definition init : state :=
  {| servoFile := (SERVO_CENTER, SERVO_CENTER); servoVOffTimer := false;
     moves := []; nextPromise := 0; nextReq := 0 |}.

Definition readServoState (st : state) : servo_state :=
  {| horizontal := sanitize (fst (servoFile st));
     vertical := sanitize (snd (servoFile st)) |}.

Definition accept (st : state) : state * nat :=
  ({| servoFile := servoFile st; servoVOffTimer := servoVOffTimer st;
      moves := moves st; nextPromise := nextPromise st; nextReq := S (nextReq st) |},
   nextReq st).

(** [servoCmd(cmd)] seen from its caller: a new promise. *)
Definition servoCmd (c : command) (st : state) : state * nat * list action :=
  let p := nextPromise st in
  ({| servoFile := servoFile st; servoVOffTimer := servoVOffTimer st;
      moves := moves st; nextPromise := S p; nextReq := nextReq st |},
   p, [ServoCmd p c]).

(** [servoSetCmd(SERVO_V_CHANNEL, angle)]: the power-off timer is set. *)
Definition servoSetCmd_vertical (angle : number) (st : state) : state * command :=
  ({| servoFile := servoFile st; servoVOffTimer := true;
      moves := moves st; nextPromise := nextPromise st; nextReq := nextReq st |},
   SET SERVO_V_CHANNEL angle).

Definition suspend (req : nat) (promises : list nat) (c : completion) (st : state)
  : state :=
  {| servoFile := servoFile st; servoVOffTimer := servoVOffTimer st;
     moves := moves st ++ [{| request := req; awaiting := promises; finish := c |}];
     nextPromise := nextPromise st; nextReq := nextReq st |}.

(** The position a direction asks for. *)
Definition aimed (dir : jsstring) (position : servo_state) : number * number :=
  let newH := horizontal position in
  let newV := vertical position in
  let newH := if bool_decide (dir = str "left")
              then Math_min SERVO_MAX (add newH SERVO_STEP) else newH in
  let newH := if bool_decide (dir = str "right")
              then Math_max SERVO_MIN (sub newH SERVO_STEP) else newH in
  let newV := if bool_decide (dir = str "up")
              then Math_min SERVO_MAX (add newV SERVO_STEP) else newV in
  let newV := if bool_decide (dir = str "down")
              then Math_max SERVO_MIN (sub newV SERVO_STEP) else newV in
  (newH, newV).

(** [app.get("/servo", ...)] up to its [await]; [dir] is
    [String(req.query.dir || "").toLowerCase()]. *)
Definition on_servo (dir : jsstring) (st : state) : state * list action :=
  let '(st, req) := accept st in
  let position := readServoState st in
  if negb (bool_decide (dir ∈ [str "up"; str "down"; str "left"; str "right"; str "off"]))
  then (st, [Reply req (BadDirection (horizontal position) (vertical position))])
  else if bool_decide (dir = str "off") then
    let '(st1, p1, out1) := servoCmd (OFF SERVO_H_CHANNEL) st in
    let '(st2, p2, out2) := servoCmd (OFF SERVO_V_CHANNEL) st1 in
    (suspend req [p1; p2] (Answered Disabled) st2, out1 ++ out2)
  else
    let '(newH, newV) := aimed dir position in
    if negb (strict_ne newH (horizontal position)) &&
       negb (strict_ne newV (vertical position))
    then (st, [Reply req (AtLimit newH newV)])
    else
      let '(st1, ps1, out1) :=
        if strict_ne newH (horizontal position) then
          let '(st', p, out) := servoCmd (SET SERVO_H_CHANNEL newH) st in
          (st', [p], out)
        else (st, [], []) in
      let '(st2, ps2, out2) :=
        if strict_ne newV (vertical position) then
          let '(st', c) := servoSetCmd_vertical newV st1 in
          let '(st'', p, out) := servoCmd c st' in
          (st'', [p], out)
        else (st1, [], []) in
      (suspend req (ps1 ++ ps2)
         (Written newH newV
            (Stepped (horizontal position) newH (vertical position) newV)) st2,
       out1 ++ out2).

(** [app.get("/servo/status", ...)] *)
Definition on_status (st : state) : state * list action :=
  let '(st, req) := accept st in
  let position := readServoState st in
  (st, [Reply req (Status (horizontal position) (vertical position))]).

(** [app.get("/servo/center", ...)] up to its [await]. *)
Definition on_center (st : state) : state * list action :=
  let '(st, req) := accept st in
  let '(st1, p1, out1) := servoCmd (SET SERVO_H_CHANNEL SERVO_CENTER) st in
  let '(st1', c) := servoSetCmd_vertical SERVO_CENTER st1 in
  let '(st2, p2, out2) := servoCmd c st1' in
  (suspend req [p1; p2] (Written SERVO_CENTER SERVO_CENTER Centered) st2,
   out1 ++ out2).

Fixpoint fulfil (p : nat) (ms : list moving) : list moving * option moving :=
  match ms with
  | [] => ([], None)
  | m :: ms' =>
      if bool_decide (p ∈ awaiting m) then
        match filter (λ q, q ≠ p) (awaiting m) with
        | [] => (ms', Some m)
        | rest => ({| request := request m; awaiting := rest; finish := finish m |}
                   :: ms', None)
        end
      else let '(ms'', done) := fulfil p ms' in (m :: ms'', done)
  end.

Fixpoint reject (p : nat) (ms : list moving) : list moving * option moving :=
  match ms with
  | [] => ([], None)
  | m :: ms' =>
      if bool_decide (p ∈ awaiting m) then (ms', Some m)
      else let '(ms'', failed) := reject p ms' in (m :: ms'', failed)
  end.

Definition set_moves (ms : list moving) (st : state) : state :=
  {| servoFile := servoFile st; servoVOffTimer := servoVOffTimer st;
     moves := ms; nextPromise := nextPromise st; nextReq := nextReq st |}.

(** The last promise of a request is fulfilled: the rest of its [try]. *)
Definition on_ack (p : nat) (st : state) : state * list action :=
  match fulfil p (moves st) with
  | (ms, Some m) =>
      match finish m with
      | Written h v r =>
          ({| servoFile := (h, v); servoVOffTimer := servoVOffTimer st;
              moves := ms; nextPromise := nextPromise st; nextReq := nextReq st |},
           [WriteServoState h v; Reply (request m) r])
      | Answered r => (set_moves ms st, [Reply (request m) r])
      end
  | (ms, None) => (set_moves ms st, [])
  end.

(** A promise of a request is rejected: its [catch]. *)
Definition on_fail (p : nat) (st : state) : state * list action :=
  match reject p (moves st) with
  | (ms, Some m) => (set_moves ms st, [LogError; Reply (request m) NodeError])
  | (ms, None) => (set_moves ms st, [])
  end.

Inductive event :=
| Servo (dir : jsstring)       (* GET /servo?dir=... *)
| ServoStatus                  (* GET /servo/status *)
| Center                       (* GET /servo/center *)
| Ack (promise : nat)
| Fail (promise : nat).

Definition step (st : state) (e : event) : state * list action :=
  match e with
  | Servo dir => on_servo dir st
  | ServoStatus => on_status st
  | Center => on_center st
  | Ack p => on_ack p st
  | Fail p => on_fail p st
  end.

Fixpoint run (st : state) (tr : list event) : state * list action :=
  match tr with
  | [] => (st, [])
  | e :: tr' =>
      let '(st1, out1) := step st e in
      let '(st2, out2) := run st1 tr' in
      (st2, out1 ++ out2)
  end.

End Manual.

Module ManualFacts.
Import JS Num StateFile Manual.
Import Track (command(..), SERVO_H_CHANNEL, SERVO_V_CHANNEL).
Import PositionFacts (same, same_eq, below_all).

#[local] Open Scope Z_scope.

(** A whole number of degrees inside the range. *)
Definition whole (x : number) : Prop := exists z : Z, 0 <= z <= 270 /\ x = of_Z z.

(** The step of one axis on whole numbers. *)
Definition more (z : Z) : Z := Z.min 270 (z + 5).
Definition less (z : Z) : Z := Z.max 0 (z - 5).

(** The position a direction asks for, on whole numbers. *)
Definition toward (dir : jsstring) (h v : Z) : Z * Z :=
  if bool_decide (dir = str "left") then (more h, v)
  else if bool_decide (dir = str "right") then (less h, v)
  else if bool_decide (dir = str "up") then (h, more v)
  else if bool_decide (dir = str "down") then (h, less v)
  else (h, v).

Definition table_row (n : N) : bool :=
  let z := Z.of_N n in
  let x := of_Z z in
  same (sanitize x) x &&
  same (Math_min SERVO_MAX (add x SERVO_STEP)) (of_Z (more z)) &&
  same (Math_max SERVO_MIN (sub x SERVO_STEP)) (of_Z (less z)) &&
  Bool.eqb (strict_ne (of_Z (more z)) x) (negb (z =? 270)) &&
  Bool.eqb (strict_ne (of_Z (less z)) x) (negb (z =? 0)) &&
  negb (strict_ne x x).

(** The arithmetic of the route on every whole position of the range, by
    going through all of them. *)
Lemma step_table z :
  0 <= z <= 270 ->
  let x := of_Z z in
  sanitize x = x /\
  Math_min SERVO_MAX (add x SERVO_STEP) = of_Z (more z) /\
  Math_max SERVO_MIN (sub x SERVO_STEP) = of_Z (less z) /\
  strict_ne (of_Z (more z)) x = negb (z =? 270) /\
  strict_ne (of_Z (less z)) x = negb (z =? 0) /\
  strict_ne x x = false.
Proof.
  intros Hz x. subst x.
  assert (Hrow : table_row (Z.to_N z) = true).
  { apply (below_all table_row 271); [vm_compute; reflexivity|lia]. }
  unfold table_row in Hrow. rewrite Z2N.id in Hrow by lia.
  repeat (apply andb_true_iff in Hrow as [Hrow ?]).
  split; [apply same_eq; assumption|]. split; [apply same_eq; assumption|].
  split; [apply same_eq; assumption|]. split; [apply Bool.eqb_prop; assumption|].
  split; [apply Bool.eqb_prop; assumption|]. apply negb_true_iff. assumption.
Qed.

Lemma more_range z : 0 <= z <= 270 -> 0 <= more z <= 270.
Proof. unfold more. lia. Qed.

Lemma less_range z : 0 <= z <= 270 -> 0 <= less z <= 270.
Proof. unfold less. lia. Qed.

Lemma toward_range dir h v :
  0 <= h <= 270 -> 0 <= v <= 270 ->
  0 <= fst (toward dir h v) <= 270 /\ 0 <= snd (toward dir h v) <= 270.
Proof.
  intros Hh Hv. pose proof (more_range h Hh). pose proof (less_range h Hh).
  pose proof (more_range v Hv). pose proof (less_range v Hv).
  unfold toward. repeat destruct (bool_decide _); cbn [fst snd]; auto.
Qed.

(** On whole positions the route computes what the whole-number step
    says. *)
Lemma aimed_whole dir h v :
  0 <= h <= 270 -> 0 <= v <= 270 ->
  aimed dir {| horizontal := of_Z h; vertical := of_Z v |} =
    (of_Z (fst (toward dir h v)), of_Z (snd (toward dir h v))).
Proof.
  intros Hh Hv.
  destruct (step_table h Hh) as (_ & Hmh & Hlh & _).
  destruct (step_table v Hv) as (_ & Hmv & Hlv & _).
  unfold aimed, toward. cbn [horizontal vertical].
  destruct (bool_decide (dir = str "left")) eqn:Hl;
    destruct (bool_decide (dir = str "right")) eqn:Hr;
    destruct (bool_decide (dir = str "up")) eqn:Hu;
    destruct (bool_decide (dir = str "down")) eqn:Hd;
    cbn [fst snd]; rewrite ?Hmh, ?Hlh, ?Hmv, ?Hlv; try reflexivity;
    repeat match goal with
    | H : bool_decide (dir = _) = true |- _ => apply bool_decide_eq_true_1 in H
    end;
    match goal with
    | H1 : dir = _, H2 : dir = _ |- _ => rewrite H1 in H2; vm_compute in H2; discriminate
    end.
Qed.

Definition finish_ok (c : completion) : Prop :=
  match c with
  | Written h v _ => whole h /\ whole v
  | Answered _ => True
  end.

Definition manual_inv (st : state) : Prop :=
  whole (fst (servoFile st)) /\ whole (snd (servoFile st)) /\
  Forall (λ m, finish_ok (finish m)) (moves st).

Definition manual_ok (a : action) : Prop :=
  match a with
  | ServoCmd _ (SET _ angle) => whole angle
  | WriteServoState h v => whole h /\ whole v
  | _ => True
  end.

Lemma whole_of h : 0 <= h <= 270 -> whole (of_Z h).
Proof. intros Hh. exists h. split; [exact Hh|reflexivity]. Qed.

Lemma on_servo_ok dir st :
  manual_inv st ->
  manual_inv (fst (on_servo dir st)) /\ Forall manual_ok (snd (on_servo dir st)).
Proof.
  intros ((h & Hh & Eh) & (v & Hv & Ev) & Hm).
  unfold on_servo, accept, readServoState. cbn [servoFile].
  destruct (step_table h Hh) as (Hsh & _ & _ & _ & _ & _).
  destruct (step_table v Hv) as (Hsv & _ & _ & _ & _ & _).
  cbn zeta in Hsh, Hsv. rewrite Eh, Ev, Hsh, Hsv.
  assert (Hinv : forall p n t ms,
             Forall (λ m, finish_ok (finish m)) ms ->
             manual_inv {| servoFile := servoFile st; servoVOffTimer := t;
                           moves := ms; nextPromise := p; nextReq := n |}).
  { intros. split; [exists h; auto|]. split; [exists v; auto|]. assumption. }
  destruct (negb (bool_decide (dir ∈ _))); cbn [fst snd].
  { split; [apply Hinv; exact Hm|repeat constructor]. }
  destruct (bool_decide (dir = str "off")); cbn [fst snd servoCmd suspend moves].
  { split; [|repeat constructor].
    apply Hinv. apply Forall_app_2; [exact Hm|].
    apply Forall_singleton. exact I. }
  rewrite (aimed_whole dir h v Hh Hv).
  destruct (toward_range dir h v Hh Hv) as [Hh' Hv'].
  set (h' := fst (toward dir h v)) in *. set (v' := snd (toward dir h v)) in *.
  clearbody h' v'.
  assert (Hdone : finish_ok (Written (of_Z h') (of_Z v')
                               (Stepped (of_Z h) (of_Z h') (of_Z v) (of_Z v'))))
    by (split; apply whole_of; assumption).
  cbn [horizontal vertical].
  destruct (strict_ne (of_Z h') (of_Z h)); destruct (strict_ne (of_Z v') (of_Z v));
    cbn [negb andb fst snd servoCmd servoSetCmd_vertical suspend moves app
         nextPromise servoFile];
    (split; [apply Hinv;
             first [exact Hm
                   |apply Forall_app_2; [exact Hm|]; apply Forall_singleton; exact Hdone]
            |repeat (apply Forall_cons_2; [first [apply whole_of; assumption|exact I]|]);
             apply Forall_nil_2]).
Qed.

Lemma manual_fulfil_ok p ms :
  Forall (λ m, finish_ok (finish m)) ms ->
  Forall (λ m, finish_ok (finish m)) (fst (fulfil p ms)) /\
  (forall m, snd (fulfil p ms) = Some m -> finish_ok (finish m)).
Proof.
  induction 1 as [|m ms Hm Hms IH]; cbn [fulfil].
  { split; [constructor|discriminate]. }
  destruct (bool_decide (p ∈ awaiting m)).
  - destruct (filter (λ q, q ≠ p) (awaiting m)) as [|q0 rest]; cbn [fst snd].
    + split; [exact Hms|]. intros m' [= <-]. exact Hm.
    + split; [constructor; [exact Hm|exact Hms]|discriminate].
  - destruct (fulfil p ms) as [ms' r]. cbn [fst snd] in *. destruct IH as [I1 I2].
    split; [constructor; assumption|exact I2].
Qed.

Lemma manual_reject_ok p ms :
  Forall (λ m, finish_ok (finish m)) ms ->
  Forall (λ m, finish_ok (finish m)) (fst (reject p ms)).
Proof.
  induction 1 as [|m ms Hm Hms IH]; cbn [reject]; [constructor|].
  destruct (bool_decide (p ∈ awaiting m)); cbn [fst]; [exact Hms|].
  destruct (reject p ms) as [ms' r]. cbn [fst] in *. constructor; assumption.
Qed.

Lemma manual_step st e :
  manual_inv st ->
  manual_inv (fst (step st e)) /\ Forall manual_ok (snd (step st e)).
Proof.
  intros Hinv. destruct e as [dir| | |p|p]; cbn [step].
  - apply on_servo_ok. exact Hinv.
  - destruct Hinv as (Hh & Hv & Hm). unfold on_status, accept. cbn [fst snd].
    split; [split; [exact Hh|split; [exact Hv|exact Hm]]|repeat constructor].
  - destruct Hinv as (Hh & Hv & Hm). unfold on_center, accept. cbn [fst snd].
    assert (Hc : whole SERVO_CENTER) by (exists 135; split; [lia|reflexivity]).
    split.
    + split; [exact Hh|]. split; [exact Hv|]. cbn [moves].
      apply Forall_app_2; [exact Hm|]. apply Forall_singleton. split; exact Hc.
    + repeat (apply Forall_cons_2; [exact Hc|]). apply Forall_nil_2.
  - destruct Hinv as (Hh & Hv & Hm). unfold on_ack.
    destruct (manual_fulfil_ok p (moves st) Hm) as [F1 F2].
    destruct (fulfil p (moves st)) as [ms [m|]]; cbn [fst snd] in *.
    + specialize (F2 m eq_refl). destruct (finish m) as [h v r|r]; cbn [fst snd].
      * destruct F2 as [Wh Wv].
        split; [split; [exact Wh|split; [exact Wv|exact F1]]|].
        apply Forall_cons_2; [split; assumption|]. repeat constructor.
      * split; [split; [exact Hh|split; [exact Hv|exact F1]]|repeat constructor].
    + split; [split; [exact Hh|split; [exact Hv|exact F1]]|constructor].
  - destruct Hinv as (Hh & Hv & Hm). unfold on_fail.
    pose proof (manual_reject_ok p (moves st) Hm) as F1.
    destruct (reject p (moves st)) as [ms [m|]]; cbn [fst snd] in *.
    + split; [split; [exact Hh|split; [exact Hv|exact F1]]|repeat constructor].
    + split; [split; [exact Hh|split; [exact Hv|exact F1]]|constructor].
Qed.

Lemma manual_run tr : forall st,
  manual_inv st ->
  manual_inv (fst (run st tr)) /\ Forall manual_ok (snd (run st tr)).
Proof.
  induction tr as [|e tr IH]; intros st Hinv; cbn [run].
  { split; [exact Hinv|constructor]. }
  destruct (manual_step st e Hinv) as [H1 A1]. destruct (step st e) as [st1 out1].
  cbn [fst snd] in *. destruct (IH st1 H1) as [H2 A2].
  destruct (run st1 tr) as [st2 out2]. cbn [fst snd] in *.
  split; [exact H2|]. apply Forall_app_2; assumption.
Qed.

Lemma manual_inv_init : manual_inv init.
Proof.
  assert (Hc : whole SERVO_CENTER) by (exists 135; split; [lia|reflexivity]).
  split; [exact Hc|]. split; [exact Hc|constructor].
Qed.

(** What one of the four directions does from a whole position. *)
Lemma servo_direction dir st h v :
  servoFile st = (of_Z h, of_Z v) -> 0 <= h <= 270 -> 0 <= v <= 270 ->
  dir ∈ [str "up"; str "down"; str "left"; str "right"] ->
  let h' := fst (toward dir h v) in
  let v' := snd (toward dir h v) in
  snd (step st (Servo dir)) =
    if (h' =? h) && (v' =? v)
    then [Reply (nextReq st) (AtLimit (of_Z h) (of_Z v))]
    else (if h' =? h then []
          else [ServoCmd (nextPromise st) (SET SERVO_H_CHANNEL (of_Z h'))]) ++
         (if v' =? v then []
          else [ServoCmd (nextPromise st) (SET SERVO_V_CHANNEL (of_Z v'))]).
Proof.
  intros Hfile Hh Hv Hdir h' v'.
  destruct (step_table h Hh) as (Hsh & _ & _ & Hmh & Hlh & Hsame_h).
  destruct (step_table v Hv) as (Hsv & _ & _ & Hmv & Hlv & Hsame_v).
  cbn zeta in *.
  assert (Hmore : forall z, 0 <= z <= 270 -> (more z =? z) = (z =? 270)).
  { intros z Hz. unfold more. destruct (Z.eqb_spec z 270); [subst; reflexivity|].
    apply Z.eqb_neq. lia. }
  assert (Hless : forall z, 0 <= z <= 270 -> (less z =? z) = (z =? 0)).
  { intros z Hz. unfold less. destruct (Z.eqb_spec z 0); [subst; reflexivity|].
    apply Z.eqb_neq. lia. }
  cbn [step]. unfold on_servo, accept, readServoState. cbn [servoFile].
  rewrite Hfile. cbn [fst snd]. rewrite Hsh, Hsv.
  rewrite (aimed_whole dir h v Hh Hv). fold h' v'. cbn [horizontal vertical].
  assert (Hin : bool_decide
            (dir ∈ [str "up"; str "down"; str "left"; str "right"; str "off"]) = true).
  { apply bool_decide_eq_true_2.
    repeat (apply elem_of_cons in Hdir as [Hdir|Hdir];
            [subst dir; repeat (first [apply list_elem_of_here|apply list_elem_of_further])|]).
    apply elem_of_nil in Hdir. done. }
  rewrite Hin. cbn [negb].
  assert (Hoff : bool_decide (dir = str "off") = false).
  { apply bool_decide_eq_false_2. intros ->.
    repeat (apply elem_of_cons in Hdir as [Hdir|Hdir];
            [vm_compute in Hdir; discriminate|]).
    apply elem_of_nil in Hdir. done. }
  rewrite Hoff.
  assert (Hne_h : strict_ne (of_Z h') (of_Z h) = negb (h' =? h)).
  { subst h'. unfold toward. repeat destruct (bool_decide _); cbn [fst];
      rewrite ?Hmore, ?Hless, ?Z.eqb_refl by assumption; assumption. }
  assert (Hne_v : strict_ne (of_Z v') (of_Z v) = negb (v' =? v)).
  { subst v'. unfold toward. repeat destruct (bool_decide _); cbn [snd];
      rewrite ?Hmore, ?Hless, ?Z.eqb_refl by assumption; assumption. }
  rewrite Hne_h, Hne_v, !negb_involutive.
  assert (Hone : (h' =? h) = true \/ (v' =? v) = true).
  { subst h' v'. unfold toward. repeat destruct (bool_decide _); cbn [fst snd];
      rewrite Z.eqb_refl; auto. }
  destruct (h' =? h) eqn:E1; destruct (v' =? v) eqn:E2; cbn [andb negb fst snd app].
  - apply Z.eqb_eq in E1, E2. rewrite E1, E2. reflexivity.
  - reflexivity.
  - reflexivity.
  - destruct Hone; discriminate.
Qed.

(** X18 — manual aiming moves in whole steps inside the range.  In every
    run of the manual routes from the start, the position file holds two
    whole numbers of degrees between 0 and 270, and so does every angle sent
    and every position written.  From the position [h], [v] reached, a
    request for one of the four directions asks for the position that the
    whole-number step gives (five degrees more or less on one axis, stopped
    at 0 and at 270): at that limit it sends nothing and answers with the
    limit, otherwise it sends one command, for the axis that moves. *)
Theorem X18_manual_steps_stay_whole_and_in_range (history : list event) :
  let st := fst (run init history) in
  let out := snd (run init history) in
  (exists h v, 0 <= h <= 270 /\ 0 <= v <= 270 /\ servoFile st = (of_Z h, of_Z v) /\
     forall dir, dir ∈ [str "up"; str "down"; str "left"; str "right"] ->
       let h' := fst (toward dir h v) in
       let v' := snd (toward dir h v) in
       snd (step st (Servo dir)) =
         if (h' =? h) && (v' =? v)
         then [Reply (nextReq st) (AtLimit (of_Z h) (of_Z v))]
         else (if h' =? h then []
               else [ServoCmd (nextPromise st) (SET SERVO_H_CHANNEL (of_Z h'))]) ++
              (if v' =? v then []
               else [ServoCmd (nextPromise st) (SET SERVO_V_CHANNEL (of_Z v'))])) /\
  (forall p channel angle, ServoCmd p (SET channel angle) ∈ out ->
     exists z, 0 <= z <= 270 /\ angle = of_Z z) /\
  (forall h v, WriteServoState h v ∈ out ->
     (exists z, 0 <= z <= 270 /\ h = of_Z z) /\ (exists z, 0 <= z <= 270 /\ v = of_Z z)).
Proof.
  intros st out.
  destruct (manual_run history init manual_inv_init) as [Hinv Hout].
  fold st in Hinv. fold out in Hout. rewrite Forall_forall in Hout.
  destruct Hinv as ((h & Hh & Eh) & (v & Hv & Ev) & _).
  assert (Hfile : servoFile st = (of_Z h, of_Z v)).
  { destruct (servoFile st) as [a b]. cbn [fst snd] in Eh, Ev. subst. reflexivity. }
  split; [|split].
  - exists h, v. split; [exact Hh|]. split; [exact Hv|]. split; [exact Hfile|].
    intros dir Hdir. exact (servo_direction dir st h v Hfile Hh Hv Hdir).
  - intros p channel angle Hin. exact (Hout _ Hin).
  - intros a b Hin. exact (Hout _ Hin).
Qed.

(** Twenty-eight steps to the left from the centre: the twenty-seventh
    reaches 270 and the twenty-eighth is answered with the limit. *)
Definition steps_left (n : nat) : list event :=
  List.concat (map (λ k, [Servo (str "left"); Ack k]) (seq 0 n)).

Lemma X18_manual_steps_stay_whole_and_in_range_witness :
  servoFile (fst (run init (steps_left 27))) = (of_Z 270, of_Z 135) /\
  snd (step (fst (run init (steps_left 27))) (Servo (str "left"))) =
    [Reply 27 (AtLimit (of_Z 270) (of_Z 135))] /\
  snd (step (fst (run init (steps_left 26))) (Servo (str "left"))) =
    [ServoCmd 26 (SET SERVO_H_CHANNEL (of_Z 270))] /\
  (exists z, 0 <= z <= 270 /\ of_Z 140 = of_Z z).
Proof.
  destruct (X18_manual_steps_stay_whole_and_in_range (steps_left 27))
    as (_ & Hsent & _).
  split; [vm_compute; reflexivity|]. split; [vm_compute; reflexivity|].
  split; [vm_compute; reflexivity|].
  apply (Hsent 0%nat SERVO_H_CHANNEL).
  apply (list_elem_of_lookup_2 _ 0). vm_compute. reflexivity.
Defined.

End ManualFacts.

(** * The relay: [clampInt], [pickMode], [/cicka] and [/cicka/status] *)

Module Relay.
Import JS Num.

#[local] Open Scope Z_scope.

Definition PULSE_MIN_MS : number := of_Z 50.
Definition PULSE_MAX_MS : number := of_Z 5000.
Definition PULSE_DEFAULT_MS : number := of_Z 500.

(** [MODES = new Set(["on", "off", "pulse"])] *)
Definition MODES : list jsstring := [str "on"; str "off"; str "pulse"].

(** [Math.trunc]: the fraction is dropped; a result of zero keeps the sign. *)
Definition Math_trunc (x : number) : number :=
  match x with
  | S754_finite s m e =>
      if 0 <=? e then x
      else binary_normalize prec emax (cond_Zopp s (Z.shiftr (Zpos m) (- e))) 0 s
  | _ => x
  end.

(** [function clampInt(value, min, max, fallback)], with [n = Number(value)]
    as its first argument. *)
Definition clampInt (n min max fallback : number) : number :=
  if negb (isFinite n) then fallback
  else Math_max min (Math_min (Math_trunc n) max).

(** [function pickMode(value)] for a query value that, when present, is a
    string. *)
Definition pickMode (value : option jsstring) : jsstring :=
  let m := default (str "pulse") value in
  if bool_decide (m ∈ MODES) then m else str "pulse".

(** The exit code of the script: [None] when a signal ended it. *)
Definition exit_code : Type := option Z.

Inductive reply :=
| Output (code : exit_code)        (* the text of [textResponse], status 200 *)
| ScriptFailed (code : exit_code)  (* the same text, status 500 *)
| NodeError                        (* status 500 *)
| State (on : bool).               (* { on } *)

Inductive action :=
| RunPython (run : nat) (mode : jsstring) (ms : number)  (* runPython(SCRIPT, [mode, String(ms)]) *)
| WriteRelayState (s : jsstring)
| Reply (req : nat) (r : reply)
| LogError.

(** A [/cicka] request suspended at [await runPython(...)]. *)
Record waiting := { request : nat; script : nat; mode : jsstring }.

Record state := {
  relayFile : jsstring;          (* what RELAY_STATE_FILE holds *)
  runs : list waiting;
  nextRun : nat;
  nextReq : nat
}.

(** [writeRelayState(state)]: the text it writes. *)
Definition writeRelayState (s : jsstring) : jsstring := s ++ [10%N].

(** After the module body ran: [writeRelayState("OFF")]. *)
Definition init : state :=
  {| relayFile := writeRelayState (str "OFF"); runs := []; nextRun := 0; nextReq := 0 |}.

(** [app.get("/cicka", ...)] up to its [await]; [ms] is
    [Number(req.query.ms)]. *)
Definition on_cicka (value : option jsstring) (ms : number) (st : state)
  : state * list action :=
  let req := nextReq st in
  let run := nextRun st in
  let mode := pickMode value in
  let ms := clampInt ms PULSE_MIN_MS PULSE_MAX_MS PULSE_DEFAULT_MS in
  ({| relayFile := relayFile st;
      runs := runs st ++ [{| request := req; script := run; mode := mode |}];
      nextRun := S run; nextReq := S req |},
   [RunPython run mode ms]).

(** The script's [close] event: the promise resolves with its exit code. *)
Definition on_closed (run : nat) (code : exit_code) (st : state)
  : state * list action :=
  match List.find (λ w, Nat.eqb (script w) run) (runs st) with
  | Some w =>
      let s := if bool_decide (mode w = str "on") then str "ON" else str "OFF" in
      ({| relayFile := writeRelayState s;
          runs := filter (λ w, script w ≠ run) (runs st);
          nextRun := nextRun st; nextReq := nextReq st |},
       [WriteRelayState s;
        Reply (request w)
          (if bool_decide (code = Some 0) then Output code else ScriptFailed code)])
  | None => (st, [])
  end.

(** The script's [error] event: the promise rejects. *)
Definition on_spawn_error (run : nat) (st : state) : state * list action :=
  match List.find (λ w, Nat.eqb (script w) run) (runs st) with
  | Some w =>
      ({| relayFile := relayFile st;
          runs := filter (λ w, script w ≠ run) (runs st);
          nextRun := nextRun st; nextReq := nextReq st |},
       [LogError; Reply (request w) NodeError])
  | None => (st, [])
  end.

Section Status.

(** [String.prototype.toUpperCase] of the platform. *)
Variable toUpperCase : jsstring -> jsstring.

(** [app.get("/cicka/status", ...)] *)
Definition on_status (st : state) : state * list action :=
  let raw := trim (relayFile st) in
  ({| relayFile := relayFile st; runs := runs st; nextRun := nextRun st;
      nextReq := S (nextReq st) |},
   [Reply (nextReq st) (State (bool_decide (toUpperCase raw = str "ON")))]).

Inductive event :=
| Cicka (mode : option jsstring) (ms : number)   (* GET /cicka *)
| Closed (run : nat) (code : exit_code)
| SpawnError (run : nat)
| StatusRequest.                                 (* GET /cicka/status *)

Definition step (st : state) (e : event) : state * list action :=
  match e with
  | Cicka value ms => on_cicka value ms st
  | Closed run code => on_closed run code st
  | SpawnError run => on_spawn_error run st
  | StatusRequest => on_status st
  end.

Fixpoint run (st : state) (tr : list event) : state * list action :=
  match tr with
  | [] => (st, [])
  | e :: tr' =>
      let '(st1, out1) := step st e in
      let '(st2, out2) := run st1 tr' in
      (st2, out1 ++ out2)
  end.

End Status.

End Relay.

Module RelayFacts.
Import JS Num NumFacts FiniteFacts Relay.

#[local] Open Scope Z_scope.

(** [Math.max(lo, Math.min(x, hi))], the arguments of [Math.min] the other
    way round, for a finite upper bound that is not zero. *)
Lemma clamp_swapped lo hi x s m e :
  SFltb lo hi = true -> x <> S754_nan -> hi = S754_finite s m e ->
  let r := Math_max lo (Math_min x hi) in
  SFleb lo r = true /\ SFleb r hi = true /\
  (SFltb lo x = true -> SFltb x hi = true -> r = x) /\
  (SFltb x lo = true -> r = lo) /\
  (SFltb hi x = true -> r = hi).
Proof.
  intros Hlh Hx Hhi r. subst r.
  pose proof (clamp_between lo hi x Hlh Hx) as Hc. cbn zeta in Hc.
  pose proof (SFcompare_swap x hi) as Hswap.
  destruct (SFcompare x hi) as [[]|] eqn:Hcmp; cbn [option_map CompOpp] in Hswap.
  - (* the two compare equal *)
    assert (Hmin : Math_min x hi = x).
    { unfold Math_min. rewrite Hcmp. subst hi. reflexivity. }
    rewrite Hmin.
    assert (Hhx : SFleb hi x = true) by (unfold SFleb; rewrite Hswap; reflexivity).
    pose proof (SFltb_SFleb_trans lo hi x Hlh Hhx) as Hlx.
    assert (Hmax : Math_max lo x = x).
    { unfold Math_max. unfold SFltb in Hlx. destruct (SFcompare lo x) as [[]|]; done. }
    rewrite Hmax. split; [apply SFltb_SFleb; exact Hlx|].
    split; [unfold SFleb; rewrite Hcmp; reflexivity|].
    split; [reflexivity|]. split.
    + intros Hxl. pose proof (SFltb_SFleb_trans x lo hi Hxl (SFltb_SFleb _ _ Hlh)) as H.
      unfold SFltb in H. rewrite Hcmp in H. discriminate.
    + intros H. unfold SFltb in H. rewrite Hswap in H. discriminate.
  - assert (Hmin : Math_min x hi = Math_min hi x).
    { unfold Math_min. rewrite Hcmp, Hswap. reflexivity. }
    rewrite Hmin. exact Hc.
  - assert (Hmin : Math_min x hi = Math_min hi x).
    { unfold Math_min. rewrite Hcmp, Hswap. reflexivity. }
    rewrite Hmin. exact Hc.
  - exfalso. subst hi. destruct x; try done; discriminate.
Qed.

Lemma Math_trunc_not_nan x : x <> S754_nan -> Math_trunc x <> S754_nan.
Proof.
  destruct x as [s|s| |s m e]; try done. intros _. cbn [Math_trunc].
  destruct (0 <=? e); [discriminate|apply binary_normalize_not_nan].
Qed.

(** The result of [clampInt] for bounds [min < max], a finite upper bound
    that is not zero and a fallback between the bounds. *)
Lemma clampInt_range n min max fallback s m e :
  SFltb min max = true -> max = S754_finite s m e ->
  SFleb min fallback = true -> SFleb fallback max = true ->
  let r := clampInt n min max fallback in
  SFleb min r = true /\ SFleb r max = true /\
  (isFinite n = false -> r = fallback) /\
  (isFinite n = true ->
   (SFltb min (Math_trunc n) = true -> SFltb (Math_trunc n) max = true ->
    r = Math_trunc n) /\
   (SFltb (Math_trunc n) min = true -> r = min) /\
   (SFltb max (Math_trunc n) = true -> r = max)).
Proof.
  intros Hlt Hmax Hf1 Hf2 r. subst r. unfold clampInt.
  destruct (isFinite n) eqn:Hfin; cbn [negb].
  - assert (Hn : n <> S754_nan) by (intros ->; discriminate).
    destruct (clamp_swapped min max (Math_trunc n) s m e Hlt
                (Math_trunc_not_nan n Hn) Hmax) as (H1 & H2 & H3 & H4 & H5).
    split; [exact H1|]. split; [exact H2|]. split; [discriminate|]. auto.
  - split; [exact Hf1|]. split; [exact Hf2|]. split; [reflexivity|discriminate].
Qed.

Lemma pickMode_known value : pickMode value ∈ MODES.
Proof.
  unfold pickMode. destruct (bool_decide _) eqn:H.
  - apply bool_decide_eq_true_1 in H. exact H.
  - unfold MODES. apply elem_of_cons. right. apply elem_of_cons. right.
    apply list_elem_of_here.
Qed.

Section StatusFacts.

Variable toUpperCase : jsstring -> jsstring.

#[local] Abbreviation step := (Relay.step toUpperCase).
#[local] Abbreviation run := (Relay.run toUpperCase).

(** What a run of the script is given. *)
Definition run_ok (a : action) : Prop :=
  match a with
  | RunPython _ mode ms =>
      mode ∈ MODES /\ SFleb PULSE_MIN_MS ms = true /\ SFleb ms PULSE_MAX_MS = true
  | _ => True
  end.

Lemma relay_step_ok st e : Forall run_ok (snd (step st e)).
Proof.
  destruct e as [value ms|r code|r|]; cbn [Relay.step].
  - unfold on_cicka. cbn [snd]. apply Forall_singleton. split; [apply pickMode_known|].
    destruct (clampInt_range ms PULSE_MIN_MS PULSE_MAX_MS PULSE_DEFAULT_MS
                false 5497558138880000 (-40) eq_refl eq_refl eq_refl eq_refl)
      as (H1 & H2 & _).
    split; assumption.
  - unfold on_closed. destruct (List.find _ _); repeat constructor.
  - unfold on_spawn_error. destruct (List.find _ _); repeat constructor.
  - repeat constructor.
Qed.

Lemma relay_run_ok tr : forall st, Forall run_ok (snd (run st tr)).
Proof.
  induction tr as [|e tr IH]; intros st; cbn [Relay.run]; [constructor|].
  pose proof (relay_step_ok st e) as H1. destruct (step st e) as [st1 out1].
  specialize (IH st1). destruct (run st1 tr) as [st2 out2]. cbn [snd] in *.
  apply Forall_app_2; assumption.
Qed.

(** X19 — the relay script is only run with a known mode and a bounded
    pulse.  In every run of the relay routes, from any state, each run of the
    script gets one of the modes on, off and pulse and a duration between
    [PULSE_MIN_MS] and [PULSE_MAX_MS].  The mode is the query's if it is one
    of the three, and pulse otherwise; the duration is the default when the
    query's [ms] is not a finite number, and else its integer part, raised
    to the minimum or cut to the maximum. *)
Theorem X19_relay_script_arguments_are_bounded (st : state) (tr : list event) :
  (forall r mode ms, RunPython r mode ms ∈ snd (run st tr) ->
     mode ∈ MODES /\ SFleb PULSE_MIN_MS ms = true /\ SFleb ms PULSE_MAX_MS = true) /\
  (forall value n,
     let ms := clampInt n PULSE_MIN_MS PULSE_MAX_MS PULSE_DEFAULT_MS in
     snd (step st (Cicka value n)) = [RunPython (nextRun st) (pickMode value) ms] /\
     (forall m, value = Some m -> m ∈ MODES -> pickMode value = m) /\
     (forall m, value = Some m -> m ∉ MODES -> pickMode value = str "pulse") /\
     (value = None -> pickMode value = str "pulse") /\
     (isFinite n = false -> ms = PULSE_DEFAULT_MS) /\
     (isFinite n = true ->
      (SFltb PULSE_MIN_MS (Math_trunc n) = true ->
       SFltb (Math_trunc n) PULSE_MAX_MS = true -> ms = Math_trunc n) /\
      (SFltb (Math_trunc n) PULSE_MIN_MS = true -> ms = PULSE_MIN_MS) /\
      (SFltb PULSE_MAX_MS (Math_trunc n) = true -> ms = PULSE_MAX_MS))).
Proof.
  split.
  - intros r mode ms Hin. pose proof (relay_run_ok tr st) as Hall.
    rewrite Forall_forall in Hall. exact (Hall _ Hin).
  - intros value n ms. split; [reflexivity|].
    split; [|split; [|split]].
    + intros m -> Hm. unfold pickMode. cbn [default].
      rewrite bool_decide_eq_true_2 by exact Hm. reflexivity.
    + intros m -> Hm. unfold pickMode. cbn [default].
      rewrite bool_decide_eq_false_2 by exact Hm. reflexivity.
    + intros ->. reflexivity.
    + destruct (clampInt_range n PULSE_MIN_MS PULSE_MAX_MS PULSE_DEFAULT_MS
                  false 5497558138880000 (-40) eq_refl eq_refl eq_refl eq_refl)
        as (_ & _ & H3 & H4).
      split; assumption.
Qed.

(** The platform's case mapping leaves these two words alone. *)
Hypothesis upper_ON : toUpperCase (str "ON") = str "ON".
Hypothesis upper_OFF : toUpperCase (str "OFF") = str "OFF".

Lemma status_of_file st s :
  s = str "ON" \/ s = str "OFF" ->
  relayFile st = writeRelayState s ->
  snd (step st StatusRequest) =
    [Reply (nextReq st) (State (bool_decide (s = str "ON")))].
Proof using upper_ON upper_OFF.
  intros Hs Hfile. cbn [Relay.step]. unfold on_status. cbn [snd]. rewrite Hfile.
  destruct Hs as [-> | ->].
  - replace (trim (writeRelayState (str "ON"))) with (str "ON")
      by (vm_compute; reflexivity).
    rewrite upper_ON. reflexivity.
  - replace (trim (writeRelayState (str "OFF"))) with (str "OFF")
      by (vm_compute; reflexivity).
    rewrite upper_OFF. reflexivity.
Qed.

Lemma relay_file_step st e :
  (exists s, (s = str "ON" \/ s = str "OFF") /\ relayFile st = writeRelayState s) ->
  exists s, (s = str "ON" \/ s = str "OFF") /\
            relayFile (fst (step st e)) = writeRelayState s.
Proof.
  intros Hst. destruct e as [value ms|r code|r|]; cbn [Relay.step].
  - exact Hst.
  - unfold on_closed. destruct (List.find _ _) as [w|]; [|exact Hst]. cbn [fst relayFile].
    destruct (bool_decide (mode w = str "on")); eexists; split; try reflexivity; auto.
  - unfold on_spawn_error. destruct (List.find _ _); exact Hst.
  - exact Hst.
Qed.

Lemma relay_file_run tr : forall st,
  (exists s, (s = str "ON" \/ s = str "OFF") /\ relayFile st = writeRelayState s) ->
  exists s, (s = str "ON" \/ s = str "OFF") /\
            relayFile (fst (run st tr)) = writeRelayState s.
Proof.
  induction tr as [|e tr IH]; intros st Hst; cbn [Relay.run]; [exact Hst|].
  pose proof (relay_file_step st e Hst) as H1. destruct (step st e) as [st1 out1].
  specialize (IH st1 H1). destruct (run st1 tr) as [st2 out2]. exact IH.
Qed.

(** Only the end of a script writes the state file. *)
Definition is_closed (e : event) : bool :=
  match e with Closed _ _ => true | _ => false end.

Lemma relay_file_kept_step st e :
  is_closed e = false -> relayFile (fst (step st e)) = relayFile st.
Proof.
  destruct e as [value ms|r code|r|]; [reflexivity|discriminate| |reflexivity].
  intros _. cbn [Relay.step]. unfold on_spawn_error.
  destruct (List.find _ _); reflexivity.
Qed.

Lemma relay_file_kept_run tr : forall st,
  forallb (λ e, negb (is_closed e)) tr = true ->
  relayFile (fst (run st tr)) = relayFile st.
Proof.
  induction tr as [|e tr IH]; intros st Htr; cbn [Relay.run]; [reflexivity|].
  cbn [forallb] in Htr. apply andb_true_iff in Htr as [He Htr].
  apply negb_true_iff in He.
  pose proof (relay_file_kept_step st e He) as H1.
  destruct (step st e) as [st1 out1]. specialize (IH st1 Htr).
  destruct (run st1 tr) as [st2 out2]. cbn [fst] in *. congruence.
Qed.

(** X20 — the relay status follows the last run of the script.  At the
    start, and as long as no script has ended, the status is off.  When the
    script of a waiting [/cicka] request ends, with whatever exit code, the
    state file is written, and from then on, through further requests,
    status requests and scripts that could not be started, until the next
    script ends, the status reported is on exactly if that request's mode
    was on.  In every state the file holds one of the two words the status
    route understands. *)
Theorem X20_relay_status_follows_last_run (history later : list event) :
  forallb (λ e, negb (is_closed e)) later = true ->
  let st := fst (run init history) in
  (let st0 := fst (run init later) in
   snd (step st0 StatusRequest) = [Reply (nextReq st0) (State false)]) /\
  (exists s, (s = str "ON" \/ s = str "OFF") /\ relayFile st = writeRelayState s /\
             snd (step st StatusRequest) =
               [Reply (nextReq st) (State (bool_decide (s = str "ON")))]) /\
  (forall r code w,
     List.find (λ w, Nat.eqb (script w) r) (runs st) = Some w ->
     let on := bool_decide (mode w = str "on") in
     let st' := fst (run (fst (step st (Closed r code))) later) in
     relayFile st' = writeRelayState (if on then str "ON" else str "OFF") /\
     snd (step st' StatusRequest) = [Reply (nextReq st') (State on)]).
Proof using upper_ON upper_OFF.
  intros Hlater st. split; [|split].
  - apply (status_of_file _ (str "OFF") (or_intror eq_refl)).
    rewrite relay_file_kept_run by exact Hlater. reflexivity.
  - assert (Hinit : exists s, (s = str "ON" \/ s = str "OFF") /\
                              relayFile init = writeRelayState s)
      by (exists (str "OFF"); auto).
    destruct (relay_file_run history init Hinit) as (s & Hs & Hfile).
    exists s. split; [exact Hs|]. split; [exact Hfile|].
    exact (status_of_file _ s Hs Hfile).
  - intros r code w Hfind on st'.
    assert (Hfile : relayFile st' = writeRelayState (if on then str "ON" else str "OFF")).
    { subst st'. rewrite relay_file_kept_run by exact Hlater.
      cbn [Relay.step]. unfold on_closed. rewrite Hfind. reflexivity. }
    split; [exact Hfile|]. subst on.
    destruct (bool_decide (mode w = str "on")).
    + exact (status_of_file st' (str "ON") (or_introl eq_refl) Hfile).
    + exact (status_of_file st' (str "OFF") (or_intror eq_refl) Hfile).
Qed.

End StatusFacts.

(** The case mapping on the letters a to z. *)
Definition toUpperCase_ascii (s : jsstring) : jsstring :=
  map (λ c, if (97 <=? c)%N && (c <=? 122)%N then (c - 32)%N else c) s.

(** The relay is switched on; a pulse is asked for and fails to start, and
    the status is asked for in between: it stays on.  A second pulse runs,
    and when its script has ended the status is off. *)
Lemma X20_relay_status_follows_last_run_witness :
  let history := [Cicka (Some (str "pulse")) (of_Z 1500); Cicka (Some (str "on")) (of_Z 200)] in
  let later := [Cicka (Some (str "pulse")) (of_Z 1500); StatusRequest; SpawnError 2;
                Cicka None (of_Z 100)] in
  let st := fst (Relay.run toUpperCase_ascii init history) in
  let st' := fst (Relay.run toUpperCase_ascii
                    (fst (Relay.step toUpperCase_ascii st (Closed 1 None))) later) in
  forallb (λ e, negb (is_closed e)) later = true /\
  snd (Relay.step toUpperCase_ascii st' StatusRequest) = [Reply 5 (State true)] /\
  snd (Relay.step toUpperCase_ascii
         (fst (Relay.step toUpperCase_ascii st' (Closed 3 (Some 0)))) StatusRequest) =
    [Reply 5 (State false)].
Proof.
  intros history later st st'.
  destruct (X20_relay_status_follows_last_run toUpperCase_ascii eq_refl eq_refl
              history later eq_refl)
    as (_ & _ & Hclosed).
  split; [reflexivity|]. split.
  - exact (proj2 (Hclosed 1%nat None {| request := 1; script := 1; mode := str "on" |}
                    eq_refl)).
  - vm_compute. reflexivity.
Defined.

End RelayFacts.

(** * The dance: [/servo/dance] *)

Module Dance.
Import JS Num StateFile.
Import Track (command(..), SERVO_H_CHANNEL, SERVO_V_CHANNEL).

(** The positions and durations of the timeline: [C = 135, L = 165,
    R = 105, U = 160, D = 110] and [Q = 500, E = 250, S = 125]. *)
Definition pC : number := of_Z 135.
Definition pL : number := of_Z 165.
Definition pR : number := of_Z 105.
Definition pU : number := of_Z 160.
Definition pD : number := of_Z 110.
Definition dQ : N := 500.
Definition dE : N := 250.
Definition dS : N := 125.

(** A step: the note, the two positions and the duration of the note. *)
Definition move : Type := jsstring * number * number * N.

(** [const steps = [...]] *)
Definition steps : list move :=
  [(str "E", pL, pC, dE); (str "G", pR, pC, dE); (str "A", pL, pC, dE);
   (str "B", pR, pC, dE); (str "A", pL, pC, dE); (str "G", pR, pC, dE);
   (str "E", pC, pC, dQ); (str "R", pC, pC, dE); (str "D", pC, pU, dE);
   (str "E", pC, pD, dE); (str "G", pC, pU, dE); (str "E", pC, pD, dQ);
   (str "D", pC, pU, dE); (str "C", pC, pD, dQ); (str "R", pC, pC, dE);
   (str "C", pL, pU, dS); (str "D", pR, pD, dS); (str "E", pL, pU, dS);
   (str "G", pR, pD, dS); (str "A", pL, pD, dS); (str "B", pR, pU, dS);
   (str "A", pL, pD, dS); (str "G", pR, pU, dS); (str "F#", pC, pC, dQ);
   (str "E", pC, pC, dQ); (str "E", pL, pC, dS); (str "E", pC, pC, dS);
   (str "G", pR, pC, dS); (str "G", pC, pC, dS); (str "A", pL, pC, dS);
   (str "A", pC, pC, dS); (str "B", pR, pC, dS); (str "B", pC, pC, dS);
   (str "A", pL, pC, dS); (str "A", pC, pC, dS); (str "G", pR, pC, dS);
   (str "G", pC, pC, dS); (str "E", pL, pC, dS); (str "E", pC, pC, dS);
   (str "D", pR, pC, dS); (str "D", pC, pC, dS); (str "C", pL, pU, dE);
   (str "D", pC, pU, dE); (str "E", pR, pU, dE); (str "G", pR, pC, dE);
   (str "A", pR, pD, dE); (str "G", pC, pD, dE); (str "E", pL, pD, dE);
   (str "D", pL, pC, dE); (str "E", pL, pU, dS); (str "G", pR, pD, dS);
   (str "E", pL, pU, dS); (str "G", pR, pD, dS); (str "A", pL, pU, dS);
   (str "B", pR, pD, dS); (str "A", pL, pU, dS); (str "B", pR, pD, dS);
   (str "E", pC, pC, dQ); (str "R", pC, pC, dQ)].

Inductive reply :=
| AlreadyDancing      (* status 409 *)
| Complete            (* "Dance complete!" *)
| NodeError.          (* status 500 *)

Inductive action :=
| WriteServoState (h v : number)
| ServoCmd (promise : nat) (c : command)
| PlayNote (process : nat) (note : jsstring) (ms : N)   (* spawn of beep.py *)
| Reply (req : nat) (r : reply)
| LogError.

(** A dance suspended at the [await Promise.all] of a step: the promises of
    [servoCmd] not fulfilled yet, the note if it still plays, and the steps
    that follow. *)
Record dancer := {
  request : nat;
  awaiting : list nat;
  note : option nat;
  rest : list move
}.

Record state := {
  danceActive : bool;
  dancers : list dancer;
  servoFile : number * number;
  servoVOffTimer : bool;
  nextPromise : nat;
  nextNote : nat;
  nextReq : nat
}.

Definition init : state :=
  {| danceActive := false; dancers := [];
     servoFile := (SERVO_CENTER, SERVO_CENTER); servoVOffTimer := false;
     nextPromise := 0; nextNote := 0; nextReq := 0 |}.

(** [h = Math.max(SERVO_MIN, Math.min(SERVO_MAX, h))] of [moveServo]. *)
Definition limited (x : number) : number := Math_max SERVO_MIN (Math_min SERVO_MAX x).

(** The loop of the dance at the head of a step, or at its end: with steps
    left, [moveServo(h, v)] writes the position and sends both commands, then
    [playNote] starts the note, and the dance waits for all three; with none
    left the reply is sent and, in [finally], the flag is cleared. *)
Definition advance (req : nat) (todo : list move) (others : list dancer) (st : state)
  : state * list action :=
  match todo with
  | [] =>
      ({| danceActive := false; dancers := others;
          servoFile := servoFile st; servoVOffTimer := servoVOffTimer st;
          nextPromise := nextPromise st; nextNote := nextNote st;
          nextReq := nextReq st |},
       [Reply req Complete])
  | (tone, h, v, ms) :: todo' =>
      let h := limited h in
      let v := limited v in
      let p1 := nextPromise st in
      let p2 := S p1 in
      let n := nextNote st in
      ({| danceActive := danceActive st;
          dancers := others ++ [{| request := req; awaiting := [p1; p2];
                                   note := Some n; rest := todo' |}];
          servoFile := (h, v); servoVOffTimer := true;
          nextPromise := S p2; nextNote := S n; nextReq := nextReq st |},
       [WriteServoState h v; ServoCmd p1 (SET SERVO_H_CHANNEL h);
        ServoCmd p2 (SET SERVO_V_CHANNEL v); PlayNote n tone ms])
  end.

(** [app.get("/servo/dance", ...)] up to its first [await]. *)
Definition on_dance (st : state) : state * list action :=
  let req := nextReq st in
  let st := {| danceActive := danceActive st; dancers := dancers st;
               servoFile := servoFile st; servoVOffTimer := servoVOffTimer st;
               nextPromise := nextPromise st; nextNote := nextNote st;
               nextReq := S req |} in
  if danceActive st then (st, [Reply req AlreadyDancing])
  else
    advance req steps (dancers st)
      {| danceActive := true; dancers := dancers st;
         servoFile := servoFile st; servoVOffTimer := servoVOffTimer st;
         nextPromise := nextPromise st; nextNote := nextNote st;
         nextReq := nextReq st |}.

(** The dance whose step waits for the promise [p], and the others. *)
Fixpoint take (waits : dancer -> bool) (ds : list dancer)
  : option (dancer * list dancer) :=
  match ds with
  | [] => None
  | d :: ds' =>
      if waits d then Some (d, ds')
      else match take waits ds' with
           | Some (found, others) => Some (found, d :: others)
           | None => None
           end
  end.

(** What is left of a step goes on: once both promises are fulfilled and
    the note has ended, the loop advances. *)
Definition settle (d : dancer) (others : list dancer) (st : state)
  : state * list action :=
  match awaiting d, note d with
  | [], None => advance (request d) (rest d) others st
  | _, _ =>
      ({| danceActive := danceActive st; dancers := others ++ [d];
          servoFile := servoFile st; servoVOffTimer := servoVOffTimer st;
          nextPromise := nextPromise st; nextNote := nextNote st;
          nextReq := nextReq st |}, [])
  end.

Definition on_ack (p : nat) (st : state) : state * list action :=
  match take (λ d, bool_decide (p ∈ awaiting d)) (dancers st) with
  | Some (d, others) =>
      settle {| request := request d; awaiting := filter (λ q, q ≠ p) (awaiting d);
                note := note d; rest := rest d |} others st
  | None => (st, [])
  end.

(** The note's process exits, or could not be started. *)
Definition on_note_end (n : nat) (st : state) : state * list action :=
  match take (λ d, bool_decide (note d = Some n)) (dancers st) with
  | Some (d, others) =>
      settle {| request := request d; awaiting := awaiting d; note := None;
                rest := rest d |} others st
  | None => (st, [])
  end.

(** A promise of [servoCmd] is rejected: the [catch] and the [finally]. *)
Definition on_fail (p : nat) (st : state) : state * list action :=
  match take (λ d, bool_decide (p ∈ awaiting d)) (dancers st) with
  | Some (d, others) =>
      ({| danceActive := false; dancers := others;
          servoFile := servoFile st; servoVOffTimer := servoVOffTimer st;
          nextPromise := nextPromise st; nextNote := nextNote st;
          nextReq := nextReq st |},
       [LogError; Reply (request d) NodeError])
  | None => (st, [])
  end.

Inductive event :=
| DanceRequest                 (* GET /servo/dance *)
| Ack (promise : nat)
| Fail (promise : nat)
| NoteEnd (process : nat).

Definition step (st : state) (e : event) : state * list action :=
  match e with
  | DanceRequest => on_dance st
  | Ack p => on_ack p st
  | Fail p => on_fail p st
  | NoteEnd n => on_note_end n st
  end.

Fixpoint run (st : state) (tr : list event) : state * list action :=
  match tr with
  | [] => (st, [])
  | e :: tr' =>
      let '(st1, out1) := step st e in
      let '(st2, out2) := run st1 tr' in
      (st2, out1 ++ out2)
  end.

End Dance.

Module DanceFacts.
Import JS Num StateFile NumFacts Dance.
Import Track (command(..), SERVO_H_CHANNEL, SERVO_V_CHANNEL).
Import RangeFacts (position_ok).

(** The position the dance holds during a step. *)
Definition pose (s : move) : number * number :=
  let '(_, h, v, _) := s in (limited h, limited v).







(** What a step of the dance tells the client, at its end. *)
Definition ended (out : list action) : Prop :=
  exists req r, Reply req r ∈ out /\ (r = Complete \/ r = NodeError).










End DanceFacts.

(** * The frame a new viewer is greeted with *)

Module GreetFacts.
Import Mux MuxFacts.

(** The latest frame, if there is one, is a whole frame. *)
Definition latest_whole (st : state) : Prop :=
  forall frame, latestFrame st = Some frame -> delimited frame = true.

Lemma latest_whole_step st e : latest_whole st -> latest_whole (fst (step st e)).
Proof.
  intros Hst. destruct e as [chunk| |c|c|]; cbn [step].
  - unfold broadcastFrame. intros frame. rewrite scan_latestFrame.
    pose proof (scan_delimited (grow chunk st)) as Hall.
    destruct (last (emitted (snd (scan (grow chunk st))))) as [f|] eqn:Hlast;
      cbn [from_option].
    + intros [= <-]. rewrite Forall_forall in Hall. apply Hall.
      apply last_Some in Hlast as [front ->]. apply elem_of_app. right.
      apply list_elem_of_here.
    + exact (Hst frame).
  - assert (Hsame : latestFrame (fst (attach st)) = latestFrame st).
    { unfold attach. destruct (latestFrame st) as [f|] eqn:Hf; cbn; rewrite ?Hf;
        reflexivity. }
    intros frame. rewrite Hsame. apply Hst.
  - unfold drained. destruct (heap st !! c) as [[b [|n]]|]; exact Hst.
  - exact Hst.
  - intros frame. discriminate.
Qed.

Lemma latest_whole_run tr : forall st, latest_whole st -> latest_whole (fst (run st tr)).
Proof.
  induction tr as [|e tr IH]; intros st Hst; cbn [run]; [exact Hst|].
  pose proof (latest_whole_step st e Hst) as H1. destruct (step st e) as [st1 out1].
  specialize (IH st1 H1). destruct (run st1 tr) as [st2 out2]. exact IH.
Qed.

(** X22 — a new viewer is greeted with the latest whole frame.  In every
    state the multiplexer reaches, the latest frame, if there is one, runs
    from a start marker through an end marker.  A viewer that attaches is
    registered and, if there is a latest frame, is sent it at once as one
    header, body and trailer, and is busy until the trailer is flushed;
    nobody else is written to.  Without a latest frame nothing is
    written. *)
Theorem X22_new_viewer_gets_latest_frame (history : list event) :
  let st := fst (run init history) in
  let c := nextRes st in
  let joined := step st Attach in
  c ∈ cameraClients (fst joined) /\
  match latestFrame st with
  | Some frame =>
      delimited frame = true /\
      snd joined = [Write c (Header (length frame)); Write c (Body frame);
                    Write c Trailer] /\
      heap (fst joined) !! c = Some {| busy := true; unflushed := 1 |}
  | None =>
      snd joined = [] /\
      heap (fst joined) !! c = Some {| busy := false; unflushed := 0 |}
  end.
Proof.
  intros st c joined.
  assert (Hinit : latest_whole init) by (intros frame; discriminate).
  pose proof (latest_whole_run history init Hinit) as Hw. fold st in Hw.
  subst joined. cbn [step]. unfold attach. fold c. split.
  - destruct (latestFrame st); cbn [fst send set_viewer cameraClients];
      apply elem_of_app; right; apply list_elem_of_here.
  - destruct (latestFrame st) as [frame|] eqn:Hf; cbn [fst snd send set_viewer heap].
    + split; [apply Hw; exact Hf|]. split; [reflexivity|].
      rewrite lookup_insert_eq. reflexivity.
    + split; [reflexivity|]. rewrite lookup_insert_eq. reflexivity.
Qed.

End GreetFacts.
